(** * PL-SLAM (Plücker variant): the map handler, [src/mapHandler.cpp]

    A shallow embedding of the parts of [MapHandler] that own the map
    (keyframes, point and line landmarks, the covisibility matrix
    [full_graph]), of the control skeleton of the hand-written
    Levenberg-Marquardt local bundle adjustment, and of the loop-closure
    driver with its landmark fusion, followed by the properties proved about
    them.

    Conventions.
    - A C++ [int] is a [Z]; counters stay far from the 32-bit range, so
      wrap-around is not modelled.
    - A [double] is a [dbl]: an exact rational, one of the two infinities, or
      NaN. Comparisons and division by zero follow IEEE-754 (a comparison
      with NaN is false, [x / 0] is an infinity or NaN); rounding and the sign
      of zero are outside the model.
    - [std::vector<T*>] is a [list (option T)]: [None] is the null pointer.
      Reading a vector out of range, dereferencing a null pointer and
      [std::map::at] on a missing key have no defined result in the source
      (or throw); the operations below return [None] there.
    - Eigen, OpenCV, g2o and the classes declared outside [mapHandler.cpp]
      are collaborators: what the code needs from them is collected in the
      class [Collaborators]. *)

From Stdlib Require Import ZArith QArith Qabs Lia.
From stdpp Require Import base option list gmap.

Open Scope Z_scope.

(** ** Doubles *)

Module Dbl.

Inductive dbl : Type :=
| Fin (q : Q)
| PInf
| NInf
| NaN.

Definition zero : dbl := Fin 0%Q.
Definition of_Z (z : Z) : dbl := Fin (inject_Z z).

Definition Qltb (x y : Q) : bool := negb (Qle_bool y x).

(** [a < b] *)
Definition lt (a b : dbl) : bool :=
  match a, b with
  | NaN, _ | _, NaN => false
  | Fin x, Fin y => Qltb x y
  | Fin _, PInf => true
  | Fin _, NInf => false
  | PInf, _ => false
  | NInf, NInf => false
  | NInf, _ => true
  end.

(** [a > b] *)
Definition gt (a b : dbl) : bool := lt b a.

(** [a <= b] *)
Definition le (a b : dbl) : bool :=
  match a, b with
  | NaN, _ | _, NaN => false
  | Fin x, Fin y => Qle_bool x y
  | NInf, _ => true
  | _, PInf => true
  | _, _ => false
  end.

Definition neg (a : dbl) : dbl :=
  match a with
  | Fin x => Fin (- x)%Q
  | PInf => NInf
  | NInf => PInf
  | NaN => NaN
  end.

Definition abs (a : dbl) : dbl :=
  match a with
  | Fin x => Fin (Qabs x)
  | PInf | NInf => PInf
  | NaN => NaN
  end.

Definition add (a b : dbl) : dbl :=
  match a, b with
  | NaN, _ | _, NaN => NaN
  | Fin x, Fin y => Fin (x + y)%Q
  | PInf, NInf | NInf, PInf => NaN
  | PInf, _ | _, PInf => PInf
  | NInf, _ | _, NInf => NInf
  end.

Definition sub (a b : dbl) : dbl := add a (neg b).

(** An infinity scaled by a finite factor of the given sign. *)
Definition scale_inf (i : dbl) (x : Q) : dbl :=
  match (x ?= 0)%Q with
  | Eq => NaN
  | Gt => i
  | Lt => neg i
  end.

Definition mul (a b : dbl) : dbl :=
  match a, b with
  | NaN, _ | _, NaN => NaN
  | Fin x, Fin y => Fin (x * y)%Q
  | Fin x, i => scale_inf i x
  | i, Fin y => scale_inf i y
  | PInf, PInf | NInf, NInf => PInf
  | PInf, NInf | NInf, PInf => NInf
  end.

(** [a / b]; a zero divisor is the positive zero. *)
Definition div (a b : dbl) : dbl :=
  match a, b with
  | NaN, _ | _, NaN => NaN
  | Fin x, Fin y =>
      if Qeq_bool y 0 then
        match (x ?= 0)%Q with
        | Eq => NaN
        | Gt => PInf
        | Lt => NInf
        end
      else Fin (x / y)%Q
  | Fin _, _ => Fin 0%Q
  | i, Fin y => if Qltb y 0 then neg i else i
  | _, _ => NaN
  end.

End Dbl.

Abbreviation dbl := Dbl.dbl.

(** Eigen vectors and matrices of doubles. *)
Definition Vector := list dbl.
Definition Matrix := list (list dbl).
(** A row of a [cv::Mat] descriptor matrix. *)
Definition Descriptor := list Z.

(** [v[i]] for a C++ [int] index. *)
Definition at_ {A} (l : list A) (i : Z) : option A :=
  if decide (0 ≤ i) then l !! Z.to_nat i else None.

(** [v[i] = x], for an index known to be in range. *)
Definition set_at {A} (l : list A) (i : Z) (x : A) : list A :=
  <[Z.to_nat i := x]> l.

Definition vadd (a b : Vector) : Vector := zip_with Dbl.add a b.
Definition vsub (a b : Vector) : Vector := zip_with Dbl.sub a b.

(** [X.block(i,0,n,1)] and its assignment. *)
Definition block (X : Vector) (i n : nat) : Vector := take n (drop i X).
Definition set_block (X : Vector) (i : nat) (b : Vector) : Vector :=
  take i X ++ b ++ drop (i + length b) X.

(** ** Configuration

    [SlamConfig] and [Config] are declared outside [mapHandler.cpp]; their
    values are parameters of the model. *)

Record SlamConfig : Type := {
  lcRes : dbl;
  lcUnc : dbl;
  lcInl : dbl;
  lcTrs : dbl;
  lcRot : dbl;
  maxKFEpipL : dbl;
  lambdaLbaLM : dbl;
  lambdaLbaK : dbl;
  maxItersLba : Z;
  minLMObs : Z;
  minErrorChange : dbl;
  minError : dbl
}.

Definition Vector3i : Type := Z * Z * Z.
Definition Vector4i : Type := Z * Z * Z * Z.

(** [Vector6i]: one observation of a local landmark, as the local bundle
    adjustment lists it. *)
Record Vector6i : Type := {
  lm_idx_map : Z;   (* (0) LM idx *)
  lm_idx_loc : Z;   (* (1) LM local idx *)
  lm_idx_obs : Z;   (* (2) LM obs idx *)
  kf_idx_map : Z;   (* (3) KF idx *)
  kf_idx_loc : Z;   (* (4) KF local idx (-1 if not local) *)
  obs_inlier : Z    (* (5) 1 if the observation is an inlier *)
}.

(** ** Data model *)

Module PointFeature.
Record t : Type := {
  idx : Z;
  P : Vector;
  pl : Vector;
  pl_obs : Vector;
  inlier : bool
}.
Definition set_idx (v : Z) (f : t) : t :=
  {| idx := v; P := P f; pl := pl f; pl_obs := pl_obs f; inlier := inlier f |}.
End PointFeature.

Module LineFeature.
Record t : Type := {
  idx : Z;
  sP : Vector;
  eP : Vector;
  le : Vector;
  spl : Vector;
  epl : Vector;
  spl_obs : Vector;
  epl_obs : Vector;
  inlier : bool
}.
Definition set_idx (v : Z) (f : t) : t :=
  {| idx := v; sP := sP f; eP := eP f; le := le f; spl := spl f; epl := epl f;
     spl_obs := spl_obs f; epl_obs := epl_obs f; inlier := inlier f |}.
End LineFeature.

Module StereoFrame.
Record t : Type := {
  stereo_pt : list (option PointFeature.t);
  stereo_ls : list (option LineFeature.t);
  pdesc_l : list Descriptor;
  ldesc_l : list Descriptor
}.
Definition set_stereo_pt (v : list (option PointFeature.t)) (f : t) : t :=
  {| stereo_pt := v; stereo_ls := stereo_ls f;
     pdesc_l := pdesc_l f; ldesc_l := ldesc_l f |}.
Definition set_stereo_ls (v : list (option LineFeature.t)) (f : t) : t :=
  {| stereo_pt := stereo_pt f; stereo_ls := v;
     pdesc_l := pdesc_l f; ldesc_l := ldesc_l f |}.
End StereoFrame.

Module KeyFrame.
Record t : Type := {
  kf_idx : Z;
  T_kf_w : Matrix;
  x_kf_w : Vector;
  local : bool;
  stereo_frame : StereoFrame.t
}.
Definition set_stereo_frame (v : StereoFrame.t) (k : t) : t :=
  {| kf_idx := kf_idx k; T_kf_w := T_kf_w k; x_kf_w := x_kf_w k;
     local := local k; stereo_frame := v |}.
Definition set_T_kf_w (v : Matrix) (k : t) : t :=
  {| kf_idx := kf_idx k; T_kf_w := v; x_kf_w := x_kf_w k;
     local := local k; stereo_frame := stereo_frame k |}.
End KeyFrame.

Module MapPoint.
Record t : Type := {
  idx : Z;
  point3D : Vector;
  inlier : bool;
  local : bool;
  desc_list : list Descriptor;
  obs_list : list Vector;
  dir_list : list Vector;
  kf_obs_list : list Z;
  med_desc : Descriptor;
  med_obs_dir : Vector
}.
Definition set_inlier (v : bool) (p : t) : t :=
  {| idx := idx p; point3D := point3D p; inlier := v; local := local p;
     desc_list := desc_list p; obs_list := obs_list p; dir_list := dir_list p;
     kf_obs_list := kf_obs_list p; med_desc := med_desc p;
     med_obs_dir := med_obs_dir p |}.
Definition set_point3D (v : Vector) (p : t) : t :=
  {| idx := idx p; point3D := v; inlier := inlier p; local := local p;
     desc_list := desc_list p; obs_list := obs_list p; dir_list := dir_list p;
     kf_obs_list := kf_obs_list p; med_desc := med_desc p;
     med_obs_dir := med_obs_dir p |}.
Definition set_lists (ds : list Descriptor) (os ds' : list Vector)
    (ks : list Z) (p : t) : t :=
  {| idx := idx p; point3D := point3D p; inlier := inlier p; local := local p;
     desc_list := ds; obs_list := os; dir_list := ds'; kf_obs_list := ks;
     med_desc := med_desc p; med_obs_dir := med_obs_dir p |}.
Definition set_med (d : Descriptor) (v : Vector) (p : t) : t :=
  {| idx := idx p; point3D := point3D p; inlier := inlier p; local := local p;
     desc_list := desc_list p; obs_list := obs_list p; dir_list := dir_list p;
     kf_obs_list := kf_obs_list p; med_desc := d; med_obs_dir := v |}.
End MapPoint.

Module MapLine.
Record t : Type := {
  idx : Z;
  line3D : Vector;
  NDw : Vector;
  orthNDw : Vector;
  inlier : bool;
  local : bool;
  desc_list : list Descriptor;
  obs_list : list Vector;
  pts_list : list Vector;
  dir_list : list Vector;
  kf_obs_list : list Z;
  NDw_obs_list : list Vector;
  med_desc : Descriptor;
  med_obs_dir : Vector
}.
Definition set_inlier (v : bool) (p : t) : t :=
  {| idx := idx p; line3D := line3D p; NDw := NDw p; orthNDw := orthNDw p;
     inlier := v; local := local p;
     desc_list := desc_list p; obs_list := obs_list p; pts_list := pts_list p;
     dir_list := dir_list p; kf_obs_list := kf_obs_list p;
     NDw_obs_list := NDw_obs_list p; med_desc := med_desc p;
     med_obs_dir := med_obs_dir p |}.
Definition set_NDw (v : Vector) (p : t) : t :=
  {| idx := idx p; line3D := line3D p; NDw := v; orthNDw := orthNDw p;
     inlier := inlier p; local := local p;
     desc_list := desc_list p; obs_list := obs_list p; pts_list := pts_list p;
     dir_list := dir_list p; kf_obs_list := kf_obs_list p;
     NDw_obs_list := NDw_obs_list p; med_desc := med_desc p;
     med_obs_dir := med_obs_dir p |}.
Definition set_line3D (v : Vector) (p : t) : t :=
  {| idx := idx p; line3D := v; NDw := NDw p; orthNDw := orthNDw p;
     inlier := inlier p; local := local p;
     desc_list := desc_list p; obs_list := obs_list p; pts_list := pts_list p;
     dir_list := dir_list p; kf_obs_list := kf_obs_list p;
     NDw_obs_list := NDw_obs_list p; med_desc := med_desc p;
     med_obs_dir := med_obs_dir p |}.
Definition set_lists (ds : list Descriptor) (os ps ds' : list Vector)
    (ks : list Z) (ns : list Vector) (p : t) : t :=
  {| idx := idx p; line3D := line3D p; NDw := NDw p; orthNDw := orthNDw p;
     inlier := inlier p; local := local p;
     desc_list := ds; obs_list := os; pts_list := ps; dir_list := ds';
     kf_obs_list := ks; NDw_obs_list := ns;
     med_desc := med_desc p; med_obs_dir := med_obs_dir p |}.
Definition set_med (d : Descriptor) (v : Vector) (p : t) : t :=
  {| idx := idx p; line3D := line3D p; NDw := NDw p; orthNDw := orthNDw p;
     inlier := inlier p; local := local p;
     desc_list := desc_list p; obs_list := obs_list p; pts_list := pts_list p;
     dir_list := dir_list p; kf_obs_list := kf_obs_list p;
     NDw_obs_list := NDw_obs_list p; med_desc := d; med_obs_dir := v |}.
End MapLine.

(** The loop-closure state and the state of the odometry front end. *)
Inductive LCState : Type := LC_IDLE | LC_ACTIVE | LC_READY.
Inductive VOStatus : Type := VO_PROCESSING | VO_INSERTING_KF.

Global Instance LCState_eq_dec : EqDecision LCState.
Proof. solve_decision. Defined.
Global Instance VOStatus_eq_dec : EqDecision VOStatus.
Proof. solve_decision. Defined.

(** The members of [MapHandler] that the modelled functions read or write.
    [lc_idxs] and [lc_poses] duplicate [lc_idx_list] and [lc_pose_list] and are
    never read; they are left out. *)
Record MapHandler : Type := {
  map_keyframes : list (option KeyFrame.t);
  map_points : list (option MapPoint.t);
  map_lines : list (option MapLine.t);
  map_points_kf_idx : gmap Z (list Z);
  map_lines_kf_idx : gmap Z (list Z);
  full_graph : list (list Z);
  max_pt_idx : Z;
  max_ls_idx : Z;
  max_kf_idx : Z;
  lc_idx_list : list Vector3i;
  lc_pose_list : list Vector;
  lc_pt_idxs : list (list Vector4i);
  lc_ls_idxs : list (list Vector4i);
  lc_state : LCState;
  vo_status : VOStatus
}.

Definition set_map_keyframes (v : list (option KeyFrame.t)) (m : MapHandler) : MapHandler :=
  {| map_keyframes := v;
     map_points := map_points m;
     map_lines := map_lines m;
     map_points_kf_idx := map_points_kf_idx m;
     map_lines_kf_idx := map_lines_kf_idx m;
     full_graph := full_graph m;
     max_pt_idx := max_pt_idx m;
     max_ls_idx := max_ls_idx m;
     max_kf_idx := max_kf_idx m;
     lc_idx_list := lc_idx_list m;
     lc_pose_list := lc_pose_list m;
     lc_pt_idxs := lc_pt_idxs m;
     lc_ls_idxs := lc_ls_idxs m;
     lc_state := lc_state m;
     vo_status := vo_status m |}.
Definition set_map_points (v : list (option MapPoint.t)) (m : MapHandler) : MapHandler :=
  {| map_keyframes := map_keyframes m;
     map_points := v;
     map_lines := map_lines m;
     map_points_kf_idx := map_points_kf_idx m;
     map_lines_kf_idx := map_lines_kf_idx m;
     full_graph := full_graph m;
     max_pt_idx := max_pt_idx m;
     max_ls_idx := max_ls_idx m;
     max_kf_idx := max_kf_idx m;
     lc_idx_list := lc_idx_list m;
     lc_pose_list := lc_pose_list m;
     lc_pt_idxs := lc_pt_idxs m;
     lc_ls_idxs := lc_ls_idxs m;
     lc_state := lc_state m;
     vo_status := vo_status m |}.
Definition set_map_lines (v : list (option MapLine.t)) (m : MapHandler) : MapHandler :=
  {| map_keyframes := map_keyframes m;
     map_points := map_points m;
     map_lines := v;
     map_points_kf_idx := map_points_kf_idx m;
     map_lines_kf_idx := map_lines_kf_idx m;
     full_graph := full_graph m;
     max_pt_idx := max_pt_idx m;
     max_ls_idx := max_ls_idx m;
     max_kf_idx := max_kf_idx m;
     lc_idx_list := lc_idx_list m;
     lc_pose_list := lc_pose_list m;
     lc_pt_idxs := lc_pt_idxs m;
     lc_ls_idxs := lc_ls_idxs m;
     lc_state := lc_state m;
     vo_status := vo_status m |}.
Definition set_map_points_kf_idx (v : gmap Z (list Z)) (m : MapHandler) : MapHandler :=
  {| map_keyframes := map_keyframes m;
     map_points := map_points m;
     map_lines := map_lines m;
     map_points_kf_idx := v;
     map_lines_kf_idx := map_lines_kf_idx m;
     full_graph := full_graph m;
     max_pt_idx := max_pt_idx m;
     max_ls_idx := max_ls_idx m;
     max_kf_idx := max_kf_idx m;
     lc_idx_list := lc_idx_list m;
     lc_pose_list := lc_pose_list m;
     lc_pt_idxs := lc_pt_idxs m;
     lc_ls_idxs := lc_ls_idxs m;
     lc_state := lc_state m;
     vo_status := vo_status m |}.
Definition set_map_lines_kf_idx (v : gmap Z (list Z)) (m : MapHandler) : MapHandler :=
  {| map_keyframes := map_keyframes m;
     map_points := map_points m;
     map_lines := map_lines m;
     map_points_kf_idx := map_points_kf_idx m;
     map_lines_kf_idx := v;
     full_graph := full_graph m;
     max_pt_idx := max_pt_idx m;
     max_ls_idx := max_ls_idx m;
     max_kf_idx := max_kf_idx m;
     lc_idx_list := lc_idx_list m;
     lc_pose_list := lc_pose_list m;
     lc_pt_idxs := lc_pt_idxs m;
     lc_ls_idxs := lc_ls_idxs m;
     lc_state := lc_state m;
     vo_status := vo_status m |}.
Definition set_full_graph (v : list (list Z)) (m : MapHandler) : MapHandler :=
  {| map_keyframes := map_keyframes m;
     map_points := map_points m;
     map_lines := map_lines m;
     map_points_kf_idx := map_points_kf_idx m;
     map_lines_kf_idx := map_lines_kf_idx m;
     full_graph := v;
     max_pt_idx := max_pt_idx m;
     max_ls_idx := max_ls_idx m;
     max_kf_idx := max_kf_idx m;
     lc_idx_list := lc_idx_list m;
     lc_pose_list := lc_pose_list m;
     lc_pt_idxs := lc_pt_idxs m;
     lc_ls_idxs := lc_ls_idxs m;
     lc_state := lc_state m;
     vo_status := vo_status m |}.
Definition set_max_pt_idx (v : Z) (m : MapHandler) : MapHandler :=
  {| map_keyframes := map_keyframes m;
     map_points := map_points m;
     map_lines := map_lines m;
     map_points_kf_idx := map_points_kf_idx m;
     map_lines_kf_idx := map_lines_kf_idx m;
     full_graph := full_graph m;
     max_pt_idx := v;
     max_ls_idx := max_ls_idx m;
     max_kf_idx := max_kf_idx m;
     lc_idx_list := lc_idx_list m;
     lc_pose_list := lc_pose_list m;
     lc_pt_idxs := lc_pt_idxs m;
     lc_ls_idxs := lc_ls_idxs m;
     lc_state := lc_state m;
     vo_status := vo_status m |}.
Definition set_max_ls_idx (v : Z) (m : MapHandler) : MapHandler :=
  {| map_keyframes := map_keyframes m;
     map_points := map_points m;
     map_lines := map_lines m;
     map_points_kf_idx := map_points_kf_idx m;
     map_lines_kf_idx := map_lines_kf_idx m;
     full_graph := full_graph m;
     max_pt_idx := max_pt_idx m;
     max_ls_idx := v;
     max_kf_idx := max_kf_idx m;
     lc_idx_list := lc_idx_list m;
     lc_pose_list := lc_pose_list m;
     lc_pt_idxs := lc_pt_idxs m;
     lc_ls_idxs := lc_ls_idxs m;
     lc_state := lc_state m;
     vo_status := vo_status m |}.
Definition set_lc_idx_list (v : list Vector3i) (m : MapHandler) : MapHandler :=
  {| map_keyframes := map_keyframes m;
     map_points := map_points m;
     map_lines := map_lines m;
     map_points_kf_idx := map_points_kf_idx m;
     map_lines_kf_idx := map_lines_kf_idx m;
     full_graph := full_graph m;
     max_pt_idx := max_pt_idx m;
     max_ls_idx := max_ls_idx m;
     max_kf_idx := max_kf_idx m;
     lc_idx_list := v;
     lc_pose_list := lc_pose_list m;
     lc_pt_idxs := lc_pt_idxs m;
     lc_ls_idxs := lc_ls_idxs m;
     lc_state := lc_state m;
     vo_status := vo_status m |}.
Definition set_lc_pose_list (v : list Vector) (m : MapHandler) : MapHandler :=
  {| map_keyframes := map_keyframes m;
     map_points := map_points m;
     map_lines := map_lines m;
     map_points_kf_idx := map_points_kf_idx m;
     map_lines_kf_idx := map_lines_kf_idx m;
     full_graph := full_graph m;
     max_pt_idx := max_pt_idx m;
     max_ls_idx := max_ls_idx m;
     max_kf_idx := max_kf_idx m;
     lc_idx_list := lc_idx_list m;
     lc_pose_list := v;
     lc_pt_idxs := lc_pt_idxs m;
     lc_ls_idxs := lc_ls_idxs m;
     lc_state := lc_state m;
     vo_status := vo_status m |}.
Definition set_lc_pt_idxs (v : list (list Vector4i)) (m : MapHandler) : MapHandler :=
  {| map_keyframes := map_keyframes m;
     map_points := map_points m;
     map_lines := map_lines m;
     map_points_kf_idx := map_points_kf_idx m;
     map_lines_kf_idx := map_lines_kf_idx m;
     full_graph := full_graph m;
     max_pt_idx := max_pt_idx m;
     max_ls_idx := max_ls_idx m;
     max_kf_idx := max_kf_idx m;
     lc_idx_list := lc_idx_list m;
     lc_pose_list := lc_pose_list m;
     lc_pt_idxs := v;
     lc_ls_idxs := lc_ls_idxs m;
     lc_state := lc_state m;
     vo_status := vo_status m |}.
Definition set_lc_ls_idxs (v : list (list Vector4i)) (m : MapHandler) : MapHandler :=
  {| map_keyframes := map_keyframes m;
     map_points := map_points m;
     map_lines := map_lines m;
     map_points_kf_idx := map_points_kf_idx m;
     map_lines_kf_idx := map_lines_kf_idx m;
     full_graph := full_graph m;
     max_pt_idx := max_pt_idx m;
     max_ls_idx := max_ls_idx m;
     max_kf_idx := max_kf_idx m;
     lc_idx_list := lc_idx_list m;
     lc_pose_list := lc_pose_list m;
     lc_pt_idxs := lc_pt_idxs m;
     lc_ls_idxs := v;
     lc_state := lc_state m;
     vo_status := vo_status m |}.
Definition set_lc_state (v : LCState) (m : MapHandler) : MapHandler :=
  {| map_keyframes := map_keyframes m;
     map_points := map_points m;
     map_lines := map_lines m;
     map_points_kf_idx := map_points_kf_idx m;
     map_lines_kf_idx := map_lines_kf_idx m;
     full_graph := full_graph m;
     max_pt_idx := max_pt_idx m;
     max_ls_idx := max_ls_idx m;
     max_kf_idx := max_kf_idx m;
     lc_idx_list := lc_idx_list m;
     lc_pose_list := lc_pose_list m;
     lc_pt_idxs := lc_pt_idxs m;
     lc_ls_idxs := lc_ls_idxs m;
     lc_state := v;
     vo_status := vo_status m |}.


(** ** Collaborators

    Eigen arithmetic, the camera model and the helpers of [MapPoint] and
    [MapLine] that live outside [mapHandler.cpp]. *)

Class Collaborators : Type := {
  (** [v / v.norm()], [v.normalized()] *)
  unit_dir : Vector -> Vector;
  (** [v.norm()] *)
  norm : Vector -> dbl;
  (** [T.block(0,0,3,3) * v + T.col(3).head(3)] *)
  se3_apply : Matrix -> Vector -> Vector;
  expmap_se3 : Vector -> Matrix;
  logmap_se3 : Matrix -> Vector;
  inverse_se3 : Matrix -> Matrix;
  mat_mul : Matrix -> Matrix -> Matrix;
  (** [cam->projection] *)
  projection : Vector -> Vector;
  (** what [updateAverageDescDir] derives from the observation lists *)
  average_desc : list Descriptor -> Descriptor;
  median_dir : list Vector -> Vector;
  (** the flags of a landmark that was just constructed *)
  init_inlier : bool;
  init_local : bool;
  (** [MapLine::changeOrthToPluker], from orthonormal to Plücker
      coordinates, and the update of orthonormal coordinates by a step *)
  changeOrthToPluker : Vector -> Vector;
  updateOrthCoord : Vector -> Vector -> Vector
}.

(** ** Small control helpers *)

(** A [for] loop over a container whose body may fail. *)
Fixpoint for_each {A S : Type} (body : A -> S -> option S) (l : list A)
    (s : S) : option S :=
  match l with
  | [] => Some s
  | x :: l' => s' ← body x s; for_each body l' s'
  end.

(** Dereference of [v[i]] where [v] holds pointers: out of range and null
    both fail. *)
Definition deref {A} (l : list (option A)) (i : Z) : option A :=
  mjoin (at_ l i).

(** [v.erase(v.begin() + i)] *)
Definition erase_at {A} (i : Z) (l : list A) : option (list A) :=
  _ ← at_ l i; Some (delete (Z.to_nat i) l).

(** Scan a [vector<int>] for the first entry equal to [x] and erase it
    ([erase(begin() + iter); break]). *)
Fixpoint erase_first (x : Z) (l : list Z) : list Z :=
  match l with
  | [] => []
  | y :: l' => if decide (y = x) then l' else y :: erase_first x l'
  end.

(** ** The covisibility matrix [full_graph] *)

Definition graph_get (g : list (list Z)) (i j : Z) : option Z :=
  row ← at_ g i; at_ row j.

(** [full_graph[i][j] += d] *)
Definition graph_add (d i j : Z) (g : list (list Z)) : option (list (list Z)) :=
  row ← at_ g i;
  v ← at_ row j;
  Some (set_at g i (set_at row j (v + d))).

(** [full_graph[a][b] += d; full_graph[b][a] += d;] *)
Definition graph_pair (d a b : Z) (g : list (list Z)) : option (list (list Z)) :=
  g1 ← graph_add d a b g; graph_add d b a g1.

Definition symmetric (g : list (list Z)) : Prop :=
  ∀ i j : Z, graph_get g i j = graph_get g j i.

(** A square [n]×[n] matrix. *)
Definition square (n : nat) (g : list (list Z)) : Prop :=
  length g = n ∧ Forall (λ row, length row = n) g.

(** Keyframe indices that the [n]×[n] matrix covers. *)
Definition in_range (n : nat) (ks : list Z) : Prop :=
  Forall (λ k, 0 ≤ k < Z.of_nat n) ks.

(** A cell after [d] was added to it under the condition [c]. *)
Definition bump (d : Z) (c : bool) (o : option Z) : option Z :=
  if c then (λ v, v + d) <$> o else o.

(** The number of times the keyframe [x] occurs in a list of keyframes. *)
Definition occ (x : Z) (ks : list Z) : Z :=
  Z.of_nat (length (filter (λ k, k = x) ks)).

(** A cell after [n] was added to it. *)
Definition raised (n : Z) (o : option Z) : option Z := (λ v, v + n) <$> o.

(** [full_graph] after [initialize]. *)
Definition initial_full_graph : list (list Z) := [[0]].

Definition in_graph (m : MapHandler) (f : list (list Z) -> option (list (list Z)))
    : option MapHandler :=
  g ← f (full_graph m); Some (set_full_graph g m).

(** The matrix of a map handler is symmetric. *)
Definition sym (m : MapHandler) : Prop := symmetric (full_graph m).

(** ** Landmarks *)

Section Landmarks.
Context `{C : Collaborators}.

(** Modelled from the spec: [MapPoint::updateAverageDescDir] is defined
    outside [mapHandler.cpp]. The spec (4.6): "update the representative
    descriptor/direction", which are "derived" from the observation lists. *)
Definition MapPoint_updateAverageDescDir (p : MapPoint.t) : MapPoint.t :=
  MapPoint.set_med (average_desc (MapPoint.desc_list p))
                   (median_dir (MapPoint.dir_list p)) p.

(** Modelled from the spec: [MapPoint::addMapPointObservation] is defined
    outside [mapHandler.cpp]. The spec (4.2): "appends an observation", one
    entry in each of the parallel lists. *)
Definition addMapPointObservation (desc : Descriptor) (kf_obs : Z)
    (obs dir : Vector) (p : MapPoint.t) : MapPoint.t :=
  MapPoint_updateAverageDescDir
    (MapPoint.set_lists (MapPoint.desc_list p ++ [desc])
                        (MapPoint.obs_list p ++ [obs])
                        (MapPoint.dir_list p ++ [dir])
                        (MapPoint.kf_obs_list p ++ [kf_obs]) p).

(** Modelled from the spec: the constructor of [MapPoint] is defined outside
    [mapHandler.cpp]. The spec (4.2): a new landmark is created "anchored at
    the previous keyframe with one initial observation". *)
Definition new_MapPoint (idx : Z) (P3d : Vector) (desc : Descriptor)
    (kf_obs : Z) (obs dir : Vector) : MapPoint.t :=
  {| MapPoint.idx := idx; MapPoint.point3D := P3d;
     MapPoint.inlier := init_inlier; MapPoint.local := init_local;
     MapPoint.desc_list := [desc]; MapPoint.obs_list := [obs];
     MapPoint.dir_list := [dir]; MapPoint.kf_obs_list := [kf_obs];
     MapPoint.med_desc := desc; MapPoint.med_obs_dir := dir |}.

(** Modelled from the spec: [MapLine::updateAverageDescDir] is defined
    outside [mapHandler.cpp]; as for points. *)
Definition MapLine_updateAverageDescDir (l : MapLine.t) : MapLine.t :=
  MapLine.set_med (average_desc (MapLine.desc_list l))
                  (median_dir (MapLine.dir_list l)) l.

(** Modelled from the spec: [MapLine::addMapLineObservation] with five
    arguments is defined outside [mapHandler.cpp]. The spec (3): a line has
    "the same parallel per-observation lists as points (descriptor, 2D/4D
    observation, direction, owning keyframe)"; an observation appends one
    entry to each. *)
Definition addMapLineObservation (desc : Descriptor) (kf_obs : Z)
    (obs dir pts : Vector) (l : MapLine.t) : MapLine.t :=
  MapLine_updateAverageDescDir
    (MapLine.set_lists (MapLine.desc_list l ++ [desc])
                       (MapLine.obs_list l ++ [obs])
                       (MapLine.pts_list l ++ [pts])
                       (MapLine.dir_list l ++ [dir])
                       (MapLine.kf_obs_list l ++ [kf_obs])
                       (MapLine.NDw_obs_list l) l).

(** Modelled from the spec: the three-argument overload used when
    [USE_LINE_PLUKER] is defined; the observation is the 4D pair of end
    points, kept in [NDw_obs_list]. *)
Definition addMapLineObservation_pluker (desc : Descriptor) (kf_obs : Z)
    (pts : Vector) (l : MapLine.t) : MapLine.t :=
  MapLine_updateAverageDescDir
    (MapLine.set_lists (MapLine.desc_list l ++ [desc])
                       (MapLine.obs_list l)
                       (MapLine.pts_list l)
                       (MapLine.dir_list l)
                       (MapLine.kf_obs_list l ++ [kf_obs])
                       (MapLine.NDw_obs_list l ++ [pts]) l).

(** Modelled from the spec: the constructor of [MapLine] is defined outside
    [mapHandler.cpp]; one initial observation, as for points. *)
Definition new_MapLine (idx : Z) (L3D : Vector) (desc : Descriptor)
    (kf_obs : Z) (obs dir pts : Vector) : MapLine.t :=
  {| MapLine.idx := idx; MapLine.line3D := L3D;
     MapLine.NDw := []; MapLine.orthNDw := [];
     MapLine.inlier := init_inlier; MapLine.local := init_local;
     MapLine.desc_list := [desc]; MapLine.obs_list := [obs];
     MapLine.pts_list := [pts]; MapLine.dir_list := [dir];
     MapLine.kf_obs_list := [kf_obs]; MapLine.NDw_obs_list := [];
     MapLine.med_desc := desc; MapLine.med_obs_dir := dir |}.

(** *** Access paths into the keyframes *)

(** [map_keyframes[kf]->stereo_frame->stereo_pt[ldx]], a pointer. *)
Definition stereo_pt_at (kf ldx : Z) (m : MapHandler)
    : option (option PointFeature.t) :=
  k ← deref (map_keyframes m) kf;
  at_ (StereoFrame.stereo_pt (KeyFrame.stereo_frame k)) ldx.

Definition stereo_ls_at (kf ldx : Z) (m : MapHandler)
    : option (option LineFeature.t) :=
  k ← deref (map_keyframes m) kf;
  at_ (StereoFrame.stereo_ls (KeyFrame.stereo_frame k)) ldx.

(** [map_keyframes[kf]->stereo_frame->stereo_pt[ldx]->idx = v] *)
Definition set_stereo_pt_idx (kf ldx v : Z) (m : MapHandler)
    : option MapHandler :=
  k ← deref (map_keyframes m) kf;
  let fr := KeyFrame.stereo_frame k in
  f ← deref (StereoFrame.stereo_pt fr) ldx;
  let fr' := StereoFrame.set_stereo_pt
               (set_at (StereoFrame.stereo_pt fr) ldx
                       (Some (PointFeature.set_idx v f))) fr in
  Some (set_map_keyframes
          (set_at (map_keyframes m) kf (Some (KeyFrame.set_stereo_frame fr' k)))
          m).

Definition set_stereo_ls_idx (kf ldx v : Z) (m : MapHandler)
    : option MapHandler :=
  k ← deref (map_keyframes m) kf;
  let fr := KeyFrame.stereo_frame k in
  f ← deref (StereoFrame.stereo_ls fr) ldx;
  let fr' := StereoFrame.set_stereo_ls
               (set_at (StereoFrame.stereo_ls fr) ldx
                       (Some (LineFeature.set_idx v f))) fr in
  Some (set_map_keyframes
          (set_at (map_keyframes m) kf (Some (KeyFrame.set_stereo_frame fr' k)))
          m).

(** [pdesc_l.row(ldx)] and [ldesc_l.row(ldx)] of a keyframe. *)
Definition pdesc_row (k : KeyFrame.t) (ldx : Z) : option Descriptor :=
  at_ (StereoFrame.pdesc_l (KeyFrame.stereo_frame k)) ldx.
Definition ldesc_row (k : KeyFrame.t) (ldx : Z) : option Descriptor :=
  at_ (StereoFrame.ldesc_l (KeyFrame.stereo_frame k)) ldx.

(** [map_points_kf_idx.at(kf).push_back(x)] *)
Definition kf_idx_push (kf x : Z) (t : gmap Z (list Z)) : option (gmap Z (list Z)) :=
  l ← t !! kf; Some (<[kf := l ++ [x]]> t).

(** The scan of [map_points_kf_idx.at(kf)] that erases the first [x]. *)
Definition kf_idx_erase (kf x : Z) (t : gmap Z (list Z)) : option (gmap Z (list Z)) :=
  l ← t !! kf; Some (<[kf := erase_first x l]> t).

End Landmarks.


(** ** Loop closure: landmark fusion ([loopClosureFuseLandmarks]) *)

Section Fusion.
Context `{C : Collaborators}.

Definition vscale (c : dbl) (v : Vector) : Vector := map (Dbl.mul c) v.
Definition half : dbl := Dbl.Fin (1 # 2).

(** *** Point matches *)

(** [lm_idx0 == -1 && lm_idx1 != -1]: the landmark exists on the current
    side only; the feature of the previous keyframe becomes an observation. *)
Definition fuse_pt_observe_prev (kf_prev_idx kf_curr_idx lm_ldx0 lm_idx1 : Z)
    (m : MapHandler) : option MapHandler :=
  ft ← stereo_pt_at kf_prev_idx lm_ldx0 m;
  match ft with
  | None => Some m
  | Some f =>
      mp ← at_ (map_points m) lm_idx1;
      match mp with
      | None => Some m
      | Some p =>
          m1 ← set_stereo_pt_idx kf_prev_idx lm_ldx0 lm_idx1 m;
          k ← deref (map_keyframes m1) kf_prev_idx;
          let dir := unit_dir (PointFeature.P f) in
          desc ← pdesc_row k lm_ldx0;
          let p' := addMapPointObservation desc (KeyFrame.kf_idx k)
                      (PointFeature.pl f) dir p in
          let m2 := set_map_points (set_at (map_points m1) lm_idx1 (Some p')) m1 in
          (* increase full graph for each KF that has already observed this LM *)
          in_graph m2
            (for_each (λ kf_it, graph_pair 1 kf_it kf_curr_idx)
                      (MapPoint.kf_obs_list p'))
      end
  end.

(** [lm_idx0 != -1 && lm_idx1 == -1] *)
Definition fuse_pt_observe_curr (kf_prev_idx kf_curr_idx lm_idx0 lm_ldx1 : Z)
    (m : MapHandler) : option MapHandler :=
  ft ← stereo_pt_at kf_curr_idx lm_ldx1 m;
  match ft with
  | None => Some m
  | Some f =>
      mp ← at_ (map_points m) lm_idx0;
      match mp with
      | None => Some m
      | Some p =>
          m1 ← set_stereo_pt_idx kf_curr_idx lm_ldx1 lm_idx0 m;
          k ← deref (map_keyframes m1) kf_curr_idx;
          let dir := unit_dir (PointFeature.P f) in
          desc ← pdesc_row k lm_ldx1;
          let p' := addMapPointObservation desc (KeyFrame.kf_idx k)
                      (PointFeature.pl f) dir p in
          let m2 := set_map_points (set_at (map_points m1) lm_idx0 (Some p')) m1 in
          in_graph m2
            (for_each (λ kf_it, graph_pair 1 kf_it kf_prev_idx)
                      (MapPoint.kf_obs_list p'))
      end
  end.

(** [lm_idx0 == -1 && lm_idx1 == -1]: create the landmark and add both
    observations. *)
Definition fuse_pt_create (kf_prev_idx kf_curr_idx lm_ldx0 lm_ldx1 : Z)
    (m : MapHandler) : option MapHandler :=
  ft0 ← stereo_pt_at kf_prev_idx lm_ldx0 m;
  match ft0 with
  | None => Some m
  | Some f0 =>
      ft1 ← stereo_pt_at kf_curr_idx lm_ldx1 m;
      match ft1 with
      | None => Some m
      | Some f1 =>
          (* assign indices *)
          m1 ← set_stereo_pt_idx kf_prev_idx lm_ldx0 (max_pt_idx m) m;
          m2 ← set_stereo_pt_idx kf_curr_idx lm_ldx1 (max_pt_idx m) m1;
          (* create new 3D landmark with the observation from previous KF *)
          kp ← deref (map_keyframes m2) kf_prev_idx;
          let P3d := se3_apply (KeyFrame.T_kf_w kp) (PointFeature.P f0) in
          let dir := unit_dir P3d in
          desc0 ← pdesc_row kp lm_ldx0;
          let map_point := new_MapPoint (max_pt_idx m) P3d desc0
                             (KeyFrame.kf_idx kp) (PointFeature.pl f0) dir in
          (* add new 3D landmark to kf_idx where it was first observed *)
          t ← kf_idx_push kf_prev_idx (max_pt_idx m) (map_points_kf_idx m2);
          (* add observation of the 3D landmark from current KF *)
          kc ← deref (map_keyframes m2) kf_curr_idx;
          let P3d' := se3_apply (KeyFrame.T_kf_w kc) (PointFeature.P f1) in
          let dir' := unit_dir P3d' in
          desc1 ← pdesc_row kc lm_ldx1;
          let map_point' := addMapPointObservation desc1 (KeyFrame.kf_idx kc)
                              (PointFeature.pl f1) dir' map_point in
          (* add 3D landmark to map *)
          let m3 := set_max_pt_idx (max_pt_idx m + 1)
                      (set_map_points (map_points m2 ++ [Some map_point'])
                         (set_map_points_kf_idx t m2)) in
          (* update full graph (new feature) *)
          in_graph m3 (graph_pair 1 kf_prev_idx kf_curr_idx)
      end
  end.

(** One turn of the loop over [map_points[lm_idx1]->desc_list]: the
    observation number [iter] of the later landmark [B] is pushed onto the
    earlier landmark, and the graph is updated against the [Nobs_lm_prev]
    observations the earlier landmark had before the fusion. *)
Definition fuse_pt_obs (kf_curr_idx lm_idx0 lm_ldx1 : Z) (Nobs_lm_prev : nat)
    (B : MapPoint.t) (iter : nat) (it : Descriptor) (m : MapHandler)
    : option MapHandler :=
  A ← deref (map_points m) lm_idx0;
  o ← MapPoint.obs_list B !! iter;
  d ← MapPoint.dir_list B !! iter;
  jdx ← MapPoint.kf_obs_list B !! iter;
  (* concatenate desc, obs, dir, and kf_obs lists *)
  let A1 := MapPoint.set_lists (MapPoint.desc_list A ++ [it])
              (MapPoint.obs_list A ++ [o]) (MapPoint.dir_list A ++ [d])
              (MapPoint.kf_obs_list A ++ [jdx]) A in
  (* update full graph *)
  g ← for_each (λ i g, idx ← MapPoint.kf_obs_list A1 !! i; graph_pair 1 idx jdx g)
               (seq 0 Nobs_lm_prev) (full_graph m);
  (* update average descriptor and direction of observation *)
  let A2 := MapPoint_updateAverageDescDir A1 in
  (* change idx in stereo_pt *)
  set_stereo_pt_idx kf_curr_idx lm_ldx1 lm_idx0
    (set_full_graph g
       (set_map_points (set_at (map_points m) lm_idx0 (Some A2)) m)).

Fixpoint fuse_pt_loop (kf_curr_idx lm_idx0 lm_ldx1 : Z) (Nobs_lm_prev : nat)
    (B : MapPoint.t) (its : list Descriptor) (iter : nat) (m : MapHandler)
    : option MapHandler :=
  match its with
  | [] => Some m
  | it :: its' =>
      m' ← fuse_pt_obs kf_curr_idx lm_idx0 lm_ldx1 Nobs_lm_prev B iter it m;
      fuse_pt_loop kf_curr_idx lm_idx0 lm_ldx1 Nobs_lm_prev B its' (S iter) m'
  end.

(** [lm_idx0 != -1 && lm_idx1 != -1]: fuse the later landmark into the
    earlier one and erase it. When both indices name the same landmark the
    source appends to the very list it iterates over; that has no defined
    result. *)
Definition fuse_pt_merge (kf_curr_idx lm_idx0 lm_idx1 lm_ldx1 : Z)
    (m : MapHandler) : option MapHandler :=
  a ← at_ (map_points m) lm_idx0;
  match a with
  | None => Some m
  | Some A =>
      b ← at_ (map_points m) lm_idx1;
      match b with
      | None => Some m
      | Some B =>
          ft ← stereo_pt_at kf_curr_idx lm_ldx1 m;
          match ft with
          | None => Some m
          | Some _ =>
              if decide (lm_idx0 = lm_idx1) then None else
              let Nobs_lm_prev := length (MapPoint.kf_obs_list A) in
              (* fuse LMs while updating the full graph *)
              m1 ← fuse_pt_loop kf_curr_idx lm_idx0 lm_ldx1 Nobs_lm_prev B
                     (MapPoint.desc_list B) 0 m;
              (* remove from map_points_kf_idx *)
              kf_lm_obs ← at_ (MapPoint.kf_obs_list B) 0;
              t ← kf_idx_erase kf_lm_obs lm_idx1 (map_points_kf_idx m1);
              (* erase old landmark *)
              Some (set_map_points (set_at (map_points m1) lm_idx1 None)
                      (set_map_points_kf_idx t m1))
          end
      end
  end.

(** The body of the loop over the correspondences of one loop edge. *)
Definition fuse_pt_match (kf_prev_idx kf_curr_idx : Z) (lm : Vector4i)
    (m : MapHandler) : option MapHandler :=
  let '(lm_idx0, lm_ldx0, lm_idx1, lm_ldx1) := lm in
  m1 ← (if decide (lm_idx0 = -1 ∧ lm_idx1 ≠ -1)
        then fuse_pt_observe_prev kf_prev_idx kf_curr_idx lm_ldx0 lm_idx1 m
        else Some m);
  m2 ← (if decide (lm_idx0 ≠ -1 ∧ lm_idx1 = -1)
        then fuse_pt_observe_curr kf_prev_idx kf_curr_idx lm_idx0 lm_ldx1 m1
        else Some m1);
  m3 ← (if decide (lm_idx0 = -1 ∧ lm_idx1 = -1)
        then fuse_pt_create kf_prev_idx kf_curr_idx lm_ldx0 lm_ldx1 m2
        else Some m2);
  if decide (lm_idx0 ≠ -1 ∧ lm_idx1 ≠ -1)
  then fuse_pt_merge kf_curr_idx lm_idx0 lm_idx1 lm_ldx1 m3
  else Some m3.

(** *** Line segment matches *)

Definition fuse_ls_observe_prev (kf_prev_idx kf_curr_idx lm_ldx0 lm_idx1 : Z)
    (m : MapHandler) : option MapHandler :=
  ft ← stereo_ls_at kf_prev_idx lm_ldx0 m;
  match ft with
  | None => Some m
  | Some f =>
      ml ← at_ (map_lines m) lm_idx1;
      match ml with
      | None => Some m
      | Some l =>
          m1 ← set_stereo_ls_idx kf_prev_idx lm_ldx0 lm_idx1 m;
          k ← deref (map_keyframes m1) kf_prev_idx;
          let dir := unit_dir (vadd (LineFeature.sP f) (LineFeature.eP f)) in
          let pts := LineFeature.spl_obs f ++ LineFeature.epl_obs f in
          desc ← ldesc_row k lm_ldx0;
          let l' := addMapLineObservation desc (KeyFrame.kf_idx k)
                      (LineFeature.le f) dir pts l in
          let m2 := set_map_lines (set_at (map_lines m1) lm_idx1 (Some l')) m1 in
          in_graph m2
            (for_each (λ kf_it, graph_pair 1 kf_it kf_curr_idx)
                      (MapLine.kf_obs_list l'))
      end
  end.

Definition fuse_ls_observe_curr (kf_prev_idx kf_curr_idx lm_idx0 lm_ldx1 : Z)
    (m : MapHandler) : option MapHandler :=
  ft ← stereo_ls_at kf_curr_idx lm_ldx1 m;
  match ft with
  | None => Some m
  | Some f =>
      ml ← at_ (map_lines m) lm_idx0;
      match ml with
      | None => Some m
      | Some l =>
          m1 ← set_stereo_ls_idx kf_curr_idx lm_ldx1 lm_idx0 m;
          k ← deref (map_keyframes m1) kf_curr_idx;
          let dir := unit_dir (vadd (LineFeature.sP f) (LineFeature.eP f)) in
          let pts := LineFeature.spl_obs f ++ LineFeature.epl_obs f in
          desc ← ldesc_row k lm_ldx1;
          let l' := addMapLineObservation desc (KeyFrame.kf_idx k)
                      (LineFeature.le f) dir pts l in
          let m2 := set_map_lines (set_at (map_lines m1) lm_idx0 (Some l')) m1 in
          in_graph m2
            (for_each (λ kf_it, graph_pair 1 kf_it kf_prev_idx)
                      (MapLine.kf_obs_list l'))
      end
  end.

(** The second observation takes the end point [epl] from the feature
    number [lm_ldx1] of the {e previous} keyframe, as the source does. *)
Definition fuse_ls_create (kf_prev_idx kf_curr_idx lm_ldx0 lm_ldx1 : Z)
    (m : MapHandler) : option MapHandler :=
  ft0 ← stereo_ls_at kf_prev_idx lm_ldx0 m;
  match ft0 with
  | None => Some m
  | Some f0 =>
      ft1 ← stereo_ls_at kf_curr_idx lm_ldx1 m;
      match ft1 with
      | None => Some m
      | Some f1 =>
          m1 ← set_stereo_ls_idx kf_prev_idx lm_ldx0 (max_ls_idx m) m;
          m2 ← set_stereo_ls_idx kf_curr_idx lm_ldx1 (max_ls_idx m) m1;
          kp ← deref (map_keyframes m2) kf_prev_idx;
          let sP3d := se3_apply (KeyFrame.T_kf_w kp) (LineFeature.sP f0) in
          let eP3d := se3_apply (KeyFrame.T_kf_w kp) (LineFeature.eP f0) in
          let mP3d := vscale half (vadd sP3d eP3d) in
          let dir := unit_dir mP3d in
          let L3D := sP3d ++ eP3d in
          let pts := LineFeature.spl f0 ++ LineFeature.epl f0 in
          desc0 ← ldesc_row kp lm_ldx0;
          let map_line := new_MapLine (max_ls_idx m) L3D desc0
                            (KeyFrame.kf_idx kp) (LineFeature.le f0) dir pts in
          t ← kf_idx_push kf_prev_idx (max_ls_idx m) (map_lines_kf_idx m2);
          kc ← deref (map_keyframes m2) kf_curr_idx;
          let sP3d' := se3_apply (KeyFrame.T_kf_w kc) (LineFeature.sP f1) in
          let eP3d' := se3_apply (KeyFrame.T_kf_w kc) (LineFeature.eP f1) in
          let mP3d' := vscale half (vadd sP3d' eP3d') in
          let dir' := unit_dir mP3d' in
          fq ← deref (StereoFrame.stereo_ls (KeyFrame.stereo_frame kp)) lm_ldx1;
          let pts' := LineFeature.spl f1 ++ LineFeature.epl fq in
          desc1 ← ldesc_row kc lm_ldx1;
          let map_line' := addMapLineObservation desc1 (KeyFrame.kf_idx kc)
                             (LineFeature.le f1) dir' pts' map_line in
          let m3 := set_max_ls_idx (max_ls_idx m + 1)
                      (set_map_lines (map_lines m2 ++ [Some map_line'])
                         (set_map_lines_kf_idx t m2)) in
          in_graph m3 (graph_pair 1 kf_prev_idx kf_curr_idx)
      end
  end.

Definition fuse_ls_obs (kf_curr_idx lm_idx0 lm_ldx1 : Z) (Nobs_lm_prev : nat)
    (B : MapLine.t) (iter : nat) (it : Descriptor) (m : MapHandler)
    : option MapHandler :=
  A ← deref (map_lines m) lm_idx0;
  o ← MapLine.obs_list B !! iter;
  d ← MapLine.dir_list B !! iter;
  p ← MapLine.pts_list B !! iter;
  jdx ← MapLine.kf_obs_list B !! iter;
  (* concatenate desc, obs, dir, pts, and kf_obs lists *)
  let A1 := MapLine.set_lists (MapLine.desc_list A ++ [it])
              (MapLine.obs_list A ++ [o]) (MapLine.pts_list A ++ [p])
              (MapLine.dir_list A ++ [d]) (MapLine.kf_obs_list A ++ [jdx])
              (MapLine.NDw_obs_list A) A in
  g ← for_each (λ i g, idx ← MapLine.kf_obs_list A1 !! i; graph_pair 1 idx jdx g)
               (seq 0 Nobs_lm_prev) (full_graph m);
  let A2 := MapLine_updateAverageDescDir A1 in
  set_stereo_ls_idx kf_curr_idx lm_ldx1 lm_idx0
    (set_full_graph g
       (set_map_lines (set_at (map_lines m) lm_idx0 (Some A2)) m)).

Fixpoint fuse_ls_loop (kf_curr_idx lm_idx0 lm_ldx1 : Z) (Nobs_lm_prev : nat)
    (B : MapLine.t) (its : list Descriptor) (iter : nat) (m : MapHandler)
    : option MapHandler :=
  match its with
  | [] => Some m
  | it :: its' =>
      m' ← fuse_ls_obs kf_curr_idx lm_idx0 lm_ldx1 Nobs_lm_prev B iter it m;
      fuse_ls_loop kf_curr_idx lm_idx0 lm_ldx1 Nobs_lm_prev B its' (S iter) m'
  end.

Definition fuse_ls_merge (kf_curr_idx lm_idx0 lm_idx1 lm_ldx1 : Z)
    (m : MapHandler) : option MapHandler :=
  a ← at_ (map_lines m) lm_idx0;
  match a with
  | None => Some m
  | Some A =>
      b ← at_ (map_lines m) lm_idx1;
      match b with
      | None => Some m
      | Some B =>
          ft ← stereo_ls_at kf_curr_idx lm_ldx1 m;
          match ft with
          | None => Some m
          | Some _ =>
              if decide (lm_idx0 = lm_idx1) then None else
              let Nobs_lm_prev := length (MapLine.kf_obs_list A) in
              m1 ← fuse_ls_loop kf_curr_idx lm_idx0 lm_ldx1 Nobs_lm_prev B
                     (MapLine.desc_list B) 0 m;
              kf_lm_obs ← at_ (MapLine.kf_obs_list B) 0;
              t ← kf_idx_erase kf_lm_obs lm_idx1 (map_lines_kf_idx m1);
              Some (set_map_lines (set_at (map_lines m1) lm_idx1 None)
                      (set_map_lines_kf_idx t m1))
          end
      end
  end.

Definition fuse_ls_match (kf_prev_idx kf_curr_idx : Z) (lm : Vector4i)
    (m : MapHandler) : option MapHandler :=
  let '(lm_idx0, lm_ldx0, lm_idx1, lm_ldx1) := lm in
  m1 ← (if decide (lm_idx0 = -1 ∧ lm_idx1 ≠ -1)
        then fuse_ls_observe_prev kf_prev_idx kf_curr_idx lm_ldx0 lm_idx1 m
        else Some m);
  m2 ← (if decide (lm_idx0 ≠ -1 ∧ lm_idx1 = -1)
        then fuse_ls_observe_curr kf_prev_idx kf_curr_idx lm_idx0 lm_ldx1 m1
        else Some m1);
  m3 ← (if decide (lm_idx0 = -1 ∧ lm_idx1 = -1)
        then fuse_ls_create kf_prev_idx kf_curr_idx lm_ldx0 lm_ldx1 m2
        else Some m2);
  if decide (lm_idx0 ≠ -1 ∧ lm_idx1 ≠ -1)
  then fuse_ls_merge kf_curr_idx lm_idx0 lm_idx1 lm_ldx1 m3
  else Some m3.

(** *** The two passes over the pending loop edges *)

(** The loop over [lc_pt_idxs] (or [lc_ls_idxs]); [lc_idx] counts the edges.
    An edge is processed only while its marker [lc_idx_list[lc_idx](2)] is
    [1] ("if not already optimized"). *)
Fixpoint fuse_edges
    (fuse_match : Z -> Z -> Vector4i -> MapHandler -> option MapHandler)
    (idxs : list (list Vector4i)) (lc_idx : nat) (m : MapHandler)
    : option MapHandler :=
  match idxs with
  | [] => Some m
  | idx_it :: idxs' =>
      e ← lc_idx_list m !! lc_idx;
      let '(kf_prev_idx, kf_curr_idx, marker) := e in
      m' ← (if decide (marker = 1)
            then for_each (fuse_match kf_prev_idx kf_curr_idx) idx_it m
            else Some m);
      fuse_edges fuse_match idxs' (S lc_idx) m'
  end.

Definition loopClosureFuseLandmarks (m : MapHandler) : option MapHandler :=
  m1 ← fuse_edges fuse_pt_match (lc_pt_idxs m) 0 m;
  fuse_edges fuse_ls_match (lc_ls_idxs m1) 0 m1.

End Fusion.


(** ** Keyframe-to-keyframe and map-to-keyframe association *)

Section Association.
Context `{C : Collaborators}.

(** The body of the loop over [matches_12] in [matchKF2KFPoints], for the
    match of feature [i1] of the previous keyframe with feature [i2] of the
    current one. The keyframes are passed and returned by value. The
    bookkeeping of the optional pose refinement ([matched_pt]) touches
    neither the map nor the graph and is left out. *)
Definition matchKF2KFPoints_match (i1 i2 : Z) (prev_kf curr_kf : KeyFrame.t)
    (m : MapHandler) : option (KeyFrame.t * KeyFrame.t * MapHandler) :=
  let kf1_idx := KeyFrame.kf_idx prev_kf in
  let kf2_idx := KeyFrame.kf_idx curr_kf in
  let prev_frame := KeyFrame.stereo_frame prev_kf in
  let curr_frame := KeyFrame.stereo_frame curr_kf in
  if decide (i2 < 0) then Some (prev_kf, curr_kf, m) else
  (* this shouldn't happen: NULL stereo point *)
  f1 ← deref (StereoFrame.stereo_pt prev_frame) i1;
  f2 ← deref (StereoFrame.stereo_pt curr_frame) i2;
  if decide (PointFeature.idx f1 = -1) then
    (* new 3D landmark: assign indices *)
    let prev_kf' := KeyFrame.set_stereo_frame
          (StereoFrame.set_stereo_pt
             (set_at (StereoFrame.stereo_pt prev_frame) i1
                (Some (PointFeature.set_idx (max_pt_idx m) f1))) prev_frame)
          prev_kf in
    let curr_kf' := KeyFrame.set_stereo_frame
          (StereoFrame.set_stereo_pt
             (set_at (StereoFrame.stereo_pt curr_frame) i2
                (Some (PointFeature.set_idx (max_pt_idx m) f2))) curr_frame)
          curr_kf in
    let P3d := se3_apply (KeyFrame.T_kf_w prev_kf) (PointFeature.P f1) in
    let dir := unit_dir P3d in
    desc1 ← pdesc_row prev_kf i1;
    let map_point := new_MapPoint (max_pt_idx m) P3d desc1 kf1_idx
                       (PointFeature.pl f1) dir in
    t ← kf_idx_push kf1_idx (max_pt_idx m) (map_points_kf_idx m);
    let P3d' := se3_apply (KeyFrame.T_kf_w curr_kf) (PointFeature.P f2) in
    let dir' := unit_dir P3d' in
    desc2 ← pdesc_row curr_kf i2;
    let map_point' := addMapPointObservation desc2 kf2_idx
                        (PointFeature.pl f2) dir' map_point in
    let m1 := set_max_pt_idx (max_pt_idx m + 1)
                (set_map_points (map_points m ++ [Some map_point'])
                   (set_map_points_kf_idx t m)) in
    (* update full graph (new feature) *)
    m2 ← in_graph m1 (graph_pair 1 kf2_idx kf1_idx);
    Some (prev_kf', curr_kf', m2)
  else
    (* 3D landmark exists: copy idx && add observation to map landmark *)
    let lm_idx := PointFeature.idx f1 in
    mp ← at_ (map_points m) lm_idx;
    match mp with
    | None => Some (prev_kf, curr_kf, m)
    | Some p =>
        let curr_kf' := KeyFrame.set_stereo_frame
              (StereoFrame.set_stereo_pt
                 (set_at (StereoFrame.stereo_pt curr_frame) i2
                    (Some (PointFeature.set_idx lm_idx f2))) curr_frame)
              curr_kf in
        let p3d := se3_apply (KeyFrame.T_kf_w curr_kf) (PointFeature.P f2) in
        let dir := unit_dir p3d in
        desc2 ← pdesc_row curr_kf i2;
        let p' := addMapPointObservation desc2 kf2_idx (PointFeature.pl f2)
                    dir p in
        let m1 := set_map_points (set_at (map_points m) lm_idx (Some p')) m in
        (* update full graph (previously observed feature) *)
        m2 ← in_graph m1
               (for_each (λ obs g, if decide (obs ≠ kf2_idx)
                                   then graph_pair 1 kf2_idx obs g
                                   else Some g)
                         (MapPoint.kf_obs_list p'));
        Some (prev_kf, curr_kf', m2)
    end.

(** The signed algebraic distance of a projected end point to the observed
    line: [l_obs(0) * p(0) + l_obs(1) * p(1) + l_obs(2)]. *)
Definition line_distance (l_obs p : Vector) : dbl :=
  let c (v : Vector) (i : nat) := default Dbl.zero (v !! i) in
  Dbl.add (Dbl.add (Dbl.mul (c l_obs 0%nat) (c p 0%nat))
                   (Dbl.mul (c l_obs 1%nat) (c p 1%nat)))
          (c l_obs 2%nat).

(** The epipolar gate of [matchMap2KFLines]:
    [err_ls(0) < maxKFEpipL && err_ls(1) < maxKFEpipL]. *)
Definition epipolar_gate (cfg : SlamConfig) (err_ls0 err_ls1 : dbl) : bool :=
  Dbl.lt err_ls0 (maxKFEpipL cfg) && Dbl.lt err_ls1 (maxKFEpipL cfg).

(** What [matchMap2KFLines] does with an accepted match: the feature [ul]
    of the current keyframe takes the landmark's index, the landmark gets
    the observation, and the graph is updated. [use_line_pluker] selects the
    overload compiled under [USE_LINE_PLUKER]. *)
Definition matchMap2KFLines_accept (use_line_pluker : bool)
    (lm_idx ul : Z) (desc : Descriptor) (f : LineFeature.t)
    (curr_kf : KeyFrame.t) (m : MapHandler)
    : option (KeyFrame.t * MapHandler) :=
  let kf2_idx := KeyFrame.kf_idx curr_kf in
  let curr_frame := KeyFrame.stereo_frame curr_kf in
  (* copy idx *)
  let curr_kf' := KeyFrame.set_stereo_frame
        (StereoFrame.set_stereo_ls
           (set_at (StereoFrame.stereo_ls curr_frame) ul
              (Some (LineFeature.set_idx lm_idx f))) curr_frame)
        curr_kf in
  (* add observation of the 3D landmark from current KF *)
  let mP3d := vscale half (vadd (LineFeature.sP f) (LineFeature.eP f)) in
  let mP3d := unit_dir (se3_apply (KeyFrame.T_kf_w curr_kf) mP3d) in
  let pts := LineFeature.spl f ++ LineFeature.epl f in
  l ← deref (map_lines m) lm_idx;
  let l' := if use_line_pluker
            then addMapLineObservation_pluker desc kf2_idx pts l
            else addMapLineObservation desc kf2_idx (LineFeature.le f) mP3d
                   pts l in
  let m1 := set_map_lines (set_at (map_lines m) lm_idx (Some l')) m in
  (* update full graph (previously observed feature) *)
  m2 ← in_graph m1
         (for_each (λ obs g, if decide (obs ≠ kf2_idx)
                             then graph_pair 1 kf2_idx obs g
                             else Some g)
                   (MapLine.kf_obs_list l'));
  Some (curr_kf', m2).

(** The body of the loop over [matches_12] in [matchMap2KFLines]:
    [ml] is the position in [map_lines] of [map_local_lines[i1]], [ul] the
    position in [stereo_ls] of [unmatched_lines[i2]], [desc] the row
    [unmatched_ls_desc.row(i2)], [Twf] the member of that name. The result
    carries the running count [matches]. *)
Definition matchMap2KFLines_match (cfg : SlamConfig) (use_line_pluker : bool)
    (Twf : Matrix) (i2 ml ul : Z) (desc : Descriptor) (matches : Z)
    (curr_kf : KeyFrame.t) (m : MapHandler)
    : option (Z * KeyFrame.t * MapHandler) :=
  if decide (i2 < 0) then Some (matches, curr_kf, m) else
  lm ← deref (map_lines m) ml;
  f ← deref (StereoFrame.stereo_ls (KeyFrame.stereo_frame curr_kf)) ul;
  let sP_ := se3_apply Twf (take 3 (MapLine.line3D lm)) in
  let spl_proj := projection sP_ in
  let eP_ := se3_apply Twf (drop 3 (MapLine.line3D lm)) in
  let epl_proj := projection eP_ in
  let l_obs := LineFeature.le f in
  (* check the epipolar constraint *)
  let err_ls0 := line_distance l_obs spl_proj in
  let err_ls1 := line_distance l_obs epl_proj in
  if epipolar_gate cfg err_ls0 err_ls1 then
    r ← matchMap2KFLines_accept use_line_pluker (MapLine.idx lm) ul desc f
          curr_kf m;
    Some (matches, r.1, r.2)
  else Some (matches - 1, curr_kf, m).

End Association.

(** ** Culling and observation removal *)

Section Culling.
Context `{C : Collaborators}.

(** The scan of [stereo_pt] that resets the first feature pointing at the
    landmark [lm_idx] and stops; every feature it passes is dereferenced. *)
Fixpoint clear_first_pt_idx (lm_idx : Z) (l : list (option PointFeature.t))
    : option (list (option PointFeature.t)) :=
  match l with
  | [] => Some []
  | None :: _ => None
  | Some f :: l' =>
      if decide (PointFeature.idx f = lm_idx)
      then Some (Some (PointFeature.set_idx (-1) f) :: l')
      else l'' ← clear_first_pt_idx lm_idx l'; Some (Some f :: l'')
  end.

Fixpoint clear_first_ls_idx (lm_idx : Z) (l : list (option LineFeature.t))
    : option (list (option LineFeature.t)) :=
  match l with
  | [] => Some []
  | None :: _ => None
  | Some f :: l' =>
      if decide (LineFeature.idx f = lm_idx)
      then Some (Some (LineFeature.set_idx (-1) f) :: l')
      else l'' ← clear_first_ls_idx lm_idx l'; Some (Some f :: l'')
  end.

(** [map_keyframes[kf_obs]->stereo_frame->stereo_pt] after that scan. *)
Definition unlink_pt_feature (kf_obs lm_idx : Z) (m : MapHandler)
    : option MapHandler :=
  k ← deref (map_keyframes m) kf_obs;
  let fr := KeyFrame.stereo_frame k in
  pts ← clear_first_pt_idx lm_idx (StereoFrame.stereo_pt fr);
  Some (set_map_keyframes
          (set_at (map_keyframes m) kf_obs
             (Some (KeyFrame.set_stereo_frame
                      (StereoFrame.set_stereo_pt pts fr) k))) m).

Definition unlink_ls_feature (kf_obs lm_idx : Z) (m : MapHandler)
    : option MapHandler :=
  k ← deref (map_keyframes m) kf_obs;
  let fr := KeyFrame.stereo_frame k in
  lss ← clear_first_ls_idx lm_idx (StereoFrame.stereo_ls fr);
  Some (set_map_keyframes
          (set_at (map_keyframes m) kf_obs
             (Some (KeyFrame.set_stereo_frame
                      (StereoFrame.set_stereo_ls lss fr) k))) m).

(** [removeBadMapLandmarks], the turn of the loop at position [i] of
    [map_points]. The number of observations is compared with [minLMObs] as
    an integer. *)
Definition cull_point (cfg : SlamConfig) (i : nat) (m : MapHandler)
    : option MapHandler :=
  match map_points m !! i with
  | Some (Some p) =>
      if MapPoint.local p then Some m else
      kf_obs ← at_ (MapPoint.kf_obs_list p) 0;
      if decide (max_kf_idx m - kf_obs > 10) then
        if negb (MapPoint.inlier p)
           || bool_decide (Z.of_nat (length (MapPoint.obs_list p)) < minLMObs cfg)
        then
          let lm_idx := MapPoint.idx p in
          (* remove idx from KeyFrame stereo points *)
          m1 ← unlink_pt_feature kf_obs lm_idx m;
          (* remove from map_points_kf_idx *)
          t ← kf_idx_erase kf_obs lm_idx (map_points_kf_idx m1);
          (* remove LM *)
          Some (set_map_points (<[i := None]> (map_points m1))
                  (set_map_points_kf_idx t m1))
        else Some m
      else Some m
  | _ => Some m
  end.

Definition cull_line (cfg : SlamConfig) (i : nat) (m : MapHandler)
    : option MapHandler :=
  match map_lines m !! i with
  | Some (Some l) =>
      if MapLine.local l then Some m else
      kf_obs ← at_ (MapLine.kf_obs_list l) 0;
      if decide (max_kf_idx m - kf_obs > 10) then
        if negb (MapLine.inlier l)
           || bool_decide (Z.of_nat (length (MapLine.obs_list l)) < minLMObs cfg)
        then
          let lm_idx := MapLine.idx l in
          m1 ← unlink_ls_feature kf_obs lm_idx m;
          t ← kf_idx_erase kf_obs lm_idx (map_lines_kf_idx m1);
          Some (set_map_lines (<[i := None]> (map_lines m1))
                  (set_map_lines_kf_idx t m1))
        else Some m
      else Some m
  | _ => Some m
  end.

Definition removeBadMapLandmarks (cfg : SlamConfig) (m : MapHandler)
    : option MapHandler :=
  m1 ← for_each (cull_point cfg) (seq 0 (length (map_points m))) m;
  for_each (cull_line cfg) (seq 0 (length (map_lines m1))) m1.

(** "Remove bad observations" at the end of the local bundle adjustment:
    the turn of the loop for the point observation [o]. *)
Definition remove_pt_observation (o : Vector6i) (m : MapHandler)
    : option MapHandler :=
  if decide (obs_inlier o = -1) then
    let lm_idx_map := lm_idx_map o in
    let lm_idx_obs := lm_idx_obs o in
    mp ← at_ (map_points m) lm_idx_map;
    match mp with
    | None => Some m
    | Some p =>
        kf_obs ← at_ (MapPoint.kf_obs_list p) lm_idx_obs;
        (* remove observations from map_points *)
        if decide (1 < length (MapPoint.obs_list p))%nat then
          (* if it is the first observation, update it from map_points_kf_idx *)
          t ← (if decide (lm_idx_obs = 0) then
                 l ← map_points_kf_idx m !! kf_obs;
                 if bool_decide (lm_idx_map ∈ l) then
                   new_kf_base ← at_ (MapPoint.kf_obs_list p) 1;
                   kf_idx_push new_kf_base lm_idx_map (map_points_kf_idx m)
                 else Some (map_points_kf_idx m)
               else Some (map_points_kf_idx m));
          (* remove observations from map points *)
          ds ← erase_at lm_idx_obs (MapPoint.desc_list p);
          os ← erase_at lm_idx_obs (MapPoint.obs_list p);
          rs ← erase_at lm_idx_obs (MapPoint.dir_list p);
          ks ← erase_at lm_idx_obs (MapPoint.kf_obs_list p);
          (* remove idx from KeyFrame stereo points *)
          m1 ← unlink_pt_feature kf_obs lm_idx_map (set_map_points_kf_idx t m);
          (* update main descriptor and direction *)
          let p' := MapPoint_updateAverageDescDir
                      (MapPoint.set_lists ds os rs ks p) in
          let m2 := set_map_points
                      (set_at (map_points m1) lm_idx_map (Some p')) m1 in
          (* update graphs *)
          in_graph m2
            (for_each (λ idx g, if decide (kf_obs ≠ idx)
                                then graph_pair (-1) kf_obs idx g
                                else Some g)
                      (MapPoint.kf_obs_list p'))
        else
          Some (set_map_points
                  (set_at (map_points m) lm_idx_map
                     (Some (MapPoint.set_inlier false p))) m)
    end
  else Some m.

End Culling.


Section RemoveLineObservation.
Context `{C : Collaborators}.

(** The same for the line observation [o]. *)
Definition remove_ls_observation (o : Vector6i) (m : MapHandler)
    : option MapHandler :=
  if decide (obs_inlier o = -1) then
    let lm_idx_map := lm_idx_map o in
    let lm_idx_obs := lm_idx_obs o in
    ml ← at_ (map_lines m) lm_idx_map;
    match ml with
    | None => Some m
    | Some l =>
        kf_obs ← at_ (MapLine.kf_obs_list l) lm_idx_obs;
        if decide (1 < length (MapLine.obs_list l))%nat then
          t ← (if decide (lm_idx_obs = 0) then
                 ks ← map_lines_kf_idx m !! kf_obs;
                 if bool_decide (lm_idx_map ∈ ks) then
                   new_kf_base ← at_ (MapLine.kf_obs_list l) 1;
                   kf_idx_push new_kf_base lm_idx_map (map_lines_kf_idx m)
                 else Some (map_lines_kf_idx m)
               else Some (map_lines_kf_idx m));
          ds ← erase_at lm_idx_obs (MapLine.desc_list l);
          os ← erase_at lm_idx_obs (MapLine.obs_list l);
          ps ← erase_at lm_idx_obs (MapLine.pts_list l);
          rs ← erase_at lm_idx_obs (MapLine.dir_list l);
          ks ← erase_at lm_idx_obs (MapLine.kf_obs_list l);
          m1 ← unlink_ls_feature kf_obs lm_idx_map (set_map_lines_kf_idx t m);
          let l' := MapLine_updateAverageDescDir
                      (MapLine.set_lists ds os ps rs ks (MapLine.NDw_obs_list l) l) in
          let m2 := set_map_lines
                      (set_at (map_lines m1) lm_idx_map (Some l')) m1 in
          in_graph m2
            (for_each (λ idx g, if decide (kf_obs ≠ idx)
                                then graph_pair (-1) kf_obs idx g
                                else Some g)
                      (MapLine.kf_obs_list l'))
        else
          Some (set_map_lines
                  (set_at (map_lines m) lm_idx_map
                     (Some (MapLine.set_inlier false l))) m)
    end
  else Some m.

End RemoveLineObservation.

(** ** The Levenberg-Marquardt local bundle adjustment

    [levMarquardtOptimizationLBA] and [levMarquardtOptimizationLBAForPluker]
    are two copies of one solver; they differ in the residual of a line, in
    the count that normalizes the error inside the loop, in the update of the
    line blocks of the state vector and in what is written back for a line.
    [LineModel] names the copy. *)

Inductive LineModel : Type := Endpoints | Pluker.

(** The numerical kernels of the solver: the normal equations [H], [g], the
    contribution of one observation to them (residual, analytic Jacobian and
    Cauchy weight), and the damped sparse solve. At the first pass the
    residuals are read from the map, later from the state vector [X]. *)
Class LMKernels : Type := {
  NormalEq : Type;
  (** [H = MatrixXd::Zero(N,N); g = VectorXd::Zero(N)] *)
  zero_eq : nat -> NormalEq;
  pt_term0 : MapHandler -> Z -> Z -> Vector6i -> NormalEq -> NormalEq;
  (** [p_err_norm * p_err_norm * w] *)
  pt_err0 : MapHandler -> Vector6i -> dbl;
  ls_term0 : LineModel -> MapHandler -> Z -> Z -> Vector6i -> NormalEq -> NormalEq;
  (** [l_err_norm * l_err_norm * w] *)
  ls_err0 : LineModel -> MapHandler -> Vector6i -> dbl;
  pt_term : MapHandler -> Z -> Z -> Vector -> Vector6i -> NormalEq -> NormalEq;
  pt_err : MapHandler -> Z -> Z -> Vector -> Vector6i -> dbl;
  ls_term : LineModel -> MapHandler -> Z -> Z -> Vector -> Vector6i -> NormalEq -> NormalEq;
  ls_err : LineModel -> MapHandler -> Z -> Z -> Vector -> Vector6i -> dbl;
  (** the largest [fabs(H(i,i))] *)
  Hmax : NormalEq -> dbl;
  (** [H(i,i) += lambda * H(i,i)] for all [i], then
      [SimplicialLDLT(H.sparseView()).solve(g)] *)
  solve : NormalEq -> dbl -> Vector
}.

(** [err_prev = 999999999.9] *)
Definition err_prev_init : dbl := Dbl.Fin (9999999999 # 10).
(** the displacement [0.01] beyond which a landmark is flagged *)
Definition displacement_tol : dbl := Dbl.Fin (1 # 100).

(** What the solver leaves behind: the state vector, the damping factor and,
    as ghost state, the divisor of every normalization [err /= ...] in the
    order they were executed. *)
Record LMState : Type := {
  X : Vector;
  lambda : dbl;
  err_prev : dbl;
  divisors : list Z
}.

Section LevenbergMarquardt.
Context `{C : Collaborators} `{K : LMKernels}.
Variable cfg : SlamConfig.
Variable line_model : LineModel.
Variable m : MapHandler.

(** [map_points[lm_idx_map] != NULL && map_keyframes[kf_idx_map] != NULL];
    the observation lists are built by [localBundleAdjustment] from the
    slots of the map, so the indices are in range. *)
Definition resident_pt (o : Vector6i) : bool :=
  bool_decide (is_Some (deref (map_points m) (lm_idx_map o)))
  && bool_decide (is_Some (deref (map_keyframes m) (kf_idx_map o))).

Definition resident_ls (o : Vector6i) : bool :=
  bool_decide (is_Some (deref (map_lines m) (lm_idx_map o)))
  && bool_decide (is_Some (deref (map_keyframes m) (kf_idx_map o))).

(** One pass over an observation list: each resident observation adds its
    term to [H], [g] and its weighted squared residual to [err]. Nothing
    else is updated in these loops. *)
Definition accumulate (resident : Vector6i -> bool)
    (term : Vector6i -> NormalEq -> NormalEq) (err_of : Vector6i -> dbl)
    (obs : list Vector6i) (acc : NormalEq * dbl) : NormalEq * dbl :=
  foldl (λ a o, if resident o
                then (term o a.1, Dbl.add a.2 (err_of o))
                else a)
        acc obs.

(** [Npt = pt_obs_list.back()(1) + 1], or [0] for an empty list. *)
Definition count_landmarks (obs : list Vector6i) : Z :=
  match last obs with
  | Some o => lm_idx_loc o + 1
  | None => 0
  end.

(** The step [DX] applied to [X]: manifold composition for the pose blocks,
    [+=] for the point blocks, and for the line blocks [+=] (end points) or
    [updateOrthCoord] on blocks of four (Plücker). *)
Definition update_KFs (Nkf : Z) (X DX : Vector) : Vector :=
  foldl (λ X i,
           let Tprev := expmap_se3 (block X (6 * i) 6) in
           let Tcurr := mat_mul Tprev
                          (inverse_se3 (expmap_se3 (block DX (6 * i) 6))) in
           set_block X (6 * i) (take 6 (logmap_se3 Tcurr)))
        X (seq 0 (Z.to_nat Nkf)).

Definition update_point_LMs (Nkf Npt : Z) (X DX : Vector) : Vector :=
  let i0 := Z.to_nat (6 * Nkf) in
  let n := (Z.to_nat (6 * Nkf + 3 * Npt) - i0)%nat in
  set_block X i0 (vadd (block X i0 n) (block DX i0 n)).

Definition update_line_LMs (Nkf Npt : Z) (X DX : Vector) : Vector :=
  let i0 := Z.to_nat (6 * Nkf + 3 * Npt) in
  match line_model with
  | Endpoints =>
      let n := (length X - i0)%nat in
      set_block X i0 (vadd (block X i0 n) (block DX i0 n))
  | Pluker =>
      foldl (λ X j,
               let i := (i0 + 4 * j)%nat in
               set_block X i (take 4 (updateOrthCoord (block X i 4) (block DX i 4))))
            X (seq 0 ((length X - i0 + 3) / 4))
  end.

Definition apply_step (Nkf Npt : Z) (X DX : Vector) : Vector :=
  update_line_LMs Nkf Npt (update_point_LMs Nkf Npt (update_KFs Nkf X DX) DX) DX.

(** The count that divides the error inside the loop. *)
Definition loop_divisor (Npt Nls Npt_obs Nls_obs : Z) : Z :=
  match line_model with
  | Endpoints => Npt + Nls
  | Pluker => Npt_obs + Nls_obs
  end.

Section Iteration.
Variables (Nkf Npt Nls Npt_obs Nls_obs : Z).
Variables (pt_obs_list ls_obs_list : list Vector6i).

(** [H], [g] and the summed error of one iteration, from the state vector. *)
Definition linearize (X : Vector) : NormalEq * dbl :=
  accumulate resident_ls (ls_term line_model m Nkf Npt X)
             (ls_err line_model m Nkf Npt X) ls_obs_list
    (accumulate resident_pt (pt_term m Nkf Npt X) (pt_err m Nkf Npt X)
                pt_obs_list (zero_eq (length X), Dbl.zero)).

(** The normalized error of the iteration and the step it solves for. *)
Definition iter_err (st : LMState) : dbl :=
  Dbl.div (linearize (X st)).2
          (Dbl.of_Z (loop_divisor Npt Nls Npt_obs Nls_obs)).

Definition iter_DX (st : LMState) : Vector :=
  solve (linearize (X st)).1 (lambda st).

(** [abs(err-err_prev) < Config::minErrorChange() || err < Config::minError()],
    with [abs] on doubles. *)
Definition converged (err err_prev : dbl) : bool :=
  Dbl.lt (Dbl.abs (Dbl.sub err err_prev)) (minErrorChange cfg)
  || Dbl.lt err (minError cfg).

(** "update lambda" *)
Definition update_lambda (err : dbl) (DX : Vector) (st : LMState) : LMState :=
  if Dbl.gt err (err_prev st) then
    {| X := X st;
       lambda := Dbl.div (lambda st) (lambdaLbaK cfg);
       err_prev := err_prev st;
       divisors := divisors st |}
  else
    {| X := apply_step Nkf Npt (X st) DX;
       lambda := Dbl.mul (lambda st) (lambdaLbaK cfg);
       err_prev := err_prev st;
       divisors := divisors st |}.

(** The body of the loop "LM iterations"; the flag is [true] when the body
    leaves the loop through a [break]. *)
Definition lm_iteration (st : LMState) : LMState * bool :=
  let err := iter_err st in
  let st0 := {| X := X st; lambda := lambda st; err_prev := err_prev st;
                divisors := divisors st
                            ++ [loop_divisor Npt Nls Npt_obs Nls_obs] |} in
  (* if the difference is very small stop *)
  if converged err (err_prev st) then (st0, true) else
  let DX := iter_DX st in
  let st1 := update_lambda err DX st0 in
  (* if the parameter change is small stop *)
  if Dbl.lt (norm DX) (minErrorChange cfg) then (st1, true) else
  (* update previous values *)
  ({| X := X st1; lambda := lambda st1; err_prev := err;
      divisors := divisors st1 |}, false).

(** [for( iters = 1; iters < max_iters; iters++)] with [n = max_iters - 1]
    turns left. *)
Fixpoint lm_loop (n : nat) (st : LMState) : LMState :=
  match n with
  | O => st
  | S n' =>
      let r := lm_iteration st in
      if r.2 then r.1 else lm_loop n' r.1
  end.

End Iteration.

(** The solver up to the end of the loop. The counters [Npt_obs] and
    [Nls_obs] are declared with the value [0]; no statement of the source
    assigns to them afterwards. *)
Definition lm_solve (X_aux : Vector) (kf_list : list Z)
    (pt_obs_list ls_obs_list : list Vector6i) : LMState :=
  let Nkf := Z.of_nat (length kf_list) in
  let X := X_aux in
  let err := Dbl.zero in
  let lambda := lambdaLbaLM cfg in
  let max_iters := maxItersLba cfg in
  (* estimate H and g to precalculate lambda: point observations *)
  let Npt := count_landmarks pt_obs_list in
  let Npt_obs := 0 in
  let a := accumulate resident_pt (pt_term0 m Nkf Npt) (pt_err0 m)
             pt_obs_list (zero_eq (length X), err) in
  (* line segment observations *)
  let Nls := count_landmarks ls_obs_list in
  let Nls_obs := 0 in
  let a := accumulate resident_ls (ls_term0 line_model m Nkf Npt)
             (ls_err0 line_model m) ls_obs_list a in
  let err := Dbl.div a.2 (Dbl.of_Z (Npt_obs + Nls_obs)) in
  (* initial guess of lambda *)
  let lambda := Dbl.mul lambda (Hmax a.1) in
  (* solve the first iteration *)
  let DX := solve a.1 lambda in
  let X := apply_step Nkf Npt X DX in
  (* update error *)
  let st := {| X := X; lambda := lambda; err_prev := err;
               divisors := [Npt_obs + Nls_obs] |} in
  (* LM iterations *)
  lm_loop Nkf Npt Nls Npt_obs Nls_obs pt_obs_list ls_obs_list
          (Z.to_nat (max_iters - 1)) st.

(** *** Writing the result back ("Update KFs and LMs") *)

Definition publish_KF (Nkf : Z) (X : Vector) (kf_list : list Z) (i : nat)
    (m : MapHandler) : option MapHandler :=
  kf ← kf_list !! i;
  k ← deref (map_keyframes m) kf;
  let Test := expmap_se3 (block X (6 * i) 6) in
  Some (set_map_keyframes
          (set_at (map_keyframes m) kf (Some (KeyFrame.set_T_kf_w Test k))) m).

Definition publish_point (Nkf : Z) (X : Vector) (pt_list : list Z) (i : nat)
    (m : MapHandler) : option MapHandler :=
  lm ← pt_list !! i;
  p ← deref (map_points m) lm;
  let Xi := block X (Z.to_nat (6 * Nkf) + 3 * i) 3 in
  let DX := vsub Xi (MapPoint.point3D p) in
  let p := if Dbl.gt (norm DX) displacement_tol
           then MapPoint.set_inlier false p else p in
  Some (set_map_points
          (set_at (map_points m) lm (Some (MapPoint.set_point3D Xi p))) m).

(** The line block of landmark [i]: four orthonormal parameters (Plücker)
    or six end point coordinates. *)
Definition line_block (Nkf Npt : Z) (X : Vector) (i : nat) : Vector :=
  match line_model with
  | Endpoints => block X (Z.to_nat (6 * Nkf + 3 * Npt) + 6 * i) 6
  | Pluker => block X (Z.to_nat (6 * Nkf + 3 * Npt) + 4 * i) 4
  end.

Definition publish_line (Nkf Npt : Z) (X : Vector) (ls_list : list Z)
    (i : nat) (m : MapHandler) : option MapHandler :=
  lm ← ls_list !! i;
  l ← deref (map_lines m) lm;
  let Xi := line_block Nkf Npt X i in
  match line_model with
  | Endpoints =>
      let DX := vsub Xi (MapLine.line3D l) in
      let l := if Dbl.gt (norm DX) displacement_tol
               then MapLine.set_inlier false l else l in
      Some (set_map_lines
              (set_at (map_lines m) lm (Some (MapLine.set_line3D Xi l))) m)
  | Pluker =>
      let DX := vsub Xi (MapLine.orthNDw l) in
      let l := if Dbl.gt (norm DX) displacement_tol
               then MapLine.set_inlier false l else l in
      let newPluker := changeOrthToPluker DX in
      Some (set_map_lines
              (set_at (map_lines m) lm (Some (MapLine.set_NDw newPluker l))) m)
  end.

Definition publish (X : Vector) (kf_list pt_list ls_list : list Z)
    (pt_obs_list ls_obs_list : list Vector6i) (m : MapHandler)
    : option MapHandler :=
  let Nkf := Z.of_nat (length kf_list) in
  let Npt := count_landmarks pt_obs_list in
  let Nls := count_landmarks ls_obs_list in
  m1 ← for_each (publish_KF Nkf X kf_list) (seq 0 (Z.to_nat Nkf)) m;
  m2 ← for_each (publish_point Nkf X pt_list) (seq 0 (Z.to_nat Npt)) m1;
  m3 ← for_each (publish_line Nkf Npt X ls_list) (seq 0 (Z.to_nat Nls)) m2;
  (* Remove bad observations *)
  m4 ← for_each remove_pt_observation (reverse pt_obs_list) m3;
  for_each remove_ls_observation (reverse ls_obs_list) m4.

(** The whole solver: the return code and the map. The lock [m_insert_kf]
    that the source holds during the write-back is not modelled. *)
Definition levMarquardtOptimization (X_aux : Vector)
    (kf_list pt_list ls_list : list Z)
    (pt_obs_list ls_obs_list : list Vector6i) : option (Z * MapHandler) :=
  let st := lm_solve X_aux kf_list pt_obs_list ls_obs_list in
  if decide (vo_status m ≠ VO_INSERTING_KF) then
    m' ← publish (X st) kf_list pt_list ls_list pt_obs_list ls_obs_list m;
    Some (0, m')
  else Some (-1, m).

End LevenbergMarquardt.

Definition levMarquardtOptimizationLBAForPluker `{Collaborators} `{LMKernels}
    (cfg : SlamConfig) (m : MapHandler) :=
  levMarquardtOptimization cfg Pluker m.

Definition levMarquardtOptimizationLBA `{Collaborators} `{LMKernels}
    (cfg : SlamConfig) (m : MapHandler) :=
  levMarquardtOptimization cfg Endpoints m.


(** ** Loop detection: the verdict of the robust relative-pose solver *)

(** What the Gauss-Newton iterations of [computeRelativePoseRobustGN] leave
    behind for the decision: the normalized residual [e], the largest
    eigenvalue [DT_cov_eig(5)] of the covariance [H.inverse()], and the
    translation [t] and rotation [r] of the estimated motion. *)
Record GNOutcome : Type := {
  gn_e : dbl;
  gn_DT_cov_eig5 : dbl;
  gn_t : dbl;
  gn_r : dbl
}.

(** "Ratio of outliers": [double(N_inl) / double(N)]. *)
Definition ratio_inliers (lc_points : list PointFeature.t)
    (lc_lines : list LineFeature.t) : dbl :=
  let N := Z.of_nat (length lc_points + length lc_lines) in
  let N_inl := Z.of_nat (length (filter (λ p, PointFeature.inlier p = true) lc_points)
                         + length (filter (λ l, LineFeature.inlier l = true) lc_lines)) in
  Dbl.div (Dbl.of_Z N_inl) (Dbl.of_Z N).

(** "Check whether it is Loop Closure or not" in
    [computeRelativePoseRobustGN]: the value the function returns. *)
Definition computeRelativePoseRobustGN (cfg : SlamConfig) (o : GNOutcome)
    (lc_points : list PointFeature.t) (lc_lines : list LineFeature.t) : bool :=
  (* Residue value *)
  let lc_res := Dbl.lt (gn_e o) (lcRes cfg) in
  (* Uncertainty value *)
  let lc_unc := Dbl.lt (gn_DT_cov_eig5 o) (lcUnc cfg) in
  (* Ratio of outliers *)
  let lc_inl := Dbl.gt (ratio_inliers lc_points lc_lines) (lcInl cfg) in
  let lc_inl := true in
  (* Geometry condition *)
  let lc_trs := Dbl.lt (gn_t o) (lcTrs cfg) in
  let lc_rot := Dbl.lt (gn_r o) (lcRot cfg) in
  (* Decision *)
  lc_res && lc_unc && lc_inl && lc_trs && lc_rot.

(** The same decision in [computeRelativePoseGN], where the line
    [lc_inl = true;] is commented out. *)
Definition computeRelativePoseGN (cfg : SlamConfig) (o : GNOutcome)
    (lc_points : list PointFeature.t) (lc_lines : list LineFeature.t) : bool :=
  let lc_res := Dbl.lt (gn_e o) (lcRes cfg) in
  let lc_unc := Dbl.lt (gn_DT_cov_eig5 o) (lcUnc cfg) in
  let lc_inl := Dbl.gt (ratio_inliers lc_points lc_lines) (lcInl cfg) in
  let lc_trs := Dbl.lt (gn_t o) (lcTrs cfg) in
  let lc_rot := Dbl.lt (gn_r o) (lcRot cfg) in
  lc_res && lc_unc && lc_inl && lc_trs && lc_rot.

(** ** Loop closure: the driver and the pose-graph correction *)

(** The g2o pose-graph optimization of [loopClosureOptimizationCovGraphG2O]
    with the write-back of the corrected poses and the displacement of the
    landmarks: everything the function does before it marks the loop edges. *)
Class PoseGraph : Type := {
  correct_poses : MapHandler -> MapHandler
}.

(** What [lookForLoopCandidates] and [isLoopClosure] report for the newest
    keyframe. *)
Inductive Detection : Type :=
| NoCandidate
| NotALoop
| IsLoop (kf_prev_idx : Z) (pose_inc : Vector)
         (lc_pt_idx lc_ls_idx : list Vector4i).

Section LoopClosure.
Context `{C : Collaborators} `{G : PoseGraph}.

(** "mark as optimized the lc_idx_list edges": the third component of every
    entry of [lc_idx_list] is set to [0]. *)
Definition mark_optimized (m : MapHandler) : MapHandler :=
  set_lc_idx_list (map (λ e : Vector3i, (e.1.1, e.1.2, 0)) (lc_idx_list m)) m.

Definition loopClosureOptimizationCovGraphG2O (m : MapHandler)
    : option MapHandler :=
  let m1 := correct_poses m in
  (* mark as optimized the lc_idx_list edges *)
  let m2 := mark_optimized m1 in
  (* fuse local map from both sides of the loop and update graphs *)
  m3 ← loopClosureFuseLandmarks m2;
  Some (set_lc_state LC_IDLE m3).

Definition loopClosure (d : Detection) (m : MapHandler) : option MapHandler :=
  let kf_curr_idx := max_kf_idx m in
  let m1 :=
    match d with
    | IsLoop kf_prev_idx pose_inc lc_pt_idx lc_ls_idx =>
        (* if it is loop closure, add information and update status *)
        let m' := set_lc_idx_list (lc_idx_list m ++ [(kf_prev_idx, kf_curr_idx, 1)])
                    (set_lc_pose_list (lc_pose_list m ++ [pose_inc])
                       (set_lc_ls_idxs (lc_ls_idxs m ++ [lc_ls_idx])
                          (set_lc_pt_idxs (lc_pt_idxs m ++ [lc_pt_idx]) m))) in
        if decide (lc_state m' = LC_IDLE) then set_lc_state LC_ACTIVE m' else m'
    | NotALoop | NoCandidate =>
        if decide (lc_state m = LC_ACTIVE) then set_lc_state LC_READY m else m
    end in
  (* LC computation *)
  if decide (lc_state m1 = LC_READY) then
    m2 ← loopClosureOptimizationCovGraphG2O m1;
    Some (set_lc_state LC_IDLE m2)
  else Some m1.

End LoopClosure.

(** ** Keyframe insertion, the local map and the input of the bundle
       adjustment

    [initialize], [expandGraphs], [addKeyFrame], [formLocalMap] and
    [localBundleAdjustment]. *)

(** Further values of [SlamConfig], all of them [int] or [bool] in the
    calls below. *)
Record MapConfig : Type := {
  hasPoints : bool;
  hasLines : bool;
  minLMCovGraph : Z;
  minKFLocalMap : Z;
  lcKFDist : Z;
  lcKFMaxDist : Z;
  lcNKFClosest : Z;
  lcInlierRatio : dbl
}.

(** The handler with the members that the insertion of a keyframe and the
    place recognition use beside the map: [Twf], the pose of the world in
    the newest keyframe, the last pose increment [DT], and the confusion
    matrix [conf_matrix]. *)
Record Handler : Type := {
  the_map : MapHandler;
  Twf : Matrix;
  DT : Matrix;
  conf_matrix : list (list dbl)
}.

Definition set_the_map (v : MapHandler) (h : Handler) : Handler :=
  {| the_map := v; Twf := Twf h; DT := DT h; conf_matrix := conf_matrix h |}.
Definition set_conf_matrix (v : list (list dbl)) (h : Handler) : Handler :=
  {| the_map := the_map h; Twf := Twf h; DT := DT h; conf_matrix := v |}.

Definition set_max_kf_idx (v : Z) (m : MapHandler) : MapHandler :=
  {| map_keyframes := map_keyframes m;
     map_points := map_points m;
     map_lines := map_lines m;
     map_points_kf_idx := map_points_kf_idx m;
     map_lines_kf_idx := map_lines_kf_idx m;
     full_graph := full_graph m;
     max_pt_idx := max_pt_idx m;
     max_ls_idx := max_ls_idx m;
     max_kf_idx := v;
     lc_idx_list := lc_idx_list m;
     lc_pose_list := lc_pose_list m;
     lc_pt_idxs := lc_pt_idxs m;
     lc_ls_idxs := lc_ls_idxs m;
     lc_state := lc_state m;
     vo_status := vo_status m |}.

(** [Matrix4d::Identity()] *)
Definition identity4 : Matrix :=
  [[Dbl.of_Z 1; Dbl.of_Z 0; Dbl.of_Z 0; Dbl.of_Z 0];
   [Dbl.of_Z 0; Dbl.of_Z 1; Dbl.of_Z 0; Dbl.of_Z 0];
   [Dbl.of_Z 0; Dbl.of_Z 0; Dbl.of_Z 1; Dbl.of_Z 0];
   [Dbl.of_Z 0; Dbl.of_Z 0; Dbl.of_Z 0; Dbl.of_Z 1]].

(** Assignments to single members of a keyframe and of a landmark. *)
Definition KeyFrame_set_kf_idx (v : Z) (k : KeyFrame.t) : KeyFrame.t :=
  {| KeyFrame.kf_idx := v; KeyFrame.T_kf_w := KeyFrame.T_kf_w k;
     KeyFrame.x_kf_w := KeyFrame.x_kf_w k; KeyFrame.local := KeyFrame.local k;
     KeyFrame.stereo_frame := KeyFrame.stereo_frame k |}.
Definition KeyFrame_set_x_kf_w (v : Vector) (k : KeyFrame.t) : KeyFrame.t :=
  {| KeyFrame.kf_idx := KeyFrame.kf_idx k; KeyFrame.T_kf_w := KeyFrame.T_kf_w k;
     KeyFrame.x_kf_w := v; KeyFrame.local := KeyFrame.local k;
     KeyFrame.stereo_frame := KeyFrame.stereo_frame k |}.
Definition KeyFrame_set_local (v : bool) (k : KeyFrame.t) : KeyFrame.t :=
  {| KeyFrame.kf_idx := KeyFrame.kf_idx k; KeyFrame.T_kf_w := KeyFrame.T_kf_w k;
     KeyFrame.x_kf_w := KeyFrame.x_kf_w k; KeyFrame.local := v;
     KeyFrame.stereo_frame := KeyFrame.stereo_frame k |}.
Definition MapPoint_set_local (v : bool) (p : MapPoint.t) : MapPoint.t :=
  {| MapPoint.idx := MapPoint.idx p; MapPoint.point3D := MapPoint.point3D p;
     MapPoint.inlier := MapPoint.inlier p; MapPoint.local := v;
     MapPoint.desc_list := MapPoint.desc_list p;
     MapPoint.obs_list := MapPoint.obs_list p;
     MapPoint.dir_list := MapPoint.dir_list p;
     MapPoint.kf_obs_list := MapPoint.kf_obs_list p;
     MapPoint.med_desc := MapPoint.med_desc p;
     MapPoint.med_obs_dir := MapPoint.med_obs_dir p |}.
Definition MapLine_set_local (v : bool) (l : MapLine.t) : MapLine.t :=
  {| MapLine.idx := MapLine.idx l; MapLine.line3D := MapLine.line3D l;
     MapLine.NDw := MapLine.NDw l; MapLine.orthNDw := MapLine.orthNDw l;
     MapLine.inlier := MapLine.inlier l; MapLine.local := v;
     MapLine.desc_list := MapLine.desc_list l;
     MapLine.obs_list := MapLine.obs_list l;
     MapLine.pts_list := MapLine.pts_list l;
     MapLine.dir_list := MapLine.dir_list l;
     MapLine.kf_obs_list := MapLine.kf_obs_list l;
     MapLine.NDw_obs_list := MapLine.NDw_obs_list l;
     MapLine.med_desc := MapLine.med_desc l;
     MapLine.med_obs_dir := MapLine.med_obs_dir l |}.

(** "reset indices": [pt->idx = -1] for every pointer of [stereo_pt], then
    [ls->idx = -1] for every pointer of [stereo_ls]; the loops dereference
    each pointer without a test. *)
Definition reset_indices (kf : KeyFrame.t) : option KeyFrame.t :=
  let fr := KeyFrame.stereo_frame kf in
  pts ← mapM (λ o : option PointFeature.t,
                f ← o; Some (Some (PointFeature.set_idx (-1) f)))
             (StereoFrame.stereo_pt fr);
  lss ← mapM (λ o : option LineFeature.t,
                f ← o; Some (Some (LineFeature.set_idx (-1) f)))
             (StereoFrame.stereo_ls fr);
  Some (KeyFrame.set_stereo_frame
          (StereoFrame.set_stereo_ls lss (StereoFrame.set_stereo_pt pts fr))
          kf).

(** [std::map::insert]: the pair is added unless the key is present. *)
Definition map_insert_new (k : Z) (v : list Z) (t : gmap Z (list Z))
    : gmap Z (list Z) :=
  match t !! k with
  | Some _ => t
  | None => <[k := v]> t
  end.

(** [initialize]. The map is emptied and receives [kf0] as its only
    keyframe. [lc_idx_list] and [lc_pose_list] are cleared; [lc_pt_idxs],
    [lc_ls_idxs] and [lc_state] are not assigned. The bag-of-words
    descriptors of [kf0], the timer and the start of the worker threads are
    outside the modelled state. *)
Definition initialize (kf0 : KeyFrame.t) (h : Handler) : option Handler :=
  let m := the_map h in
  (* reset indices *)
  kf0' ← reset_indices kf0;
  (* insert keyframe and add to map of indexes *)
  let aux_vec : list Z := [] in
  Some {| the_map :=
            {| map_keyframes := [Some kf0'];
               map_points := [];
               map_lines := [];
               map_points_kf_idx := map_insert_new (KeyFrame.kf_idx kf0) aux_vec ∅;
               map_lines_kf_idx := map_insert_new (KeyFrame.kf_idx kf0) aux_vec ∅;
               (* initialize graphs *)
               full_graph := initial_full_graph;
               max_pt_idx := 0;
               max_ls_idx := 0;
               max_kf_idx := 0;
               lc_idx_list := [];
               lc_pose_list := [];
               lc_pt_idxs := lc_pt_idxs m;
               lc_ls_idxs := lc_ls_idxs m;
               lc_state := lc_state m;
               vo_status := vo_status m |};
          Twf := identity4;
          DT := identity4;
          conf_matrix := [[Dbl.of_Z 1]] |}.

(** [g.resize( g_size )] followed by [g[i].resize( g_size )] for every
    row [i < g_size]. New entries are value-initialized. *)
Definition resize_graph {A} (g_size : nat) (zero : A) (g : list (list A))
    : list (list A) :=
  map (resize g_size zero) (resize g_size [] g).

(** [expandGraphs]: [g_size] is computed once, from [full_graph], and both
    matrices are resized to it. *)
Definition expandGraphs (h : Handler) : Handler :=
  let m := the_map h in
  let g_size := S (length (full_graph m)) in
  (* full graph *)
  let h1 := set_the_map
              (set_full_graph (resize_graph g_size 0 (full_graph m)) m) h in
  (* confusion matrix *)
  set_conf_matrix (resize_graph g_size Dbl.zero (conf_matrix h1)) h1.

Section Insertion.
Context `{C : Collaborators}.

(** [addKeyFrame] when [SlamConfig::multithreadSLAM()] holds: the keyframe
    is numbered, posed relative to the last keyframe and stored; the
    matching and the optimization are then left to the worker threads, to
    which [addKeyFrame_multiThread] queues the pair. The single-threaded
    branch starts with the same statements, up to "reset indices". *)
Definition addKeyFrame_multithread (curr_kf : KeyFrame.t) (h : Handler)
    : option Handler :=
  (* expand graphs *)
  let h := expandGraphs h in
  let m := the_map h in
  (* select previous keyframe *)
  prev_kf ← mjoin (last (map_keyframes m));
  let m := set_max_kf_idx (max_kf_idx m + 1) m in
  let curr_kf := KeyFrame_set_kf_idx (max_kf_idx m) curr_kf in
  let curr_kf := KeyFrame_set_local true curr_kf in
  (* update pose of current keyframe wrt previous one (in case of LC) *)
  let T_curr_w := mat_mul (KeyFrame.T_kf_w prev_kf) (KeyFrame.T_kf_w curr_kf) in
  let curr_kf := KeyFrame_set_x_kf_w (logmap_se3 T_curr_w) curr_kf in
  let curr_kf := KeyFrame.set_T_kf_w (expmap_se3 (KeyFrame.x_kf_w curr_kf))
                   curr_kf in
  (* Estimates Twf *)
  let Twf' := expmap_se3 (logmap_se3 (inverse_se3 (KeyFrame.T_kf_w curr_kf))) in
  (* estimates pose increment *)
  let DT' := expmap_se3 (logmap_se3 (mat_mul Twf' (KeyFrame.T_kf_w prev_kf))) in
  (* reset indices *)
  curr_kf ← reset_indices curr_kf;
  (* insert keyframe and add to map of indexes *)
  let aux_vec : list Z := [] in
  let m := set_map_keyframes (map_keyframes m ++ [Some curr_kf]) m in
  let m := set_map_points_kf_idx
             (map_insert_new (KeyFrame.kf_idx curr_kf) aux_vec
                (map_points_kf_idx m)) m in
  let m := set_map_lines_kf_idx
             (map_insert_new (KeyFrame.kf_idx curr_kf) aux_vec
                (map_lines_kf_idx m)) m in
  Some {| the_map := m; Twf := Twf'; DT := DT';
          conf_matrix := conf_matrix h |}.

End Insertion.

(** *** The local map ([formLocalMap]) *)

(** "reset local KFs & LMs": every keyframe and landmark that is not NULL
    gets [local = false]. *)
Definition reset_local (m : MapHandler) : MapHandler :=
  let m := set_map_keyframes
             (map (fmap (KeyFrame_set_local false)) (map_keyframes m)) m in
  let m := set_map_points
             (map (fmap (MapPoint_set_local false)) (map_points m)) m in
  set_map_lines (map (fmap (MapLine_set_local false)) (map_lines m)) m.

(** [if( lm_idx != -1 && map_points[lm_idx] != NULL )
       map_points[lm_idx]->local = true;] *)
Definition mark_point (lm_idx : Z) (m : MapHandler) : option MapHandler :=
  if decide (lm_idx ≠ -1) then
    mp ← at_ (map_points m) lm_idx;
    match mp with
    | Some p =>
        Some (set_map_points
                (set_at (map_points m) lm_idx
                   (Some (MapPoint_set_local true p))) m)
    | None => Some m
    end
  else Some m.

Definition mark_line (lm_idx : Z) (m : MapHandler) : option MapHandler :=
  if decide (lm_idx ≠ -1) then
    ml ← at_ (map_lines m) lm_idx;
    match ml with
    | Some l =>
        Some (set_map_lines
                (set_at (map_lines m) lm_idx
                   (Some (MapLine_set_local true l))) m)
    | None => Some m
    end
  else Some m.

(** The landmarks of the newest keyframe: a feature pointer is tested
    against NULL before its [idx] is read. *)
Definition mark_landmarks_of_back (k : KeyFrame.t) (m : MapHandler)
    : option MapHandler :=
  m1 ← for_each (λ (o : option PointFeature.t) m,
                   match o with
                   | Some f => mark_point (PointFeature.idx f) m
                   | None => Some m
                   end)
                (StereoFrame.stereo_pt (KeyFrame.stereo_frame k)) m;
  for_each (λ (o : option LineFeature.t) m,
              match o with
              | Some f => mark_line (LineFeature.idx f) m
              | None => Some m
              end)
           (StereoFrame.stereo_ls (KeyFrame.stereo_frame k)) m1.

(** "loop over the landmarks seen by KF{i}": here [idx] is read through
    the pointer without a test. *)
Definition mark_landmarks_of (k : KeyFrame.t) (m : MapHandler)
    : option MapHandler :=
  m1 ← for_each (λ (o : option PointFeature.t) m,
                   f ← o; mark_point (PointFeature.idx f) m)
                (StereoFrame.stereo_pt (KeyFrame.stereo_frame k)) m;
  for_each (λ (o : option LineFeature.t) m,
              f ← o; mark_line (LineFeature.idx f) m)
           (StereoFrame.stereo_ls (KeyFrame.stereo_frame k)) m1.

(** [full_graph[g_size][i] >= SlamConfig::minLMCovGraph() ||
     abs(g_size-i) <= SlamConfig::minKFLocalMap()] for a cell that holds
    [c]. *)
Definition in_window (mc : MapConfig) (g_size i c : Z) : bool :=
  bool_decide (minLMCovGraph mc ≤ c)
  || bool_decide (Z.abs (g_size - i) ≤ minKFLocalMap mc).

(** One turn of the loop over the covisibility graph. *)
Definition formLocalMap_turn (mc : MapConfig) (g_size i : Z) (m : MapHandler)
    : option MapHandler :=
  c ← graph_get (full_graph m) g_size i;
  if in_window mc g_size i c then
    k ← deref (map_keyframes m) i;
    let m := set_map_keyframes
               (set_at (map_keyframes m) i (Some (KeyFrame_set_local true k)))
               m in
    (* loop over the landmarks seen by KF{i} *)
    mark_landmarks_of k m
  else Some m.

(** [formLocalMap()], the single-threaded version. *)
Definition formLocalMap (mc : MapConfig) (m : MapHandler) : option MapHandler :=
  (* reset local KFs & LMs *)
  let m := reset_local m in
  (* set first KF and their associated LMs as local *)
  k ← mjoin (last (map_keyframes m));
  let m := set_map_keyframes
             (<[pred (length (map_keyframes m)) :=
                  Some (KeyFrame_set_local true k)]> (map_keyframes m)) m in
  m ← mark_landmarks_of_back k m;
  (* loop over covisibility graph / full graph if we want to find more
     points *)
  let g_size := Z.of_nat (length (full_graph m)) - 1 in
  for_each (formLocalMap_turn mc g_size)
           (map Z.of_nat (seq 0 (Z.to_nat g_size))) m.

(** An observation of the landmark [j] among the point features of a
    keyframe, and among its line features. *)
Definition observes_pt (k : KeyFrame.t) (j : Z) : bool :=
  existsb (λ o : option PointFeature.t,
             match o with
             | Some f => bool_decide (PointFeature.idx f = j)
             | None => false
             end)
          (StereoFrame.stereo_pt (KeyFrame.stereo_frame k)).

Definition observes_ls (k : KeyFrame.t) (j : Z) : bool :=
  existsb (λ o : option LineFeature.t,
             match o with
             | Some f => bool_decide (LineFeature.idx f = j)
             | None => false
             end)
          (StereoFrame.stereo_ls (KeyFrame.stereo_frame k)).

(** *** The input of the local bundle adjustment
        ([localBundleAdjustment]) *)

(** What [localBundleAdjustment] hands to the solver. *)
Record LBAInput : Type := {
  lba_X_aux : Vector;
  lba_kf_list : list Z;
  lba_pt_list : list Z;
  lba_ls_list : list Z;
  lba_pt_obs_list : list Vector6i;
  lba_ls_obs_list : list Vector6i
}.

(** "create list of local keyframes": the six pose parameters go to
    [X_aux], the index to [kf_list]. *)
Fixpoint gather_keyframes (kfs : list (option KeyFrame.t))
    (X_aux : Vector) (kf_list : list Z) : Vector * list Z :=
  match kfs with
  | [] => (X_aux, kf_list)
  | Some k :: kfs' =>
      if KeyFrame.local k && bool_decide (KeyFrame.kf_idx k ≠ 0)
      then gather_keyframes kfs' (X_aux ++ take 6 (KeyFrame.x_kf_w k))
                            (kf_list ++ [KeyFrame.kf_idx k])
      else gather_keyframes kfs' X_aux kf_list
  | None :: kfs' => gather_keyframes kfs' X_aux kf_list
  end.

(** The scan of [kf_list] for [kf_obs_list_]: the first position that holds
    it, or [-1]. *)
Definition kf_local_idx (kf_list : list Z) (kf : Z) : Z :=
  match list_find (λ k, k = kf) kf_list with
  | Some (j, _) => Z.of_nat j
  | None => -1
  end.

(** "gather all observations" of one landmark with [n_obs] entries in
    [obs_list]. *)
Definition gather_obs (kf_list : list Z) (lm_idx lm_local_idx : Z)
    (n_obs : nat) (kf_obs_list : list Z) : option (list Vector6i) :=
  mapM (λ i : nat,
          kf_obs_list_ ← kf_obs_list !! i;
          Some {| lm_idx_map := lm_idx;
                  lm_idx_loc := lm_local_idx;
                  lm_idx_obs := Z.of_nat i;
                  kf_idx_map := kf_obs_list_;
                  kf_idx_loc := kf_local_idx kf_list kf_obs_list_;
                  obs_inlier := 1 |})
       (seq 0 n_obs).

(** "create list of local point landmarks" *)
Fixpoint gather_points (kf_list : list Z) (pts : list (option MapPoint.t))
    (lm_local_idx : Z) (X_aux : Vector) (pt_obs_list : list Vector6i)
    (pt_list : list Z) : option (Vector * list Vector6i * list Z) :=
  match pts with
  | [] => Some (X_aux, pt_obs_list, pt_list)
  | Some p :: pts' =>
      if MapPoint.local p then
        obs ← gather_obs kf_list (MapPoint.idx p) lm_local_idx
                (length (MapPoint.obs_list p)) (MapPoint.kf_obs_list p);
        gather_points kf_list pts' (lm_local_idx + 1)
                      (X_aux ++ take 3 (MapPoint.point3D p))
                      (pt_obs_list ++ obs)
                      (pt_list ++ [MapPoint.idx p])
      else gather_points kf_list pts' lm_local_idx X_aux pt_obs_list pt_list
  | None :: pts' =>
      gather_points kf_list pts' lm_local_idx X_aux pt_obs_list pt_list
  end.

(** "create list of local line segment landmarks" *)
Fixpoint gather_lines (kf_list : list Z) (lss : list (option MapLine.t))
    (lm_local_idx : Z) (X_aux : Vector) (ls_obs_list : list Vector6i)
    (ls_list : list Z) : option (Vector * list Vector6i * list Z) :=
  match lss with
  | [] => Some (X_aux, ls_obs_list, ls_list)
  | Some l :: lss' =>
      if MapLine.local l then
        obs ← gather_obs kf_list (MapLine.idx l) lm_local_idx
                (length (MapLine.obs_list l)) (MapLine.kf_obs_list l);
        gather_lines kf_list lss' (lm_local_idx + 1)
                     (X_aux ++ take 6 (MapLine.line3D l))
                     (ls_obs_list ++ obs)
                     (ls_list ++ [MapLine.idx l])
      else gather_lines kf_list lss' lm_local_idx X_aux ls_obs_list ls_list
  | None :: lss' =>
      gather_lines kf_list lss' lm_local_idx X_aux ls_obs_list ls_list
  end.

(** The three loops of [localBundleAdjustment], in their order. *)
Definition lba_input (m : MapHandler) : option LBAInput :=
  let '(X_aux, kf_list) := gather_keyframes (map_keyframes m) [] [] in
  r ← gather_points kf_list (map_points m) 0 X_aux [] [];
  let '(X_aux, pt_obs_list, pt_list) := r in
  r ← gather_lines kf_list (map_lines m) 0 X_aux [] [];
  let '(X_aux, ls_obs_list, ls_list) := r in
  Some {| lba_X_aux := X_aux; lba_kf_list := kf_list;
          lba_pt_list := pt_list; lba_ls_list := ls_list;
          lba_pt_obs_list := pt_obs_list; lba_ls_obs_list := ls_obs_list |}.

(** [localBundleAdjustment]: the return code and the map. *)
Definition localBundleAdjustment `{Collaborators} `{LMKernels}
    (cfg : SlamConfig) (m : MapHandler) : option (Z * MapHandler) :=
  i ← lba_input m;
  (* Levenberg-Marquardt optimization of the local map *)
  if decide (length (lba_pt_obs_list i) + length (lba_ls_obs_list i) ≠ 0)%nat
  then levMarquardtOptimizationLBA cfg m (lba_X_aux i) (lba_kf_list i)
         (lba_pt_list i) (lba_ls_list i)
         (lba_pt_obs_list i) (lba_ls_obs_list i)
  else Some (-1, m).

(** The bookkeeping of the keyframes: one slot of [map_keyframes] for each
    index up to [max_kf_idx], one row and one column of [full_graph] for
    each slot, every keyframe at the position of its index and with an
    entry in both index tables. *)
Definition keyframes_indexed (m : MapHandler) : Prop :=
  Z.of_nat (length (map_keyframes m)) = max_kf_idx m + 1
  ∧ square (length (map_keyframes m)) (full_graph m)
  ∧ ∀ (i : nat) (k : KeyFrame.t),
      map_keyframes m !! i = Some (Some k) →
      KeyFrame.kf_idx k = Z.of_nat i
      ∧ is_Some (map_points_kf_idx m !! KeyFrame.kf_idx k)
      ∧ is_Some (map_lines_kf_idx m !! KeyFrame.kf_idx k).

(** No feature of the keyframe is NULL or refers to a landmark. *)
Definition unlinked (k : KeyFrame.t) : Prop :=
  Forall (λ o : option PointFeature.t,
            ∃ f, o = Some f ∧ PointFeature.idx f = -1)
         (StereoFrame.stereo_pt (KeyFrame.stereo_frame k))
  ∧ Forall (λ o : option LineFeature.t,
              ∃ f, o = Some f ∧ LineFeature.idx f = -1)
           (StereoFrame.stereo_ls (KeyFrame.stereo_frame k)).

(** The entry of a vector of pointers after the update [f] was applied to
    the object it points to, under the condition [c]. *)
Definition up {A} (f : A → A) (c : bool) (o : option (option A))
    : option (option A) :=
  if c then (fmap f : option A → option A) <$> o else o.

(** [m'] is [m] with [local] raised on the keyframes, point landmarks and
    line landmarks whose positions satisfy [ck], [cp] and [cl]; nothing
    else differs. *)
Definition raised_local (ck cp cl : nat → bool) (m m' : MapHandler) : Prop :=
  m' = set_map_lines (map_lines m')
         (set_map_points (map_points m')
            (set_map_keyframes (map_keyframes m') m))
  ∧ (∀ j : nat, map_keyframes m' !! j =
        up (KeyFrame_set_local true) (ck j) (map_keyframes m !! j))
  ∧ (∀ j : nat, map_points m' !! j =
        up (MapPoint_set_local true) (cp j) (map_points m !! j))
  ∧ (∀ j : nat, map_lines m' !! j =
        up (MapLine_set_local true) (cl j) (map_lines m !! j)).

(** Whether the loop over the covisibility graph selects the keyframe [i]:
    the test of [formLocalMap] on the cell [full_graph[g_size][i]]. *)
Definition selected (mc : MapConfig) (g : list (list Z)) (i : Z) : bool :=
  let g_size := Z.of_nat (length g) - 1 in
  match graph_get g g_size i with
  | Some c => in_window mc g_size i c
  | None => false
  end.

(** Whether the keyframe in slot [i] has a point feature, or a line
    feature, that refers to the landmark [j]. *)
Definition slot_observes_pt (m : MapHandler) (i : Z) (j : Z) : bool :=
  match deref (map_keyframes m) i with
  | Some k => observes_pt k j
  | None => false
  end.

Definition slot_observes_ls (m : MapHandler) (i : Z) (j : Z) : bool :=
  match deref (map_keyframes m) i with
  | Some k => observes_ls k j
  | None => false
  end.

(** The keyframes that [formLocalMap] makes local: the newest one and those
    that the loop over the graph selects. *)
Definition local_slot (mc : MapConfig) (m : MapHandler) (j : nat) : bool :=
  bool_decide (j = pred (length (map_keyframes m)))
  || existsb (λ i, selected mc (full_graph m) i && bool_decide (i = Z.of_nat j))
       (map Z.of_nat (seq 0 (Z.to_nat (Z.of_nat (length (full_graph m)) - 1)))).

(** The landmarks that a local keyframe observes. *)
Definition local_point (mc : MapConfig) (m : MapHandler) (j : nat) : bool :=
  slot_observes_pt m (Z.of_nat (pred (length (map_keyframes m)))) (Z.of_nat j)
  || existsb (λ i, selected mc (full_graph m) i
                   && slot_observes_pt m i (Z.of_nat j))
       (map Z.of_nat (seq 0 (Z.to_nat (Z.of_nat (length (full_graph m)) - 1)))).

Definition local_line (mc : MapConfig) (m : MapHandler) (j : nat) : bool :=
  slot_observes_ls m (Z.of_nat (pred (length (map_keyframes m)))) (Z.of_nat j)
  || existsb (λ i, selected mc (full_graph m) i
                   && slot_observes_ls m i (Z.of_nat j))
       (map Z.of_nat (seq 0 (Z.to_nat (Z.of_nat (length (full_graph m)) - 1)))).

(** The vectors of the map have the sizes of their Eigen types: six pose
    parameters for a keyframe, three coordinates for a point, six for the
    two end points of a line. *)
Definition dimensioned (m : MapHandler) : Prop :=
  Forall (λ o : option KeyFrame.t,
            ∀ k, o = Some k → length (KeyFrame.x_kf_w k) = 6%nat)
         (map_keyframes m)
  ∧ Forall (λ o : option MapPoint.t,
              ∀ p, o = Some p → length (MapPoint.point3D p) = 3%nat)
           (map_points m)
  ∧ Forall (λ o : option MapLine.t,
              ∀ l, o = Some l → length (MapLine.line3D l) = 6%nat)
           (map_lines m).

(** An observation refers to its landmark through its position in the list
    of local landmarks, and to its keyframe through the position in
    [kf_list], or through [-1] when the keyframe is not in that list. *)
Definition obs_linked (kf_list lm_list : list Z) (o : Vector6i) : Prop :=
  at_ lm_list (lm_idx_loc o) = Some (lm_idx_map o)
  ∧ (if decide (kf_idx_map o ∈ kf_list)
     then at_ kf_list (kf_idx_loc o) = Some (kf_idx_map o)
     else kf_idx_loc o = -1)
  ∧ obs_inlier o = 1.

(** *** Statement helpers for the culling and the matching *)

(** The test that [removeBadMapLandmarks] makes on a point landmark and on a
    line landmark: not local, first seen more than ten keyframes before
    the newest one ([latest]), and an outlier or seen too rarely. *)
Definition bad_point (cfg : SlamConfig) (latest : Z) (p : MapPoint.t) : bool :=
  negb (MapPoint.local p)
  && match MapPoint.kf_obs_list p with
     | kf_obs :: _ => bool_decide (latest - kf_obs > 10)
     | [] => false
     end
  && (negb (MapPoint.inlier p)
      || bool_decide (Z.of_nat (length (MapPoint.obs_list p)) < minLMObs cfg)).

Definition bad_line (cfg : SlamConfig) (latest : Z) (l : MapLine.t) : bool :=
  negb (MapLine.local l)
  && match MapLine.kf_obs_list l with
     | kf_obs :: _ => bool_decide (latest - kf_obs > 10)
     | [] => false
     end
  && (negb (MapLine.inlier l)
      || bool_decide (Z.of_nat (length (MapLine.obs_list l)) < minLMObs cfg)).

(** The slot of a landmark after the culling. *)
Definition culled {A} (bad : A → bool) (o : option (option A))
    : option (option A) :=
  match o with
  | Some (Some x) => if bad x then Some None else o
  | _ => o
  end.

(** The point landmarks are numbered by their slots: [max_pt_idx] is the
    number of slots, and a landmark carries the number of its slot. *)
Definition points_indexed (m : MapHandler) : Prop :=
  Z.of_nat (length (map_points m)) = max_pt_idx m
  ∧ ∀ (j : nat) (p : MapPoint.t),
      map_points m !! j = Some (Some p) → MapPoint.idx p = Z.of_nat j.

(** ** Place recognition and loop detection

    [insertKFBowVectorP], [insertKFBowVectorL], [insertKFBowVectorPL],
    [lookForLoopCandidates], [isLoopClosure] and the head of [loopClosure]
    that calls the last two. *)

(** An entry of [max_confmat]: [(0)] the index of a keyframe, [(1)] its
    score. *)
Definition Vector2d : Type := (dbl * dbl)%type.

(** [int( x )] for a [double]: the fraction is discarded; an infinity and
    NaN have no value as an [int]. *)
Definition Dbl_to_int (x : dbl) : option Z :=
  match x with
  | Dbl.Fin q => Some (Z.quot (Qnum q) (Z.pos (Qden q)))
  | _ => None
  end.

(** [std::max( a, b )]: [(a < b) ? b : a]. *)
Definition Dbl_max (a b : dbl) : dbl := if Dbl.lt a b then b else a.

(** [v(i)] for a fixed-size Eigen vector. *)
Definition coeff (v : Vector) (i : nat) : dbl := default Dbl.zero (v !! i).

(** [n > v] where [n] is a [size_t] and [v] an [int]: the [int] is converted
    to the unsigned type, a negative one to a value above every size. *)
Definition size_gt (n : nat) (v : Z) : bool :=
  bool_decide ((if decide (v < 0) then v + 2 ^ 64 else v) < Z.of_nat n).

(** DBoW2, the descriptor matcher, [vector_stdv], the comparator of the
    sort, the constructors of the features and the Gauss-Newton iterations
    live outside [mapHandler.cpp] or are numerical. The bag-of-words vectors
    [descDBoW_P] and [descDBoW_L] are members of a keyframe that the record
    [KeyFrame.t] does not carry: a score enters as a function of the two
    keyframes it compares. *)
Class PlaceRecognition : Type := {
  (** [dbow_voc_p.score( a->descDBoW_P, b->descDBoW_P )], where the vector
      of [a] was just computed by [dbow_voc_p.transform] *)
  score_p : KeyFrame.t -> KeyFrame.t -> dbl;
  (** [dbow_voc_l.score( a->descDBoW_L, b->descDBoW_L )] *)
  score_l : KeyFrame.t -> KeyFrame.t -> dbl;
  vector_stdv : list dbl -> dbl;
  (** [sort( v.begin(), v.end(), sort_confmat_by_score() )]: [std::sort]
      reorders the entries *)
  sort_confmat : list Vector2d -> list Vector2d;
  sort_confmat_permutes : forall l, sort_confmat l ≡ₚ l;
  (** [match( desc0, desc1, SlamConfig::minRatio12P(), matches_12 )]: the
      number it returns and [matches_12]; [match_l] with [minRatio12L] *)
  match_p : list Descriptor -> list Descriptor -> Z * list Z;
  match_l : list Descriptor -> list Descriptor -> Z * list Z;
  (** [new PointFeature( P, pl_obs )] *)
  new_PointFeature : Vector -> Vector -> PointFeature.t;
  (** [new LineFeature( sP, eP, le_obs, spl, epl )] *)
  new_LineFeature : Vector -> Vector -> Vector -> Vector -> Vector
                    -> LineFeature.t;
  (** the iterations of [computeRelativePoseRobustGN]: what they leave for
      the decision, the increment [x_inc], and the correspondences with
      their inlier flags *)
  robust_gn : list PointFeature.t -> list LineFeature.t
              -> GNOutcome * Vector * list PointFeature.t * list LineFeature.t
}.

(** [conf_matrix[i][j]] and [conf_matrix[i][j] = v] *)
Definition conf_get (c : list (list dbl)) (i j : Z) : option dbl :=
  row ← at_ c i; at_ row j.

Definition conf_set (i j : Z) (v : dbl) (c : list (list dbl))
    : option (list (list dbl)) :=
  row ← at_ c i;
  _ ← at_ row j;
  Some (set_at c i (set_at row j v)).

(** The integers [0 .. n-1] of a loop [for( int i = 0; i < n; i++ )]. *)
Definition upto (n : Z) : list Z := map Z.of_nat (seq 0 (Z.to_nat n)).

(** "fill the confusion matrix for the new KF": one turn of the loop for
    the keyframe index [i], where [score] gives the score against a stored
    keyframe. *)
Definition fill_conf_turn (score : KeyFrame.t -> dbl) (idx i : Z)
    (h : Handler) : option Handler :=
  slot ← at_ (map_keyframes (the_map h)) i;
  match slot with
  | Some kf_i =>
      let s := score kf_i in
      c1 ← conf_set idx i s (conf_matrix h);
      c2 ← conf_set i idx s c1;
      Some (set_conf_matrix c2 h)
  | None => Some h
  end.

(** The loop and the assignment of the diagonal cell that follows it. *)
Definition fill_conf_matrix (score : KeyFrame.t -> dbl) (self : dbl)
    (idx : Z) (h : Handler) : option Handler :=
  h1 ← for_each (fill_conf_turn score idx) (upto idx) h;
  c ← conf_set idx idx self (conf_matrix h1);
  Some (set_conf_matrix c h1).

Section PlaceRecognition.
Context `{R : PlaceRecognition}.

Definition insertKFBowVectorP (kf : KeyFrame.t) (h : Handler)
    : option Handler :=
  (* fill the confusion matrix for the new KF *)
  let idx := KeyFrame.kf_idx kf in
  fill_conf_matrix (score_p kf) (score_p kf kf) idx h.

Definition insertKFBowVectorL (kf : KeyFrame.t) (h : Handler)
    : option Handler :=
  let idx := KeyFrame.kf_idx kf in
  fill_conf_matrix (score_l kf) (score_l kf kf) idx h.

(** The combined score of [insertKFBowVectorPL]:
    [score = 0.0;
     score += ( score_p * n_pt   + score_l * n_ls   ) / n_pl;
     score += ( score_p * std_pt + score_l * std_ls ) / std_pl;] *)
Definition combined_score (n_pt n_ls : Z) (std_pt std_ls : dbl)
    (sp sl : dbl) : dbl :=
  let n_pl := n_pt + n_ls in
  let std_pl := Dbl.add std_ls std_pt in
  let score := Dbl.zero in
  let score :=
    Dbl.add score
      (Dbl.div (Dbl.add (Dbl.mul sp (Dbl.of_Z n_pt)) (Dbl.mul sl (Dbl.of_Z n_ls)))
               (Dbl.of_Z n_pl)) in
  Dbl.add score
    (Dbl.div (Dbl.add (Dbl.mul sp std_pt) (Dbl.mul sl std_ls)) std_pl).

Definition insertKFBowVectorPL (kf : KeyFrame.t) (h : Handler)
    : option Handler :=
  let fr := KeyFrame.stereo_frame kf in
  (* estimate dispersion of point features *)
  pts ← mapM (λ o : option PointFeature.t, o) (StereoFrame.stereo_pt fr);
  let pt_x := map (λ pt, coeff (PointFeature.pl pt) 0) pts in
  let pt_y := map (λ pt, coeff (PointFeature.pl pt) 1) pts in
  let std_pt := Dbl.add (vector_stdv pt_x) (vector_stdv pt_y) in
  let n_pt := Z.of_nat (length pt_x) in
  (* estimate dispersion of line features *)
  lss ← mapM (λ o : option LineFeature.t, o) (StereoFrame.stereo_ls fr);
  let mp (ls : LineFeature.t) : Vector :=
    map (λ x, Dbl.mul x half)
        (vadd (LineFeature.spl ls) (LineFeature.epl ls)) in
  let ls_x := map (λ ls, coeff (mp ls) 0) lss in
  let ls_y := map (λ ls, coeff (mp ls) 1) lss in
  let std_ls := Dbl.add (vector_stdv ls_x) (vector_stdv ls_y) in
  let n_ls := Z.of_nat (length ls_x) in
  (* Combined Approach *)
  let score (a : KeyFrame.t) :=
    combined_score n_pt n_ls std_pt std_ls (score_p kf a) (score_l kf a) in
  let idx := KeyFrame.kf_idx kf in
  fill_conf_matrix score (score kf) idx h.

(** *** [lookForLoopCandidates] *)

(** "find the best matches": the turn for the keyframe index [i]. *)
Definition candidate_turn (kf_curr_idx : Z) (h : Handler) (i : Z)
    (max_confmat : list Vector2d) : option (list Vector2d) :=
  slot ← at_ (map_keyframes (the_map h)) i;
  match slot with
  | Some _ =>
      v ← conf_get (conf_matrix h) i kf_curr_idx;
      let aux : Vector2d := (Dbl.of_Z i, v) in
      Some (max_confmat ++ [aux])
  | None => Some max_confmat
  end.

(** "find the minimum score in the covisibility graph": the turn for the
    keyframe index [i]. *)
Definition min_score_turn (mc : MapConfig) (kf_curr_idx : Z) (h : Handler)
    (i : Z) (lc_min_score : dbl) : option dbl :=
  c ← graph_get (full_graph (the_map h)) i kf_curr_idx;
  if bool_decide (minLMCovGraph mc ≤ c)
     || bool_decide (kf_curr_idx - i ≤ minKFLocalMap mc + 3) then
    score_i ← conf_get (conf_matrix h) i kf_curr_idx;
    if Dbl.lt score_i lc_min_score && Dbl.gt score_i (Dbl.Fin (1 # 1000))
    then Some score_i else Some lc_min_score
  else Some lc_min_score.

(** The count of the entries after the first one that are close to
    [idx_max] and score at least [lc_min_score * 0.8]: one turn. *)
Definition closest_turn (mc : MapConfig) (idx_max : Z) (lc_min_score : dbl)
    (e : Vector2d) (Nkf_closest : Z) : option Z :=
  idx ← Dbl_to_int e.1;
  if bool_decide (Z.abs (idx - idx_max) ≤ lcKFMaxDist mc)
     && Dbl.le (Dbl.mul lc_min_score (Dbl.Fin (8 # 10))) e.2
  then Some (Nkf_closest + 1) else Some Nkf_closest.

(** [lookForLoopCandidates]: the value it returns and [kf_prev_idx]. *)
Definition lookForLoopCandidates (mc : MapConfig) (kf_curr_idx : Z)
    (h : Handler) : option (bool * Z) :=
  (* find the best matches *)
  max_confmat ← for_each (candidate_turn kf_curr_idx h)
                         (upto (kf_curr_idx - lcKFDist mc)) [];
  (* if there are enough matches.. *)
  if size_gt (length max_confmat) (lcKFMaxDist mc) then
    let max_confmat := sort_confmat max_confmat in
    (* find the minimum score in the covisibility graph *)
    lc_min_score ← for_each (min_score_turn mc kf_curr_idx h)
                            (upto kf_curr_idx) (Dbl.of_Z 1);
    (* the best match must has an score above lc_dbow_score_max *)
    best ← max_confmat !! 0%nat;
    idx_max ← Dbl_to_int best.1;
    if Dbl.le lc_min_score best.2 then
      Nkf_closest ← for_each (closest_turn mc idx_max lc_min_score)
                             (drop 1 max_confmat) 0;
      (* update in case of being loop closure candidate *)
      if bool_decide (lcNKFClosest mc ≤ Nkf_closest)
      then Some (true, idx_max) else Some (false, -1)
    else Some (false, -1)
  else Some (false, -1).

(** *** [isLoopClosure] *)

(** "points f2f tracking": the turn for the entry [i2] at the position [i1]
    of [matches_12]. *)
Definition lc_point_turn (kf0 kf1 : KeyFrame.t) (e : Z * Z)
    (acc : list PointFeature.t * list Vector4i)
    : option (list PointFeature.t * list Vector4i) :=
  let '(i1, i2) := e in
  if decide (i2 < 0) then Some acc
  else
    f0 ← deref (StereoFrame.stereo_pt (KeyFrame.stereo_frame kf0)) i1;
    f1 ← deref (StereoFrame.stereo_pt (KeyFrame.stereo_frame kf1)) i2;
    (* save data for optimization *)
    let pt := new_PointFeature (PointFeature.P f0) (PointFeature.pl f1) in
    (* save indices for fusing LMs *)
    let idx : Vector4i := (PointFeature.idx f0, i1, PointFeature.idx f1, i2) in
    Some (acc.1 ++ [pt], acc.2 ++ [idx]).

Definition lc_line_turn (kf0 kf1 : KeyFrame.t) (e : Z * Z)
    (acc : list LineFeature.t * list Vector4i)
    : option (list LineFeature.t * list Vector4i) :=
  let '(i1, i2) := e in
  if decide (i2 < 0) then Some acc
  else
    f0 ← deref (StereoFrame.stereo_ls (KeyFrame.stereo_frame kf0)) i1;
    f1 ← deref (StereoFrame.stereo_ls (KeyFrame.stereo_frame kf1)) i2;
    let ls := new_LineFeature (LineFeature.sP f0) (LineFeature.eP f0)
                (LineFeature.le f1) (LineFeature.spl f1) (LineFeature.epl f1) in
    let idx : Vector4i := (LineFeature.idx f0, i1, LineFeature.idx f1, i2) in
    Some (acc.1 ++ [ls], acc.2 ++ [idx]).

(** The positions of a vector paired with its entries. *)
Definition indexed (l : list Z) : list (Z * Z) := zip (upto (Z.of_nat (length l))) l.

(** "erase outliers from lc_pt_idx & lc_ls_idx" at the end of
    [computeRelativePoseRobustGN]: the entry at the position of every
    inlier is kept. *)
Definition keep_inliers {A} (inl : A -> bool) (fs : list A)
    (idxs : list Vector4i) : option (list Vector4i) :=
  for_each (λ (e : Z * A) (acc : list Vector4i),
              if inl e.2 then i ← at_ idxs e.1; Some (acc ++ [i])
              else Some acc)
           (zip (upto (Z.of_nat (length fs))) fs) [].

(** [100.0 * common / n_0] and [100.0 * common / n_1], the larger one. *)
Definition inl_ratio (common : Z) (n_0 n_1 : nat) : dbl :=
  Dbl_max (Dbl.div (Dbl.mul (Dbl.of_Z 100) (Dbl.of_Z common))
                   (Dbl.of_Z (Z.of_nat n_0)))
          (Dbl.div (Dbl.mul (Dbl.of_Z 100) (Dbl.of_Z common))
                   (Dbl.of_Z (Z.of_nat n_1))).

(** [isLoopClosure]: [None] inside for [false]; for [true] the pose
    increment and the correspondences [lc_pt_idx] and [lc_ls_idx] that the
    caller queues. *)
Definition isLoopClosure `{C : Collaborators} (mc : MapConfig)
    (cfg : SlamConfig) (kf0 kf1 : KeyFrame.t)
    : option (option (Vector * list Vector4i * list Vector4i)) :=
  let fr0 := KeyFrame.stereo_frame kf0 in
  let fr1 := KeyFrame.stereo_frame kf1 in
  (* number of stereo matches *)
  let n_pt_0 := length (StereoFrame.stereo_pt fr0) in
  let n_pt_1 := length (StereoFrame.stereo_pt fr1) in
  let n_ls_0 := length (StereoFrame.stereo_ls fr0) in
  let n_ls_1 := length (StereoFrame.stereo_ls fr1) in
  (* points f2f tracking *)
  '(common_pt, lc_points, lc_pt_idx) ←
    (if hasPoints mc && negb (bool_decide (n_pt_1 = 0%nat))
        && negb (bool_decide (n_pt_0 = 0%nat)) then
       let '(common_pt, matches_12) :=
         match_p (StereoFrame.pdesc_l fr0) (StereoFrame.pdesc_l fr1) in
       r ← for_each (lc_point_turn kf0 kf1) (indexed matches_12) ([], []);
       Some (common_pt, r.1, r.2)
     else Some (0, [], []));
  (* line segments f2f tracking *)
  '(common_ls, lc_lines, lc_ls_idx) ←
    (if hasLines mc && negb (bool_decide (n_ls_1 = 0%nat))
        && negb (bool_decide (n_ls_0 = 0%nat)) then
       let '(common_ls, matches_12) :=
         match_l (StereoFrame.ldesc_l fr0) (StereoFrame.ldesc_l fr1) in
       r ← for_each (lc_line_turn kf0 kf1) (indexed matches_12) ([], []);
       Some (common_ls, r.1, r.2)
     else Some (0, [], []));
  (* estimate relative pose between both KFs *)
  let inl_ratio_pt := inl_ratio common_pt n_pt_0 n_pt_1 in
  let inl_ratio_ls := inl_ratio common_ls n_ls_0 n_ls_1 in
  let inl_ratio_condition :=
    if hasPoints mc && hasLines mc then
      Dbl.gt inl_ratio_pt (lcInlierRatio mc)
      && Dbl.gt inl_ratio_ls (lcInlierRatio mc)
    else if hasPoints mc then Dbl.gt inl_ratio_pt (lcInlierRatio mc)
    else if hasLines mc then Dbl.gt inl_ratio_ls (lcInlierRatio mc)
    else false in
  if inl_ratio_condition then
    let '(o, x_inc, lc_points, lc_lines) := robust_gn lc_points lc_lines in
    if computeRelativePoseRobustGN cfg o lc_points lc_lines then
      (* erase outliers from lc_pt_idx & lc_ls_idx *)
      lc_pt_idx_ ← keep_inliers PointFeature.inlier lc_points lc_pt_idx;
      lc_ls_idx_ ← keep_inliers LineFeature.inlier lc_lines lc_ls_idx;
      (* assign pose increment *)
      let pose_inc := logmap_se3 (inverse_se3 (expmap_se3 x_inc)) in
      Some (Some (pose_inc, lc_pt_idx_, lc_ls_idx_))
    else Some None
  else Some None.

(** The head of [loopClosure]: "look for loop closure candidates" and
    "compute relative transformation if it is LC candidate". *)
Definition detect `{C : Collaborators} (mc : MapConfig) (cfg : SlamConfig)
    (h : Handler) : option Detection :=
  let m := the_map h in
  let kf_curr_idx := max_kf_idx m in
  c ← lookForLoopCandidates mc kf_curr_idx h;
  let is_lc_candidate : bool := c.1 in
  let kf_prev_idx : Z := c.2 in
  if is_lc_candidate then
    kf0 ← deref (map_keyframes m) kf_prev_idx;
    kf1 ← deref (map_keyframes m) kf_curr_idx;
    r ← isLoopClosure mc cfg kf0 kf1;
    match r with
    | Some (pose_inc, lc_pt_idx, lc_ls_idx) =>
        Some (IsLoop kf_prev_idx pose_inc lc_pt_idx lc_ls_idx)
    | None => Some NotALoop
    end
  else Some NoCandidate.

End PlaceRecognition.
(** The confusion matrix is a square [n]×[n] matrix, and its cell [i][j]
    equals its cell [j][i]. *)
Definition conf_square (n : nat) (c : list (list dbl)) : Prop :=
  length c = n ∧ Forall (λ row, length row = n) c.

Definition conf_symmetric (c : list (list dbl)) : Prop :=
  ∀ i j : Z, conf_get c i j = conf_get c j i.

(** The cell [a][b] once the row and the column [idx] were filled: [self]
    on the diagonal; in the row and in the column the score against the
    keyframe of the other index, where a keyframe is stored there below
    [idx]; the old cell [old] everywhere else. *)
Definition filled_cell (score : KeyFrame.t → dbl) (self : dbl) (idx : Z)
    (kfs : list (option KeyFrame.t)) (a b : Z) (old : option dbl)
    : option dbl :=
  if decide (a = idx ∧ b = idx) then Some self
  else if decide (a = idx ∧ 0 ≤ b < idx) then
    match deref kfs b with Some k => Some (score k) | None => old end
  else if decide (b = idx ∧ 0 ≤ a < idx) then
    match deref kfs a with Some k => Some (score k) | None => old end
  else old.

(** A correspondence [(a, i1, b, i2)] of a loop edge pairs the point
    feature at the position [i1] of [kf0] with the one at the position [i2]
    of [kf1]; [a] and [b] are the landmarks the two features refer to. *)
Definition pt_correspondence (kf0 kf1 : KeyFrame.t) (e : Vector4i) : Prop :=
  ∃ f0 f1,
    deref (StereoFrame.stereo_pt (KeyFrame.stereo_frame kf0)) e.1.1.2 = Some f0
    ∧ deref (StereoFrame.stereo_pt (KeyFrame.stereo_frame kf1)) e.2 = Some f1
    ∧ e.1.1.1 = PointFeature.idx f0 ∧ e.1.2 = PointFeature.idx f1.

Definition ls_correspondence (kf0 kf1 : KeyFrame.t) (e : Vector4i) : Prop :=
  ∃ f0 f1,
    deref (StereoFrame.stereo_ls (KeyFrame.stereo_frame kf0)) e.1.1.2 = Some f0
    ∧ deref (StereoFrame.stereo_ls (KeyFrame.stereo_frame kf1)) e.2 = Some f1
    ∧ e.1.1.1 = LineFeature.idx f0 ∧ e.1.2 = LineFeature.idx f1.
(** ** The remaining writers of the covisibility matrix

    The association of lines between two keyframes ([matchKF2KFLines]) and
    of points between the local map and a keyframe ([matchMap2KFPoints]),
    the removal of observations after the g2o bundle adjustment
    ([localBundleAdjustmentForPlukerWithG2O]) and the erasure of a keyframe
    ([removeRedundantKFs]). *)

(** The Plücker geometry of [matchKF2KFLines] under [USE_LINE_PLUKER] is
    numerical, and the member [NDc] it starts from is not carried by the
    record [LineFeature.t]. *)
Class LineGeometry : Type := {
  (** [new_pluker_lw]: the rescaled [TransformForPluker( Tfw, ls->NDc )]
      for the pose [Tfw] and the feature [ls] *)
  new_pluker_lw : Matrix -> LineFeature.t -> Vector;
  (** [error2.norm() > sqrt(5.991)], where [error2] is the reprojection
      error of the Plücker line [L] in the keyframe of pose [T] against
      the end points [pts] *)
  pluker_reprojection_bad : Matrix -> Vector -> Vector -> bool
}.

(** [full_graph[a][b] = v] *)
Definition graph_set (a b v : Z) (g : list (list Z))
    : option (list (list Z)) :=
  row ← at_ g a;
  _ ← at_ row b;
  Some (set_at g a (set_at row b v)).

(** The members of a line feature of the previous keyframe that the
    bookkeeping of the pose refinement assigns: [spl_obs], [epl_obs] and
    [inlier = true] ([sdisp_obs], [edisp_obs] and [le_obs] are not carried
    by the record, and [matched_ls] is outside the map). *)
Definition LineFeature_set_obs (spl_obs epl_obs : Vector)
    (f : LineFeature.t) : LineFeature.t :=
  {| LineFeature.idx := LineFeature.idx f;
     LineFeature.sP := LineFeature.sP f; LineFeature.eP := LineFeature.eP f;
     LineFeature.le := LineFeature.le f;
     LineFeature.spl := LineFeature.spl f; LineFeature.epl := LineFeature.epl f;
     LineFeature.spl_obs := spl_obs; LineFeature.epl_obs := epl_obs;
     LineFeature.inlier := true |}.

(** [kf->stereo_frame->stereo_ls[i] = f], for a position known to hold a
    feature. *)
Definition KeyFrame_set_ls (i : Z) (f : LineFeature.t) (k : KeyFrame.t)
    : KeyFrame.t :=
  let fr := KeyFrame.stereo_frame k in
  KeyFrame.set_stereo_frame
    (StereoFrame.set_stereo_ls
       (set_at (StereoFrame.stereo_ls fr) i (Some f)) fr) k.

Definition KeyFrame_set_pt (i : Z) (f : PointFeature.t) (k : KeyFrame.t)
    : KeyFrame.t :=
  let fr := KeyFrame.stereo_frame k in
  KeyFrame.set_stereo_frame
    (StereoFrame.set_stereo_pt
       (set_at (StereoFrame.stereo_pt fr) i (Some f)) fr) k.

Section Writers.
Context `{C : Collaborators} `{G : LineGeometry}.

(** Modelled from the spec: the five-argument constructor of [MapLine]
    used under [USE_LINE_PLUKER] is defined outside [mapHandler.cpp]. The
    spec (4.2): a new landmark is created "anchored at the previous
    keyframe with one initial observation"; the observation is the 4D pair
    of end points, kept in [NDw_obs_list] as by the three-argument
    [addMapLineObservation]. *)
Definition new_MapLine_pluker (idx : Z) (pluker : Vector) (desc : Descriptor)
    (kf_obs : Z) (pts : Vector) : MapLine.t :=
  {| MapLine.idx := idx; MapLine.line3D := [];
     MapLine.NDw := pluker; MapLine.orthNDw := [];
     MapLine.inlier := init_inlier; MapLine.local := init_local;
     MapLine.desc_list := [desc]; MapLine.obs_list := [];
     MapLine.pts_list := []; MapLine.dir_list := [];
     MapLine.kf_obs_list := [kf_obs]; MapLine.NDw_obs_list := [pts];
     MapLine.med_desc := desc; MapLine.med_obs_dir := [] |}.

(** "if has refine pose": the feature [f1] of the previous keyframe takes
    the observation of the feature [f2] of the current one. *)
Definition refine_ls (hasRefinement : bool) (i1 : Z) (f1 f2 : LineFeature.t)
    (prev_kf : KeyFrame.t) : KeyFrame.t :=
  if hasRefinement
  then KeyFrame_set_ls i1
         (LineFeature_set_obs (LineFeature.spl f2) (LineFeature.epl f2) f1)
         prev_kf
  else prev_kf.

(** The body of the loop over [matches_12] in [matchKF2KFLines], for the
    match of the feature [i1] of the previous keyframe with the feature
    [i2] of the current one. [use_line_pluker] selects the variant compiled
    under [USE_LINE_PLUKER]. The keyframes are passed and returned by
    value. The counters [total] and [bad], the members of the new landmark
    that are only written "for debug" and the list [matched_ls] are outside
    the modelled state. *)
Definition matchKF2KFLines_match (use_line_pluker hasRefinement : bool)
    (i1 i2 : Z) (prev_kf curr_kf : KeyFrame.t) (m : MapHandler)
    : option (KeyFrame.t * KeyFrame.t * MapHandler) :=
  let kf1_idx := KeyFrame.kf_idx prev_kf in
  let kf2_idx := KeyFrame.kf_idx curr_kf in
  let prev_frame := KeyFrame.stereo_frame prev_kf in
  let curr_frame := KeyFrame.stereo_frame curr_kf in
  if decide (i2 < 0) then Some (prev_kf, curr_kf, m) else
  (* this shouldn't happen: NULL stereo line *)
  f1 ← deref (StereoFrame.stereo_ls prev_frame) i1;
  f2 ← deref (StereoFrame.stereo_ls curr_frame) i2;
  if decide (LineFeature.idx f1 = -1) then
    (* new 3D landmark: assign indices *)
    let f1' := LineFeature.set_idx (max_ls_idx m) f1 in
    let f2' := LineFeature.set_idx (max_ls_idx m) f2 in
    (* create new 3D landmark with the observation from previous KF *)
    let Tfw := KeyFrame.T_kf_w prev_kf in
    let pts := LineFeature.spl f1 ++ LineFeature.epl f1 in
    let pts2 := LineFeature.spl f2 ++ LineFeature.epl f2 in
    if use_line_pluker then
      let new_pluker := new_pluker_lw Tfw f1 in
      if pluker_reprojection_bad (KeyFrame.T_kf_w curr_kf) new_pluker pts2
      then
        (* both indices are set back to -1 and the match is dropped *)
        Some (KeyFrame_set_ls i1 (LineFeature.set_idx (-1) f1) prev_kf,
              KeyFrame_set_ls i2 (LineFeature.set_idx (-1) f2) curr_kf, m)
      else
        desc1 ← ldesc_row prev_kf i1;
        let map_line := new_MapLine_pluker (max_ls_idx m) new_pluker desc1
                          kf1_idx pts in
        (* add new 3D landmark to kf_idx where it was first observed *)
        t ← kf_idx_push kf1_idx (max_ls_idx m) (map_lines_kf_idx m);
        (* add observation of the 3D landmark from current KF *)
        desc2 ← ldesc_row curr_kf i2;
        let map_line' := addMapLineObservation_pluker desc2 kf2_idx pts2
                           map_line in
        (* add 3D landmark to map *)
        let m1 := set_max_ls_idx (max_ls_idx m + 1)
                    (set_map_lines (map_lines m ++ [Some map_line'])
                       (set_map_lines_kf_idx t m)) in
        (* update full graph (new feature) *)
        m2 ← in_graph m1 (graph_pair 1 kf2_idx kf1_idx);
        Some (refine_ls hasRefinement i1 f1' f2 (KeyFrame_set_ls i1 f1' prev_kf),
              KeyFrame_set_ls i2 f2' curr_kf, m2)
    else
      let sP3d := se3_apply Tfw (LineFeature.sP f1) in
      let eP3d := se3_apply Tfw (LineFeature.eP f1) in
      let L3d := sP3d ++ eP3d in
      let mP3d := unit_dir (vscale half (vadd sP3d eP3d)) in
      desc1 ← ldesc_row prev_kf i1;
      let map_line := new_MapLine (max_ls_idx m) L3d desc1 kf1_idx
                        (LineFeature.le f1) mP3d pts in
      (* add new 3D landmark to kf_idx where it was first observed *)
      t ← kf_idx_push kf1_idx (max_ls_idx m) (map_lines_kf_idx m);
      (* add observation of the 3D landmark from current KF *)
      let mP3d' := vscale half (vadd (LineFeature.sP f2) (LineFeature.eP f2)) in
      let mP3d' := unit_dir (se3_apply (KeyFrame.T_kf_w curr_kf) mP3d') in
      desc2 ← ldesc_row curr_kf i2;
      let map_line' := addMapLineObservation desc2 kf2_idx
                         (LineFeature.le f2) mP3d' pts2 map_line in
      (* add 3D landmark to map *)
      let m1 := set_max_ls_idx (max_ls_idx m + 1)
                  (set_map_lines (map_lines m ++ [Some map_line'])
                     (set_map_lines_kf_idx t m)) in
      (* update full graph (new feature) *)
      m2 ← in_graph m1 (graph_pair 1 kf2_idx kf1_idx);
      Some (refine_ls hasRefinement i1 f1' f2 (KeyFrame_set_ls i1 f1' prev_kf),
            KeyFrame_set_ls i2 f2' curr_kf, m2)
  else
    (* 3D landmark exists: copy idx && add observation to map landmark *)
    let lm_idx := LineFeature.idx f1 in
    ml ← at_ (map_lines m) lm_idx;
    match ml with
    | None => Some (prev_kf, curr_kf, m)
    | Some l =>
        let f2' := LineFeature.set_idx lm_idx f2 in
        let pts := LineFeature.spl f2 ++ LineFeature.epl f2 in
        if use_line_pluker
           && pluker_reprojection_bad (KeyFrame.T_kf_w curr_kf)
                (MapLine.NDw l) pts
        then
          Some (prev_kf, KeyFrame_set_ls i2 (LineFeature.set_idx (-1) f2) curr_kf,
                m)
        else
          (* add observation of the 3D landmark from current KF *)
          let mP3d := vscale half (vadd (LineFeature.sP f2) (LineFeature.eP f2)) in
          let mP3d := unit_dir (se3_apply (KeyFrame.T_kf_w curr_kf) mP3d) in
          desc2 ← ldesc_row curr_kf i2;
          let l' := if use_line_pluker
                    then addMapLineObservation_pluker desc2 kf2_idx pts l
                    else addMapLineObservation desc2 kf2_idx
                           (LineFeature.le f2) mP3d pts l in
          let m1 := set_map_lines (set_at (map_lines m) lm_idx (Some l')) m in
          (* update full graph (previously observed feature) *)
          m2 ← in_graph m1
                 (for_each (λ obs g, if decide (obs ≠ kf2_idx)
                                     then graph_pair 1 kf2_idx obs g
                                     else Some g)
                           (MapLine.kf_obs_list l'));
          Some (refine_ls hasRefinement i1 f1 f2 prev_kf,
                KeyFrame_set_ls i2 f2' curr_kf, m2)
    end.

(** The body of the loop over [matches_12] in [matchMap2KFPoints]: [mp] is
    the position in [map_points] of [map_local_points[i1]], [up] the
    position in [stereo_pt] of [unmatched_points[i2]], [desc] the row
    [unmatched_pt_desc.row(i2)], [maxKFEpipP] the value of
    [SlamConfig::maxKFEpipP()] and [Twf] the member of that name. The
    result carries the running count [matches]. *)
Definition matchMap2KFPoints_match (maxKFEpipP : dbl) (Twf : Matrix)
    (i2 mp up : Z) (desc : Descriptor) (matches : Z) (curr_kf : KeyFrame.t)
    (m : MapHandler) : option (Z * KeyFrame.t * MapHandler) :=
  let kf2_idx := KeyFrame.kf_idx curr_kf in
  if decide (i2 < 0) then Some (matches, curr_kf, m) else
  lm ← deref (map_points m) mp;
  f ← deref (StereoFrame.stereo_pt (KeyFrame.stereo_frame curr_kf)) up;
  let Pf_map := se3_apply Twf (MapPoint.point3D lm) in
  let Pf_kf := PointFeature.P f in
  (* check that the viewing direction condition is also satisfied *)
  let dir_kf := unit_dir Pf_kf in
  (* check that the epipolar constraint is satisfied *)
  let pf_map := projection Pf_map in
  let pf_kf := PointFeature.pl f in
  let error_epip := norm (vsub pf_map pf_kf) in
  if Dbl.lt error_epip maxKFEpipP then
    (* copy idx *)
    let lm_idx := MapPoint.idx lm in
    let curr_kf' := KeyFrame_set_pt up (PointFeature.set_idx lm_idx f) curr_kf in
    (* add observation of the 3D LM from current KF *)
    let dir_kf := se3_apply (KeyFrame.T_kf_w curr_kf) dir_kf in
    p ← deref (map_points m) lm_idx;
    let p' := addMapPointObservation desc kf2_idx (PointFeature.pl f) dir_kf p in
    let m1 := set_map_points (set_at (map_points m) lm_idx (Some p')) m in
    (* update full graph (previously observed feature) *)
    m2 ← in_graph m1
           (for_each (λ obs g, if decide (obs ≠ kf2_idx)
                               then graph_pair 1 kf2_idx obs g
                               else Some g)
                     (MapPoint.kf_obs_list p'));
    Some (matches, curr_kf', m2)
  else Some (matches - 1, curr_kf, m).

(** The removal of the observation of a bad point edge after the g2o
    bundle adjustment: [ks] is the slot of [map_keyframes] that holds the
    keyframe [kf] of the edge, [ps] the slot of [map_points] that holds its
    landmark [pMP], and [lm_idx_obs] the position of the observation in the
    lists of the landmark. *)
Definition g2o_remove_pt_observation (ks ps lm_idx_obs : Z) (m : MapHandler)
    : option MapHandler :=
  kf ← deref (map_keyframes m) ks;
  pMP ← deref (map_points m) ps;
  if decide (1 < length (MapPoint.obs_list pMP))%nat then
    let kf_obs := KeyFrame.kf_idx kf in
    let lm_idx_map := MapPoint.idx pMP in
    (* if it is the first observation, update it from map_points_kf_idx *)
    t ← (if decide (lm_idx_obs = 0) then
           l ← map_points_kf_idx m !! kf_obs;
           if bool_decide (lm_idx_map ∈ l) then
             new_kf_base ← at_ (MapPoint.kf_obs_list pMP) 1;
             kf_idx_push new_kf_base lm_idx_map (map_points_kf_idx m)
           else Some (map_points_kf_idx m)
         else Some (map_points_kf_idx m));
    (* remove observations from map points *)
    ds ← erase_at lm_idx_obs (MapPoint.desc_list pMP);
    os ← erase_at lm_idx_obs (MapPoint.obs_list pMP);
    rs ← erase_at lm_idx_obs (MapPoint.dir_list pMP);
    kl ← erase_at lm_idx_obs (MapPoint.kf_obs_list pMP);
    (* remove idx from KeyFrame stereo points *)
    let fr := KeyFrame.stereo_frame kf in
    pts ← clear_first_pt_idx lm_idx_map (StereoFrame.stereo_pt fr);
    let kf' := KeyFrame.set_stereo_frame (StereoFrame.set_stereo_pt pts fr) kf in
    (* update main descriptor and direction *)
    let p' := MapPoint_updateAverageDescDir
                (MapPoint.set_lists ds os rs kl pMP) in
    let m2 := set_map_points (set_at (map_points m) ps (Some p'))
                (set_map_keyframes (set_at (map_keyframes m) ks (Some kf'))
                   (set_map_points_kf_idx t m)) in
    (* update graphs *)
    in_graph m2
      (for_each (λ idx g, if decide (kf_obs ≠ idx)
                          then graph_pair (-1) kf_obs idx g
                          else Some g)
                (MapPoint.kf_obs_list p'))
  else
    Some (set_map_points
            (set_at (map_points m) ps (Some (MapPoint.set_inlier false pMP)))
            m).

(** The same for a bad line edge and the slot [ls] of [map_lines]. The
    number of observations is that of [NDw_obs_list]; the re-anchoring
    reads and writes [map_points_kf_idx], as the source has it; and only
    [desc_list], [NDw_obs_list] and [kf_obs_list] lose an entry. *)
Definition g2o_remove_ls_observation (ks ls lm_idx_obs : Z) (m : MapHandler)
    : option MapHandler :=
  kf ← deref (map_keyframes m) ks;
  lML ← deref (map_lines m) ls;
  if decide (1 < length (MapLine.NDw_obs_list lML))%nat then
    let kf_obs := KeyFrame.kf_idx kf in
    let lm_idx_map := MapLine.idx lML in
    t ← (if decide (lm_idx_obs = 0) then
           l ← map_points_kf_idx m !! kf_obs;
           if bool_decide (lm_idx_map ∈ l) then
             new_kf_base ← at_ (MapLine.kf_obs_list lML) 1;
             kf_idx_push new_kf_base lm_idx_map (map_points_kf_idx m)
           else Some (map_points_kf_idx m)
         else Some (map_points_kf_idx m));
    (* remove observations from map points *)
    ds ← erase_at lm_idx_obs (MapLine.desc_list lML);
    ns ← erase_at lm_idx_obs (MapLine.NDw_obs_list lML);
    kl ← erase_at lm_idx_obs (MapLine.kf_obs_list lML);
    (* remove idx from KeyFrame stereo points *)
    let fr := KeyFrame.stereo_frame kf in
    lss ← clear_first_ls_idx lm_idx_map (StereoFrame.stereo_ls fr);
    let kf' := KeyFrame.set_stereo_frame (StereoFrame.set_stereo_ls lss fr) kf in
    (* update main descriptor and direction *)
    let l' := MapLine_updateAverageDescDir
                (MapLine.set_lists ds (MapLine.obs_list lML)
                   (MapLine.pts_list lML) (MapLine.dir_list lML) kl ns lML) in
    let m2 := set_map_lines (set_at (map_lines m) ls (Some l'))
                (set_map_keyframes (set_at (map_keyframes m) ks (Some kf'))
                   (set_map_points_kf_idx t m)) in
    (* update graphs *)
    in_graph m2
      (for_each (λ idx g, if decide (kf_obs ≠ idx)
                          then graph_pair (-1) kf_obs idx g
                          else Some g)
                (MapLine.kf_obs_list l'))
  else
    Some (set_map_lines
            (set_at (map_lines m) ls (Some (MapLine.set_inlier false lML)))
            m).

End Writers.

(** "update full graph" in [removeRedundantKFs], for the keyframe [kf_idx]
    that is erased: the only statements of the function that write
    [full_graph] (the statements before them change the index tables and
    the observation lists of the landmarks, the one after them the slot of
    the keyframe). The bound [full_graph.size()-1] is unsigned: the loop
    leaves out the last index, and on an empty matrix its first turn reads
    [full_graph[kf_idx]] out of range. *)
Definition removeRedundantKFs_update_graph (kf_idx : Z) (m : MapHandler)
    : option MapHandler :=
  in_graph m
    (λ g,
       if decide (length g = 0%nat) then None
       else for_each (λ k g, g1 ← graph_set kf_idx k 0 g;
                             graph_set k kf_idx 0 g1)
                     (upto (Z.of_nat (length g) - 1)) g).
(** ** Concrete inputs

    Collaborators that compute nothing (vectors pass through unchanged), and
    small maps on which the functions above are run. *)

Definition plain_collaborators : Collaborators :=
  {| unit_dir := λ v, v;
     norm := λ _, Dbl.zero;
     se3_apply := λ _ v, v;
     expmap_se3 := λ _, [];
     logmap_se3 := λ _, [];
     inverse_se3 := λ T, T;
     mat_mul := λ A _, A;
     projection := λ v, v;
     average_desc := λ l, default [] (head l);
     median_dir := λ l, default [] (head l);
     init_inlier := true;
     init_local := true;
     changeOrthToPluker := λ v, v;
     updateOrthCoord := λ D _, D |}.

Definition plain_pose_graph : PoseGraph := {| correct_poses := λ m, m |}.

(** Kernels for which every observation weighs [1] and every step is
    [(1, 1, 1)]. *)
Definition plain_kernels : LMKernels :=
  {| NormalEq := unit;
     zero_eq := λ _, tt;
     pt_term0 := λ _ _ _ _ a, a;
     pt_err0 := λ _ _, Dbl.Fin 1;
     ls_term0 := λ _ _ _ _ _ a, a;
     ls_err0 := λ _ _ _, Dbl.Fin 1;
     pt_term := λ _ _ _ _ _ a, a;
     pt_err := λ _ _ _ _ _, Dbl.Fin 1;
     ls_term := λ _ _ _ _ _ _ a, a;
     ls_err := λ _ _ _ _ _ _, Dbl.Fin 1;
     Hmax := λ _, Dbl.Fin 1;
     solve := λ _ _, [Dbl.Fin 1; Dbl.Fin 1; Dbl.Fin 1] |}.

Definition num (z : Z) : dbl := Dbl.of_Z z.

Definition cfg0 : SlamConfig :=
  {| lcRes := num 1; lcUnc := num 1; lcInl := Dbl.Fin (1 # 2);
     lcTrs := num 1; lcRot := num 1; maxKFEpipL := num 1;
     lambdaLbaLM := num 1; lambdaLbaK := num 10; maxItersLba := 2;
     minLMObs := 2; minErrorChange := Dbl.Fin (1 # 1000);
     minError := Dbl.Fin (1 # 1000) |}.

Definition with_maxItersLba (n : Z) (c : SlamConfig) : SlamConfig :=
  {| lcRes := lcRes c; lcUnc := lcUnc c; lcInl := lcInl c; lcTrs := lcTrs c;
     lcRot := lcRot c; maxKFEpipL := maxKFEpipL c;
     lambdaLbaLM := lambdaLbaLM c; lambdaLbaK := lambdaLbaK c;
     maxItersLba := n; minLMObs := minLMObs c;
     minErrorChange := minErrorChange c; minError := minError c |}.

(** A point feature that refers to the landmark [i] ([-1]: to none). *)
Definition pt_feature (i : Z) (inl : bool) : PointFeature.t :=
  {| PointFeature.idx := i; PointFeature.P := [num 0; num 0; num 1];
     PointFeature.pl := [num 0; num 0]; PointFeature.pl_obs := [num 0; num 0];
     PointFeature.inlier := inl |}.

(** A line feature that refers to the landmark [i] and was observed on the
    line [le]. *)
Definition ls_feature (i : Z) (le : Vector) : LineFeature.t :=
  {| LineFeature.idx := i;
     LineFeature.sP := [num 0; num 0; num 1];
     LineFeature.eP := [num 1; num 0; num 1];
     LineFeature.le := le;
     LineFeature.spl := [num 0; num 0]; LineFeature.epl := [num 1; num 0];
     LineFeature.spl_obs := [num 0; num 0];
     LineFeature.epl_obs := [num 1; num 0];
     LineFeature.inlier := true |}.

(** The keyframe [i] whose point features refer to the landmarks [pts] and
    whose line features are [lss]. *)
Definition keyframe (i : Z) (pts : list Z) (lss : list LineFeature.t)
    : KeyFrame.t :=
  {| KeyFrame.kf_idx := i; KeyFrame.T_kf_w := []; KeyFrame.x_kf_w := [];
     KeyFrame.local := false;
     KeyFrame.stereo_frame :=
       {| StereoFrame.stereo_pt := map (λ p, Some (pt_feature p true)) pts;
          StereoFrame.stereo_ls := map Some lss;
          StereoFrame.pdesc_l := map (λ _, [0]) pts;
          StereoFrame.ldesc_l := map (λ _, [0]) lss |} |}.

(** A point landmark observed once from each keyframe of [kfs]. *)
Definition landmark (i : Z) (kfs : list Z) (inl loc : bool) : MapPoint.t :=
  {| MapPoint.idx := i; MapPoint.point3D := [num 0; num 0; num 1];
     MapPoint.inlier := inl; MapPoint.local := loc;
     MapPoint.desc_list := map (λ _, [0]) kfs;
     MapPoint.obs_list := map (λ _, [num 0; num 0]) kfs;
     MapPoint.dir_list := map (λ _, [num 0; num 0; num 1]) kfs;
     MapPoint.kf_obs_list := kfs;
     MapPoint.med_desc := [0]; MapPoint.med_obs_dir := [num 0; num 0; num 1] |}.

(** A line landmark observed once from each keyframe of [kfs], with the
    orthonormal parameters [orth]. *)
Definition line_landmark (i : Z) (kfs : list Z) (orth : Vector) : MapLine.t :=
  {| MapLine.idx := i;
     MapLine.line3D := [num 0; num 0; num 1; num 1; num 0; num 1];
     MapLine.NDw := []; MapLine.orthNDw := orth;
     MapLine.inlier := true; MapLine.local := true;
     MapLine.desc_list := map (λ _, [0]) kfs;
     MapLine.obs_list := map (λ _, [num 0; num 1; num 0]) kfs;
     MapLine.pts_list := map (λ _, [num 0; num 0; num 1; num 0]) kfs;
     MapLine.dir_list := map (λ _, [num 0; num 0; num 1]) kfs;
     MapLine.kf_obs_list := kfs; MapLine.NDw_obs_list := [];
     MapLine.med_desc := [0]; MapLine.med_obs_dir := [num 0; num 0; num 1] |}.

Definition zero_graph (n : nat) : list (list Z) := replicate n (replicate n 0).

(** The matrix for [n] keyframes in which the cell of two different
    keyframes counts the lists of [lms] that hold both. *)
Definition covis_graph (n : nat) (lms : list (list Z)) : list (list Z) :=
  let ids := map Z.of_nat (seq 0 n) in
  map (λ i, map (λ j, if decide (i = j) then 0 else
                        Z.of_nat (length (filter (λ ks, i ∈ ks ∧ j ∈ ks) lms)))
                ids) ids.

(** A map handler with the given keyframes, landmarks and matrix;
    [anchors] lists the landmarks each keyframe anchors, the other keyframes
    anchor none. *)
Definition map_of (kfs : list KeyFrame.t) (pts : list MapPoint.t)
    (lss : list MapLine.t) (pt_anchors ls_anchors : list (Z * list Z))
    (g : list (list Z)) : MapHandler :=
  let none := map (λ i, (Z.of_nat i, [])) (seq 0 (length kfs)) in
  {| map_keyframes := map Some kfs; map_points := map Some pts;
     map_lines := map Some lss;
     map_points_kf_idx := list_to_map (pt_anchors ++ none);
     map_lines_kf_idx := list_to_map (ls_anchors ++ none);
     full_graph := g;
     max_pt_idx := Z.of_nat (length pts); max_ls_idx := Z.of_nat (length lss);
     max_kf_idx := Z.of_nat (length kfs) - 1;
     lc_idx_list := []; lc_pose_list := []; lc_pt_idxs := []; lc_ls_idxs := [];
     lc_state := LC_IDLE; vo_status := VO_PROCESSING |}.

(** Two keyframes with one unmatched point feature each, and an empty map. *)
Definition kf_a : KeyFrame.t := keyframe 0 [-1] [].
Definition kf_b : KeyFrame.t := keyframe 1 [-1] [].
Definition two_kf_map : MapHandler :=
  map_of [kf_a; kf_b] [] [] [] [] (zero_graph 2).

(** The second observation of landmark [0], marked for removal (a point
    observation or a line observation, depending on the list it is in). *)
Definition bad_obs : Vector6i :=
  {| lm_idx_map := 0; lm_idx_loc := 0; lm_idx_obs := 1; kf_idx_map := 1;
     kf_idx_loc := -1; obs_inlier := -1 |}.

(** Three keyframes and one pending loop edge between keyframes [0] and [2]
    whose only correspondence links two features without a landmark. *)
Definition pending_loop_map : MapHandler :=
  set_lc_state LC_ACTIVE
    (set_lc_pt_idxs [[(-1, 0, -1, 0)]]
       (set_lc_ls_idxs [[]]
          (set_lc_pose_list [[]]
             (set_lc_idx_list [(0, 2, 1)]
                (map_of [keyframe 0 [-1] []; keyframe 1 [] [];
                         keyframe 2 [-1] []]
                        [] [] [] [] (zero_graph 3)))))).

(** Nine keyframes; landmark [0] has five observations, from keyframes
    [0] to [4], landmark [1] has three, from keyframes [6] to [8]. *)
Definition five_obs : MapPoint.t := landmark 0 [0; 1; 2; 3; 4] true false.
Definition three_obs : MapPoint.t := landmark 1 [6; 7; 8] true false.
Definition merge_map : MapHandler :=
  map_of [keyframe 0 [0] []; keyframe 1 [0] []; keyframe 2 [0] [];
          keyframe 3 [0] []; keyframe 4 [0] []; keyframe 5 [] [];
          keyframe 6 [1] []; keyframe 7 [1] []; keyframe 8 [1] []]
         [five_obs; three_obs] []
         [(0, [0]); (6, [1])] []
         (covis_graph 9 [[0; 1; 2; 3; 4]; [6; 7; 8]]).

(** Four keyframes; landmark [0] is seen from keyframes [0] and [2],
    landmark [1] from keyframes [2] and [3]; the matrix counts each. *)
Definition shared_kf_map : MapHandler :=
  map_of [keyframe 0 [0] []; keyframe 1 [] []; keyframe 2 [0; 1] [];
          keyframe 3 [1] []]
         [landmark 0 [0; 2] true false; landmark 1 [2; 3] true false] []
         [(0, [0]); (2, [1])] []
         (covis_graph 4 [[0; 2]; [2; 3]]).

(** Thirteen keyframes; landmark [0] is an outlier seen from keyframes [0]
    and [1], which the matrix records. *)
Definition cull_map : MapHandler :=
  map_of ([keyframe 0 [0] []; keyframe 1 [0] []]
          ++ map (λ i, keyframe (Z.of_nat i) [] []) (seq 2 11))
         [landmark 0 [0; 1] false false] []
         [(0, [0])] []
         (covis_graph 13 [[0; 1]]).

(** A loop candidate with one inlier among four matched points, and a
    Gauss-Newton outcome that is small in every respect. *)
Definition few_inliers : list PointFeature.t :=
  [pt_feature 0 true; pt_feature 1 false; pt_feature 2 false;
   pt_feature 3 false].
Definition small_outcome : GNOutcome :=
  {| gn_e := num 0; gn_DT_cov_eig5 := num 0; gn_t := num 0; gn_r := num 0 |}.

(** One keyframe, one local point landmark with one observation: the
    smallest input of the local bundle adjustment. *)
Definition one_pt_obs : Vector6i :=
  {| lm_idx_map := 0; lm_idx_loc := 0; lm_idx_obs := 0; kf_idx_map := 0;
     kf_idx_loc := -1; obs_inlier := 1 |}.
Definition lm_map : MapHandler :=
  map_of [keyframe 0 [0] []] [landmark 0 [0] true true] []
         [(0, [0])] [] (zero_graph 1).
Definition X0 : Vector := [num 0; num 0; num 1].

(** One local line landmark whose orthonormal parameters are
    [(1, 1, 1, 1)], and a state vector whose line block is [(1, 2, 3, 4)]. *)
Definition line_map : MapHandler :=
  map_of [keyframe 0 [] [ls_feature 0 [num 0; num 1; num 0]]] []
         [line_landmark 0 [0] [num 1; num 1; num 1; num 1]]
         [] [(0, [0])] (zero_graph 1).
Definition X_line : Vector := [num 1; num 2; num 3; num 4].
Definition one_ls_obs : Vector6i :=
  {| lm_idx_map := 0; lm_idx_loc := 0; lm_idx_obs := 0; kf_idx_map := 0;
     kf_idx_loc := -1; obs_inlier := 1 |}.

(** The current keyframe [1], whose only line feature is not matched yet
    and was observed on the line [0 * x + 0 * y - 1 = 0], at algebraic
    distance [-1] from every point; the local line landmark [0] was seen
    from keyframe [0]. *)
Definition kf_line : KeyFrame.t :=
  keyframe 1 [] [ls_feature (-1) [num 0; num 0; num (-1)]].
Definition local_line_map : MapHandler :=
  map_of [keyframe 0 [] [ls_feature 0 [num 0; num 1; num 0]]; kf_line] []
         [line_landmark 0 [0] []]
         [] [(0, [0])] (zero_graph 2).


(** A handler around a map: identity poses and a confusion matrix of the
    size of the covisibility matrix that holds [1] everywhere. *)
Definition handler_of (m : MapHandler) : Handler :=
  {| the_map := m; Twf := identity4; DT := identity4;
     conf_matrix := map (map (λ _, num 1)) (full_graph m) |}.

(** A keyframe that arrives from the odometry with stale indices: its
    number is [7] and its two point features still refer to landmarks. *)
Definition stale_kf : KeyFrame.t := keyframe 7 [3; 4] [].

(** A handler that was never initialized: no keyframe, no graph. *)
Definition blank_map : MapHandler := map_of [] [] [] [] [] [].

(** Both feature kinds in use; one shared landmark makes a keyframe
    covisible, the neighbourhood of the newest keyframe is empty, and a loop
    candidate must be older than the newest keyframe by more than two. *)
Definition mc0 : MapConfig :=
  {| hasPoints := true; hasLines := true;
     minLMCovGraph := 1; minKFLocalMap := 0;
     lcKFDist := 2; lcKFMaxDist := 1; lcNKFClosest := 1;
     lcInlierRatio := num 30 |}.

(** Three slots, the middle one NULL although the matrix still counts a
    landmark it shares with the newest keyframe. *)
Definition null_slot_map : MapHandler :=
  set_map_keyframes [Some (keyframe 0 [] []); None; Some (keyframe 2 [] [])]
    (map_of [keyframe 0 [] []; keyframe 1 [] []; keyframe 2 [] []] [] [] [] []
            (covis_graph 3 [[1; 2]])).

(** A keyframe of the local map, with six pose parameters. *)
Definition posed_kf (i : Z) (pts : list Z) : KeyFrame.t :=
  KeyFrame_set_local true
    (KeyFrame_set_x_kf_w [num 0; num 0; num 0; num 0; num 0; num 0]
       (keyframe i pts [])).

(** Two local keyframes that both see the local point landmark [0]. *)
Definition lba_map : MapHandler :=
  map_of [posed_kf 0 [0]; posed_kf 1 [0]] [landmark 0 [0; 1] true true] []
         [(0, [0])] [] (covis_graph 2 [[0; 1]]).


(** Place recognition that scores every pair of keyframes alike, reverses
    the candidates where the code sorts them, matches every descriptor of
    the first keyframe with the descriptor at the same position of the
    second one, and whose Gauss-Newton iterations leave the correspondences
    as they are with a residual of zero. *)
Definition plain_recognition : PlaceRecognition :=
  {| score_p := λ _ _, Dbl.Fin (1 # 2);
     score_l := λ _ _, Dbl.Fin (1 # 4);
     vector_stdv := λ _, num 1;
     sort_confmat := reverse;
     sort_confmat_permutes := reverse_Permutation;
     match_p := λ d0 _, (Z.of_nat (length d0), upto (Z.of_nat (length d0)));
     match_l := λ d0 _, (Z.of_nat (length d0), upto (Z.of_nat (length d0)));
     new_PointFeature := λ P pl_obs,
       {| PointFeature.idx := -1; PointFeature.P := P;
          PointFeature.pl := pl_obs; PointFeature.pl_obs := pl_obs;
          PointFeature.inlier := true |};
     new_LineFeature := λ sP eP le_obs spl epl,
       {| LineFeature.idx := -1; LineFeature.sP := sP; LineFeature.eP := eP;
          LineFeature.le := le_obs; LineFeature.spl := spl;
          LineFeature.epl := epl; LineFeature.spl_obs := spl;
          LineFeature.epl_obs := epl; LineFeature.inlier := true |};
     robust_gn := λ pts lss,
       ({| gn_e := num 0; gn_DT_cov_eig5 := num 0; gn_t := num 0;
           gn_r := num 0 |}, [], pts, lss) |}.

(** Five keyframes with one point feature each, none of them matched yet,
    and the handler around them whose confusion matrix holds [1]
    everywhere. *)
Definition five_kf_map : MapHandler :=
  map_of [keyframe 0 [-1] []; keyframe 1 [-1] []; keyframe 2 [-1] [];
          keyframe 3 [-1] []; keyframe 4 [-1] []] [] [] [] [] (zero_graph 5).

(** Only points are in use. *)
Definition mc_points : MapConfig :=
  {| hasPoints := true; hasLines := false;
     minLMCovGraph := 1; minKFLocalMap := 0;
     lcKFDist := 2; lcKFMaxDist := 1; lcNKFClosest := 1;
     lcInlierRatio := num 30 |}.

(** Line geometry that computes nothing and accepts every reprojection. *)
Definition plain_line_geometry : LineGeometry :=
  {| new_pluker_lw := λ _ _, [];
     pluker_reprojection_bad := λ _ _ _, false |}.

(** The configuration [cfg0] with a negative threshold for the epipolar
    gate of the lines. *)
Definition cfg_negative_gate : SlamConfig :=
  {| lcRes := lcRes cfg0; lcUnc := lcUnc cfg0; lcInl := lcInl cfg0;
     lcTrs := lcTrs cfg0; lcRot := lcRot cfg0; maxKFEpipL := num (-2);
     lambdaLbaLM := lambdaLbaLM cfg0; lambdaLbaK := lambdaLbaK cfg0;
     maxItersLba := maxItersLba cfg0; minLMObs := minLMObs cfg0;
     minErrorChange := minErrorChange cfg0; minError := minError cfg0 |}.
(** * Properties *)

(** ** Indexing and the graph primitives *)

Lemma at_Some {A} (l : list A) (i : Z) (x : A) :
  at_ l i = Some x ↔ 0 ≤ i ∧ l !! Z.to_nat i = Some x.
Proof.
  unfold at_. case_decide; split; try done; try tauto; by intros [? ?].
Qed.

Lemma for_each_inv {A S} (P : S → Prop) (body : A → S → option S) l :
  (∀ x s s', x ∈ l → body x s = Some s' → P s → P s') →
  ∀ s s', for_each body l s = Some s' → P s → P s'.
Proof.
  induction l as [|x l IH]; simpl; intros Hb s s' Hrun Hs.
  - by simplify_eq.
  - apply bind_Some in Hrun as (s1 & H1 & H2).
    eapply IH; [| exact H2 |].
    + intros y t t' Hy. apply Hb. by right.
    + eapply Hb; [by left | exact H1 | exact Hs].
Qed.

Lemma bump_comm d c1 c2 o : bump d c1 (bump d c2 o) = bump d c2 (bump d c1 o).
Proof. by destruct c1, c2. Qed.

Lemma at_set_at_eq {A} (l : list A) (i : Z) (x y : A) :
  at_ l i = Some y → at_ (set_at l i x) i = Some x.
Proof.
  intros [Hi Hl]%at_Some. apply at_Some. split; [done|].
  unfold set_at. apply list_lookup_insert_eq. by eapply lookup_lt_Some.
Qed.

Lemma at_set_at_ne {A} (l : list A) (i a : Z) (x : A) :
  0 ≤ i → a ≠ i → at_ (set_at l i x) a = at_ l a.
Proof.
  intros Hi Hne. unfold at_, set_at. case_decide; [|done].
  apply list_lookup_insert_ne. lia.
Qed.

Lemma graph_get_add d i j g g' a b :
  graph_add d i j g = Some g' →
  graph_get g' a b = bump d (bool_decide (a = i ∧ b = j)) (graph_get g a b).
Proof.
  unfold graph_add. intros H.
  apply bind_Some in H as (row & Hrow & H).
  apply bind_Some in H as (v & Hv & H). simplify_eq.
  pose proof Hrow as [Hi _]%at_Some. pose proof Hv as [Hj _]%at_Some.
  unfold graph_get, bump.
  destruct (decide (a = i)) as [->|Hai].
  - rewrite (at_set_at_eq _ _ _ _ Hrow), Hrow. simpl.
    destruct (decide (b = j)) as [->|Hbj].
    + rewrite bool_decide_eq_true_2 by done.
      by rewrite (at_set_at_eq _ _ _ _ Hv), Hv.
    + rewrite bool_decide_eq_false_2 by (by intros [_ ?]).
      by apply at_set_at_ne.
  - rewrite bool_decide_eq_false_2 by (by intros [? _]).
    by rewrite at_set_at_ne.
Qed.

Lemma graph_get_pair d a b g g' x y :
  graph_pair d a b g = Some g' →
  graph_get g' x y =
    bump d (bool_decide (x = b ∧ y = a))
      (bump d (bool_decide (x = a ∧ y = b)) (graph_get g x y)).
Proof.
  unfold graph_pair. intros H.
  apply bind_Some in H as (g1 & H1 & H2).
  rewrite (graph_get_add _ _ _ _ _ _ _ H2).
  by rewrite (graph_get_add _ _ _ _ _ _ _ H1).
Qed.

Lemma graph_pair_symmetric d a b g g' :
  graph_pair d a b g = Some g' → symmetric g → symmetric g'.
Proof.
  intros H Hs x y.
  rewrite !(graph_get_pair _ _ _ _ _ _ _ H), (Hs y x).
  rewrite bump_comm. do 2 f_equal; apply bool_decide_ext; tauto.
Qed.

Lemma in_graph_symmetric m m' f :
  in_graph m f = Some m' →
  (∀ g g', f g = Some g' → symmetric g → symmetric g') →
  symmetric (full_graph m) → symmetric (full_graph m').
Proof.
  unfold in_graph. intros H Hf Hs.
  apply bind_Some in H as (g & Hg & H). simplify_eq. simpl. eauto.
Qed.

Lemma at_singleton {A} (x : A) (k : Z) :
  at_ [x] k = if decide (k = 0) then Some x else None.
Proof.
  unfold at_. destruct (decide (0 ≤ k)), (decide (k = 0)); subst; try done; try lia.
  apply lookup_ge_None_2. simpl. lia.
Qed.

Lemma symmetric_initial : symmetric initial_full_graph.
Proof.
  intros i j. unfold graph_get, initial_full_graph.
  rewrite !at_singleton.
  repeat case_decide; simpl; rewrite ?at_singleton; repeat case_decide; done.
Qed.

(** ** Symmetry of the covisibility matrix *)

Ltac inv_opt :=
  repeat match goal with
  | H : mbind _ _ = Some _ |- _ => apply bind_Some in H as (? & ? & H)
  | H : Some _ = Some _ |- _ => apply (inj Some) in H
  | H : None = Some _ |- _ => discriminate H
  | H : match ?x with _ => _ end = Some _ |- _ => destruct x eqn:?
  end.

Section Symmetry.
Context `{C : Collaborators}.

Lemma set_stereo_pt_idx_graph kf ldx v m m' :
  set_stereo_pt_idx kf ldx v m = Some m' → full_graph m' = full_graph m.
Proof. unfold set_stereo_pt_idx. intros H. inv_opt. by subst. Qed.

Lemma set_stereo_ls_idx_graph kf ldx v m m' :
  set_stereo_ls_idx kf ldx v m = Some m' → full_graph m' = full_graph m.
Proof. unfold set_stereo_ls_idx. intros H. inv_opt. by subst. Qed.

Lemma unlink_pt_feature_graph kf lm m m' :
  unlink_pt_feature kf lm m = Some m' → full_graph m' = full_graph m.
Proof. unfold unlink_pt_feature. intros H. inv_opt. by subst. Qed.

Lemma unlink_ls_feature_graph kf lm m m' :
  unlink_ls_feature kf lm m = Some m' → full_graph m' = full_graph m.
Proof. unfold unlink_ls_feature. intros H. inv_opt. by subst. Qed.

Lemma each_pair_symmetric d k l g g' :
  for_each (λ x, graph_pair d x k) l g = Some g' → symmetric g → symmetric g'.
Proof.
  apply (for_each_inv symmetric). intros x s s' _. apply graph_pair_symmetric.
Qed.

Lemma each_other_pair_symmetric d k l g g' :
  for_each (λ obs g, if decide (obs ≠ k) then graph_pair d k obs g else Some g)
           l g = Some g' →
  symmetric g → symmetric g'.
Proof.
  apply (for_each_inv symmetric). intros x s s' _.
  case_decide; [apply graph_pair_symmetric | by intros [= ->]].
Qed.

Lemma each_distinct_pair_symmetric d k l g g' :
  for_each (λ idx g, if decide (k ≠ idx) then graph_pair d k idx g else Some g)
           l g = Some g' →
  symmetric g → symmetric g'.
Proof.
  apply (for_each_inv symmetric). intros x s s' _.
  case_decide; [apply graph_pair_symmetric | by intros [= ->]].
Qed.

Lemma each_indexed_pair_symmetric (ks : list Z) jdx l g g' :
  for_each (λ (i : nat) g, idx ← ks !! i; graph_pair 1 idx jdx g) l g = Some g' →
  symmetric g → symmetric g'.
Proof.
  apply (for_each_inv symmetric). intros x s s' _ H. inv_opt.
  by eapply graph_pair_symmetric.
Qed.

Ltac graph_same :=
  repeat match goal with
  | H : set_stereo_pt_idx _ _ _ _ = Some _ |- _ =>
      apply set_stereo_pt_idx_graph in H
  | H : set_stereo_ls_idx _ _ _ _ = Some _ |- _ =>
      apply set_stereo_ls_idx_graph in H
  | H : unlink_pt_feature _ _ _ = Some _ |- _ =>
      apply unlink_pt_feature_graph in H
  | H : unlink_ls_feature _ _ _ = Some _ |- _ =>
      apply unlink_ls_feature_graph in H
  end.

Ltac sym_in_graph :=
  match goal with
  | H : in_graph _ _ = Some _ |- _ =>
      eapply in_graph_symmetric;
      [ exact H
      | first [ apply each_pair_symmetric
              | apply graph_pair_symmetric
              | apply each_other_pair_symmetric
              | apply each_distinct_pair_symmetric ]
      | simpl; graph_same; simpl in *; congruence ]
  end.

Lemma fuse_pt_observe_prev_sym kp kc ldx lm m m' :
  fuse_pt_observe_prev kp kc ldx lm m = Some m' → sym m → sym m'.
Proof.
  unfold fuse_pt_observe_prev, sym. intros H Hs. inv_opt; subst; try done.
  sym_in_graph.
Qed.

Lemma fuse_pt_observe_curr_sym kp kc lm ldx m m' :
  fuse_pt_observe_curr kp kc lm ldx m = Some m' → sym m → sym m'.
Proof.
  unfold fuse_pt_observe_curr, sym. intros H Hs. inv_opt; subst; try done.
  sym_in_graph.
Qed.

Lemma fuse_pt_create_sym kp kc l0 l1 m m' :
  fuse_pt_create kp kc l0 l1 m = Some m' → sym m → sym m'.
Proof.
  unfold fuse_pt_create, sym. intros H Hs. inv_opt; subst; try done.
  sym_in_graph.
Qed.

Lemma fuse_pt_obs_sym kc lm0 ldx n B iter it m m' :
  fuse_pt_obs kc lm0 ldx n B iter it m = Some m' → sym m → sym m'.
Proof.
  unfold fuse_pt_obs, sym. intros H Hs. inv_opt.
  apply set_stereo_pt_idx_graph in H. rewrite H. simpl.
  by eapply each_indexed_pair_symmetric.
Qed.

Lemma fuse_pt_loop_sym kc lm0 ldx n B its :
  ∀ iter m m', fuse_pt_loop kc lm0 ldx n B its iter m = Some m' → sym m → sym m'.
Proof.
  induction its as [|it its IH]; simpl; intros iter m m' H Hs.
  - by inv_opt; subst.
  - inv_opt. eapply IH; [exact H|]. by eapply fuse_pt_obs_sym.
Qed.

Lemma fuse_pt_merge_sym kc lm0 lm1 ldx m m' :
  fuse_pt_merge kc lm0 lm1 ldx m = Some m' → sym m → sym m'.
Proof.
  unfold fuse_pt_merge, sym. intros H Hs. inv_opt; subst; try done.
  simpl. by eapply fuse_pt_loop_sym.
Qed.

Lemma fuse_pt_match_sym kp kc lm m m' :
  fuse_pt_match kp kc lm m = Some m' → sym m → sym m'.
Proof.
  destruct lm as [[[lm_idx0 lm_ldx0] lm_idx1] lm_ldx1].
  unfold fuse_pt_match. intros H Hs.
  repeat case_decide; inv_opt; subst;
    eauto using fuse_pt_observe_prev_sym, fuse_pt_observe_curr_sym,
                fuse_pt_create_sym, fuse_pt_merge_sym.
Qed.

Lemma fuse_ls_observe_prev_sym kp kc ldx lm m m' :
  fuse_ls_observe_prev kp kc ldx lm m = Some m' → sym m → sym m'.
Proof.
  unfold fuse_ls_observe_prev, sym. intros H Hs. inv_opt; subst; try done.
  sym_in_graph.
Qed.

Lemma fuse_ls_observe_curr_sym kp kc lm ldx m m' :
  fuse_ls_observe_curr kp kc lm ldx m = Some m' → sym m → sym m'.
Proof.
  unfold fuse_ls_observe_curr, sym. intros H Hs. inv_opt; subst; try done.
  sym_in_graph.
Qed.

Lemma fuse_ls_create_sym kp kc l0 l1 m m' :
  fuse_ls_create kp kc l0 l1 m = Some m' → sym m → sym m'.
Proof.
  unfold fuse_ls_create, sym. intros H Hs. inv_opt; subst; try done.
  sym_in_graph.
Qed.

Lemma fuse_ls_obs_sym kc lm0 ldx n B iter it m m' :
  fuse_ls_obs kc lm0 ldx n B iter it m = Some m' → sym m → sym m'.
Proof.
  unfold fuse_ls_obs, sym. intros H Hs. inv_opt.
  apply set_stereo_ls_idx_graph in H. rewrite H. simpl.
  by eapply each_indexed_pair_symmetric.
Qed.

Lemma fuse_ls_loop_sym kc lm0 ldx n B its :
  ∀ iter m m', fuse_ls_loop kc lm0 ldx n B its iter m = Some m' → sym m → sym m'.
Proof.
  induction its as [|it its IH]; simpl; intros iter m m' H Hs.
  - by inv_opt; subst.
  - inv_opt. eapply IH; [exact H|]. by eapply fuse_ls_obs_sym.
Qed.

Lemma fuse_ls_merge_sym kc lm0 lm1 ldx m m' :
  fuse_ls_merge kc lm0 lm1 ldx m = Some m' → sym m → sym m'.
Proof.
  unfold fuse_ls_merge, sym. intros H Hs. inv_opt; subst; try done.
  simpl. by eapply fuse_ls_loop_sym.
Qed.

Lemma fuse_ls_match_sym kp kc lm m m' :
  fuse_ls_match kp kc lm m = Some m' → sym m → sym m'.
Proof.
  destruct lm as [[[lm_idx0 lm_ldx0] lm_idx1] lm_ldx1].
  unfold fuse_ls_match. intros H Hs.
  repeat case_decide; inv_opt; subst;
    eauto using fuse_ls_observe_prev_sym, fuse_ls_observe_curr_sym,
                fuse_ls_create_sym, fuse_ls_merge_sym.
Qed.

Lemma fuse_edges_sym fuse_match idxs :
  (∀ kp kc lm m m', fuse_match kp kc lm m = Some m' → sym m → sym m') →
  ∀ lc_idx m m', fuse_edges fuse_match idxs lc_idx m = Some m' → sym m → sym m'.
Proof.
  intros Hf. induction idxs as [|idx_it idxs IH]; simpl; intros lc_idx m m' H Hs.
  - by inv_opt; subst.
  - apply bind_Some in H as ([[kp kc] marker] & He & H).
    apply bind_Some in H as (m1 & H1 & H).
    eapply IH; [exact H|].
    case_decide; [|by simplify_eq].
    revert H1 Hs. apply (for_each_inv sym). intros x s s' _. apply Hf.
Qed.

Lemma loopClosureFuseLandmarks_sym m m' :
  loopClosureFuseLandmarks m = Some m' → sym m → sym m'.
Proof.
  unfold loopClosureFuseLandmarks. intros H Hs.
  apply bind_Some in H as (m1 & H1 & H).
  eapply (fuse_edges_sym _ _ fuse_ls_match_sym); [exact H|].
  by eapply (fuse_edges_sym _ _ fuse_pt_match_sym).
Qed.

Lemma matchKF2KFPoints_match_sym i1 i2 prev_kf curr_kf m r :
  matchKF2KFPoints_match i1 i2 prev_kf curr_kf m = Some r → sym m → sym r.2.
Proof.
  unfold matchKF2KFPoints_match, sym. intros H Hs.
  inv_opt; subst; simpl; try done; sym_in_graph.
Qed.

Lemma matchMap2KFLines_match_sym cfg pl Twf i2 ml ul desc n curr_kf m r :
  matchMap2KFLines_match cfg pl Twf i2 ml ul desc n curr_kf m = Some r →
  sym m → sym r.2.
Proof.
  unfold matchMap2KFLines_match, matchMap2KFLines_accept, sym. intros H Hs.
  inv_opt; subst; simpl; try done; sym_in_graph.
Qed.

Lemma remove_pt_observation_sym o m m' :
  remove_pt_observation o m = Some m' → sym m → sym m'.
Proof.
  unfold remove_pt_observation, sym. intros H Hs.
  inv_opt; subst; simpl; try done; sym_in_graph.
Qed.

Lemma remove_ls_observation_sym o m m' :
  remove_ls_observation o m = Some m' → sym m → sym m'.
Proof.
  unfold remove_ls_observation, sym. intros H Hs.
  inv_opt; subst; simpl; try done; sym_in_graph.
Qed.

Lemma matchMap2KFPoints_match_sym th Twf i2 mp up desc n curr_kf m r :
  matchMap2KFPoints_match th Twf i2 mp up desc n curr_kf m = Some r →
  sym m → sym r.2.
Proof.
  unfold matchMap2KFPoints_match, sym. intros H Hs.
  inv_opt; subst; simpl; try done; sym_in_graph.
Qed.

Lemma g2o_remove_pt_observation_sym ks ps lm_idx_obs m m' :
  g2o_remove_pt_observation ks ps lm_idx_obs m = Some m' → sym m → sym m'.
Proof.
  unfold g2o_remove_pt_observation, sym. intros H Hs.
  inv_opt; subst; simpl; try done; sym_in_graph.
Qed.

Lemma g2o_remove_ls_observation_sym ks ls lm_idx_obs m m' :
  g2o_remove_ls_observation ks ls lm_idx_obs m = Some m' → sym m → sym m'.
Proof.
  unfold g2o_remove_ls_observation, sym. intros H Hs.
  inv_opt; subst; simpl; try done; sym_in_graph.
Qed.

Lemma matchKF2KFLines_match_sym `{G : LineGeometry} pl rf i1 i2
    prev_kf curr_kf m r :
  matchKF2KFLines_match pl rf i1 i2 prev_kf curr_kf m = Some r →
  sym m → sym r.2.
Proof.
  unfold matchKF2KFLines_match, sym. intros H Hs.
  inv_opt; subst; simpl; try done; sym_in_graph.
Qed.

End Symmetry.

(** *** The writers of the matrix outside the association and the removal
        of observations *)

Lemma graph_get_nat (g : list (list Z)) (i j : nat) :
  graph_get g (Z.of_nat i) (Z.of_nat j) = row ← g !! i; row !! j.
Proof.
  unfold graph_get, at_.
  rewrite decide_True by lia. rewrite !Nat2Z.id.
  destruct (g !! i) as [row|]; simpl; [|done].
  by rewrite decide_True by lia.
Qed.

Lemma graph_get_neg (g : list (list Z)) (i j : Z) :
  i < 0 ∨ j < 0 → graph_get g i j = None.
Proof.
  intros H. unfold graph_get, at_.
  destruct (decide (0 ≤ i)); [|done].
  destruct (g !! Z.to_nat i); simpl; [|done].
  rewrite decide_False by lia. done.
Qed.

(** The cells of a resized matrix: inside the new size a cell keeps its
    value where it had one and is value-initialized where it had none;
    there is nothing outside the new size. *)
Lemma resize_graph_lookup {A} (k : nat) (z : A) (g : list (list A))
    (i j : nat) :
  (row ← resize_graph k z g !! i; row !! j) =
  if decide (i < k ∧ j < k)%nat
  then Some (default z (row ← g !! i; row !! j)) else None.
Proof.
  unfold resize_graph. rewrite list_lookup_fmap.
  destruct (decide (i < k)%nat) as [Hi|Hi].
  - assert (resize k [] g !! i = Some (default [] (g !! i))) as ->.
    { destruct (decide (i < length g)%nat) as [Hlt|Hge].
      - rewrite lookup_resize by lia.
        by destruct (lookup_lt_is_Some_2 g i Hlt) as [r ->].
      - rewrite lookup_resize_new by lia.
        by rewrite lookup_ge_None_2 by lia. }
    cbn [fmap option_fmap option_map mbind option_bind].
    destruct (decide (j < k)%nat) as [Hj|Hj].
    + rewrite decide_True by done.
      destruct (g !! i) as [r|]; cbn [default from_option mbind option_bind id].
      * destruct (decide (j < length r)%nat) as [Hlt|Hge].
        -- rewrite lookup_resize by lia.
           by destruct (lookup_lt_is_Some_2 r j Hlt) as [x ->].
        -- rewrite lookup_resize_new by lia.
           by rewrite lookup_ge_None_2 by lia.
      * by rewrite lookup_resize_new by (simpl; lia).
    + rewrite decide_False by lia. by rewrite lookup_resize_old by lia.
  - rewrite decide_False by lia.
    rewrite lookup_ge_None_2; [done|]. rewrite length_resize. lia.
Qed.

Lemma resize_graph_symmetric (k : nat) (g : list (list Z)) :
  symmetric g → symmetric (resize_graph k 0 g).
Proof.
  intros Hsym i j.
  destruct (decide (0 ≤ i ∧ 0 ≤ j)) as [[Hi Hj]|Hneg].
  - rewrite <- (Z2Nat.id i), <- (Z2Nat.id j) by lia.
    rewrite !graph_get_nat, !resize_graph_lookup.
    specialize (Hsym (Z.of_nat (Z.to_nat i)) (Z.of_nat (Z.to_nat j))).
    rewrite !graph_get_nat in Hsym. rewrite Hsym.
    repeat case_decide; try done; lia.
  - rewrite !graph_get_neg by lia. done.
Qed.

Lemma graph_get_set a b v g g' x y :
  graph_set a b v g = Some g' →
  graph_get g' x y = if decide (x = a ∧ y = b) then Some v else graph_get g x y.
Proof.
  unfold graph_set. intros H.
  apply bind_Some in H as (row & Hrow & H).
  apply bind_Some in H as (w & Hw & H). simplify_eq.
  pose proof Hrow as [Ha _]%at_Some. pose proof Hw as [Hb _]%at_Some.
  unfold graph_get.
  destruct (decide (x = a)) as [->|Hxa].
  - rewrite (at_set_at_eq _ _ _ _ Hrow), Hrow. simpl.
    destruct (decide (y = b)) as [->|Hyb].
    + rewrite decide_True by done. by rewrite (at_set_at_eq _ _ _ _ Hw).
    + rewrite decide_False by (by intros [_ ?]). by apply at_set_at_ne.
  - rewrite decide_False by (by intros [? _]). by rewrite at_set_at_ne.
Qed.

Lemma removeRedundantKFs_update_graph_sym kf_idx m m' :
  removeRedundantKFs_update_graph kf_idx m = Some m' → sym m → sym m'.
Proof.
  unfold removeRedundantKFs_update_graph, sym. intros H Hs.
  eapply in_graph_symmetric; [exact H| |exact Hs].
  intros g g' Hrun. cbv beta in Hrun.
  destruct (decide (length g = 0%nat)); [done|]. revert Hrun.
  apply (for_each_inv symmetric). intros k s s' _ Hturn Hsym x y.
  apply bind_Some in Hturn as (g1 & H1 & H2).
  rewrite !(graph_get_set _ _ _ _ _ _ _ H2), !(graph_get_set _ _ _ _ _ _ _ H1).
  rewrite (Hsym x y).
  repeat case_decide; try done; naive_solver.
Qed.

Lemma expandGraphs_sym h :
  symmetric (full_graph (the_map h)) →
  symmetric (full_graph (the_map (expandGraphs h))).
Proof. intros Hs. simpl. by apply resize_graph_symmetric. Qed.

Lemma initialize_sym kf0 h h' :
  initialize kf0 h = Some h' → symmetric (full_graph (the_map h')).
Proof.
  unfold initialize. intros H.
  apply bind_Some in H as (kf0' & _ & H). simplify_eq. simpl.
  apply symmetric_initial.
Qed.

(** ** Fusion of two landmarks *)

Lemma at_lt {A} (l : list A) (i : Z) :
  0 ≤ i < Z.of_nat (length l) → ∃ x, at_ l i = Some x.
Proof.
  intros Hi. destruct (lookup_lt_is_Some_2 l (Z.to_nat i)) as [x Hx]; [lia|].
  exists x. apply at_Some. split; [lia | done].
Qed.

Lemma graph_add_square n d i j g :
  square n g → 0 ≤ i < Z.of_nat n → 0 ≤ j < Z.of_nat n →
  ∃ g', graph_add d i j g = Some g' ∧ square n g'.
Proof.
  intros [Hlen Hrows] Hi Hj.
  destruct (at_lt g i) as [row Hrow]; [lia|].
  pose proof Hrow as [_ Hrow']%at_Some.
  assert (length row = n) as Hr
    by (eapply (Forall_lookup_1 _ _ _ _ Hrows Hrow')).
  destruct (at_lt row j) as [v Hv]; [lia|].
  exists (set_at g i (set_at row j (v + d))). split.
  - unfold graph_add. rewrite Hrow. simpl. rewrite Hv. done.
  - unfold set_at. split; [by rewrite length_insert|].
    apply Forall_insert; [done|]. by rewrite length_insert.
Qed.

Lemma graph_pair_square n d a b g :
  square n g → 0 ≤ a < Z.of_nat n → 0 ≤ b < Z.of_nat n →
  ∃ g', graph_pair d a b g = Some g' ∧ square n g'.
Proof.
  intros Hg Ha Hb.
  destruct (graph_add_square n d a b g) as (g1 & H1 & Hg1); [done..|].
  destruct (graph_add_square n d b a g1) as (g2 & H2 & Hg2); [done..|].
  exists g2. split; [|done]. unfold graph_pair. rewrite H1. done.
Qed.

Lemma deref_Some {A} (l : list (option A)) (i : Z) (x : A) :
  deref l i = Some x ↔ at_ l i = Some (Some x).
Proof.
  unfold deref. destruct (at_ l i) as [[y|]|]; simpl; split; congruence.
Qed.

Lemma deref_set_at_eq {A} (l : list (option A)) (i : Z) (x y : A) :
  deref l i = Some y → deref (set_at l i (Some x)) i = Some x.
Proof.
  rewrite !deref_Some. intros H. by eapply at_set_at_eq.
Qed.

Lemma deref_set_at_ne {A} (l : list (option A)) (i a : Z) (x : option A) :
  0 ≤ i → a ≠ i → deref (set_at l i x) a = deref l a.
Proof. intros. unfold deref. by rewrite at_set_at_ne. Qed.

Lemma set_at_set_at {A} (l : list A) (i : Z) (x y : A) :
  set_at (set_at l i x) i y = set_at l i y.
Proof. unfold set_at. apply list_insert_insert_eq. Qed.

Section Merge.
Context `{C : Collaborators}.

(** Retargeting a feature succeeds when the feature is there, and touches
    only the keyframes. *)
Lemma set_stereo_pt_idx_defined kf ldx v m f :
  stereo_pt_at kf ldx m = Some (Some f) →
  ∃ m', set_stereo_pt_idx kf ldx v m = Some m'
        ∧ map_points m' = map_points m
        ∧ map_points_kf_idx m' = map_points_kf_idx m
        ∧ full_graph m' = full_graph m
        ∧ stereo_pt_at kf ldx m' = Some (Some (PointFeature.set_idx v f)).
Proof.
  unfold stereo_pt_at, set_stereo_pt_idx. intros H.
  apply bind_Some in H as (k & Hk & Hf).
  rewrite Hk. simpl.
  assert (deref (StereoFrame.stereo_pt (KeyFrame.stereo_frame k)) ldx = Some f)
    as Hd by by apply deref_Some.
  rewrite Hd. simpl. eexists. split; [done|]. simpl.
  repeat split.
  erewrite deref_set_at_eq by done. simpl.
  by eapply at_set_at_eq.
Qed.

(** The inner loop that updates the graph is defined on a matrix that is
    large enough. *)
Lemma graph_loop_defined n (ks : list Z) jdx (N : nat) g :
  square n g → (N ≤ length ks)%nat →
  Forall (λ k, 0 ≤ k < Z.of_nat n) (take N ks) → 0 ≤ jdx < Z.of_nat n →
  ∃ g', for_each (λ (i : nat) g, idx ← ks !! i; graph_pair 1 idx jdx g)
                 (seq 0 N) g = Some g' ∧ square n g'.
Proof.
  intros Hg HN Hks Hj.
  assert (∀ l : list nat, Forall (λ i, i < N)%nat l →
            ∀ g, square n g →
            ∃ g', for_each (λ (i : nat) g, idx ← ks !! i; graph_pair 1 idx jdx g)
                           l g = Some g' ∧ square n g') as Hgen.
  { induction l as [|i l IH]; intros Hl g0 Hg0; simpl.
    - by exists g0.
    - apply Forall_cons in Hl as [Hi Hl].
      destruct (lookup_lt_is_Some_2 ks i) as [k Hk]; [lia|].
      assert (0 ≤ k < Z.of_nat n) as Hkn.
      { eapply (Forall_lookup_1 _ _ i _ Hks). by rewrite lookup_take_lt. }
      destruct (graph_pair_square n 1 k jdx g0) as (g1 & H1 & Hg1); [done..|].
      rewrite Hk. simpl. rewrite H1. simpl. by apply IH. }
  apply Hgen; [|done].
  apply Forall_forall. intros i Hi%elem_of_seq. lia.
Qed.


Lemma fuse_pt_obs_defined n kc lm0 ldx N B iter it m A f o r jdx :
  deref (map_points m) lm0 = Some A →
  MapPoint.obs_list B !! iter = Some o →
  MapPoint.dir_list B !! iter = Some r →
  MapPoint.kf_obs_list B !! iter = Some jdx →
  stereo_pt_at kc ldx m = Some (Some f) →
  square n (full_graph m) →
  (N ≤ length (MapPoint.kf_obs_list A))%nat →
  in_range n (take N (MapPoint.kf_obs_list A)) →
  0 ≤ jdx < Z.of_nat n →
  ∃ m' A',
    fuse_pt_obs kc lm0 ldx N B iter it m = Some m'
    ∧ map_points m' = set_at (map_points m) lm0 (Some A')
    ∧ MapPoint.desc_list A' = MapPoint.desc_list A ++ [it]
    ∧ MapPoint.obs_list A' = MapPoint.obs_list A ++ [o]
    ∧ MapPoint.dir_list A' = MapPoint.dir_list A ++ [r]
    ∧ MapPoint.kf_obs_list A' = MapPoint.kf_obs_list A ++ [jdx]
    ∧ map_points_kf_idx m' = map_points_kf_idx m
    ∧ square n (full_graph m')
    ∧ (∃ f', stereo_pt_at kc ldx m' = Some (Some f')).
Proof.
  intros HA Ho Hr Hj Hf Hg HN Hks Hjn.
  unfold fuse_pt_obs. rewrite HA, Ho, Hr, Hj. simpl.
  destruct (graph_loop_defined n (MapPoint.kf_obs_list A ++ [jdx]) jdx N
              (full_graph m)) as (g' & Hloop & Hg'); [done| | |done|].
  { rewrite length_app. lia. }
  { by rewrite take_app_le. }
  rewrite Hloop. simpl.
  match goal with |- context [set_stereo_pt_idx _ _ _ ?m0] =>
    destruct (set_stereo_pt_idx_defined kc ldx lm0 m0 f)
      as (m' & Hset & Hpts & Hidx & Hgr & Hft); [exact Hf|] end.
  eexists m', _. split; [exact Hset|].
  rewrite Hpts, Hidx, Hgr. simpl.
  split; [reflexivity|]. repeat apply conj; try done; try apply Hg'; eauto.
Qed.

Lemma fuse_pt_loop_defined n kc lm0 ldx N B its :
  ∀ iter m A f,
  deref (map_points m) lm0 = Some A →
  (iter + length its ≤ length (MapPoint.obs_list B))%nat →
  (iter + length its ≤ length (MapPoint.dir_list B))%nat →
  (iter + length its ≤ length (MapPoint.kf_obs_list B))%nat →
  in_range n (MapPoint.kf_obs_list B) →
  stereo_pt_at kc ldx m = Some (Some f) →
  square n (full_graph m) →
  (N ≤ length (MapPoint.kf_obs_list A))%nat →
  in_range n (take N (MapPoint.kf_obs_list A)) →
  ∃ m' A',
    fuse_pt_loop kc lm0 ldx N B its iter m = Some m'
    ∧ map_points m' = set_at (map_points m) lm0 (Some A')
    ∧ MapPoint.desc_list A' = MapPoint.desc_list A ++ its
    ∧ MapPoint.obs_list A'
      = MapPoint.obs_list A ++ take (length its) (drop iter (MapPoint.obs_list B))
    ∧ MapPoint.dir_list A'
      = MapPoint.dir_list A ++ take (length its) (drop iter (MapPoint.dir_list B))
    ∧ MapPoint.kf_obs_list A'
      = MapPoint.kf_obs_list A
        ++ take (length its) (drop iter (MapPoint.kf_obs_list B))
    ∧ map_points_kf_idx m' = map_points_kf_idx m.
Proof.
  induction its as [|it its IH]; intros iter m A f HA Ho Hr Hk HB Hf Hg HN Hks.
  - simpl. exists m, A. rewrite !app_nil_r. repeat split; try done.
    unfold set_at. symmetry. apply list_insert_id.
    apply deref_Some, at_Some in HA. tauto.
  - simpl in Ho, Hr, Hk.
    destruct (lookup_lt_is_Some_2 (MapPoint.obs_list B) iter) as [o Hio]; [lia|].
    destruct (lookup_lt_is_Some_2 (MapPoint.dir_list B) iter) as [r Hir]; [lia|].
    destruct (lookup_lt_is_Some_2 (MapPoint.kf_obs_list B) iter) as [jdx Hij];
      [lia|].
    assert (0 ≤ jdx < Z.of_nat n) as Hjn
      by (eapply (Forall_lookup_1 _ _ _ _ HB Hij)).
    destruct (fuse_pt_obs_defined n kc lm0 ldx N B iter it m A f o r jdx)
      as (m1 & A1 & Hstep & Hpts1 & Hd1 & Ho1 & Hr1 & Hk1 & Hix1 & Hg1 & f1 & Hf1);
      [done..|].
    destruct (IH (S iter) m1 A1 f1) as (m' & A' & Hrun & Hpts & Hd & Ho' & Hr' & Hk' & Hix);
      try done; try lia.
    { rewrite Hpts1. by eapply deref_set_at_eq. }
    { rewrite Hk1, length_app. lia. }
    { rewrite Hk1. by rewrite take_app_le. }
    exists m', A'. simpl. rewrite Hstep. simpl.
    split; [exact Hrun|].
    rewrite Hpts, Hpts1, set_at_set_at, Hd, Hd1, Ho', Ho1, Hr', Hr1, Hk', Hk1,
      Hix, Hix1.
    rewrite <- !app_assoc. simpl.
    rewrite (drop_S _ _ _ Hio), (drop_S _ _ _ Hir), (drop_S _ _ _ Hij).
    done.
Qed.

End Merge.

(** ** What the fusion of two landmarks adds to the matrix *)

Lemma bump_raised c o : bump 1 c o = raised (if c then 1 else 0) o.
Proof.
  unfold bump, raised. destruct c, o; simpl; try done. f_equal. lia.
Qed.

Lemma raised_raised a b o : raised a (raised b o) = raised (b + a) o.
Proof. unfold raised. destruct o; simpl; [f_equal; lia | done]. Qed.

Lemma raised_0 o : raised 0 o = o.
Proof. unfold raised. destruct o; simpl; [f_equal; lia | done]. Qed.

Lemma occ_nil x : occ x [] = 0.
Proof. done. Qed.

Lemma occ_cons x k ks :
  occ x (k :: ks) = (if bool_decide (x = k) then 1 else 0) + occ x ks.
Proof.
  unfold occ. rewrite filter_cons.
  case_decide; case_bool_decide; subst; simpl; try lia; done.
Qed.

Lemma occ_app x ks ks' : occ x (ks ++ ks') = occ x ks + occ x ks'.
Proof.
  unfold occ. rewrite filter_app, length_app. lia.
Qed.

(** One mirrored pair of increments. *)
Lemma graph_get_pair_raised a b g g' x y :
  graph_pair 1 a b g = Some g' →
  graph_get g' x y
  = raised ((if bool_decide (x = a ∧ y = b) then 1 else 0)
            + (if bool_decide (x = b ∧ y = a) then 1 else 0))
           (graph_get g x y).
Proof.
  intros H. rewrite (graph_get_pair _ _ _ _ _ _ _ H).
  by rewrite !bump_raised, raised_raised.
Qed.

(** The inner loop against the observations the earlier landmark had. *)
Lemma graph_loop_effect (ks : list Z) jdx x y :
  ∀ (l : list nat) (sel : list Z) g g',
  Forall2 (λ i k, ks !! i = Some k) l sel →
  for_each (λ (i : nat) g, idx ← ks !! i; graph_pair 1 idx jdx g) l g = Some g' →
  graph_get g' x y
  = raised (occ x sel * (if bool_decide (y = jdx) then 1 else 0)
            + (if bool_decide (x = jdx) then 1 else 0) * occ y sel)
           (graph_get g x y).
Proof.
  induction l as [|i l IH]; intros sel g g' Hsel Hrun.
  - apply Forall2_nil_inv_l in Hsel as ->. simpl in Hrun. simplify_eq.
    rewrite !occ_nil. by rewrite Z.mul_0_l, Z.mul_0_r, raised_0.
  - apply Forall2_cons_inv_l in Hsel as (k & sel' & Hk & Hsel & ->).
    simpl in Hrun. rewrite Hk in Hrun. simpl in Hrun.
    apply bind_Some in Hrun as (g1 & H1 & Hrun).
    rewrite (IH _ _ _ Hsel Hrun), (graph_get_pair_raised _ _ _ _ _ _ H1).
    rewrite raised_raised, !occ_cons. f_equal.
    repeat case_bool_decide; try lia; destruct_and?; subst; try lia;
      exfalso; tauto.
Qed.

Lemma seq_selects_take (ks : list Z) (N : nat) :
  (N ≤ length ks)%nat →
  Forall2 (λ i k, ks !! i = Some k) (seq 0 N) (take N ks).
Proof.
  intros HN. apply Forall2_same_length_lookup. split.
  - rewrite length_seq, length_take. lia.
  - intros i j k Hi Hk. apply lookup_seq in Hi as [-> Hi]. simpl.
    rewrite lookup_take_lt in Hk by done. done.
Qed.

Section MergeEffect.
Context `{C : Collaborators}.

Lemma fuse_pt_obs_effect kc lm0 ldx N B iter it m m' A jdx x y :
  fuse_pt_obs kc lm0 ldx N B iter it m = Some m' →
  deref (map_points m) lm0 = Some A →
  MapPoint.kf_obs_list B !! iter = Some jdx →
  (N ≤ length (MapPoint.kf_obs_list A))%nat →
  graph_get (full_graph m') x y
  = raised (occ x (take N (MapPoint.kf_obs_list A))
              * (if bool_decide (y = jdx) then 1 else 0)
            + (if bool_decide (x = jdx) then 1 else 0)
              * occ y (take N (MapPoint.kf_obs_list A)))
           (graph_get (full_graph m) x y).
Proof.
  unfold fuse_pt_obs. intros Hrun HA Hj HN.
  rewrite HA in Hrun. simpl in Hrun.
  apply bind_Some in Hrun as (o & Ho & Hrun).
  apply bind_Some in Hrun as (r & Hr & Hrun).
  rewrite Hj in Hrun. simpl in Hrun.
  apply bind_Some in Hrun as (g & Hg & Hrun).
  apply set_stereo_pt_idx_graph in Hrun. rewrite Hrun. simpl.
  eapply graph_loop_effect; [|exact Hg].
  replace (take N (MapPoint.kf_obs_list A))
    with (take N (MapPoint.kf_obs_list A ++ [jdx]))
    by (by rewrite take_app_le).
  apply seq_selects_take. rewrite length_app. lia.
Qed.


Lemma set_stereo_pt_idx_points kf ldx v m m' :
  set_stereo_pt_idx kf ldx v m = Some m' → map_points m' = map_points m.
Proof. unfold set_stereo_pt_idx. intros H. inv_opt. by subst. Qed.

Lemma fuse_pt_obs_keyframes kc lm0 ldx N B iter it m m' A jdx :
  fuse_pt_obs kc lm0 ldx N B iter it m = Some m' →
  deref (map_points m) lm0 = Some A →
  MapPoint.kf_obs_list B !! iter = Some jdx →
  ∃ A', deref (map_points m') lm0 = Some A'
        ∧ MapPoint.kf_obs_list A' = MapPoint.kf_obs_list A ++ [jdx].
Proof.
  unfold fuse_pt_obs. intros Hrun HA Hj.
  rewrite HA in Hrun. simpl in Hrun.
  apply bind_Some in Hrun as (o & Ho & Hrun).
  apply bind_Some in Hrun as (r & Hr & Hrun).
  rewrite Hj in Hrun. simpl in Hrun.
  apply bind_Some in Hrun as (g & Hg & Hrun).
  apply set_stereo_pt_idx_points in Hrun. rewrite Hrun. simpl.
  eexists. split; [by eapply deref_set_at_eq | done].
Qed.

Lemma fuse_pt_loop_effect kc lm0 ldx N B x y its :
  ∀ iter m m' A,
  fuse_pt_loop kc lm0 ldx N B its iter m = Some m' →
  deref (map_points m) lm0 = Some A →
  (N ≤ length (MapPoint.kf_obs_list A))%nat →
  (iter + length its ≤ length (MapPoint.kf_obs_list B))%nat →
  graph_get (full_graph m') x y
  = raised (occ x (take N (MapPoint.kf_obs_list A))
              * occ y (take (length its) (drop iter (MapPoint.kf_obs_list B)))
            + occ x (take (length its) (drop iter (MapPoint.kf_obs_list B)))
              * occ y (take N (MapPoint.kf_obs_list A)))
           (graph_get (full_graph m) x y).
Proof.
  induction its as [|it its IH]; intros iter m m' A Hrun HA HN Hlen.
  - simpl in Hrun. simplify_eq. simpl.
    rewrite !occ_nil. by rewrite Z.mul_0_l, Z.mul_0_r, raised_0.
  - simpl in Hrun, Hlen. apply bind_Some in Hrun as (m1 & Hstep & Hrun).
    destruct (lookup_lt_is_Some_2 (MapPoint.kf_obs_list B) iter) as [jdx Hj];
      [lia|].
    destruct (fuse_pt_obs_keyframes _ _ _ _ _ _ _ _ _ _ _ Hstep HA Hj)
      as (A1 & HA1 & Hk1).
    rewrite (IH (S iter) m1 m' A1 Hrun HA1); [| rewrite Hk1, length_app; lia | lia].
    rewrite (fuse_pt_obs_effect _ _ _ _ _ _ _ _ _ _ _ x y Hstep HA Hj HN).
    rewrite raised_raised.
    rewrite Hk1, take_app_le by done.
    simpl. rewrite (drop_S _ _ _ Hj). simpl. rewrite !occ_cons.
    f_equal. repeat case_bool_decide; subst; try done; lia.
Qed.

(** What the fusion of the later landmark [B] into the earlier landmark [A]
    adds to the matrix: the cell of the keyframes [x] and [y] grows by the
    number of pairs (observation of [A] from [x], observation of [B] from
    [y]) plus the number of such pairs with [x] and [y] exchanged. *)
Lemma fusion_merge_graph_effect kc lm0 lm1 ldx m m' A B f x y :
  fuse_pt_merge kc lm0 lm1 ldx m = Some m' →
  deref (map_points m) lm0 = Some A →
  deref (map_points m) lm1 = Some B →
  stereo_pt_at kc ldx m = Some (Some f) →
  length (MapPoint.kf_obs_list B) = length (MapPoint.desc_list B) →
  graph_get (full_graph m') x y
  = raised (occ x (MapPoint.kf_obs_list A) * occ y (MapPoint.kf_obs_list B)
            + occ x (MapPoint.kf_obs_list B) * occ y (MapPoint.kf_obs_list A))
           (graph_get (full_graph m) x y).
Proof.
  unfold fuse_pt_merge. intros Hrun HA HB Hf Hlen.
  pose proof HA as HA'. pose proof HB as HB'.
  apply deref_Some in HA', HB'.
  rewrite HA' in Hrun. simpl in Hrun. rewrite HB' in Hrun. simpl in Hrun.
  rewrite Hf in Hrun. simpl in Hrun.
  case_decide; [done|].
  apply bind_Some in Hrun as (m1 & Hloop & Hrun).
  apply bind_Some in Hrun as (k0 & Hk0 & Hrun).
  apply bind_Some in Hrun as (t & Ht & Hrun). simplify_eq. simpl.
  rewrite (fuse_pt_loop_effect _ _ _ _ _ x y _ _ _ _ A Hloop HA); [|done|lia].
  rewrite firstn_all, drop_0, <- Hlen, firstn_all. done.
Qed.

Lemma occ_NoDup x ks :
  NoDup ks → occ x ks = if bool_decide (x ∈ ks) then 1 else 0.
Proof.
  induction 1 as [|k ks Hk Hnd IH].
  - rewrite occ_nil. by rewrite bool_decide_eq_false_2 by apply not_elem_of_nil.
  - rewrite occ_cons, IH.
    repeat case_bool_decide; subst; try lia;
      rewrite elem_of_cons in *; exfalso; tauto.
Qed.

(** When no keyframe sees both landmarks, and none sees one of them twice,
    the fusion adds exactly one to the cells of the pairs (keyframe of [A],
    keyframe of [B]), in both orders, and nothing anywhere else; the
    diagonal is left alone. *)
Lemma fusion_merge_graph_effect_disjoint kc lm0 lm1 ldx m m' A B f x y :
  fuse_pt_merge kc lm0 lm1 ldx m = Some m' →
  deref (map_points m) lm0 = Some A →
  deref (map_points m) lm1 = Some B →
  stereo_pt_at kc ldx m = Some (Some f) →
  length (MapPoint.kf_obs_list B) = length (MapPoint.desc_list B) →
  NoDup (MapPoint.kf_obs_list A) →
  NoDup (MapPoint.kf_obs_list B) →
  (∀ k, k ∈ MapPoint.kf_obs_list A → k ∉ MapPoint.kf_obs_list B) →
  graph_get (full_graph m') x y
  = raised (if bool_decide
                 ((x ∈ MapPoint.kf_obs_list A ∧ y ∈ MapPoint.kf_obs_list B)
                  ∨ (x ∈ MapPoint.kf_obs_list B ∧ y ∈ MapPoint.kf_obs_list A))
            then 1 else 0)
           (graph_get (full_graph m) x y).
Proof.
  intros Hrun HA HB Hf Hlen HnA HnB Hdisj.
  rewrite (fusion_merge_graph_effect _ _ _ _ _ _ _ _ _ x y Hrun HA HB Hf Hlen).
  rewrite !occ_NoDup by done. f_equal.
  pose proof (Hdisj x). pose proof (Hdisj y).
  repeat case_bool_decide; try lia; exfalso; tauto.
Qed.

End MergeEffect.

(** C9. Loop-closure fusion of a correspondence whose two sides own the
    distinct resident landmarks [A] (slot [lm_idx0], the earlier one) and
    [B] (slot [lm_idx1]): on a well-formed map (the lists of [B] are aligned
    and not empty, the keyframes of both landmarks index the square matrix
    [full_graph], the anchor keyframe of [B] has its entry in
    [map_points_kf_idx], the feature of the current keyframe is there) the
    fusion returns, every observation list of [A] has afterwards the length
    it had before plus the length of the list of [B], and the slot of [B] is
    null. *)
Theorem fusion_merge_observation_count `{Collaborators} (n : nat)
    (kf_prev_idx kf_curr_idx lm_idx0 lm_ldx0 lm_idx1 lm_ldx1 : Z)
    (m : MapHandler) (A B : MapPoint.t) (f : PointFeature.t) :
  deref (map_points m) lm_idx0 = Some A →
  deref (map_points m) lm_idx1 = Some B →
  lm_idx0 ≠ lm_idx1 →
  stereo_pt_at kf_curr_idx lm_ldx1 m = Some (Some f) →
  length (MapPoint.obs_list B) = length (MapPoint.desc_list B) →
  length (MapPoint.dir_list B) = length (MapPoint.desc_list B) →
  length (MapPoint.kf_obs_list B) = length (MapPoint.desc_list B) →
  (0 < length (MapPoint.desc_list B))%nat →
  square n (full_graph m) →
  in_range n (MapPoint.kf_obs_list A) →
  in_range n (MapPoint.kf_obs_list B) →
  (∀ k, head (MapPoint.kf_obs_list B) = Some k →
        is_Some (map_points_kf_idx m !! k)) →
  ∃ m' A',
    fuse_pt_match kf_prev_idx kf_curr_idx (lm_idx0, lm_ldx0, lm_idx1, lm_ldx1) m
      = Some m'
    ∧ deref (map_points m') lm_idx0 = Some A'
    ∧ length (MapPoint.desc_list A')
      = (length (MapPoint.desc_list A) + length (MapPoint.desc_list B))%nat
    ∧ length (MapPoint.obs_list A')
      = (length (MapPoint.obs_list A) + length (MapPoint.obs_list B))%nat
    ∧ length (MapPoint.dir_list A')
      = (length (MapPoint.dir_list A) + length (MapPoint.dir_list B))%nat
    ∧ length (MapPoint.kf_obs_list A')
      = (length (MapPoint.kf_obs_list A) + length (MapPoint.kf_obs_list B))%nat
    ∧ at_ (map_points m') lm_idx1 = Some None.
Proof.
  intros HA HB Hne Hf Hlo Hlr Hlk Hpos Hg HkA HkB Hanchor.
  pose proof HA as [H0 _]%deref_Some%at_Some.
  pose proof HB as [H1 _]%deref_Some%at_Some.
  destruct (fuse_pt_loop_defined n kf_curr_idx lm_idx0 lm_ldx1
              (length (MapPoint.kf_obs_list A)) B (MapPoint.desc_list B)
              0%nat m A f)
    as (m1 & A' & Hrun & Hpts & Hd & Ho & Hr & Hk & Hix);
    try done; try (simpl; lia).
  { rewrite firstn_all. exact HkA. }
  destruct (MapPoint.kf_obs_list B) as [|k0 ks] eqn:Hks; [simpl in Hlk; lia|].
  destruct (Hanchor k0 eq_refl) as [l Hl].
  eexists _, A'. split.
  - unfold fuse_pt_match.
    rewrite decide_False by lia. simpl.
    rewrite decide_False by lia. simpl.
    rewrite decide_False by lia. simpl.
    rewrite decide_True by lia.
    unfold fuse_pt_merge.
    apply deref_Some in HA, HB. rewrite HA. simpl. rewrite HB. simpl.
    rewrite Hf. simpl. rewrite decide_False by done.
    rewrite Hrun. simpl. rewrite Hks. simpl.
    unfold kf_idx_erase. rewrite Hix, Hl. simpl. reflexivity.
  - simpl. rewrite Hpts.
    split.
    { rewrite deref_set_at_ne by done. eapply deref_set_at_eq; eauto. }
    rewrite Hd, Ho, Hr, Hk, !length_app, !drop_0.
    rewrite !length_take. simpl in Hlk |- *.
    repeat split; try lia.
    eapply at_set_at_eq. rewrite at_set_at_ne by done.
    apply deref_Some. eauto.
Qed.

Lemma fusion_merge_observation_count_witness :
  ∃ m' A',
    fuse_pt_match (C:=plain_collaborators) 0 8 (0, 0, 1, 0) merge_map = Some m'
    ∧ deref (map_points m') 0 = Some A'
    ∧ length (MapPoint.desc_list A') = (5 + 3)%nat
    ∧ length (MapPoint.obs_list A') = (5 + 3)%nat
    ∧ length (MapPoint.dir_list A') = (5 + 3)%nat
    ∧ length (MapPoint.kf_obs_list A') = (5 + 3)%nat
    ∧ at_ (map_points m') 1 = Some None.
Proof.
  apply (fusion_merge_observation_count (H:=plain_collaborators) 9 0 8 0 0 1 0
           merge_map five_obs three_obs (pt_feature 1 true)).
  - reflexivity.
  - reflexivity.
  - lia.
  - reflexivity.
  - reflexivity.
  - reflexivity.
  - reflexivity.
  - simpl. lia.
  - split; [reflexivity | repeat constructor].
  - repeat constructor; lia.
  - repeat constructor; lia.
  - intros k [= <-]. eexists. vm_compute. reflexivity.
Defined.

(** C7. The covisibility matrix stays symmetric under every statement of
    [mapHandler.cpp] that writes it. It is symmetric after [initialize];
    and each writer takes a symmetric matrix to a symmetric matrix:
    [expandGraphs]; the association of a match between two keyframes
    (points and lines, in both variants of the line code) and between the
    local map and a keyframe (points and lines); the removal of a point or
    line observation after the local bundle adjustment (the loops of
    [levMarquardtOptimizationLBA] and [levMarquardtOptimizationLBAForPluker]
    are the same text) and after the g2o bundle adjustment; the erasure of
    a keyframe in [removeRedundantKFs]; and the fusion of landmarks across
    the loop edges. Cells are always changed in mirrored pairs. *)
Theorem covisibility_symmetric `{Collaborators} `{LineGeometry} :
  (∀ kf0 h h',
     initialize kf0 h = Some h' → symmetric (full_graph (the_map h')))
  ∧ (∀ h,
       symmetric (full_graph (the_map h)) →
       symmetric (full_graph (the_map (expandGraphs h))))
  ∧ (∀ i1 i2 prev_kf curr_kf m r,
       symmetric (full_graph m) →
       matchKF2KFPoints_match i1 i2 prev_kf curr_kf m = Some r →
       symmetric (full_graph r.2))
  ∧ (∀ use_line_pluker hasRefinement i1 i2 prev_kf curr_kf m r,
       symmetric (full_graph m) →
       matchKF2KFLines_match use_line_pluker hasRefinement i1 i2
         prev_kf curr_kf m = Some r →
       symmetric (full_graph r.2))
  ∧ (∀ maxKFEpipP Twf i2 mp up desc matches curr_kf m r,
       symmetric (full_graph m) →
       matchMap2KFPoints_match maxKFEpipP Twf i2 mp up desc matches
         curr_kf m = Some r →
       symmetric (full_graph r.2))
  ∧ (∀ cfg use_line_pluker Twf i2 ml ul desc matches curr_kf m r,
       symmetric (full_graph m) →
       matchMap2KFLines_match cfg use_line_pluker Twf i2 ml ul desc matches
         curr_kf m = Some r →
       symmetric (full_graph r.2))
  ∧ (∀ o m m',
       symmetric (full_graph m) →
       remove_pt_observation o m = Some m' →
       symmetric (full_graph m'))
  ∧ (∀ o m m',
       symmetric (full_graph m) →
       remove_ls_observation o m = Some m' →
       symmetric (full_graph m'))
  ∧ (∀ ks ps lm_idx_obs m m',
       symmetric (full_graph m) →
       g2o_remove_pt_observation ks ps lm_idx_obs m = Some m' →
       symmetric (full_graph m'))
  ∧ (∀ ks ls lm_idx_obs m m',
       symmetric (full_graph m) →
       g2o_remove_ls_observation ks ls lm_idx_obs m = Some m' →
       symmetric (full_graph m'))
  ∧ (∀ kf_idx m m',
       symmetric (full_graph m) →
       removeRedundantKFs_update_graph kf_idx m = Some m' →
       symmetric (full_graph m'))
  ∧ (∀ m m',
       symmetric (full_graph m) →
       loopClosureFuseLandmarks m = Some m' →
       symmetric (full_graph m')).
Proof.
  split; [intros; by eapply initialize_sym|].
  split; [intros; by apply expandGraphs_sym|].
  repeat split; intros.
  - by eapply matchKF2KFPoints_match_sym.
  - by eapply matchKF2KFLines_match_sym.
  - by eapply matchMap2KFPoints_match_sym.
  - by eapply matchMap2KFLines_match_sym.
  - by eapply remove_pt_observation_sym.
  - by eapply remove_ls_observation_sym.
  - by eapply g2o_remove_pt_observation_sym.
  - by eapply g2o_remove_ls_observation_sym.
  - by eapply removeRedundantKFs_update_graph_sym.
  - by eapply loopClosureFuseLandmarks_sym.
Qed.

Lemma at_replicate {A} (n : nat) (x : A) (i : Z) :
  at_ (replicate n x) i = if decide (0 ≤ i < Z.of_nat n) then Some x else None.
Proof.
  unfold at_. destruct (decide (0 ≤ i)).
  - destruct (decide (Z.to_nat i < n)%nat).
    + rewrite decide_True by lia. by apply lookup_replicate_2.
    + rewrite decide_False by lia. apply lookup_replicate_None. lia.
  - by rewrite decide_False by lia.
Qed.

Lemma symmetric_zero_graph n : symmetric (zero_graph n).
Proof.
  intros i j. unfold graph_get, zero_graph. rewrite !at_replicate.
  do 2 case_decide; simpl; rewrite ?at_replicate;
    repeat case_decide; done || lia.
Qed.

(** A run over the writers: the handler of the first keyframe, grown for
    the second one; a point match and a line match between two keyframes;
    on the map the point match leaves, the removal of its second
    observation by either bundle adjustment, a match against the local map
    and the erasure of keyframe 1; a line match against the local map and
    the removal of its observation; and the fusion across a pending loop
    edge. *)
Lemma covisibility_symmetric_witness :
  ∃ h0 r rl m2 m2' s sp m4 m6 m5,
    initialize kf_a (handler_of blank_map) = Some h0
    ∧ symmetric (full_graph (the_map (expandGraphs h0)))
    ∧ matchKF2KFPoints_match (C:=plain_collaborators) 0 0 kf_a kf_b two_kf_map
      = Some r
    ∧ symmetric (full_graph r.2)
    ∧ matchKF2KFLines_match (C:=plain_collaborators) (G:=plain_line_geometry)
        true true 0 0 (keyframe 0 [] [ls_feature (-1) []]) kf_line two_kf_map
      = Some rl
    ∧ symmetric (full_graph rl.2)
    ∧ remove_pt_observation (C:=plain_collaborators) bad_obs r.2 = Some m2
    ∧ symmetric (full_graph m2)
    ∧ g2o_remove_pt_observation (C:=plain_collaborators) 1 0 1 r.2 = Some m2'
    ∧ symmetric (full_graph m2')
    ∧ matchMap2KFLines_match (C:=plain_collaborators) cfg0 false [] 0 0 0 [0]
        1 kf_line local_line_map = Some s
    ∧ symmetric (full_graph s.2)
    ∧ matchMap2KFPoints_match (C:=plain_collaborators) (num 1) [] 0 0 0 [0]
        1 kf_b r.2 = Some sp
    ∧ symmetric (full_graph sp.2)
    ∧ remove_ls_observation (C:=plain_collaborators) bad_obs s.2 = Some m4
    ∧ symmetric (full_graph m4)
    ∧ removeRedundantKFs_update_graph 1 r.2 = Some m6
    ∧ symmetric (full_graph m6)
    ∧ loopClosureFuseLandmarks (C:=plain_collaborators) pending_loop_map
      = Some m5
    ∧ symmetric (full_graph m5).
Proof.
  destruct (covisibility_symmetric (H:=plain_collaborators)
              (H0:=plain_line_geometry))
    as (Hinit & Hgrow & Hmatch & Hmatch_ls & Hmap_pt & Hmap & Hremove
        & Hremove_ls & Hg2o & _ & Herase & Hfuse).
  assert (symmetric (full_graph two_kf_map)) as H0
    by apply (symmetric_zero_graph 2).
  assert (symmetric (full_graph local_line_map)) as H1
    by apply (symmetric_zero_graph 2).
  assert (symmetric (full_graph pending_loop_map)) as H2
    by apply (symmetric_zero_graph 3).
  destruct (initialize kf_a (handler_of blank_map)) as [h0|] eqn:Hh0;
    [|vm_compute in Hh0; discriminate Hh0].
  pose proof (Hgrow _ (Hinit _ _ _ Hh0)) as Hs0.
  destruct (matchKF2KFPoints_match (C:=plain_collaborators) 0 0 kf_a kf_b
              two_kf_map) as [r|] eqn:Hr;
    [|vm_compute in Hr; discriminate Hr].
  pose proof (Hmatch _ _ _ _ _ _ H0 Hr) as Hs1.
  destruct (matchKF2KFLines_match (C:=plain_collaborators)
              (G:=plain_line_geometry) true true 0 0
              (keyframe 0 [] [ls_feature (-1) []]) kf_line two_kf_map)
    as [rl|] eqn:Hrl;
    [|vm_compute in Hrl; discriminate Hrl].
  pose proof (Hmatch_ls _ _ _ _ _ _ _ _ H0 Hrl) as Hs1l.
  destruct (remove_pt_observation (C:=plain_collaborators) bad_obs r.2)
    as [m2|] eqn:Hm2.
  2: { exfalso. revert Hm2. vm_compute in Hr. injection Hr as <-.
       vm_compute. discriminate. }
  pose proof (Hremove _ _ _ Hs1 Hm2) as Hs2.
  destruct (g2o_remove_pt_observation (C:=plain_collaborators) 1 0 1 r.2)
    as [m2'|] eqn:Hm2'.
  2: { exfalso. revert Hm2'. vm_compute in Hr. injection Hr as <-.
       vm_compute. discriminate. }
  pose proof (Hg2o _ _ _ _ _ Hs1 Hm2') as Hs2'.
  destruct (matchMap2KFLines_match (C:=plain_collaborators) cfg0 false [] 0 0 0
              [0] 1 kf_line local_line_map) as [s|] eqn:Hs;
    [|vm_compute in Hs; discriminate Hs].
  pose proof (Hmap _ _ _ _ _ _ _ _ _ _ _ H1 Hs) as Hs3.
  destruct (matchMap2KFPoints_match (C:=plain_collaborators) (num 1) [] 0 0 0
              [0] 1 kf_b r.2) as [sp|] eqn:Hsp.
  2: { exfalso. revert Hsp. vm_compute in Hr. injection Hr as <-.
       vm_compute. discriminate. }
  pose proof (Hmap_pt _ _ _ _ _ _ _ _ _ _ Hs1 Hsp) as Hs3p.
  destruct (remove_ls_observation (C:=plain_collaborators) bad_obs s.2)
    as [m4|] eqn:Hm4.
  2: { exfalso. revert Hm4. vm_compute in Hs. injection Hs as <-.
       vm_compute. discriminate. }
  pose proof (Hremove_ls _ _ _ Hs3 Hm4) as Hs4.
  destruct (removeRedundantKFs_update_graph 1 r.2) as [m6|] eqn:Hm6.
  2: { exfalso. revert Hm6. vm_compute in Hr. injection Hr as <-.
       vm_compute. discriminate. }
  pose proof (Herase _ _ _ Hs1 Hm6) as Hs6.
  destruct (loopClosureFuseLandmarks (C:=plain_collaborators) pending_loop_map)
    as [m5|] eqn:Hm5;
    [|vm_compute in Hm5; discriminate Hm5].
  pose proof (Hfuse _ _ H2 Hm5) as Hs5.
  exists h0, r, rl, m2, m2', s, sp, m4, m6, m5.
  repeat split; assumption.
Defined.

(** C8. Fusing landmark [1] (seen from keyframes 2 and 3) into landmark [0]
    (seen from keyframes 0 and 2): the code adds one to the cells of every
    pair (observation of the earlier landmark, observation of the later one)
    without asking whether the two keyframes already shared a landmark or
    are the same keyframe. Keyframes 0 and 2 shared landmark [0] before the
    fusion and are counted again; the diagonal cell of keyframe 2 grows. *)
Theorem fusion_merge_counts_shared_pairs_again :
  ∃ m',
    fuse_pt_match (C:=plain_collaborators) 0 3 (0, 0, 1, 0) shared_kf_map
      = Some m'
    ∧ graph_get (full_graph shared_kf_map) 0 2 = Some 1
    ∧ graph_get (full_graph m') 0 2 = Some 2
    ∧ graph_get (full_graph shared_kf_map) 2 3 = Some 1
    ∧ graph_get (full_graph m') 2 3 = Some 2
    ∧ graph_get (full_graph shared_kf_map) 2 2 = Some 0
    ∧ graph_get (full_graph m') 2 2 = Some 2
    ∧ graph_get (full_graph m') 0 3 = Some 1.
Proof. eexists. split; [vm_compute; reflexivity|]. vm_compute. tauto. Qed.

(** ** Culling *)

Lemma cull_point_graph cfg i m m' :
  cull_point cfg i m = Some m' → full_graph m' = full_graph m.
Proof.
  unfold cull_point. intros H. inv_opt; subst; simpl; try done.
  match goal with H : unlink_pt_feature _ _ _ = Some _ |- _ =>
    by apply unlink_pt_feature_graph in H end.
Qed.

Lemma cull_line_graph cfg i m m' :
  cull_line cfg i m = Some m' → full_graph m' = full_graph m.
Proof.
  unfold cull_line. intros H. inv_opt; subst; simpl; try done.
  match goal with H : unlink_ls_feature _ _ _ = Some _ |- _ =>
    by apply unlink_ls_feature_graph in H end.
Qed.

(** C6. [removeBadMapLandmarks] never writes to the covisibility matrix:
    whatever landmarks it deletes, every count is what it was. *)
Theorem removeBadMapLandmarks_keeps_counts cfg m m' :
  removeBadMapLandmarks cfg m = Some m' → full_graph m' = full_graph m.
Proof.
  unfold removeBadMapLandmarks. intros Hrun.
  apply bind_Some in Hrun as (m1 & H1 & H2).
  assert (full_graph m1 = full_graph m) as Hm1.
  { eapply (for_each_inv (λ s, full_graph s = full_graph m)); [|exact H1|done].
    intros x s s' _ Hc Hs. rewrite <- Hs. by eapply cull_point_graph. }
  eapply (for_each_inv (λ s, full_graph s = full_graph m)); [|exact H2|done].
  intros x s s' _ Hc Hs. rewrite <- Hs. by eapply cull_line_graph.
Qed.

(** The outlier landmark [0] of [cull_map] is seen from keyframes 0 and 1.
    Culling deletes it; the two keyframes no longer share it, yet their
    count is still 1. *)
Lemma removeBadMapLandmarks_keeps_counts_witness :
  ∃ m',
    removeBadMapLandmarks cfg0 cull_map = Some m'
    ∧ map_points m' = [None]
    ∧ graph_get (full_graph cull_map) 0 1 = Some 1
    ∧ full_graph m' = full_graph cull_map.
Proof.
  destruct (removeBadMapLandmarks cfg0 cull_map)
    as [m'|] eqn:Hrun; [|vm_compute in Hrun; discriminate Hrun].
  exists m'. split; [reflexivity|].
  pose proof (removeBadMapLandmarks_keeps_counts cfg0 cull_map m' Hrun) as Hsame.
  split; [|split; [vm_compute; reflexivity | exact Hsame]].
  vm_compute in Hrun. injection Hrun as <-. reflexivity.
Defined.

(** ** The verdict on a loop candidate *)

Lemma robust_verdict_ignores_inliers cfg o pts lss :
  computeRelativePoseRobustGN cfg o pts lss
  = Dbl.lt (gn_e o) (lcRes cfg) && Dbl.lt (gn_DT_cov_eig5 o) (lcUnc cfg)
    && Dbl.lt (gn_t o) (lcTrs cfg) && Dbl.lt (gn_r o) (lcRot cfg).
Proof.
  unfold computeRelativePoseRobustGN. by rewrite andb_true_r.
Qed.

(** C2. A candidate with one inlier among four correspondences, under an
    inlier threshold of one half: the ratio does not exceed the threshold,
    [computeRelativePoseGN] rejects the candidate, and
    [computeRelativePoseRobustGN] accepts it, because it overwrites the
    outcome of the inlier test with [true]. *)
Theorem robust_verdict_accepts_low_inlier_ratio :
  ratio_inliers few_inliers [] = Dbl.Fin (1 # 4)
  ∧ Dbl.gt (ratio_inliers few_inliers []) (lcInl cfg0) = false
  ∧ computeRelativePoseGN cfg0 small_outcome few_inliers [] = false
  ∧ computeRelativePoseRobustGN cfg0 small_outcome few_inliers [] = true.
Proof. vm_compute. tauto. Qed.

(** ** Loop closure: the order of marking and fusing *)

Section MarkedEdges.
Context `{C : Collaborators}.

(** An edge whose marker is no longer [1] is passed over. *)
Lemma fuse_edges_all_marked fuse_match idxs :
  ∀ lc_idx m,
  Forall (λ e : Vector3i, e.2 ≠ 1) (lc_idx_list m) →
  (lc_idx + length idxs ≤ length (lc_idx_list m))%nat →
  fuse_edges fuse_match idxs lc_idx m = Some m.
Proof.
  induction idxs as [|idx_it idxs IH]; intros lc_idx m Hmark Hlen; [done|].
  simpl in Hlen. cbn [fuse_edges].
  destruct (lc_idx_list m !! lc_idx) as [[[kp kc] marker]|] eqn:He.
  2: { apply lookup_ge_None in He. unfold Vector3i in *. lia. }
  pose proof (Forall_lookup_1 _ _ _ _ Hmark He) as Hne. simpl in Hne.
  simpl. rewrite decide_False by done. simpl.
  apply IH; [done | unfold Vector3i in *; lia].
Qed.

Lemma mark_optimized_marked m :
  Forall (λ e : Vector3i, e.2 ≠ 1) (lc_idx_list (mark_optimized m)).
Proof.
  unfold mark_optimized. simpl. apply Forall_fmap, Forall_true.
  intros e. simpl. lia.
Qed.

End MarkedEdges.

(** C1. [loopClosureOptimizationCovGraphG2O] clears the marker of every
    loop edge and only then calls [loopClosureFuseLandmarks], which looks at
    an edge only while its marker is set: the fusion pass finds no edge to
    work on, and the map that comes out is the map after the pose
    correction, with the markers cleared and the state back to idle. No
    correspondence of a pending edge is ever fused. *)
Theorem fusion_finds_every_edge_marked `{Collaborators} `{PoseGraph}
    (m : MapHandler) :
  (length (lc_pt_idxs (correct_poses m))
   ≤ length (lc_idx_list (correct_poses m)))%nat →
  (length (lc_ls_idxs (correct_poses m))
   ≤ length (lc_idx_list (correct_poses m)))%nat →
  loopClosureOptimizationCovGraphG2O m
  = Some (set_lc_state LC_IDLE (mark_optimized (correct_poses m))).
Proof.
  intros Hpt Hls. unfold loopClosureOptimizationCovGraphG2O, loopClosureFuseLandmarks.
  assert (length (lc_idx_list (mark_optimized (correct_poses m)))
          = length (lc_idx_list (correct_poses m))) as Hlen
    by (unfold mark_optimized; simpl; by rewrite length_map).
  rewrite fuse_edges_all_marked.
  - simpl. rewrite fuse_edges_all_marked; [done| |].
    + apply mark_optimized_marked.
    + rewrite Hlen. simpl. lia.
  - apply mark_optimized_marked.
  - rewrite Hlen. simpl. lia.
Qed.

(** The pending edge of [pending_loop_map] links two features that have no
    landmark. Fusing it while its marker is set creates the landmark and
    counts the pair of keyframes; the loop-closure driver, once the state is
    ready, leaves the map without any landmark and the matrix untouched. *)
Lemma fusion_finds_every_edge_marked_witness :
  (∃ m', loopClosureFuseLandmarks (C:=plain_collaborators) pending_loop_map
         = Some m'
         ∧ length (map_points m') = 1%nat
         ∧ graph_get (full_graph m') 0 2 = Some 1)
  ∧ lc_state (set_lc_state LC_READY pending_loop_map) = LC_READY
  ∧ loopClosureOptimizationCovGraphG2O (C:=plain_collaborators)
      (G:=plain_pose_graph) (set_lc_state LC_READY pending_loop_map)
    = Some (set_lc_state LC_IDLE
              (mark_optimized (set_lc_state LC_READY pending_loop_map)))
  ∧ (∃ m', loopClosure (C:=plain_collaborators) (G:=plain_pose_graph)
             NoCandidate pending_loop_map = Some m'
           ∧ map_points m' = []
           ∧ full_graph m' = full_graph pending_loop_map
           ∧ lc_idx_list m' = [(0, 2, 0)]
           ∧ lc_state m' = LC_IDLE).
Proof.
  split; [eexists; split; [vm_compute; reflexivity | vm_compute; tauto]|].
  split; [reflexivity|].
  split.
  - apply (fusion_finds_every_edge_marked (H:=plain_collaborators)
             (H0:=plain_pose_graph) (set_lc_state LC_READY pending_loop_map));
      simpl; lia.
  - eexists. split; [vm_compute; reflexivity | vm_compute; tauto].
Defined.

(** ** The Levenberg-Marquardt solver *)

Section SolverFacts.
Context `{C : Collaborators} `{K : LMKernels}.

Lemma lm_iteration_divisors cfg lmod m Nkf Npt Nls Npt_obs Nls_obs pts lss st :
  divisors (lm_iteration cfg lmod m Nkf Npt Nls Npt_obs Nls_obs pts lss st).1
  = divisors st ++ [loop_divisor lmod Npt Nls Npt_obs Nls_obs].
Proof.
  unfold lm_iteration, update_lambda.
  repeat (case_match; simpl); done.
Qed.

Lemma lm_loop_divisors cfg lmod m Nkf Npt Nls Npt_obs Nls_obs pts lss n :
  ∀ st, ∃ k,
    divisors (lm_loop cfg lmod m Nkf Npt Nls Npt_obs Nls_obs pts lss n st)
    = divisors st ++ replicate k (loop_divisor lmod Npt Nls Npt_obs Nls_obs).
Proof.
  induction n as [|n IH]; intros st; simpl.
  - exists 0%nat. by rewrite app_nil_r.
  - case_match.
    + exists 1%nat. apply lm_iteration_divisors.
    + destruct (IH (lm_iteration cfg lmod m Nkf Npt Nls Npt_obs Nls_obs
                      pts lss st).1) as [k Hk].
      exists (S k). rewrite Hk, lm_iteration_divisors.
      by rewrite <- app_assoc.
Qed.

End SolverFacts.

(** C3. In [levMarquardtOptimizationLBAForPluker] the counters [Npt_obs]
    and [Nls_obs] keep the value [0] they are declared with, so the divisor
    [Npt_obs + Nls_obs] of every normalization of the error (the one before
    the loop and the one of each iteration) is [0], whatever the observation
    lists hold. At least one such division is executed. *)
Theorem pluker_error_normalized_by_zero `{Collaborators} `{LMKernels}
    (cfg : SlamConfig) (m : MapHandler) (X_aux : Vector) (kf_list : list Z)
    (pt_obs_list ls_obs_list : list Vector6i) :
  let st := lm_solve cfg Pluker m X_aux kf_list pt_obs_list ls_obs_list in
  divisors st ≠ [] ∧ Forall (λ n, n = 0) (divisors st).
Proof.
  unfold lm_solve.
  match goal with |- context [lm_loop ?a ?b ?c ?d ?e ?f ?g ?h ?i ?j ?k ?st] =>
    destruct (lm_loop_divisors a b c d e f g h i j k st) as [n Hn] end.
  cbv zeta. rewrite Hn. simpl. split; [done|].
  constructor; [done|]. apply Forall_replicate. done.
Qed.

(** With one point observation and an iteration budget of two, the solver
    divides twice, both times by zero, and the error it carries is
    infinite. *)
Example pluker_one_observation :
  let st := lm_solve (C:=plain_collaborators) (K:=plain_kernels)
              cfg0 Pluker lm_map X0 [] [one_pt_obs] [] in
  divisors st = [0; 0] ∧ err_prev st = Dbl.PInf.
Proof. vm_compute. tauto. Qed.

(** C5 (as amended). In an iteration of either solver that passes the
    convergence test: when the new error is greater than the previous one,
    the damping factor is divided by [lambdaLbaK] and the state vector is
    left alone; otherwise (the error is smaller, equal or not comparable) the
    damping factor is multiplied by [lambdaLbaK] and the step is applied:
    manifold composition on the pose blocks, then [+=] on the point blocks,
    then the update of the line blocks. *)
Theorem lm_step_on_error_comparison `{Collaborators} `{LMKernels}
    (cfg : SlamConfig) (lmod : LineModel) (m : MapHandler)
    (Nkf Npt Nls Npt_obs Nls_obs : Z) (pts lss : list Vector6i)
    (st : LMState) :
  let err := iter_err lmod m Nkf Npt Nls Npt_obs Nls_obs pts lss st in
  let DX := iter_DX lmod m Nkf Npt pts lss st in
  let st' := (lm_iteration cfg lmod m Nkf Npt Nls Npt_obs Nls_obs pts lss st).1 in
  converged cfg err (err_prev st) = false →
  (Dbl.gt err (err_prev st) = true →
     lambda st' = Dbl.div (lambda st) (lambdaLbaK cfg) ∧ X st' = X st)
  ∧ (Dbl.gt err (err_prev st) = false →
     lambda st' = Dbl.mul (lambda st) (lambdaLbaK cfg)
     ∧ X st' = update_line_LMs lmod Nkf Npt
                 (update_point_LMs Nkf Npt (update_KFs Nkf (X st) DX) DX) DX).
Proof.
  intros err DX st' Hconv. subst st'. unfold lm_iteration.
  fold err. rewrite Hconv. fold DX. unfold update_lambda. simpl.
  split; intros Hgt; rewrite Hgt; case_match; done.
Qed.

Lemma lm_step_on_error_comparison_witness :
  let st := lm_solve (C:=plain_collaborators) (K:=plain_kernels)
              (with_maxItersLba 1 cfg0) Endpoints lm_map X0 [] [one_pt_obs] [] in
  let st' := (lm_iteration (C:=plain_collaborators) (K:=plain_kernels)
                cfg0 Endpoints lm_map 0 1 0 0 0 [one_pt_obs] [] st).1 in
  converged cfg0 (iter_err (K:=plain_kernels) Endpoints lm_map 0 1 0 0 0
                    [one_pt_obs] [] st) (err_prev st) = false
  ∧ lambda st' = Dbl.mul (lambda st) (lambdaLbaK cfg0)
  ∧ X st' = [num 2; num 2; num 3].
Proof.
  intros st st'.
  assert (converged cfg0 (iter_err (K:=plain_kernels) Endpoints lm_map 0 1 0 0 0
                    [one_pt_obs] [] st) (err_prev st) = false) as Hconv
    by (vm_compute; reflexivity).
  split; [exact Hconv|].
  destruct (lm_step_on_error_comparison (H:=plain_collaborators)
              (H0:=plain_kernels) cfg0 Endpoints lm_map 0 1 0 0 0
              [one_pt_obs] [] st Hconv) as [_ Hacc].
  destruct Hacc as [Hl HX]; [vm_compute; reflexivity|].
  split; [exact Hl|]. fold st' in HX. rewrite HX. vm_compute. reflexivity.
Defined.

(** C5 (as stated) fails. In the Plücker solver the error of the first
    iteration is infinite, as the error before it: it did not decrease, yet
    the step is applied and the damping factor multiplied. In the end-point
    solver the error of the first iteration is smaller than the one before,
    the step is accepted, and with [lambdaLbaK = 10] the damping factor
    grows from 1 to 10 instead of shrinking. *)
Lemma lm_step_applied_without_decrease :
  let st := lm_solve (C:=plain_collaborators) (K:=plain_kernels)
              (with_maxItersLba 1 cfg0) Pluker lm_map X0 [] [one_pt_obs] [] in
  let err := iter_err (K:=plain_kernels) Pluker lm_map 0 1 0 0 0
               [one_pt_obs] [] st in
  let st' := (lm_iteration (C:=plain_collaborators) (K:=plain_kernels)
                cfg0 Pluker lm_map 0 1 0 0 0 [one_pt_obs] [] st).1 in
  let su := lm_solve (C:=plain_collaborators) (K:=plain_kernels)
              (with_maxItersLba 1 cfg0) Endpoints lm_map X0 [] [one_pt_obs] [] in
  let eu := iter_err (K:=plain_kernels) Endpoints lm_map 0 1 0 0 0
               [one_pt_obs] [] su in
  let su' := (lm_iteration (C:=plain_collaborators) (K:=plain_kernels)
                cfg0 Endpoints lm_map 0 1 0 0 0 [one_pt_obs] [] su).1 in
  (converged cfg0 err (err_prev st) = false
   ∧ err = err_prev st
   ∧ Dbl.lt err (err_prev st) = false
   ∧ X st = [num 1; num 1; num 2] ∧ X st' = [num 2; num 2; num 3]
   ∧ X st' ≠ X st
   ∧ lambda st = num 1 ∧ lambda st' = num 10)
  ∧ (converged cfg0 eu (err_prev su) = false
     ∧ Dbl.lt eu (err_prev su) = true
     ∧ X su' = [num 2; num 2; num 3]
     ∧ Dbl.lt (lambda su) (lambda su') = true).
Proof. vm_compute. repeat split; discriminate. Qed.

(** C4. What the Plücker solver writes back for the local line landmark
    number [i]: the conversion by [changeOrthToPluker] of the difference
    between the optimized orthonormal parameters (the line block of [X]) and
    the parameters stored in the landmark, not of the optimized parameters
    themselves. *)
Theorem pluker_writeback_converts_displacement `{Collaborators}
    (Nkf Npt : Z) (X : Vector) (ls_list : list Z) (i : nat) (lm : Z)
    (m : MapHandler) (l : MapLine.t) :
  ls_list !! i = Some lm →
  deref (map_lines m) lm = Some l →
  ∃ m' l',
    publish_line Pluker Nkf Npt X ls_list i m = Some m'
    ∧ deref (map_lines m') lm = Some l'
    ∧ MapLine.NDw l'
      = changeOrthToPluker
          (vsub (line_block Pluker Nkf Npt X i) (MapLine.orthNDw l)).
Proof.
  intros Hlm Hl. unfold publish_line. rewrite Hlm. simpl. rewrite Hl. simpl.
  eexists _, _. split; [reflexivity|]. simpl.
  split; [by eapply deref_set_at_eq|].
  by case_match.
Qed.

(** The line block of [X_line] is [(1, 2, 3, 4)] and the landmark holds
    [(1, 1, 1, 1)]: what is converted and stored is [(0, 1, 2, 3)], by the
    write-back step and by the whole solver. *)
Lemma pluker_writeback_converts_displacement_witness :
  (∃ m' l',
     publish_line (C:=plain_collaborators) Pluker 0 0 X_line [0] 0 line_map
       = Some m'
     ∧ deref (map_lines m') 0 = Some l'
     ∧ line_block Pluker 0 0 X_line 0 = [num 1; num 2; num 3; num 4]
     ∧ MapLine.NDw l'
       = changeOrthToPluker (Collaborators:=plain_collaborators)
           [num 0; num 1; num 2; num 3]
     ∧ MapLine.NDw l'
       ≠ changeOrthToPluker (Collaborators:=plain_collaborators)
           (line_block Pluker 0 0 X_line 0))
  ∧ X (lm_solve (C:=plain_collaborators) (K:=plain_kernels)
         (with_maxItersLba 1 cfg0) Pluker line_map X_line [] [] [one_ls_obs])
    = X_line
  ∧ (∃ m' l',
       levMarquardtOptimizationLBAForPluker (H:=plain_collaborators)
         (H0:=plain_kernels) (with_maxItersLba 1 cfg0) line_map X_line
         [] [] [0] [] [one_ls_obs] = Some (0, m')
       ∧ deref (map_lines m') 0 = Some l'
       ∧ MapLine.NDw l' = [num 0; num 1; num 2; num 3]).
Proof.
  split.
  - destruct (pluker_writeback_converts_displacement (H:=plain_collaborators)
                0 0 X_line [0] 0%nat 0 line_map
                (line_landmark 0 [0] [num 1; num 1; num 1; num 1])
                eq_refl eq_refl)
      as (m' & l' & Hrun & Hl' & HN).
    exists m', l'. split; [exact Hrun|]. split; [exact Hl'|].
    split; [reflexivity|].
    rewrite HN. split; [reflexivity | vm_compute; discriminate].
  - split; [vm_compute; reflexivity|].
    eexists _, _. split; [vm_compute; reflexivity|].
    split; vm_compute; reflexivity.
Defined.

(** ** The epipolar gate of the line matching *)

Lemma dbl_negative_below_threshold (e th : dbl) :
  Dbl.lt e Dbl.zero = true → Dbl.le Dbl.zero th = true → Dbl.lt e th = true.
Proof.
  destruct e as [x| | |], th as [y| | |]; simpl; try done.
  unfold Dbl.Qltb. intros Hx Hy.
  apply negb_true_iff in Hx. apply negb_true_iff.
  apply not_true_iff_false in Hx. apply not_true_iff_false. intros Hyx.
  apply Hx. apply Qle_bool_iff. apply Qle_bool_iff in Hy, Hyx.
  by eapply Qle_trans.
Qed.

Lemma each_other_pair_defined n d k l g :
  square n g → in_range n l → 0 ≤ k < Z.of_nat n →
  ∃ g', for_each (λ obs g, if decide (obs ≠ k) then graph_pair d k obs g
                            else Some g) l g = Some g'
        ∧ square n g'.
Proof.
  intros Hg Hl Hk. revert g Hg.
  induction Hl as [|x l Hx Hl IH]; intros g Hg; simpl.
  - by exists g.
  - case_decide.
    + destruct (graph_pair_square n d k x g) as (g1 & H1 & Hg1); [done..|].
      rewrite H1. simpl. by apply IH.
    + simpl. by apply IH.
Qed.

(** C10. The epipolar gate of [matchMap2KFLines] compares the two signed
    end-point distances with the threshold [maxKFEpipL], without absolute
    values. On a map whose matrix covers the keyframes involved: a
    candidate line match whose two signed distances are both below the
    threshold is kept (the count of matches is not decreased) and the
    landmark gets the observation of the current keyframe; a candidate one
    of whose distances is not below the threshold is dropped (the count is
    decreased, the keyframe and the map are unchanged); and, as long as the
    threshold is not negative, every candidate both of whose distances are
    negative is kept, however large their magnitude, so that the gate bounds
    the error on one side only. *)
Theorem epipolar_gate_signed `{Collaborators}
    (cfg : SlamConfig) (use_line_pluker : bool) (Twf : Matrix)
    (i2 ml ul : Z) (desc : Descriptor) (matches : Z) (curr_kf : KeyFrame.t)
    (m : MapHandler) (lm l : MapLine.t) (f : LineFeature.t) (n : nat) :
  0 ≤ i2 →
  deref (map_lines m) ml = Some lm →
  deref (StereoFrame.stereo_ls (KeyFrame.stereo_frame curr_kf)) ul = Some f →
  deref (map_lines m) (MapLine.idx lm) = Some l →
  square n (full_graph m) →
  in_range n (MapLine.kf_obs_list l) →
  0 ≤ KeyFrame.kf_idx curr_kf < Z.of_nat n →
  let err_ls0 := line_distance (LineFeature.le f)
                   (projection (se3_apply Twf (take 3 (MapLine.line3D lm)))) in
  let err_ls1 := line_distance (LineFeature.le f)
                   (projection (se3_apply Twf (drop 3 (MapLine.line3D lm)))) in
  let kept :=
    ∃ curr_kf' m' l',
      matchMap2KFLines_match cfg use_line_pluker Twf i2 ml ul desc matches
        curr_kf m = Some (matches, curr_kf', m')
      ∧ deref (map_lines m') (MapLine.idx lm) = Some l'
      ∧ MapLine.kf_obs_list l'
        = MapLine.kf_obs_list l ++ [KeyFrame.kf_idx curr_kf]
      ∧ MapLine.desc_list l' = MapLine.desc_list l ++ [desc] in
  (Dbl.lt err_ls0 (maxKFEpipL cfg) = true
   ∧ Dbl.lt err_ls1 (maxKFEpipL cfg) = true → kept)
  ∧ (Dbl.lt err_ls0 (maxKFEpipL cfg) = false
     ∨ Dbl.lt err_ls1 (maxKFEpipL cfg) = false →
     matchMap2KFLines_match cfg use_line_pluker Twf i2 ml ul desc matches
       curr_kf m = Some (matches - 1, curr_kf, m))
  ∧ (Dbl.le Dbl.zero (maxKFEpipL cfg) = true →
     Dbl.lt err_ls0 Dbl.zero = true → Dbl.lt err_ls1 Dbl.zero = true → kept).
Proof.
  intros Hi2 Hlm Hf Hl Hg Hks Hkf err_ls0 err_ls1 kept.
  assert (Dbl.lt err_ls0 (maxKFEpipL cfg) = true
          ∧ Dbl.lt err_ls1 (maxKFEpipL cfg) = true → kept) as Hkept.
  { intros [He0 He1]. unfold kept, matchMap2KFLines_match.
    rewrite decide_False by lia. rewrite Hlm. simpl. rewrite Hf. simpl.
    unfold epipolar_gate. fold err_ls0 err_ls1. rewrite He0, He1. simpl.
    unfold matchMap2KFLines_accept. rewrite Hl. simpl.
    set (l' := if use_line_pluker
               then addMapLineObservation_pluker desc (KeyFrame.kf_idx curr_kf)
                      (LineFeature.spl f ++ LineFeature.epl f) l
               else addMapLineObservation desc (KeyFrame.kf_idx curr_kf)
                      (LineFeature.le f) _
                      (LineFeature.spl f ++ LineFeature.epl f) l).
    assert (MapLine.kf_obs_list l'
            = MapLine.kf_obs_list l ++ [KeyFrame.kf_idx curr_kf]) as Hk'
      by (subst l'; by destruct use_line_pluker).
    assert (MapLine.desc_list l' = MapLine.desc_list l ++ [desc]) as Hd'
      by (subst l'; by destruct use_line_pluker).
    destruct (each_other_pair_defined n 1 (KeyFrame.kf_idx curr_kf)
                (MapLine.kf_obs_list l') (full_graph m))
      as (g' & Hloop & _); [done| |done|].
    { rewrite Hk'. apply Forall_app. split; [done|].
      by apply Forall_singleton. }
    unfold in_graph. simpl. rewrite Hloop. simpl.
    eexists _, _, l'. split; [reflexivity|]. simpl.
    split; [by eapply deref_set_at_eq | done]. }
  split; [exact Hkept|]. split.
  - intros Hrej. unfold matchMap2KFLines_match.
    rewrite decide_False by lia. rewrite Hlm. simpl. rewrite Hf. simpl.
    unfold epipolar_gate. fold err_ls0 err_ls1.
    destruct Hrej as [-> | ->]; [done|]. by rewrite andb_false_r.
  - intros Hth He0 He1. apply Hkept.
    split; by apply dbl_negative_below_threshold.
Qed.

(** Both end points of the local line are at distance [-1] from the line
    observed in the current keyframe. With the threshold [1] the match is
    kept and the landmark is now also seen from keyframe [1]. *)
Lemma epipolar_gate_signed_witness :
  (∃ curr_kf' m' l',
      matchMap2KFLines_match (C:=plain_collaborators) cfg0 false [] 0 0 0 [0] 1
        kf_line local_line_map = Some (1, curr_kf', m')
      ∧ deref (map_lines m') 0 = Some l'
      ∧ MapLine.kf_obs_list l' = [0] ++ [1]
      ∧ MapLine.desc_list l' = [[0]] ++ [[0]]).
Proof.
  destruct (epipolar_gate_signed (H:=plain_collaborators) cfg0 false
              [] 0 0 0 [0] 1 kf_line local_line_map
              (line_landmark 0 [0] []) (line_landmark 0 [0] [])
              (ls_feature (-1) [num 0; num 0; num (-1)]) 2)
    as (_ & _ & Hneg).
  - lia.
  - reflexivity.
  - reflexivity.
  - reflexivity.
  - split; [reflexivity | repeat constructor].
  - repeat constructor; lia.
  - simpl. lia.
  - apply Hneg; vm_compute; reflexivity.
Defined.

(** C10 (as stated) fails for a negative threshold. Both end points of the
    local line are at the signed distance [-1] from the observed line; with
    [maxKFEpipL = -2] neither distance is below the threshold: the match is
    dropped, the count goes from 1 to 0, and the keyframe and the map are
    as before, the landmark without a new observation. *)
Lemma negative_line_distances_rejected :
  let f := ls_feature (-1) [num 0; num 0; num (-1)] in
  let lm := line_landmark 0 [0] [] in
  deref (StereoFrame.stereo_ls (KeyFrame.stereo_frame kf_line)) 0 = Some f
  ∧ deref (map_lines local_line_map) 0 = Some lm
  ∧ Dbl.lt (line_distance (LineFeature.le f)
              (projection (Collaborators:=plain_collaborators)
                 (se3_apply (Collaborators:=plain_collaborators) []
                    (take 3 (MapLine.line3D lm))))) Dbl.zero = true
  ∧ Dbl.lt (line_distance (LineFeature.le f)
              (projection (Collaborators:=plain_collaborators)
                 (se3_apply (Collaborators:=plain_collaborators) []
                    (drop 3 (MapLine.line3D lm))))) Dbl.zero = true
  ∧ matchMap2KFLines_match (C:=plain_collaborators) cfg_negative_gate false
      [] 0 0 0 [0] 1 kf_line local_line_map
    = Some (0, kf_line, local_line_map).
Proof. vm_compute. repeat split. Qed.

(** * Further properties *)

(** ** Growing the graphs ([expandGraphs]) *)

Lemma resize_graph_length {A} (k : nat) (z : A) (g : list (list A)) :
  length (resize_graph k z g) = k.
Proof. unfold resize_graph. by rewrite length_map, length_resize. Qed.

Lemma resize_graph_rows {A} (k : nat) (z : A) (g : list (list A)) :
  Forall (λ row, length row = k) (resize_graph k z g).
Proof.
  unfold resize_graph. apply Forall_fmap, Forall_forall. intros row _. simpl.
  by rewrite length_resize.
Qed.

Lemma square_row n g (i : nat) row :
  square n g → g !! i = Some row → length row = n ∧ (i < n)%nat.
Proof.
  intros [Hl Hr] Hi. split.
  - by apply (Forall_lookup_1 _ _ _ _ Hr Hi).
  - apply lookup_lt_Some in Hi. lia.
Qed.

(** The cells of the grown matrix, for a square one: inside the old
    matrix the count is kept, the new row and the new column hold [0], and
    there is nothing beyond them. *)
Lemma expand_cells n (g : list (list Z)) (i j : nat) :
  square n g →
  (row ← resize_graph (S (length g)) 0 g !! i; row !! j) =
  if decide (i < n ∧ j < n)%nat then row ← g !! i; row !! j
  else if decide (i ≤ n ∧ j ≤ n)%nat then Some 0 else None.
Proof.
  intros Hsq. pose proof Hsq as [Hl Hr].
  rewrite resize_graph_lookup, Hl.
  destruct (decide (i < n ∧ j < n)%nat) as [[Hi Hj]|Hout].
  - rewrite decide_True by lia.
    destruct (lookup_lt_is_Some_2 g i ltac:(lia)) as [row Hrow].
    destruct (square_row _ _ _ _ Hsq Hrow) as [Hlen _].
    destruct (lookup_lt_is_Some_2 row j ltac:(lia)) as [v Hv].
    rewrite Hrow. simpl. by rewrite Hv.
  - destruct (decide (i ≤ n ∧ j ≤ n)%nat) as [[Hi Hj]|Hfar].
    + rewrite decide_True by lia. f_equal.
      destruct (g !! i) as [row|] eqn:Hrow; simpl; [|done].
      destruct (square_row _ _ _ _ Hsq Hrow) as [Hlen Hin].
      rewrite lookup_ge_None_2; [done|lia].
    + rewrite decide_False by lia. done.
Qed.

(** X1 (expandGraphs keeps the matrix square). If [full_graph] is a square
    [n]×[n] matrix, then after [expandGraphs] it is a square
    [(n+1)]×[(n+1)] matrix: one row and one column were added. *)
Theorem expandGraphs_square (n : nat) (h : Handler) :
  square n (full_graph (the_map h)) →
  square (S n) (full_graph (the_map (expandGraphs h))).
Proof.
  intros [Hl Hr]. simpl. split.
  - rewrite resize_graph_length. lia.
  - rewrite Hl. apply resize_graph_rows.
Qed.

Lemma expandGraphs_square_witness :
  square 3 (full_graph (the_map (expandGraphs (handler_of two_kf_map)))).
Proof.
  apply (expandGraphs_square 2 (handler_of two_kf_map)).
  split; [reflexivity | repeat constructor].
Defined.

(** X2 (expandGraphs keeps the counts). On a square [n]×[n] matrix,
    [expandGraphs] keeps the count of every pair of keyframes below [n],
    and every cell of the new row [n] and of the new column [n] holds [0]. *)
Theorem expandGraphs_cells (n : nat) (h : Handler) (i j : Z) :
  square n (full_graph (the_map h)) →
  0 ≤ i ≤ Z.of_nat n → 0 ≤ j ≤ Z.of_nat n →
  graph_get (full_graph (the_map (expandGraphs h))) i j =
  if decide (i < Z.of_nat n ∧ j < Z.of_nat n)
  then graph_get (full_graph (the_map h)) i j
  else Some 0.
Proof.
  intros Hsq Hi Hj. simpl.
  rewrite <- (Z2Nat.id i), <- (Z2Nat.id j) by lia.
  rewrite !graph_get_nat, (expand_cells n) by done.
  repeat case_decide; try done; lia.
Qed.

(** In [shared_kf_map] the keyframes 0 and 2 share one landmark; after the
    matrix grew from 4×4 to 5×5 they still do. *)
Lemma expandGraphs_cells_witness :
  graph_get (full_graph (the_map (expandGraphs (handler_of shared_kf_map)))) 0 2
  = (if decide (0 < Z.of_nat 4 ∧ 2 < Z.of_nat 4)
     then graph_get (full_graph (the_map (handler_of shared_kf_map))) 0 2
     else Some 0).
Proof.
  apply (expandGraphs_cells 4 (handler_of shared_kf_map) 0 2).
  - split; [reflexivity | repeat constructor].
  - simpl. lia.
  - simpl. lia.
Defined.

(** X3 (expandGraphs keeps the symmetry). A square symmetric matrix is
    still symmetric after [expandGraphs]. *)
Theorem expandGraphs_symmetric (n : nat) (h : Handler) :
  square n (full_graph (the_map h)) →
  symmetric (full_graph (the_map h)) →
  symmetric (full_graph (the_map (expandGraphs h))).
Proof.
  intros Hsq Hsym i j. simpl.
  destruct (decide (0 ≤ i ∧ 0 ≤ j)) as [[Hi Hj]|Hneg].
  - rewrite <- (Z2Nat.id i), <- (Z2Nat.id j) by lia.
    rewrite !graph_get_nat, !(expand_cells n) by done.
    specialize (Hsym (Z.of_nat (Z.to_nat i)) (Z.of_nat (Z.to_nat j))).
    rewrite !graph_get_nat in Hsym.
    repeat case_decide; try done; lia.
  - rewrite !graph_get_neg by lia. done.
Qed.

Lemma expandGraphs_symmetric_witness :
  symmetric (full_graph (the_map (expandGraphs (handler_of two_kf_map)))).
Proof.
  apply (expandGraphs_symmetric 2 (handler_of two_kf_map)).
  - split; [reflexivity | repeat constructor].
  - apply (symmetric_zero_graph 2).
Defined.

(** ** Inserting keyframes ([initialize], [addKeyFrame]) *)

Lemma reset_indices_spec k k' :
  reset_indices k = Some k' →
  KeyFrame.kf_idx k' = KeyFrame.kf_idx k
  ∧ KeyFrame.local k' = KeyFrame.local k
  ∧ KeyFrame.T_kf_w k' = KeyFrame.T_kf_w k
  ∧ KeyFrame.x_kf_w k' = KeyFrame.x_kf_w k
  ∧ unlinked k'.
Proof.
  unfold reset_indices. intros H.
  apply bind_Some in H as (pts & Hpts & H).
  apply bind_Some in H as (lss & Hlss & H). simplify_eq. simpl.
  repeat split; try done.
  - apply mapM_Some_1 in Hpts.
    induction Hpts as [|o o' l l' Ho _ IH]; constructor; [|done].
    destruct o as [f|]; simplify_eq/=. by eexists.
  - apply mapM_Some_1 in Hlss.
    induction Hlss as [|o o' l l' Ho _ IH]; constructor; [|done].
    destruct o as [f|]; simplify_eq/=. by eexists.
Qed.

Lemma map_insert_new_lookup k v t :
  is_Some (map_insert_new k v t !! k).
Proof.
  unfold map_insert_new. destruct (t !! k) eqn:Hk.
  - by rewrite Hk.
  - by rewrite lookup_insert_eq.
Qed.

Lemma map_insert_new_keeps k v t k' :
  is_Some (t !! k') → is_Some (map_insert_new k v t !! k').
Proof.
  unfold map_insert_new. intros Hk'. destruct (t !! k) eqn:Hk; [done|].
  destruct (decide (k = k')) as [->|Hne].
  - by rewrite lookup_insert_eq.
  - by rewrite lookup_insert_ne.
Qed.

(** X4 (initialize numbers the map from zero). When the first keyframe
    carries the index [0], the handler that [initialize] returns has its
    keyframes indexed: one slot, a 1×1 graph, [max_kf_idx = 0], and the
    keyframe is at the position of its index with an entry in both index
    tables. [initialize] itself never assigns the index. *)
Theorem initialize_indexed (kf0 : KeyFrame.t) (h h' : Handler) :
  KeyFrame.kf_idx kf0 = 0 →
  initialize kf0 h = Some h' →
  keyframes_indexed (the_map h').
Proof.
  unfold initialize. intros H0 H.
  apply bind_Some in H as (k & Hk & H). simplify_eq. simpl.
  apply reset_indices_spec in Hk as (Hidx & _).
  split; [done|]. split.
  - split; [done|]. by apply Forall_singleton.
  - intros i k' Hi. simpl in Hi.
    destruct i as [|i]; simplify_eq/=.
    rewrite Hidx, H0. repeat split; try done; apply map_insert_new_lookup.
Qed.

Lemma initialize_indexed_witness :
  ∃ h', initialize kf_a (handler_of two_kf_map) = Some h'
        ∧ keyframes_indexed (the_map h').
Proof.
  destruct (initialize kf_a (handler_of two_kf_map)) as [h'|] eqn:Hrun;
    [|vm_compute in Hrun; discriminate Hrun].
  exists h'. split; [reflexivity|].
  apply (initialize_indexed kf_a (handler_of two_kf_map) h');
    [reflexivity | exact Hrun].
Defined.

Lemma two_kf_map_indexed : keyframes_indexed two_kf_map.
Proof.
  split; [reflexivity|]. split.
  - split; [reflexivity | repeat constructor].
  - intros i k Hi.
    destruct i as [|[|i]]; simpl in Hi; simplify_eq; vm_compute;
      (split; [reflexivity|]); split; eexists; reflexivity.
Qed.

(** X5 (addKeyFrame keeps the keyframes indexed). If the keyframes are
    indexed, they still are after [addKeyFrame]: the new keyframe gets the
    next index, its slot, its row and column of the graph and its entries
    in the index tables. *)
Theorem addKeyFrame_indexed `{Collaborators} (kf : KeyFrame.t) (h h' : Handler) :
  keyframes_indexed (the_map h) →
  addKeyFrame_multithread kf h = Some h' →
  keyframes_indexed (the_map h').
Proof.
  intros (Hlen & Hsq & Hkf). unfold addKeyFrame_multithread. intros H1.
  apply bind_Some in H1 as (prev & Hprev & H1).
  apply bind_Some in H1 as (k & Hk & H1). simplify_eq. simpl in *.
  apply reset_indices_spec in Hk as (Hidx & _). simpl in Hidx.
  unfold keyframes_indexed. simpl.
  split; [|split].
  - rewrite length_app. simpl. lia.
  - rewrite length_app. simpl.
    replace (length (map_keyframes (the_map h)) + 1)%nat
      with (S (length (map_keyframes (the_map h)))) by lia.
    destruct Hsq as [Hl Hr]. split.
    + rewrite resize_graph_length. lia.
    + rewrite Hl. apply resize_graph_rows.
  - intros i k' Hi.
    destruct (decide (i < length (map_keyframes (the_map h)))%nat) as [Hlt|Hge].
    + rewrite lookup_app_l in Hi by done.
      destruct (Hkf i k' Hi) as (Hi1 & Hi2 & Hi3).
      repeat split; [done| |]; by apply map_insert_new_keeps.
    + rewrite lookup_app_r in Hi by lia.
      destruct (i - length (map_keyframes (the_map h)))%nat as [|d] eqn:Hd;
        simplify_eq/=.
      rewrite Hidx. repeat split; [lia| |]; apply map_insert_new_lookup.
Qed.

Lemma addKeyFrame_indexed_witness :
  ∃ h', addKeyFrame_multithread (C:=plain_collaborators) stale_kf
          (handler_of two_kf_map) = Some h'
        ∧ keyframes_indexed (the_map h').
Proof.
  destruct (addKeyFrame_multithread (C:=plain_collaborators) stale_kf
              (handler_of two_kf_map)) as [h'|] eqn:Hrun;
    [|vm_compute in Hrun; discriminate Hrun].
  exists h'. split; [reflexivity|].
  apply (addKeyFrame_indexed (H:=plain_collaborators) stale_kf
           (handler_of two_kf_map) h'); [exact two_kf_map_indexed | exact Hrun].
Defined.

(** X6 (a new keyframe starts without landmarks). [addKeyFrame] appends the
    keyframe as the last slot with the index [max_kf_idx + 1] and marks it
    local; it wipes whatever landmark indices its features carried, keeps
    the older slots and all landmarks, and the covisibility of the new
    keyframe with every keyframe is [0]. *)
Theorem addKeyFrame_new_keyframe `{Collaborators} (kf : KeyFrame.t)
    (h h' : Handler) :
  keyframes_indexed (the_map h) →
  addKeyFrame_multithread kf h = Some h' →
  ∃ k',
    map_keyframes (the_map h') = map_keyframes (the_map h) ++ [Some k']
    ∧ KeyFrame.kf_idx k' = max_kf_idx (the_map h) + 1
    ∧ max_kf_idx (the_map h') = max_kf_idx (the_map h) + 1
    ∧ KeyFrame.local k' = true
    ∧ unlinked k'
    ∧ map_points (the_map h') = map_points (the_map h)
    ∧ map_lines (the_map h') = map_lines (the_map h)
    ∧ ∀ j, 0 ≤ j ≤ KeyFrame.kf_idx k' →
        graph_get (full_graph (the_map h')) (KeyFrame.kf_idx k') j = Some 0
        ∧ graph_get (full_graph (the_map h')) j (KeyFrame.kf_idx k') = Some 0.
Proof.
  intros (Hlen & Hsq & Hkf). unfold addKeyFrame_multithread. intros H1.
  apply bind_Some in H1 as (prev & Hprev & H1).
  apply bind_Some in H1 as (k & Hk & H1). simplify_eq. simpl in *.
  apply reset_indices_spec in Hk as (Hidx & Hloc & _ & _ & Hun).
  simpl in Hidx, Hloc.
  exists k. do 7 (split; [done|]).
  rewrite Hidx in *. intros j [Hj0 Hj].
  rewrite <- (Z2Nat.id j) by lia.
  replace (max_kf_idx (the_map h) + 1)
    with (Z.of_nat (length (map_keyframes (the_map h)))) by lia.
  rewrite !graph_get_nat, !(expand_cells _ _ _ _ Hsq).
  split; repeat case_decide; try done; lia.
Qed.

(** [stale_kf] arrives with the index 7 and features that refer to the
    landmarks 3 and 4; it is stored as keyframe 2 with unlinked features. *)
Lemma addKeyFrame_new_keyframe_witness :
  ∃ h' k',
    addKeyFrame_multithread (C:=plain_collaborators) stale_kf
      (handler_of two_kf_map) = Some h'
    ∧ map_keyframes (the_map h') = map_keyframes two_kf_map ++ [Some k']
    ∧ KeyFrame.kf_idx k' = 2
    ∧ unlinked k'.
Proof.
  destruct (addKeyFrame_multithread (C:=plain_collaborators) stale_kf
              (handler_of two_kf_map)) as [h'|] eqn:Hrun;
    [|vm_compute in Hrun; discriminate Hrun].
  destruct (addKeyFrame_new_keyframe (H:=plain_collaborators) stale_kf
              (handler_of two_kf_map) h' two_kf_map_indexed Hrun)
    as (k' & Hkfs & Hidx & _ & _ & Hun & _).
  exists h', k'. split; [reflexivity|]. split; [exact Hkfs|].
  split; [exact Hidx | exact Hun].
Defined.




(** ** The local map ([formLocalMap]) *)

Lemma for_each_prefix {A S} (P : list A → S → Prop)
    (body : A → S → option S) l :
  (∀ pre x s s', body x s = Some s' → P pre s → P (pre ++ [x]) s') →
  ∀ pre s s', for_each body l s = Some s' → P pre s → P (pre ++ l) s'.
Proof.
  intros Hb. induction l as [|x l IH]; simpl; intros pre s s' Hrun Hs.
  - simplify_eq. by rewrite app_nil_r.
  - apply bind_Some in Hrun as (s1 & H1 & H2).
    rewrite (cons_middle x pre l), (assoc_L (++)).
    eapply IH; [exact H2|]. by eapply Hb.
Qed.

Lemma for_each_reaches {A S} (P : S → Prop) (body : A → S → option S) l x :
  (∀ y s s', body y s = Some s' → P s → P s') →
  x ∈ l →
  ∀ s s', for_each body l s = Some s' → P s →
          ∃ s1 s2, P s1 ∧ body x s1 = Some s2.
Proof.
  intros Hb. induction l as [|y l IH]; intros Hx s s' Hrun Hs.
  - by apply elem_of_nil in Hx.
  - simpl in Hrun. apply bind_Some in Hrun as (s1 & H1 & H2).
    apply elem_of_cons in Hx as [->|Hx].
    + by exists s, s1.
    + eapply IH; [done | exact H2 | by eapply Hb].
Qed.

Lemma up_or {A} (f : A → A) c1 c2 o :
  (∀ x, f (f x) = f x) → up f c1 (up f c2 o) = up f (c1 || c2) o.
Proof.
  intros Hf. destruct c1, c2; simpl; try done.
  destruct o as [[x|]|]; simpl; by rewrite ?Hf.
Qed.

Lemma set_at_lookup {A} (l : list A) (i : Z) (x y : A) (j : nat) :
  at_ l i = Some y →
  set_at l i x !! j = if bool_decide (i = Z.of_nat j) then Some x else l !! j.
Proof.
  intros [Hi Hl]%at_Some. unfold set_at. case_bool_decide as Hij.
  - subst i. rewrite Nat2Z.id in *.
    apply list_lookup_insert_eq. by eapply lookup_lt_Some.
  - apply list_lookup_insert_ne. lia.
Qed.

Lemma mark_point_effect x m m' :
  mark_point x m = Some m' →
  m' = set_map_points (map_points m') m
  ∧ ∀ j : nat, map_points m' !! j =
      up (MapPoint_set_local true) (bool_decide (x = Z.of_nat j))
         (map_points m !! j).
Proof.
  unfold mark_point. intros H. destruct m.
  case_decide as Hx; simplify_eq/=.
  - apply bind_Some in H as (mp & Hmp & H).
    destruct mp as [p|]; simplify_eq/=.
    + split; [done|]. intros j. rewrite (set_at_lookup _ _ _ _ _ Hmp).
      case_bool_decide as Hj; simpl; [|done].
      apply at_Some in Hmp as [_ Hmp]. subst x. rewrite Nat2Z.id in Hmp.
      by rewrite Hmp.
    + split; [done|]. intros j. case_bool_decide as Hj; simpl; [|done].
      apply at_Some in Hmp as [_ Hmp]. subst x. rewrite Nat2Z.id in Hmp.
      by rewrite Hmp.
  - split; [done|]. intros j. rewrite bool_decide_eq_false_2 by lia. done.
Qed.

Lemma mark_line_effect x m m' :
  mark_line x m = Some m' →
  m' = set_map_lines (map_lines m') m
  ∧ ∀ j : nat, map_lines m' !! j =
      up (MapLine_set_local true) (bool_decide (x = Z.of_nat j))
         (map_lines m !! j).
Proof.
  unfold mark_line. intros H. destruct m.
  case_decide as Hx; simplify_eq/=.
  - apply bind_Some in H as (mp & Hmp & H).
    destruct mp as [p|]; simplify_eq/=.
    + split; [done|]. intros j. rewrite (set_at_lookup _ _ _ _ _ Hmp).
      case_bool_decide as Hj; simpl; [|done].
      apply at_Some in Hmp as [_ Hmp]. subst x. rewrite Nat2Z.id in Hmp.
      by rewrite Hmp.
    + split; [done|]. intros j. case_bool_decide as Hj; simpl; [|done].
      apply at_Some in Hmp as [_ Hmp]. subst x. rewrite Nat2Z.id in Hmp.
      by rewrite Hmp.
  - split; [done|]. intros j. rewrite bool_decide_eq_false_2 by lia. done.
Qed.

(** The point features of a list that refer to the landmark [j]. *)
Lemma mark_points_effect (strict : bool) (l : list (option PointFeature.t)) m m' :
  for_each (λ (o : option PointFeature.t) m,
              match o with
              | Some f => mark_point (PointFeature.idx f) m
              | None => if strict then None else Some m
              end) l m = Some m' →
  m' = set_map_points (map_points m') m
  ∧ ∀ j : nat, map_points m' !! j =
      up (MapPoint_set_local true)
         (existsb (λ o : option PointFeature.t,
                     match o with
                     | Some f => bool_decide (PointFeature.idx f = Z.of_nat j)
                     | None => false
                     end) l)
         (map_points m !! j).
Proof.
  revert m. induction l as [|o l IH]; simpl; intros m H.
  - simplify_eq. by destruct m'.
  - apply bind_Some in H as (m1 & H1 & H2).
    destruct (IH _ H2) as (Hm' & Hl).
    assert (m1 = set_map_points (map_points m1) m
            ∧ ∀ j : nat, map_points m1 !! j =
                up (MapPoint_set_local true)
                   match o with
                   | Some f => bool_decide (PointFeature.idx f = Z.of_nat j)
                   | None => false
                   end (map_points m !! j)) as (Hm1 & Ho).
    { destruct o as [f|].
      - by apply mark_point_effect.
      - destruct strict; simplify_eq. by destruct m1. }
    split.
    + rewrite Hm', Hm1. by destruct m.
    + intros j. rewrite Hl, Ho, up_or by done.
      by rewrite orb_comm.
Qed.

Lemma mark_lines_effect (strict : bool) (l : list (option LineFeature.t)) m m' :
  for_each (λ (o : option LineFeature.t) m,
              match o with
              | Some f => mark_line (LineFeature.idx f) m
              | None => if strict then None else Some m
              end) l m = Some m' →
  m' = set_map_lines (map_lines m') m
  ∧ ∀ j : nat, map_lines m' !! j =
      up (MapLine_set_local true)
         (existsb (λ o : option LineFeature.t,
                     match o with
                     | Some f => bool_decide (LineFeature.idx f = Z.of_nat j)
                     | None => false
                     end) l)
         (map_lines m !! j).
Proof.
  revert m. induction l as [|o l IH]; simpl; intros m H.
  - simplify_eq. by destruct m'.
  - apply bind_Some in H as (m1 & H1 & H2).
    destruct (IH _ H2) as (Hm' & Hl).
    assert (m1 = set_map_lines (map_lines m1) m
            ∧ ∀ j : nat, map_lines m1 !! j =
                up (MapLine_set_local true)
                   match o with
                   | Some f => bool_decide (LineFeature.idx f = Z.of_nat j)
                   | None => false
                   end (map_lines m !! j)) as (Hm1 & Ho).
    { destruct o as [f|].
      - by apply mark_line_effect.
      - destruct strict; simplify_eq. by destruct m1. }
    split.
    + rewrite Hm', Hm1. by destruct m.
    + intros j. rewrite Hl, Ho, up_or by done.
      by rewrite orb_comm.
Qed.

Lemma MapHandler_eta m :
  set_map_lines (map_lines m)
    (set_map_points (map_points m) (set_map_keyframes (map_keyframes m) m)) = m.
Proof. by destruct m. Qed.

Lemma up_false {A} (f : A → A) o : up f false o = o.
Proof. done. Qed.

Lemma raised_local_refl m : raised_local (λ _, false) (λ _, false) (λ _, false) m m.
Proof. split; [by rewrite MapHandler_eta|]. done. Qed.

Lemma raised_local_trans ck cp cl ck' cp' cl' m m' m'' :
  raised_local ck cp cl m m' →
  raised_local ck' cp' cl' m' m'' →
  raised_local (λ j, ck j || ck' j) (λ j, cp j || cp' j) (λ j, cl j || cl' j)
               m m''.
Proof.
  intros (E1 & K1 & P1 & L1) (E2 & K2 & P2 & L2). split; [|split; [|split]].
  - rewrite E2, E1. by destruct m.
  - intros j. by rewrite K2, K1, up_or, orb_comm.
  - intros j. by rewrite P2, P1, up_or, orb_comm.
  - intros j. by rewrite L2, L1, up_or, orb_comm.
Qed.

Lemma raised_local_ext ck cp cl ck' cp' cl' m m' :
  (∀ j, ck j = ck' j) → (∀ j, cp j = cp' j) → (∀ j, cl j = cl' j) →
  raised_local ck cp cl m m' → raised_local ck' cp' cl' m m'.
Proof.
  intros Hk Hp Hl (E & K & P & L). split; [done|].
  split; [|split]; intros j; by rewrite <- ?Hk, <- ?Hp, <- ?Hl.
Qed.

Lemma fmap_reset_eq {A} (g f : A → A) (c : nat → bool)
    (l l' : list (option A)) :
  (∀ x, g (f x) = g x) →
  (∀ j : nat, l' !! j = up f (c j) (l !! j)) →
  map (fmap g) l' = map (fmap g) l.
Proof.
  intros Hgf Hl. apply list_eq. intros j.
  rewrite !list_lookup_fmap, Hl.
  destruct (c j); simpl; [|done].
  destruct (l !! j) as [[x|]|]; simpl; by rewrite ?Hgf.
Qed.

Lemma raised_local_reset ck cp cl m m' :
  raised_local ck cp cl m m' → reset_local m' = reset_local m.
Proof.
  intros (E & K & P & L).
  assert (map (fmap (KeyFrame_set_local false)) (map_keyframes m')
          = map (fmap (KeyFrame_set_local false)) (map_keyframes m)) as HK
    by (by eapply fmap_reset_eq; [|exact K]).
  assert (map (fmap (MapPoint_set_local false)) (map_points m')
          = map (fmap (MapPoint_set_local false)) (map_points m)) as HP
    by (by eapply fmap_reset_eq; [|exact P]).
  assert (map (fmap (MapLine_set_local false)) (map_lines m')
          = map (fmap (MapLine_set_local false)) (map_lines m)) as HL
    by (by eapply fmap_reset_eq; [|exact L]).
  rewrite E. unfold reset_local. simpl. rewrite HK, HP, HL. by destruct m.
Qed.

Lemma raised_local_graph ck cp cl m m' :
  raised_local ck cp cl m m' → full_graph m' = full_graph m.
Proof. intros (E & _). rewrite E. by destruct m. Qed.

Lemma deref_nat {A} (l : list (option A)) (i : Z) :
  deref l i = if decide (0 ≤ i) then mjoin (l !! Z.to_nat i) else None.
Proof. unfold deref, at_. by case_decide. Qed.

Lemma observes_pt_set_local b k j :
  observes_pt (KeyFrame_set_local b k) j = observes_pt k j.
Proof. done. Qed.

Lemma observes_ls_set_local b k j :
  observes_ls (KeyFrame_set_local b k) j = observes_ls k j.
Proof. done. Qed.

Lemma raised_local_observes_pt ck cp cl m m' i j :
  raised_local ck cp cl m m' → slot_observes_pt m' i j = slot_observes_pt m i j.
Proof.
  intros (_ & K & _). unfold slot_observes_pt. rewrite !deref_nat.
  case_decide; [|done]. rewrite K.
  destruct (ck (Z.to_nat i)); simpl; [|done].
  by destruct (map_keyframes m !! Z.to_nat i) as [[k|]|].
Qed.

Lemma raised_local_observes_ls ck cp cl m m' i j :
  raised_local ck cp cl m m' → slot_observes_ls m' i j = slot_observes_ls m i j.
Proof.
  intros (_ & K & _). unfold slot_observes_ls. rewrite !deref_nat.
  case_decide; [|done]. rewrite K.
  destruct (ck (Z.to_nat i)); simpl; [|done].
  by destruct (map_keyframes m !! Z.to_nat i) as [[k|]|].
Qed.

Lemma mark_landmarks_of_effect k m m' :
  mark_landmarks_of k m = Some m' →
  raised_local (λ _, false) (λ j, observes_pt k (Z.of_nat j))
               (λ j, observes_ls k (Z.of_nat j)) m m'.
Proof.
  unfold mark_landmarks_of. intros H.
  apply bind_Some in H as (m1 & H1 & H2).
  apply (mark_points_effect true) in H1 as (E1 & P1).
  apply (mark_lines_effect true) in H2 as (E2 & L2).
  split; [|split; [|split]].
  - rewrite E2, E1. by destruct m.
  - intros j. rewrite E2, E1. by destruct m.
  - intros j. rewrite E2. simpl. apply P1.
  - intros j. rewrite L2, E1. by destruct m.
Qed.

Lemma mark_landmarks_of_back_effect k m m' :
  mark_landmarks_of_back k m = Some m' →
  raised_local (λ _, false) (λ j, observes_pt k (Z.of_nat j))
               (λ j, observes_ls k (Z.of_nat j)) m m'.
Proof.
  unfold mark_landmarks_of_back. intros H.
  apply bind_Some in H as (m1 & H1 & H2).
  apply (mark_points_effect false) in H1 as (E1 & P1).
  apply (mark_lines_effect false) in H2 as (E2 & L2).
  split; [|split; [|split]].
  - rewrite E2, E1. by destruct m.
  - intros j. rewrite E2, E1. by destruct m.
  - intros j. rewrite E2. simpl. apply P1.
  - intros j. rewrite L2, E1. by destruct m.
Qed.

Lemma set_local_slot_effect (i : Z) k m :
  deref (map_keyframes m) i = Some k →
  raised_local (λ j, bool_decide (i = Z.of_nat j)) (λ _, false) (λ _, false) m
    (set_map_keyframes
       (set_at (map_keyframes m) i (Some (KeyFrame_set_local true k))) m).
Proof.
  intros Hk. split; [by destruct m|]. split; [|done].
  intros j. simpl. unfold deref in Hk.
  destruct (at_ (map_keyframes m) i) as [o|] eqn:Hat; [|done].
  simpl in Hk. subst o.
  rewrite (set_at_lookup _ _ _ _ _ Hat).
  case_bool_decide as Hij; simpl; [|done].
  apply at_Some in Hat as [_ Hat]. subst i. rewrite Nat2Z.id in Hat.
  by rewrite Hat.
Qed.

(** One turn of the loop over the graph. *)
Lemma formLocalMap_turn_effect mc (i : Z) m m' :
  formLocalMap_turn mc (Z.of_nat (length (full_graph m)) - 1) i m = Some m' →
  raised_local
    (λ j, selected mc (full_graph m) i && bool_decide (i = Z.of_nat j))
    (λ j, selected mc (full_graph m) i && slot_observes_pt m i (Z.of_nat j))
    (λ j, selected mc (full_graph m) i && slot_observes_ls m i (Z.of_nat j))
    m m'.
Proof.
  unfold formLocalMap_turn, selected. intros H.
  apply bind_Some in H as (c & Hc & H). rewrite Hc.
  destruct (in_window mc _ i c); simpl.
  - apply bind_Some in H as (k & Hk & H).
    apply mark_landmarks_of_effect in H.
    pose proof (raised_local_trans _ _ _ _ _ _ _ _ _
                  (set_local_slot_effect i k m Hk) H) as Ht.
    eapply raised_local_ext; [| | |exact Ht]; intros j; simpl.
    + by rewrite orb_false_r.
    + unfold slot_observes_pt. by rewrite Hk.
    + unfold slot_observes_ls. by rewrite Hk.
  - simplify_eq. apply raised_local_refl.
Qed.

Lemma existsb_pointwise {A} (f g : A → bool) l :
  (∀ x, f x = g x) → existsb f l = existsb g l.
Proof. intros H. induction l as [|x l IH]; simpl; by rewrite ?H, ?IH. Qed.

Lemma formLocalMap_loop_effect mc (l : list Z) m m' :
  for_each (formLocalMap_turn mc (Z.of_nat (length (full_graph m)) - 1)) l m
    = Some m' →
  raised_local
    (λ j, existsb (λ i, selected mc (full_graph m) i
                        && bool_decide (i = Z.of_nat j)) l)
    (λ j, existsb (λ i, selected mc (full_graph m) i
                        && slot_observes_pt m i (Z.of_nat j)) l)
    (λ j, existsb (λ i, selected mc (full_graph m) i
                        && slot_observes_ls m i (Z.of_nat j)) l)
    m m'.
Proof.
  revert m. induction l as [|x l IH]; simpl; intros m H.
  - simplify_eq. apply raised_local_refl.
  - apply bind_Some in H as (m1 & H1 & H2).
    pose proof (formLocalMap_turn_effect _ _ _ _ H1) as R1.
    pose proof (raised_local_graph _ _ _ _ _ R1) as Hg.
    rewrite <- Hg in H2. apply IH in H2. rewrite Hg in H2.
    refine (raised_local_ext _ _ _ _ _ _ _ _ _ _ _
              (raised_local_trans _ _ _ _ _ _ _ _ _ R1 H2));
      intros j; simpl; try done; f_equal; apply existsb_pointwise; intros i;
      f_equal.
    + by eapply raised_local_observes_pt.
    + by eapply raised_local_observes_ls.
Qed.

Lemma reset_local_lookup_kf m (j : nat) :
  map_keyframes (reset_local m) !! j
  = fmap (KeyFrame_set_local false) <$> map_keyframes m !! j.
Proof. unfold reset_local. simpl. by rewrite list_lookup_fmap. Qed.

Lemma reset_local_lookup_pt m (j : nat) :
  map_points (reset_local m) !! j
  = fmap (MapPoint_set_local false) <$> map_points m !! j.
Proof. unfold reset_local. simpl. by rewrite list_lookup_fmap. Qed.

Lemma reset_local_lookup_ls m (j : nat) :
  map_lines (reset_local m) !! j
  = fmap (MapLine_set_local false) <$> map_lines m !! j.
Proof. unfold reset_local. simpl. by rewrite list_lookup_fmap. Qed.

Lemma reset_local_observes_pt m i j :
  slot_observes_pt (reset_local m) i j = slot_observes_pt m i j.
Proof.
  unfold slot_observes_pt. rewrite !deref_nat. case_decide; [|done].
  rewrite reset_local_lookup_kf.
  by destruct (map_keyframes m !! Z.to_nat i) as [[k|]|].
Qed.

Lemma reset_local_observes_ls m i j :
  slot_observes_ls (reset_local m) i j = slot_observes_ls m i j.
Proof.
  unfold slot_observes_ls. rewrite !deref_nat. case_decide; [|done].
  rewrite reset_local_lookup_kf.
  by destruct (map_keyframes m !! Z.to_nat i) as [[k|]|].
Qed.

Lemma MapHandler_ext (m1 m2 : MapHandler) :
  map_keyframes m1 = map_keyframes m2 →
  map_points m1 = map_points m2 →
  map_lines m1 = map_lines m2 →
  map_points_kf_idx m1 = map_points_kf_idx m2 →
  map_lines_kf_idx m1 = map_lines_kf_idx m2 →
  full_graph m1 = full_graph m2 →
  max_pt_idx m1 = max_pt_idx m2 →
  max_ls_idx m1 = max_ls_idx m2 →
  max_kf_idx m1 = max_kf_idx m2 →
  lc_idx_list m1 = lc_idx_list m2 →
  lc_pose_list m1 = lc_pose_list m2 →
  lc_pt_idxs m1 = lc_pt_idxs m2 →
  lc_ls_idxs m1 = lc_ls_idxs m2 →
  lc_state m1 = lc_state m2 →
  vo_status m1 = vo_status m2 →
  m1 = m2.
Proof. destruct m1, m2. simpl. intros. by subst. Qed.

Lemma reset_local_idem m : reset_local (reset_local m) = reset_local m.
Proof.
  apply MapHandler_ext; try done; unfold reset_local; simpl;
    rewrite <- list_fmap_compose; apply list_fmap_ext; by intros _ [x|] _.
Qed.


Lemma reset_local_graph m : full_graph (reset_local m) = full_graph m.
Proof. done. Qed.

Lemma reset_local_length_kf m :
  length (map_keyframes (reset_local m)) = length (map_keyframes m).
Proof. unfold reset_local. simpl. by rewrite length_map. Qed.

(** What [formLocalMap] does, in closed form. *)
Lemma formLocalMap_effect mc m m' :
  formLocalMap mc m = Some m' →
  raised_local (local_slot mc m) (local_point mc m) (local_line mc m)
               (reset_local m) m'.
Proof.
  unfold formLocalMap. intros H.
  apply bind_Some in H as (klast & Hlast & H).
  apply bind_Some in H as (m2 & H2 & H3).
  pose proof (reset_local_length_kf m) as Hlen.
  pose proof (reset_local_graph m) as Hg0.
  assert (∀ i j, slot_observes_pt (reset_local m) i j = slot_observes_pt m i j)
    as Hop by apply reset_local_observes_pt.
  assert (∀ i j, slot_observes_ls (reset_local m) i j = slot_observes_ls m i j)
    as Hol by apply reset_local_observes_ls.
  remember (reset_local m) as m0 eqn:Hm0. clear Hm0.
  remember (pred (length (map_keyframes m0))) as n eqn:Hn0.
  assert (map_keyframes m0 !! n = Some (Some klast)) as Hn.
  { rewrite Hn0, <- last_lookup.
    destruct (last (map_keyframes m0)) as [[k|]|]; by simplify_eq/=. }
  assert (raised_local (λ j, bool_decide (j = n)) (λ _, false) (λ _, false) m0
            (set_map_keyframes
               (<[n := Some (KeyFrame_set_local true klast)]> (map_keyframes m0))
               m0)) as R1.
  { split; [by destruct m0|]. split; [|done]. intros j.
    cbn [map_keyframes set_map_keyframes].
    case_bool_decide as Hj; simpl.
    - subst j. rewrite Hn. simpl.
      apply list_lookup_insert_eq. by eapply lookup_lt_Some.
    - by apply list_lookup_insert_ne. }
  apply mark_landmarks_of_back_effect in H2 as R2.
  pose proof (raised_local_trans _ _ _ _ _ _ _ _ _ R1 R2) as R12.
  pose proof (raised_local_graph _ _ _ _ _ R12) as Hg.
  apply formLocalMap_loop_effect in H3 as R3.
  rewrite Hg, Hg0 in R3.
  refine (raised_local_ext _ _ _ _ _ _ _ _ _ _ _
            (raised_local_trans _ _ _ _ _ _ _ _ _ R12 R3)); intros j; simpl.
  - unfold local_slot. rewrite orb_false_r. f_equal. by rewrite Hn0, Hlen.
  - unfold local_point. f_equal.
    + rewrite <- Hop. unfold slot_observes_pt. rewrite deref_nat.
      rewrite decide_True by lia. rewrite Nat2Z.id.
      rewrite <- Hlen, <- Hn0. by rewrite Hn.
    + apply existsb_pointwise. intros i. f_equal.
      rewrite (raised_local_observes_pt _ _ _ _ _ _ _ R12). apply Hop.
  - unfold local_line. f_equal.
    + rewrite <- Hol. unfold slot_observes_ls. rewrite deref_nat.
      rewrite decide_True by lia. rewrite Nat2Z.id.
      rewrite <- Hlen, <- Hn0. by rewrite Hn.
    + apply existsb_pointwise. intros i. f_equal.
      rewrite (raised_local_observes_ls _ _ _ _ _ _ _ R12). apply Hol.
Qed.

(** X8 (the local map is a matter of flags only). [formLocalMap] changes
    the [local] flags of keyframes and landmarks and nothing else: once the
    flags are reset, the map it returns is the map it was given. *)
Theorem formLocalMap_flags_only (mc : MapConfig) (m m' : MapHandler) :
  formLocalMap mc m = Some m' → reset_local m' = reset_local m.
Proof.
  intros H. apply formLocalMap_effect in H.
  rewrite (raised_local_reset _ _ _ _ _ H). apply reset_local_idem.
Qed.

(** In [shared_kf_map] the newest keyframe 3 shares a landmark with
    keyframe 2. *)
Lemma formLocalMap_flags_only_witness :
  ∃ m', formLocalMap mc0 shared_kf_map = Some m'
        ∧ reset_local m' = reset_local shared_kf_map.
Proof.
  destruct (formLocalMap mc0 shared_kf_map) as [m'|] eqn:Hrun;
    [|vm_compute in Hrun; discriminate Hrun].
  exists m'. split; [reflexivity|].
  exact (formLocalMap_flags_only mc0 shared_kf_map m' Hrun).
Defined.

Lemma existsb_idx (f : Z → bool) (n : nat) :
  existsb f (map Z.of_nat (seq 0 n)) = true
  ↔ ∃ i : nat, (i < n)%nat ∧ f (Z.of_nat i) = true.
Proof.
  rewrite existsb_exists. split.
  - intros (x & Hx & Hf). apply in_map_iff in Hx as (i & <- & Hi).
    apply in_seq in Hi. exists i. split; [lia|done].
  - intros (i & Hi & Hf). exists (Z.of_nat i). split; [|done].
    apply in_map_iff. exists i. split; [done|]. apply in_seq. lia.
Qed.

Lemma local_slot_spec mc m (i : nat) :
  local_slot mc m i = true
  ↔ i = pred (length (map_keyframes m))
    ∨ (Z.of_nat i < Z.of_nat (length (full_graph m)) - 1
       ∧ selected mc (full_graph m) (Z.of_nat i) = true).
Proof.
  unfold local_slot. rewrite orb_true_iff, bool_decide_eq_true, existsb_idx.
  split; (intros [Hl|Hr]; [by left|right]).
  - destruct Hr as (x & Hx & Hf). apply andb_true_iff in Hf as [Hs He].
    apply bool_decide_eq_true in He. apply Nat2Z.inj in He. subst x.
    split; [lia|done].
  - destruct Hr as [Hi Hs]. exists i. split; [lia|].
    rewrite Hs. simpl. by apply bool_decide_eq_true.
Qed.

Lemma local_point_spec mc m (j : nat) :
  is_Some (mjoin (last (map_keyframes m))) →
  local_point mc m j = true
  ↔ ∃ i : nat, local_slot mc m i = true
               ∧ slot_observes_pt m (Z.of_nat i) (Z.of_nat j) = true.
Proof.
  intros Hlast. unfold local_point. rewrite orb_true_iff, existsb_idx. split.
  - intros [Hl|(x & Hx & Hf)].
    + exists (pred (length (map_keyframes m))). split; [|done].
      apply local_slot_spec. by left.
    + apply andb_true_iff in Hf as [Hs Ho]. exists x. split; [|done].
      apply local_slot_spec. right. split; [lia|done].
  - intros (i & Hi & Ho). apply local_slot_spec in Hi as [->|[Hi Hs]].
    + by left.
    + right. exists i. split; [lia|]. by rewrite Hs, Ho.
Qed.

Lemma local_line_spec mc m (j : nat) :
  is_Some (mjoin (last (map_keyframes m))) →
  local_line mc m j = true
  ↔ ∃ i : nat, local_slot mc m i = true
               ∧ slot_observes_ls m (Z.of_nat i) (Z.of_nat j) = true.
Proof.
  intros Hlast. unfold local_line. rewrite orb_true_iff, existsb_idx. split.
  - intros [Hl|(x & Hx & Hf)].
    + exists (pred (length (map_keyframes m))). split; [|done].
      apply local_slot_spec. by left.
    + apply andb_true_iff in Hf as [Hs Ho]. exists x. split; [|done].
      apply local_slot_spec. right. split; [lia|done].
  - intros (i & Hi & Ho). apply local_slot_spec in Hi as [->|[Hi Hs]].
    + by left.
    + right. exists i. split; [lia|]. by rewrite Hs, Ho.
Qed.

(** A keyframe of the map that [formLocalMap] returns, and the keyframe it
    was. *)
Lemma formLocalMap_keyframe_after mc m m' (i : nat) k' :
  formLocalMap mc m = Some m' →
  map_keyframes m' !! i = Some (Some k') →
  ∃ k, map_keyframes m !! i = Some (Some k)
       ∧ KeyFrame.local k' = local_slot mc m i
       ∧ KeyFrame.stereo_frame k' = KeyFrame.stereo_frame k.
Proof.
  intros H Hi. apply formLocalMap_effect in H as (_ & K & _).
  rewrite K, reset_local_lookup_kf in Hi.
  destruct (map_keyframes m !! i) as [[k|]|]; simpl in Hi;
    destruct (local_slot mc m i); simplify_eq/=; by exists k.
Qed.

Lemma formLocalMap_keyframe_before mc m m' (i : nat) k :
  formLocalMap mc m = Some m' →
  map_keyframes m !! i = Some (Some k) →
  ∃ k', map_keyframes m' !! i = Some (Some k')
        ∧ KeyFrame.local k' = local_slot mc m i
        ∧ KeyFrame.stereo_frame k' = KeyFrame.stereo_frame k.
Proof.
  intros H Hi. apply formLocalMap_effect in H as (_ & K & _).
  rewrite K, reset_local_lookup_kf, Hi. simpl.
  destruct (local_slot mc m i); simpl; by eexists.
Qed.

Lemma formLocalMap_last mc m m' :
  formLocalMap mc m = Some m' → is_Some (mjoin (last (map_keyframes m))).
Proof.
  unfold formLocalMap. intros H. apply bind_Some in H as (k & Hk & _).
  revert Hk. unfold reset_local. simpl. rewrite fmap_last.
  destruct (last (map_keyframes m)) as [[k0|]|]; simpl; [|done..].
  by eexists.
Qed.

(** X9 (which keyframes are local). After [formLocalMap] a keyframe is
    local exactly when it is the newest one, or when the loop over the
    graph selects it: its slot [i] lies below the last row of the graph and
    the cell [full_graph[g_size][i]] passes the test on [minLMCovGraph] and
    [minKFLocalMap]. Whatever was local before does not matter. *)
Theorem formLocalMap_keyframes (mc : MapConfig) (m m' : MapHandler)
    (i : nat) (k' : KeyFrame.t) :
  formLocalMap mc m = Some m' →
  map_keyframes m' !! i = Some (Some k') →
  KeyFrame.local k' = true
  ↔ i = pred (length (map_keyframes m))
    ∨ (Z.of_nat i < Z.of_nat (length (full_graph m)) - 1
       ∧ selected mc (full_graph m) (Z.of_nat i) = true).
Proof.
  intros H Hi.
  destruct (formLocalMap_keyframe_after _ _ _ _ _ H Hi) as (k & _ & -> & _).
  apply local_slot_spec.
Qed.

(** Keyframe 2 of [shared_kf_map] is selected through the graph. *)
Lemma formLocalMap_keyframes_witness :
  ∃ m' k',
    formLocalMap mc0 shared_kf_map = Some m'
    ∧ map_keyframes m' !! 2%nat = Some (Some k')
    ∧ (KeyFrame.local k' = true
       ↔ 2%nat = pred (length (map_keyframes shared_kf_map))
         ∨ (Z.of_nat 2 < Z.of_nat (length (full_graph shared_kf_map)) - 1
            ∧ selected mc0 (full_graph shared_kf_map) (Z.of_nat 2) = true)).
Proof.
  destruct (formLocalMap mc0 shared_kf_map) as [m'|] eqn:Hrun;
    [|vm_compute in Hrun; discriminate Hrun].
  destruct (map_keyframes m' !! 2%nat) as [[k'|]|] eqn:Hk.
  - exists m', k'. split; [reflexivity|]. split; [exact Hk|].
    exact (formLocalMap_keyframes mc0 shared_kf_map m' 2 k' Hrun Hk).
  - exfalso. revert Hk. vm_compute in Hrun. injection Hrun as <-.
    vm_compute. discriminate.
  - exfalso. revert Hk. vm_compute in Hrun. injection Hrun as <-.
    vm_compute. discriminate.
Defined.

Lemma slot_observes_pt_nat m (i : nat) k j :
  map_keyframes m !! i = Some (Some k) →
  slot_observes_pt m (Z.of_nat i) j = observes_pt k j.
Proof.
  intros Hi. unfold slot_observes_pt. rewrite deref_nat.
  rewrite decide_True by lia. by rewrite Nat2Z.id, Hi.
Qed.

Lemma slot_observes_ls_nat m (i : nat) k j :
  map_keyframes m !! i = Some (Some k) →
  slot_observes_ls m (Z.of_nat i) j = observes_ls k j.
Proof.
  intros Hi. unfold slot_observes_ls. rewrite deref_nat.
  rewrite decide_True by lia. by rewrite Nat2Z.id, Hi.
Qed.

Lemma slot_observes_pt_Some m (i : nat) j :
  slot_observes_pt m (Z.of_nat i) j = true →
  ∃ k, map_keyframes m !! i = Some (Some k) ∧ observes_pt k j = true.
Proof.
  unfold slot_observes_pt. rewrite deref_nat.
  rewrite decide_True by lia. rewrite Nat2Z.id.
  destruct (map_keyframes m !! i) as [[k|]|]; simpl; [|done..].
  intros Ho. by exists k.
Qed.

Lemma slot_observes_ls_Some m (i : nat) j :
  slot_observes_ls m (Z.of_nat i) j = true →
  ∃ k, map_keyframes m !! i = Some (Some k) ∧ observes_ls k j = true.
Proof.
  unfold slot_observes_ls. rewrite deref_nat.
  rewrite decide_True by lia. rewrite Nat2Z.id.
  destruct (map_keyframes m !! i) as [[k|]|]; simpl; [|done..].
  intros Ho. by exists k.
Qed.

(** X10 (which landmarks are local). After [formLocalMap] a point landmark
    is local exactly when a point feature of some local keyframe refers to
    it, and a line landmark exactly when a line feature of some local
    keyframe refers to it. *)
Theorem formLocalMap_landmarks (mc : MapConfig) (m m' : MapHandler) :
  formLocalMap mc m = Some m' →
  (∀ (j : nat) (p : MapPoint.t),
     map_points m' !! j = Some (Some p) →
     MapPoint.local p = true
     ↔ ∃ (i : nat) (k : KeyFrame.t),
         map_keyframes m' !! i = Some (Some k)
         ∧ KeyFrame.local k = true
         ∧ observes_pt k (Z.of_nat j) = true)
  ∧ (∀ (j : nat) (l : MapLine.t),
       map_lines m' !! j = Some (Some l) →
       MapLine.local l = true
       ↔ ∃ (i : nat) (k : KeyFrame.t),
           map_keyframes m' !! i = Some (Some k)
           ∧ KeyFrame.local k = true
           ∧ observes_ls k (Z.of_nat j) = true).
Proof.
  intros H. pose proof (formLocalMap_last _ _ _ H) as Hlast.
  pose proof (formLocalMap_effect _ _ _ H) as (_ & _ & P & L).
  split.
  - intros j p Hj.
    assert (MapPoint.local p = local_point mc m j) as ->.
    { rewrite P, reset_local_lookup_pt in Hj.
      destruct (map_points m !! j) as [[p0|]|]; simpl in Hj;
        destruct (local_point mc m j); by simplify_eq/=. }
    rewrite (local_point_spec _ _ _ Hlast). split.
    + intros (i & Hi & Ho).
      apply slot_observes_pt_Some in Ho as (k & Hk & Ho).
      destruct (formLocalMap_keyframe_before _ _ _ _ _ H Hk)
        as (k' & Hk' & Hloc & Hfr).
      exists i, k'. split; [done|]. split; [congruence|].
      unfold observes_pt in *. by rewrite Hfr.
    + intros (i & k' & Hk' & Hloc & Ho).
      destruct (formLocalMap_keyframe_after _ _ _ _ _ H Hk')
        as (k & Hk & Hloc' & Hfr).
      exists i. split; [congruence|].
      rewrite (slot_observes_pt_nat _ _ _ _ Hk).
      unfold observes_pt in *. by rewrite <- Hfr.
  - intros j l Hj.
    assert (MapLine.local l = local_line mc m j) as ->.
    { rewrite L, reset_local_lookup_ls in Hj.
      destruct (map_lines m !! j) as [[l0|]|]; simpl in Hj;
        destruct (local_line mc m j); by simplify_eq/=. }
    rewrite (local_line_spec _ _ _ Hlast). split.
    + intros (i & Hi & Ho).
      apply slot_observes_ls_Some in Ho as (k & Hk & Ho).
      destruct (formLocalMap_keyframe_before _ _ _ _ _ H Hk)
        as (k' & Hk' & Hloc & Hfr).
      exists i, k'. split; [done|]. split; [congruence|].
      unfold observes_ls in *. by rewrite Hfr.
    + intros (i & k' & Hk' & Hloc & Ho).
      destruct (formLocalMap_keyframe_after _ _ _ _ _ H Hk')
        as (k & Hk & Hloc' & Hfr).
      exists i. split; [congruence|].
      rewrite (slot_observes_ls_nat _ _ _ _ Hk).
      unfold observes_ls in *. by rewrite <- Hfr.
Qed.

Lemma formLocalMap_landmarks_witness :
  ∃ m',
    formLocalMap mc0 shared_kf_map = Some m'
    ∧ (∀ (j : nat) (p : MapPoint.t),
         map_points m' !! j = Some (Some p) →
         MapPoint.local p = true
         ↔ ∃ (i : nat) (k : KeyFrame.t),
             map_keyframes m' !! i = Some (Some k)
             ∧ KeyFrame.local k = true
             ∧ observes_pt k (Z.of_nat j) = true).
Proof.
  destruct (formLocalMap mc0 shared_kf_map) as [m'|] eqn:Hrun;
    [|vm_compute in Hrun; discriminate Hrun].
  exists m'. split; [reflexivity|].
  exact (proj1 (formLocalMap_landmarks mc0 shared_kf_map m' Hrun)).
Defined.

Lemma raised_local_deref ck cp cl m m' (i : Z) :
  raised_local ck cp cl m m' →
  is_Some (deref (map_keyframes m') i) → is_Some (deref (map_keyframes m) i).
Proof.
  intros (_ & K & _). rewrite !deref_nat. case_decide; [|done].
  rewrite K. destruct (ck (Z.to_nat i)); simpl; [|done].
  destruct (map_keyframes m !! Z.to_nat i) as [[k|]|]; simpl; try done.
Qed.

Lemma formLocalMap_loop_defined mc (l : list Z) m m' (x : Z) :
  for_each (formLocalMap_turn mc (Z.of_nat (length (full_graph m)) - 1)) l m
    = Some m' →
  x ∈ l → selected mc (full_graph m) x = true →
  is_Some (deref (map_keyframes m) x).
Proof.
  revert m. induction l as [|y l IH]; simpl; intros m H Hx Hsel.
  - by apply elem_of_nil in Hx.
  - apply bind_Some in H as (m1 & H1 & H2).
    apply elem_of_cons in Hx as [->|Hx].
    + unfold formLocalMap_turn in H1. unfold selected in Hsel.
      apply bind_Some in H1 as (c & Hc & H1). rewrite Hc in Hsel.
      rewrite Hsel in H1. apply bind_Some in H1 as (k & Hk & _).
      by rewrite Hk.
    + pose proof (formLocalMap_turn_effect _ _ _ _ H1) as R1.
      pose proof (raised_local_graph _ _ _ _ _ R1) as Hg.
      rewrite <- Hg in H2, Hsel.
      eapply raised_local_deref; [exact R1|]. by eapply IH.
Qed.

(** X11 (a missing keyframe stops the local map). [formLocalMap] has no
    defined result when the map has no newest keyframe (no slot, or a NULL
    last slot), and none when the loop over the graph selects a slot that
    holds NULL: the loop sets [local] through the pointer without a test,
    unlike the reset loops before it. *)
Theorem formLocalMap_null_keyframe (mc : MapConfig) (m : MapHandler) :
  mjoin (last (map_keyframes m)) = None
  ∨ (∃ i : nat,
       map_keyframes m !! i = Some None
       ∧ Z.of_nat i < Z.of_nat (length (full_graph m)) - 1
       ∧ selected mc (full_graph m) (Z.of_nat i) = true) →
  formLocalMap mc m = None.
Proof.
  intros Hbad. destruct (formLocalMap mc m) as [m'|] eqn:H; [exfalso|done].
  destruct Hbad as [Hlast|(i & Hi & Hlt & Hsel)].
  - apply formLocalMap_last in H as [k Hk]. congruence.
  - unfold formLocalMap in H.
    apply bind_Some in H as (klast & Hlast & H).
    apply bind_Some in H as (m2 & H2 & H3).
    apply mark_landmarks_of_back_effect in H2 as R2.
    pose proof (raised_local_graph _ _ _ _ _ R2) as Hg. simpl in Hg.
    assert (is_Some (deref (map_keyframes m2) (Z.of_nat i))) as Hsome.
    { eapply formLocalMap_loop_defined; [exact H3| |by rewrite Hg].
      apply list_elem_of_fmap. exists i. split; [done|].
      apply elem_of_seq. rewrite Hg. lia. }
    apply (raised_local_deref _ _ _ _ _ _ R2) in Hsome.
    revert Hsome. rewrite deref_nat. rewrite decide_True by lia.
    rewrite Nat2Z.id. simpl.
    destruct (decide (i = pred (length (map (fmap (KeyFrame_set_local false))
                                           (map_keyframes m))))) as [->|Hne].
    + rewrite length_map, <- last_lookup in Hi.
      revert Hlast. unfold reset_local. simpl. rewrite fmap_last, Hi. done.
    + rewrite list_lookup_insert_ne by done.
      rewrite list_lookup_fmap, Hi. simpl. by intros [? ?].
Qed.

(** The NULL slot 1 of [null_slot_map] is covisible with the newest
    keyframe. *)
Lemma formLocalMap_null_keyframe_witness :
  formLocalMap mc0 null_slot_map = None.
Proof.
  apply (formLocalMap_null_keyframe mc0 null_slot_map).
  right. exists 1%nat. split; [reflexivity|]. split; [simpl; lia|].
  vm_compute. reflexivity.
Defined.

(** ** The input of the local bundle adjustment ([localBundleAdjustment]) *)

Lemma gather_keyframes_spec kfs X l X' l' :
  gather_keyframes kfs X l = (X', l') →
  (∀ kf, kf ∈ l' → kf ∈ l ∨
     kf ≠ 0 ∧ ∃ k, Some k ∈ kfs ∧ KeyFrame.local k = true
                   ∧ KeyFrame.kf_idx k = kf)
  ∧ (Forall (λ o : option KeyFrame.t,
               ∀ k, o = Some k → length (KeyFrame.x_kf_w k) = 6%nat) kfs →
     (length X' + 6 * length l = length X + 6 * length l')%nat).
Proof.
  revert X l. induction kfs as [|[k|] kfs IH]; simpl; intros X l H.
  - simplify_eq. split; [by left | lia].
  - destruct (KeyFrame.local k && bool_decide (KeyFrame.kf_idx k ≠ 0)) eqn:Hc.
    + apply andb_true_iff in Hc as [Hloc Hne%bool_decide_eq_true].
      apply IH in H as [Hin Hlen]. split.
      * intros kf Hkf. destruct (Hin kf Hkf) as [Hl|(Hn & k0 & Hk0 & ?)].
        -- apply elem_of_app in Hl as [Hl|Hl]; [by left|].
           apply list_elem_of_singleton in Hl as ->. right. split; [done|].
           exists k. split; [by left|done].
        -- right. split; [done|]. exists k0. split; [by right|done].
      * intros Hd. apply Forall_cons in Hd as [Hk Hd].
        specialize (Hlen Hd). specialize (Hk k eq_refl).
        rewrite !length_app, length_take, Hk in Hlen. simpl in Hlen. lia.
    + apply IH in H as [Hin Hlen]. split.
      * intros kf Hkf. destruct (Hin kf Hkf) as [Hl|(Hn & k0 & Hk0 & ?)];
          [by left|].
        right. split; [done|]. exists k0. split; [by right|done].
      * intros Hd. apply Forall_cons in Hd as [_ Hd]. by apply Hlen.
  - apply IH in H as [Hin Hlen]. split.
    + intros kf Hkf. destruct (Hin kf Hkf) as [Hl|(Hn & k0 & Hk0 & ?)];
        [by left|].
      right. split; [done|]. exists k0. split; [by right|done].
    + intros Hd. apply Forall_cons in Hd as [_ Hd]. by apply Hlen.
Qed.

Lemma kf_local_idx_spec (kf_list : list Z) (kf : Z) :
  if decide (kf ∈ kf_list)
  then at_ kf_list (kf_local_idx kf_list kf) = Some kf
  else kf_local_idx kf_list kf = -1.
Proof.
  unfold kf_local_idx.
  destruct (list_find (λ k, k = kf) kf_list) as [[j x]|] eqn:Hf.
  - apply list_find_Some in Hf as (Hj & -> & _).
    rewrite decide_True by (by eapply list_elem_of_lookup_2).
    apply at_Some. split; [lia|]. by rewrite Nat2Z.id.
  - apply list_find_None in Hf.
    rewrite decide_False; [done|]. intros Hin.
    rewrite Forall_forall in Hf. by destruct (Hf kf Hin).
Qed.

(** The observations gathered for one landmark. *)
Lemma gather_obs_spec kf_list lm_idx lm_local_idx n_obs kf_obs_list obs :
  gather_obs kf_list lm_idx lm_local_idx n_obs kf_obs_list = Some obs →
  length obs = n_obs
  ∧ Forall (λ o, lm_idx_map o = lm_idx ∧ lm_idx_loc o = lm_local_idx
                 ∧ kf_idx_loc o = kf_local_idx kf_list (kf_idx_map o)
                 ∧ obs_inlier o = 1) obs.
Proof.
  unfold gather_obs. intros H. split.
  - apply length_mapM in H. by rewrite length_seq in H.
  - apply mapM_Some_1 in H.
    induction H as [|i o l l' Ho _ IH]; constructor; [|done].
    apply bind_Some in Ho as (kf & _ & Ho). by simplify_eq/=.
Qed.

Lemma obs_linked_snoc kf_list lm_list x o :
  obs_linked kf_list lm_list o → obs_linked kf_list (lm_list ++ [x]) o.
Proof.
  intros (Hl & Hk & Hi). split; [|done].
  apply at_Some in Hl as [H0 Hl]. apply at_Some. split; [done|].
  by apply lookup_app_l_Some.
Qed.

Lemma obs_linked_new kf_list lm_list lm_idx o :
  lm_idx_map o = lm_idx →
  lm_idx_loc o = Z.of_nat (length lm_list) →
  kf_idx_loc o = kf_local_idx kf_list (kf_idx_map o) →
  obs_inlier o = 1 →
  obs_linked kf_list (lm_list ++ [lm_idx]) o.
Proof.
  intros Hm Hl Hk Hi. split; [|split; [|done]].
  - rewrite Hl, Hm. apply at_Some. split; [lia|].
    rewrite Nat2Z.id. by rewrite lookup_app_r, Nat.sub_diag.
  - rewrite Hk. apply kf_local_idx_spec.
Qed.

Lemma count_landmarks_app obs new n :
  new ≠ [] → Forall (λ o, lm_idx_loc o = n) new →
  count_landmarks (obs ++ new) = n + 1.
Proof.
  intros Hne Hall. unfold count_landmarks. rewrite last_app.
  destruct (last new) as [o|] eqn:Hlast.
  - apply last_Some in Hlast as (l' & ->).
    rewrite Forall_app, Forall_singleton in Hall. destruct Hall as [_ Ho].
    by rewrite Ho.
  - by apply last_None in Hlast.
Qed.

Lemma gather_points_spec kfl pts n X obs lst X' obs' lst' :
  gather_points kfl pts n X obs lst = Some (X', obs', lst') →
  n = Z.of_nat (length lst) →
  Forall (obs_linked kfl lst) obs →
  Forall (obs_linked kfl lst') obs'
  ∧ ((∀ p, Some p ∈ pts → MapPoint.local p = true → MapPoint.obs_list p ≠ []) →
     count_landmarks obs = Z.of_nat (length lst) →
     count_landmarks obs' = Z.of_nat (length lst'))
  ∧ (Forall (λ o : option MapPoint.t,
               ∀ p, o = Some p → length (MapPoint.point3D p) = 3%nat) pts →
     (length X' + 3 * length lst = length X + 3 * length lst')%nat)
  ∧ ((∀ p, Some p ∈ pts → MapPoint.local p = false) →
     obs' = obs ∧ lst' = lst ∧ X' = X).
Proof.
  revert n X obs lst. induction pts as [|[p|] pts IH]; simpl;
    intros n X obs lst H Hn Hobs.
  - simplify_eq. repeat split; try done; lia.
  - destruct (MapPoint.local p) eqn:Hloc.
    + apply bind_Some in H as (new & Hnew & H).
      apply gather_obs_spec in Hnew as [Hlen Hnew].
      apply IH in H as (Hl & Hc & Hx & _).
      * split; [done|]. split; [|split].
        -- intros Hall Hcount. apply Hc.
           ++ intros q Hq. apply Hall. by right.
           ++ rewrite length_app. simpl.
              rewrite (count_landmarks_app obs new n); [lia| |].
              ** intros ->. simpl in Hlen.
                 apply (Hall p); [by left|done|].
                 by apply nil_length_inv.
              ** eapply Forall_impl; [exact Hnew|]. by intros o (_ & ? & _).
        -- intros Hd. apply Forall_cons in Hd as [Hp Hd].
           specialize (Hx Hd). specialize (Hp p eq_refl).
           rewrite !length_app, length_take, Hp in Hx. simpl in Hx. lia.
        -- intros Hall. specialize (Hall p ltac:(by left)). congruence.
      * rewrite length_app. simpl. lia.
      * apply Forall_app. split.
        -- eapply Forall_impl; [exact Hobs|]. intros o. apply obs_linked_snoc.
        -- eapply Forall_impl; [exact Hnew|]. intros o (Hm & Hlo & Hk & Hi).
           apply obs_linked_new; try done. congruence.
    + apply IH in H as (Hl & Hc & Hx & He); [|done..].
      split; [done|]. split; [|split].
      * intros Hall. apply Hc. intros q Hq. apply Hall. by right.
      * intros Hd. apply Forall_cons in Hd as [_ Hd]. by apply Hx.
      * intros Hall. apply He. intros q Hq. apply Hall. by right.
  - apply IH in H as (Hl & Hc & Hx & He); [|done..].
    split; [done|]. split; [|split].
    + intros Hall. apply Hc. intros q Hq. apply Hall. by right.
    + intros Hd. apply Forall_cons in Hd as [_ Hd]. by apply Hx.
    + intros Hall. apply He. intros q Hq. apply Hall. by right.
Qed.


Lemma gather_lines_spec kfl pts n X obs lst X' obs' lst' :
  gather_lines kfl pts n X obs lst = Some (X', obs', lst') →
  n = Z.of_nat (length lst) →
  Forall (obs_linked kfl lst) obs →
  Forall (obs_linked kfl lst') obs'
  ∧ ((∀ p, Some p ∈ pts → MapLine.local p = true → MapLine.obs_list p ≠ []) →
     count_landmarks obs = Z.of_nat (length lst) →
     count_landmarks obs' = Z.of_nat (length lst'))
  ∧ (Forall (λ o : option MapLine.t,
               ∀ p, o = Some p → length (MapLine.line3D p) = 6%nat) pts →
     (length X' + 6 * length lst = length X + 6 * length lst')%nat)
  ∧ ((∀ p, Some p ∈ pts → MapLine.local p = false) →
     obs' = obs ∧ lst' = lst ∧ X' = X).
Proof.
  revert n X obs lst. induction pts as [|[p|] pts IH]; simpl;
    intros n X obs lst H Hn Hobs.
  - simplify_eq. repeat split; try done; lia.
  - destruct (MapLine.local p) eqn:Hloc.
    + apply bind_Some in H as (new & Hnew & H).
      apply gather_obs_spec in Hnew as [Hlen Hnew].
      apply IH in H as (Hl & Hc & Hx & _).
      * split; [done|]. split; [|split].
        -- intros Hall Hcount. apply Hc.
           ++ intros q Hq. apply Hall. by right.
           ++ rewrite length_app. simpl.
              rewrite (count_landmarks_app obs new n); [lia| |].
              ** intros ->. simpl in Hlen.
                 apply (Hall p); [by left|done|].
                 by apply nil_length_inv.
              ** eapply Forall_impl; [exact Hnew|]. by intros o (_ & ? & _).
        -- intros Hd. apply Forall_cons in Hd as [Hp Hd].
           specialize (Hx Hd). specialize (Hp p eq_refl).
           rewrite !length_app, length_take, Hp in Hx. simpl in Hx. lia.
        -- intros Hall. specialize (Hall p ltac:(by left)). congruence.
      * rewrite length_app. simpl. lia.
      * apply Forall_app. split.
        -- eapply Forall_impl; [exact Hobs|]. intros o. apply obs_linked_snoc.
        -- eapply Forall_impl; [exact Hnew|]. intros o (Hm & Hlo & Hk & Hi).
           apply obs_linked_new; try done. congruence.
    + apply IH in H as (Hl & Hc & Hx & He); [|done..].
      split; [done|]. split; [|split].
      * intros Hall. apply Hc. intros q Hq. apply Hall. by right.
      * intros Hd. apply Forall_cons in Hd as [_ Hd]. by apply Hx.
      * intros Hall. apply He. intros q Hq. apply Hall. by right.
  - apply IH in H as (Hl & Hc & Hx & He); [|done..].
    split; [done|]. split; [|split].
    + intros Hall. apply Hc. intros q Hq. apply Hall. by right.
    + intros Hd. apply Forall_cons in Hd as [_ Hd]. by apply Hx.
    + intros Hall. apply He. intros q Hq. apply Hall. by right.
Qed.


Lemma lba_input_stages m i :
  lba_input m = Some i →
  ∃ X1 X2,
    gather_keyframes (map_keyframes m) [] [] = (X1, lba_kf_list i)
    ∧ gather_points (lba_kf_list i) (map_points m) 0 X1 [] []
      = Some (X2, lba_pt_obs_list i, lba_pt_list i)
    ∧ gather_lines (lba_kf_list i) (map_lines m) 0 X2 [] []
      = Some (lba_X_aux i, lba_ls_obs_list i, lba_ls_list i).
Proof.
  unfold lba_input. intros H.
  destruct (gather_keyframes (map_keyframes m) [] []) as [X1 kfl] eqn:Hk.
  apply bind_Some in H as ([[X2 pobs] plst] & Hp & H).
  apply bind_Some in H as ([[X3 lobs] llst] & Hl & H).
  simplify_eq/=. by exists X1, X2.
Qed.

(** X12 (keyframe 0 is not optimized). The keyframes whose poses
    [localBundleAdjustment] hands to the solver are local keyframes of the
    map, and the keyframe with the index [0] is never among them. *)
Theorem lba_input_keyframes (m : MapHandler) (i : LBAInput) (kf : Z) :
  lba_input m = Some i →
  kf ∈ lba_kf_list i →
  kf ≠ 0
  ∧ ∃ k, Some k ∈ map_keyframes m ∧ KeyFrame.local k = true
         ∧ KeyFrame.kf_idx k = kf.
Proof.
  intros H Hkf. apply lba_input_stages in H as (X1 & X2 & Hk & _).
  apply gather_keyframes_spec in Hk as [Hin _].
  destruct (Hin kf Hkf) as [Hnil|Hok]; [|done].
  by apply elem_of_nil in Hnil.
Qed.

(** Of the two local keyframes of [lba_map] only keyframe 1 is listed. *)
Lemma lba_input_keyframes_witness :
  ∃ i, lba_input lba_map = Some i
       ∧ lba_kf_list i = [1]
       ∧ 1 ≠ 0
       ∧ ∃ k, Some k ∈ map_keyframes lba_map ∧ KeyFrame.local k = true
              ∧ KeyFrame.kf_idx k = 1.
Proof.
  destruct (lba_input lba_map) as [i|] eqn:Hrun;
    [|vm_compute in Hrun; discriminate Hrun].
  assert (lba_kf_list i = [1]) as Hl.
  { pose proof Hrun as Hrun'. vm_compute in Hrun'. injection Hrun' as <-.
    reflexivity. }
  assert (1 ∈ lba_kf_list i) as Hin by (rewrite Hl; left).
  exists i. split; [reflexivity|]. split; [exact Hl|].
  exact (lba_input_keyframes lba_map i 1 Hrun Hin).
Defined.

Lemma lba_map_dimensioned : dimensioned lba_map.
Proof.
  split; [|split]; repeat constructor; intros ? [= <-]; reflexivity.
Qed.

(** X13 (the state vector has one block per variable). On a map whose
    vectors have the sizes of their Eigen types, the vector [X_aux] that
    [localBundleAdjustment] builds holds six entries for each listed
    keyframe, three for each listed point and six for each listed line. *)
Theorem lba_input_layout (m : MapHandler) (i : LBAInput) :
  dimensioned m →
  lba_input m = Some i →
  length (lba_X_aux i)
  = (6 * length (lba_kf_list i) + 3 * length (lba_pt_list i)
     + 6 * length (lba_ls_list i))%nat.
Proof.
  intros (Dk & Dp & Dl) H.
  apply lba_input_stages in H as (X1 & X2 & Hk & Hp & Hl).
  apply gather_keyframes_spec in Hk as [_ Hk]. specialize (Hk Dk).
  apply gather_points_spec in Hp as (_ & _ & Hp & _); [|done..].
  apply gather_lines_spec in Hl as (_ & _ & Hl & _); [|done..].
  specialize (Hp Dp). specialize (Hl Dl). simpl in *. lia.
Qed.

(** One pose and one point: [6 + 3] entries. *)
Lemma lba_input_layout_witness :
  ∃ i, lba_input lba_map = Some i
       ∧ length (lba_X_aux i)
         = (6 * length (lba_kf_list i) + 3 * length (lba_pt_list i)
            + 6 * length (lba_ls_list i))%nat.
Proof.
  destruct (lba_input lba_map) as [i|] eqn:Hrun;
    [|vm_compute in Hrun; discriminate Hrun].
  exists i. split; [reflexivity|].
  exact (lba_input_layout lba_map i lba_map_dimensioned Hrun).
Defined.

(** X14 (the solver counts the landmarks right). The solver takes the
    number of point landmarks from the last point observation, and the
    number of lines from the last line observation. When every local
    landmark has at least one observation, these counts are the lengths of
    [pt_list] and [ls_list]. *)
Theorem lba_input_counts (m : MapHandler) (i : LBAInput) :
  (∀ p, Some p ∈ map_points m → MapPoint.local p = true →
        MapPoint.obs_list p ≠ []) →
  (∀ l, Some l ∈ map_lines m → MapLine.local l = true →
        MapLine.obs_list l ≠ []) →
  lba_input m = Some i →
  count_landmarks (lba_pt_obs_list i) = Z.of_nat (length (lba_pt_list i))
  ∧ count_landmarks (lba_ls_obs_list i) = Z.of_nat (length (lba_ls_list i)).
Proof.
  intros Hpo Hlo H.
  apply lba_input_stages in H as (X1 & X2 & _ & Hp & Hl).
  apply gather_points_spec in Hp as (_ & Hp & _); [|done..].
  apply gather_lines_spec in Hl as (_ & Hl & _); [|done..].
  split; [by apply Hp | by apply Hl].
Qed.

Lemma lba_input_counts_witness :
  ∃ i, lba_input lba_map = Some i
       ∧ count_landmarks (lba_pt_obs_list i) = Z.of_nat (length (lba_pt_list i))
       ∧ count_landmarks (lba_ls_obs_list i) = Z.of_nat (length (lba_ls_list i)).
Proof.
  destruct (lba_input lba_map) as [i|] eqn:Hrun;
    [|vm_compute in Hrun; discriminate Hrun].
  exists i. split; [reflexivity|].
  apply (lba_input_counts lba_map i); [| |exact Hrun].
  - intros p Hp _. apply list_elem_of_singleton in Hp.
    injection Hp as ->. discriminate.
  - intros l Hl. by apply elem_of_nil in Hl.
Defined.

(** X15 (observations point back to their landmark and keyframe). In the
    lists that [localBundleAdjustment] builds, the local index of every
    observation is the position of its landmark in [pt_list] (or
    [ls_list]), its keyframe position is the position of its keyframe in
    [kf_list], or [-1] when the keyframe is not listed, and its inlier mark
    is [1]. *)
Theorem lba_input_linked (m : MapHandler) (i : LBAInput) :
  lba_input m = Some i →
  Forall (obs_linked (lba_kf_list i) (lba_pt_list i)) (lba_pt_obs_list i)
  ∧ Forall (obs_linked (lba_kf_list i) (lba_ls_list i)) (lba_ls_obs_list i).
Proof.
  intros H. apply lba_input_stages in H as (X1 & X2 & _ & Hp & Hl).
  apply gather_points_spec in Hp as (Hp & _); [|done..].
  apply gather_lines_spec in Hl as (Hl & _); [|done..].
  done.
Qed.

Lemma lba_input_linked_witness :
  ∃ i, lba_input lba_map = Some i
       ∧ Forall (obs_linked (lba_kf_list i) (lba_pt_list i)) (lba_pt_obs_list i)
       ∧ Forall (obs_linked (lba_kf_list i) (lba_ls_list i)) (lba_ls_obs_list i).
Proof.
  destruct (lba_input lba_map) as [i|] eqn:Hrun;
    [|vm_compute in Hrun; discriminate Hrun].
  exists i. split; [reflexivity|].
  exact (lba_input_linked lba_map i Hrun).
Defined.

(** X16 (nothing local, nothing optimized). When no landmark of the map is
    local, [localBundleAdjustment] does not call the solver: it returns
    [-1] and the map is untouched. *)
Theorem localBundleAdjustment_nothing_local `{Collaborators} `{LMKernels}
    (cfg : SlamConfig) (m : MapHandler) :
  (∀ p, Some p ∈ map_points m → MapPoint.local p = false) →
  (∀ l, Some l ∈ map_lines m → MapLine.local l = false) →
  localBundleAdjustment cfg m = Some (-1, m).
Proof.
  intros Hp Hl. unfold localBundleAdjustment.
  assert (∀ kfl pts n X obs lst,
            (∀ p, Some p ∈ pts → MapPoint.local p = false) →
            gather_points kfl pts n X obs lst = Some (X, obs, lst)) as Gp.
  { intros kfl pts. induction pts as [|[p|] pts IH]; simpl; intros n X obs lst Hall;
      [done| |].
    - rewrite (Hall p) by (by left). apply IH. intros q Hq. apply Hall. by right.
    - apply IH. intros q Hq. apply Hall. by right. }
  assert (∀ kfl lss n X obs lst,
            (∀ l, Some l ∈ lss → MapLine.local l = false) →
            gather_lines kfl lss n X obs lst = Some (X, obs, lst)) as Gl.
  { intros kfl lss. induction lss as [|[l|] lss IH]; simpl; intros n X obs lst Hall;
      [done| |].
    - rewrite (Hall l) by (by left). apply IH. intros q Hq. apply Hall. by right.
    - apply IH. intros q Hq. apply Hall. by right. }
  unfold lba_input.
  destruct (gather_keyframes (map_keyframes m) [] []) as [X1 kfl].
  rewrite (Gp _ _ _ _ _ _ Hp). simpl. rewrite (Gl _ _ _ _ _ _ Hl). simpl.
  done.
Qed.

(** [two_kf_map] has no landmark at all. *)
Lemma localBundleAdjustment_nothing_local_witness :
  localBundleAdjustment (H:=plain_collaborators) (H0:=plain_kernels)
    cfg0 two_kf_map = Some (-1, two_kf_map).
Proof.
  apply (localBundleAdjustment_nothing_local (H:=plain_collaborators)
           (H0:=plain_kernels) cfg0 two_kf_map).
  - intros p Hp. by apply elem_of_nil in Hp.
  - intros l Hl. by apply elem_of_nil in Hl.
Defined.

(** ** Culling ([removeBadMapLandmarks]) *)

Lemma culled_idem {A} (bad : A → bool) o : culled bad (culled bad o) = culled bad o.
Proof.
  destruct o as [[x|]|]; simpl; try done.
  destruct (bad x) eqn:Hb; simpl; by rewrite ?Hb.
Qed.

Lemma unlink_pt_feature_frame kf lm m m' :
  unlink_pt_feature kf lm m = Some m' →
  map_points m' = map_points m ∧ map_lines m' = map_lines m
  ∧ max_kf_idx m' = max_kf_idx m.
Proof. unfold unlink_pt_feature. intros H. inv_opt. by subst. Qed.

Lemma unlink_ls_feature_frame kf lm m m' :
  unlink_ls_feature kf lm m = Some m' →
  map_points m' = map_points m ∧ map_lines m' = map_lines m
  ∧ max_kf_idx m' = max_kf_idx m.
Proof. unfold unlink_ls_feature. intros H. inv_opt. by subst. Qed.

Lemma insert_culled {A} (bad : A → bool) (l : list (option A)) (i j : nat) x :
  l !! i = Some (Some x) → bad x = true →
  <[i := None]> l !! j = if bool_decide (j = i) then culled bad (l !! j) else l !! j.
Proof.
  intros Hi Hb. case_bool_decide as Hj.
  - subst j. rewrite Hi. simpl. rewrite Hb.
    apply list_lookup_insert_eq. by eapply lookup_lt_Some.
  - by apply list_lookup_insert_ne.
Qed.

Lemma keep_culled {A} (bad : A → bool) (l : list (option A)) (i j : nat) :
  (∀ x, l !! i = Some (Some x) → bad x = false) →
  l !! j = if bool_decide (j = i) then culled bad (l !! j) else l !! j.
Proof.
  intros Hi. case_bool_decide as Hj; [|done]. subst j.
  destruct (l !! i) as [[x|]|]; simpl; try done. by rewrite Hi.
Qed.

Lemma cull_point_effect cfg (i : nat) m m' :
  cull_point cfg i m = Some m' →
  max_kf_idx m' = max_kf_idx m ∧ map_lines m' = map_lines m
  ∧ ∀ j : nat, map_points m' !! j =
      if bool_decide (j = i)
      then culled (bad_point cfg (max_kf_idx m)) (map_points m !! j)
      else map_points m !! j.
Proof.
  unfold cull_point. intros H.
  destruct (map_points m !! i) as [[p|]|] eqn:Hi.
  - destruct (MapPoint.local p) eqn:Hloc.
    { simplify_eq. do 2 (split; [done|]). intros j. apply keep_culled.
      intros x Hx. unfold bad_point. rewrite Hi in Hx. simplify_eq.
      by rewrite Hloc. }
    apply bind_Some in H as (kf_obs & Hkf & H).
    apply at_Some in Hkf as [_ Hkf]. simpl in Hkf.
    destruct (MapPoint.kf_obs_list p) as [|k0 ks] eqn:Hks; [done|].
    simplify_eq/=.
    assert (bad_point cfg (max_kf_idx m) p
            = bool_decide (max_kf_idx m - kf_obs > 10)
              && (negb (MapPoint.inlier p)
                  || bool_decide (Z.of_nat (length (MapPoint.obs_list p))
                                  < minLMObs cfg))) as Hbad.
    { unfold bad_point. by rewrite Hloc, Hks. }
    case_decide as Hold.
    + rewrite bool_decide_eq_true_2 in Hbad by done. simpl in Hbad.
      destruct (negb (MapPoint.inlier p)
                || bool_decide (Z.of_nat (length (MapPoint.obs_list p))
                                < minLMObs cfg)) eqn:Hc.
      * apply bind_Some in H as (m1 & H1 & H).
        apply bind_Some in H as (t & Ht & H). simplify_eq/=.
        apply unlink_pt_feature_frame in H1 as (Hp & Hl & Hk).
        do 2 (split; [done|]). intros j. rewrite Hp.
        by eapply insert_culled.
      * simplify_eq. do 2 (split; [done|]). intros j. apply keep_culled.
        intros x Hx. rewrite Hi in Hx. by simplify_eq.
    + rewrite bool_decide_eq_false_2 in Hbad by done. simpl in Hbad.
      simplify_eq. do 2 (split; [done|]). intros j. apply keep_culled.
      intros x Hx. rewrite Hi in Hx. by simplify_eq.
  - simplify_eq. do 2 (split; [done|]). intros j. apply keep_culled.
    intros x Hx. rewrite Hi in Hx. by simplify_eq.
  - simplify_eq. do 2 (split; [done|]). intros j. apply keep_culled.
    intros x Hx. rewrite Hi in Hx. by simplify_eq.
Qed.

Lemma cull_line_effect cfg (i : nat) m m' :
  cull_line cfg i m = Some m' →
  max_kf_idx m' = max_kf_idx m ∧ map_points m' = map_points m
  ∧ ∀ j : nat, map_lines m' !! j =
      if bool_decide (j = i)
      then culled (bad_line cfg (max_kf_idx m)) (map_lines m !! j)
      else map_lines m !! j.
Proof.
  unfold cull_line. intros H.
  destruct (map_lines m !! i) as [[p|]|] eqn:Hi.
  - destruct (MapLine.local p) eqn:Hloc.
    { simplify_eq. do 2 (split; [done|]). intros j. apply keep_culled.
      intros x Hx. unfold bad_line. rewrite Hi in Hx. simplify_eq.
      by rewrite Hloc. }
    apply bind_Some in H as (kf_obs & Hkf & H).
    apply at_Some in Hkf as [_ Hkf]. simpl in Hkf.
    destruct (MapLine.kf_obs_list p) as [|k0 ks] eqn:Hks; [done|].
    simplify_eq/=.
    assert (bad_line cfg (max_kf_idx m) p
            = bool_decide (max_kf_idx m - kf_obs > 10)
              && (negb (MapLine.inlier p)
                  || bool_decide (Z.of_nat (length (MapLine.obs_list p))
                                  < minLMObs cfg))) as Hbad.
    { unfold bad_line. by rewrite Hloc, Hks. }
    case_decide as Hold.
    + rewrite bool_decide_eq_true_2 in Hbad by done. simpl in Hbad.
      destruct (negb (MapLine.inlier p)
                || bool_decide (Z.of_nat (length (MapLine.obs_list p))
                                < minLMObs cfg)) eqn:Hc.
      * apply bind_Some in H as (m1 & H1 & H).
        apply bind_Some in H as (t & Ht & H). simplify_eq/=.
        apply unlink_ls_feature_frame in H1 as (Hl & Hp & Hk).
        do 2 (split; [done|]). intros j. rewrite Hp.
        by eapply insert_culled.
      * simplify_eq. do 2 (split; [done|]). intros j. apply keep_culled.
        intros x Hx. rewrite Hi in Hx. by simplify_eq.
    + rewrite bool_decide_eq_false_2 in Hbad by done. simpl in Hbad.
      simplify_eq. do 2 (split; [done|]). intros j. apply keep_culled.
      intros x Hx. rewrite Hi in Hx. by simplify_eq.
  - simplify_eq. do 2 (split; [done|]). intros j. apply keep_culled.
    intros x Hx. rewrite Hi in Hx. by simplify_eq.
  - simplify_eq. do 2 (split; [done|]). intros j. apply keep_culled.
    intros x Hx. rewrite Hi in Hx. by simplify_eq.
Qed.

Lemma cull_points_effect cfg (l : list nat) m m' :
  for_each (cull_point cfg) l m = Some m' →
  max_kf_idx m' = max_kf_idx m ∧ map_lines m' = map_lines m
  ∧ ∀ j : nat, map_points m' !! j =
      if bool_decide (j ∈ l)
      then culled (bad_point cfg (max_kf_idx m)) (map_points m !! j)
      else map_points m !! j.
Proof.
  revert m. induction l as [|x l IH]; simpl; intros m H.
  - by simplify_eq.
  - apply bind_Some in H as (m1 & H1 & H2).
    apply cull_point_effect in H1 as (Hk1 & Hl1 & Hp1).
    apply IH in H2 as (Hk2 & Hl2 & Hp2).
    split; [congruence|]. split; [congruence|]. intros j.
    rewrite Hp2, Hp1, Hk1.
    destruct (decide (j = x)) as [->|Hne].
    + rewrite (bool_decide_eq_true_2 (x = x)) by done.
      rewrite (bool_decide_eq_true_2 (x ∈ x :: l)) by left.
      case_bool_decide; by rewrite ?culled_idem.
    + rewrite (bool_decide_eq_false_2 (j = x)) by done.
      rewrite (bool_decide_ext (j ∈ x :: l) (j ∈ l)); [done|].
      rewrite elem_of_cons. tauto.
Qed.

Lemma cull_lines_effect cfg (l : list nat) m m' :
  for_each (cull_line cfg) l m = Some m' →
  max_kf_idx m' = max_kf_idx m ∧ map_points m' = map_points m
  ∧ ∀ j : nat, map_lines m' !! j =
      if bool_decide (j ∈ l)
      then culled (bad_line cfg (max_kf_idx m)) (map_lines m !! j)
      else map_lines m !! j.
Proof.
  revert m. induction l as [|x l IH]; simpl; intros m H.
  - by simplify_eq.
  - apply bind_Some in H as (m1 & H1 & H2).
    apply cull_line_effect in H1 as (Hk1 & Hl1 & Hp1).
    apply IH in H2 as (Hk2 & Hl2 & Hp2).
    split; [congruence|]. split; [congruence|]. intros j.
    rewrite Hp2, Hp1, Hk1.
    destruct (decide (j = x)) as [->|Hne].
    + rewrite (bool_decide_eq_true_2 (x = x)) by done.
      rewrite (bool_decide_eq_true_2 (x ∈ x :: l)) by left.
      case_bool_decide; by rewrite ?culled_idem.
    + rewrite (bool_decide_eq_false_2 (j = x)) by done.
      rewrite (bool_decide_ext (j ∈ x :: l) (j ∈ l)); [done|].
      rewrite elem_of_cons. tauto.
Qed.

Lemma culled_seq {A} (bad : A → bool) (l : list (option A)) (j : nat) :
  (if bool_decide (j ∈ seq 0 (length l)) then culled bad (l !! j) else l !! j)
  = culled bad (l !! j).
Proof.
  case_bool_decide as Hj; [done|].
  rewrite lookup_ge_None_2; [done|].
  rewrite elem_of_seq in Hj. lia.
Qed.

(** X17 (what the culling removes). [removeBadMapLandmarks] turns into NULL
    exactly the landmarks that are not local, were first seen more than ten
    keyframes before the newest one, and are outliers or have fewer than
    [minLMObs] observations. Every other landmark is kept as it is, NULL
    slots stay NULL, and no slot is added or removed, so the positions of
    the landmarks do not shift. *)
Theorem removeBadMapLandmarks_effect (cfg : SlamConfig) (m m' : MapHandler) :
  removeBadMapLandmarks cfg m = Some m' →
  (∀ j : nat, map_points m' !! j
              = culled (bad_point cfg (max_kf_idx m)) (map_points m !! j))
  ∧ (∀ j : nat, map_lines m' !! j
                = culled (bad_line cfg (max_kf_idx m)) (map_lines m !! j)).
Proof.
  unfold removeBadMapLandmarks. intros H.
  apply bind_Some in H as (m1 & H1 & H2).
  apply cull_points_effect in H1 as (Hk1 & Hl1 & Hp1).
  apply cull_lines_effect in H2 as (Hk2 & Hp2 & Hl2).
  split; intros j.
  - rewrite Hp2, Hp1. apply culled_seq.
  - rewrite Hl2, Hk1, Hl1. apply culled_seq.
Qed.

(** The outlier [0] of [cull_map], first seen twelve keyframes ago, is
    removed. *)
Lemma removeBadMapLandmarks_effect_witness :
  ∃ m',
    removeBadMapLandmarks cfg0 cull_map = Some m'
    ∧ map_points m' !! 0%nat
      = culled (bad_point cfg0 (max_kf_idx cull_map)) (map_points cull_map !! 0%nat)
    ∧ bad_point cfg0 (max_kf_idx cull_map) (landmark 0 [0; 1] false false) = true.
Proof.
  destruct (removeBadMapLandmarks cfg0 cull_map) as [m'|] eqn:Hrun;
    [|vm_compute in Hrun; discriminate Hrun].
  exists m'. split; [reflexivity|].
  split; [|vm_compute; reflexivity].
  exact (proj1 (removeBadMapLandmarks_effect cfg0 cull_map m' Hrun) 0%nat).
Defined.

(** ** The loop-closure driver ([loopClosure]) *)

(** X18 (READY is a transient state). Whatever the detection reports,
    [loopClosure] never returns with [lc_state] at [LC_READY]: when the
    state becomes READY the optimization runs in the same call and the
    state goes back to IDLE. *)
Theorem loopClosure_never_ready `{Collaborators} `{PoseGraph}
    (d : Detection) (m m' : MapHandler) :
  loopClosure d m = Some m' → lc_state m' ≠ LC_READY.
Proof.
  unfold loopClosure. intros Hrun.
  match type of Hrun with
  | (if decide (lc_state ?m1 = LC_READY) then _ else _) = _ =>
      destruct (decide (lc_state m1 = LC_READY)) as [Hr|Hr]
  end.
  - apply bind_Some in Hrun as (m2 & _ & Hrun). by simplify_eq.
  - by simplify_eq.
Qed.

(** The pending edge of [pending_loop_map] is optimized when no loop is
    found for the newest keyframe; the state is IDLE afterwards. *)
Lemma loopClosure_never_ready_witness :
  ∃ m', loopClosure (C:=plain_collaborators) (G:=plain_pose_graph)
          NoCandidate pending_loop_map = Some m'
        ∧ lc_state m' ≠ LC_READY.
Proof.
  destruct (loopClosure (C:=plain_collaborators) (G:=plain_pose_graph)
              NoCandidate pending_loop_map) as [m'|] eqn:Hrun;
    [|vm_compute in Hrun; discriminate Hrun].
  exists m'. split; [reflexivity|].
  exact (loopClosure_never_ready (H:=plain_collaborators)
           (H0:=plain_pose_graph) NoCandidate pending_loop_map m' Hrun).
Defined.

(** X19 (a confirmed loop is only queued). When the state is not READY and
    the detection confirms a loop, [loopClosure] appends one entry to each
    of the four loop lists (the edge with the newest keyframe and the mark
    [1], the pose increment, the point and the line correspondences),
    leaves the state at ACTIVE, and does not run the optimization: the
    keyframes, the landmarks and the graph are untouched. *)
Theorem loopClosure_queues_edge `{Collaborators} `{PoseGraph}
    (kf_prev_idx : Z) (pose_inc : Vector) (lc_pt_idx lc_ls_idx : list Vector4i)
    (m m' : MapHandler) :
  lc_state m ≠ LC_READY →
  loopClosure (IsLoop kf_prev_idx pose_inc lc_pt_idx lc_ls_idx) m = Some m' →
  lc_state m' = LC_ACTIVE
  ∧ lc_idx_list m' = lc_idx_list m ++ [(kf_prev_idx, max_kf_idx m, 1)]
  ∧ lc_pose_list m' = lc_pose_list m ++ [pose_inc]
  ∧ lc_pt_idxs m' = lc_pt_idxs m ++ [lc_pt_idx]
  ∧ lc_ls_idxs m' = lc_ls_idxs m ++ [lc_ls_idx]
  ∧ map_keyframes m' = map_keyframes m
  ∧ map_points m' = map_points m
  ∧ map_lines m' = map_lines m
  ∧ full_graph m' = full_graph m.
Proof.
  unfold loopClosure. intros Hst Hrun. simpl in Hrun.
  destruct (lc_state m) eqn:Hs; [| |done];
    simpl in Hrun; rewrite ?Hs in Hrun; simpl in Hrun;
    injection Hrun as <-; simpl; by rewrite ?Hs.
Qed.

Lemma loopClosure_queues_edge_witness :
  ∃ m',
    loopClosure (C:=plain_collaborators) (G:=plain_pose_graph)
      (IsLoop 0 [] [] []) shared_kf_map = Some m'
    ∧ lc_state m' = LC_ACTIVE
    ∧ lc_idx_list m' = lc_idx_list shared_kf_map ++ [(0, max_kf_idx shared_kf_map, 1)]
    ∧ full_graph m' = full_graph shared_kf_map.
Proof.
  destruct (loopClosure (C:=plain_collaborators) (G:=plain_pose_graph)
              (IsLoop 0 [] [] []) shared_kf_map) as [m'|] eqn:Hrun;
    [|vm_compute in Hrun; discriminate Hrun].
  assert (lc_state shared_kf_map ≠ LC_READY) as Hst by discriminate.
  destruct (loopClosure_queues_edge (H:=plain_collaborators)
              (H0:=plain_pose_graph) 0 [] [] [] shared_kf_map m' Hst Hrun)
    as (Hs & Hl & _ & _ & _ & _ & _ & _ & Hg).
  exists m'. split; [reflexivity|]. split; [exact Hs|].
  split; [exact Hl | exact Hg].
Defined.

(** ** The verdict of the plain relative-pose solver
       ([computeRelativePoseGN]) *)

Lemma filter_none {A} (P : A → Prop) `{∀ x, Decision (P x)} (l : list A) :
  Forall (λ x, ¬ P x) l → filter P l = [].
Proof.
  induction 1 as [|x l Hx _ IH]; [done|].
  rewrite filter_cons. by rewrite decide_False.
Qed.

Lemma ratio_no_inliers (lc_points : list PointFeature.t)
    (lc_lines : list LineFeature.t) (x : dbl) :
  Dbl.le Dbl.zero x = true →
  Forall (λ p, PointFeature.inlier p = false) lc_points →
  Forall (λ l, LineFeature.inlier l = false) lc_lines →
  Dbl.gt (ratio_inliers lc_points lc_lines) x = false.
Proof.
  intros Hx Hp Hl. unfold ratio_inliers.
  rewrite (filter_none _ lc_points), (filter_none _ lc_lines).
  2: { eapply Forall_impl; [exact Hl|]. intros l Hf. simpl in *. congruence. }
  2: { eapply Forall_impl; [exact Hp|]. intros p Hf. simpl in *. congruence. }
  simpl. unfold Dbl.gt, Dbl.div, Dbl.of_Z.
  destruct (Qeq_bool _ 0) eqn:HN.
  - simpl. by destruct x.
  - destruct x as [q| | |]; simpl in *; try done.
    unfold Dbl.Qltb. apply negb_false_iff, Qle_bool_iff.
    apply Qle_bool_iff in Hx.
    eapply Qle_trans; [|exact Hx]. unfold Qdiv. rewrite Qmult_0_l.
    apply Qle_refl.
Qed.

(** X20 (no inliers, no loop). When the inlier threshold [lcInl] is not
    negative and no matched feature is left as an inlier, which includes
    the case of no matched feature at all, [computeRelativePoseGN] rejects
    the candidate, however small the residual and the motion are. *)
Theorem computeRelativePoseGN_needs_inliers (cfg : SlamConfig) (o : GNOutcome)
    (lc_points : list PointFeature.t) (lc_lines : list LineFeature.t) :
  Dbl.le Dbl.zero (lcInl cfg) = true →
  Forall (λ p, PointFeature.inlier p = false) lc_points →
  Forall (λ l, LineFeature.inlier l = false) lc_lines →
  computeRelativePoseGN cfg o lc_points lc_lines = false.
Proof.
  intros Hx Hp Hl. unfold computeRelativePoseGN.
  rewrite (ratio_no_inliers _ _ _ Hx Hp Hl).
  by rewrite andb_false_r.
Qed.

(** Without any matched feature the ratio is [0 / 0]. *)
Lemma computeRelativePoseGN_needs_inliers_witness :
  computeRelativePoseGN cfg0 small_outcome [] [] = false.
Proof.
  apply (computeRelativePoseGN_needs_inliers cfg0 small_outcome [] []).
  - reflexivity.
  - constructor.
  - constructor.
Defined.

(** ** The numbering of the point landmarks *)

Lemma points_indexed_same m m' :
  map_points m' = map_points m → max_pt_idx m' = max_pt_idx m →
  points_indexed m → points_indexed m'.
Proof. unfold points_indexed. intros -> ->. done. Qed.

Lemma points_indexed_set_at m m' (i : Z) o x :
  at_ (map_points m) i = Some o →
  (∀ p, x = Some p → MapPoint.idx p = i) →
  map_points m' = set_at (map_points m) i x →
  max_pt_idx m' = max_pt_idx m →
  points_indexed m → points_indexed m'.
Proof.
  intros Hat Hx Hp Hk [Hlen Hidx]. unfold points_indexed.
  rewrite Hp, Hk. split.
  - unfold set_at. by rewrite length_insert.
  - intros j p. rewrite (set_at_lookup _ _ _ _ _ Hat).
    case_bool_decide as Hj.
    + intros [= ->]. rewrite <- Hj. by apply Hx.
    + apply Hidx.
Qed.

Lemma points_indexed_snoc m m' p :
  map_points m' = map_points m ++ [Some p] →
  MapPoint.idx p = max_pt_idx m →
  max_pt_idx m' = max_pt_idx m + 1 →
  points_indexed m → points_indexed m'.
Proof.
  intros Hp Hi Hk [Hlen Hidx]. unfold points_indexed. rewrite Hp, Hk. split.
  - rewrite length_app. simpl. lia.
  - intros j q Hj.
    destruct (decide (j < length (map_points m))%nat) as [Hlt|Hge].
    + rewrite lookup_app_l in Hj by done. by apply Hidx.
    + rewrite lookup_app_r in Hj by lia.
      destruct (j - length (map_points m))%nat as [|d] eqn:Hd; simplify_eq/=.
      rewrite Hi. lia.
Qed.

Lemma points_indexed_at m (i : Z) p :
  points_indexed m → at_ (map_points m) i = Some (Some p) → MapPoint.idx p = i.
Proof.
  intros [_ Hidx] [Hi Hl]%at_Some. rewrite (Hidx _ _ Hl). lia.
Qed.

Section PointsIndexed.
Context `{C : Collaborators}.

Lemma addMapPointObservation_idx desc kf obs dir p :
  MapPoint.idx (addMapPointObservation desc kf obs dir p) = MapPoint.idx p.
Proof. done. Qed.

Lemma matchKF2KFPoints_match_indexed i1 i2 prev_kf curr_kf m r :
  points_indexed m →
  matchKF2KFPoints_match i1 i2 prev_kf curr_kf m = Some r →
  points_indexed r.2.
Proof.
  unfold matchKF2KFPoints_match, in_graph. intros Hm H.
  inv_opt; subst; simpl; try done.
  - eapply points_indexed_snoc; [..|exact Hm]; simpl; done.
  - match goal with Hat : at_ (map_points m) _ = Some (Some ?p) |- _ =>
      eapply (points_indexed_set_at m); [exact Hat| | | |exact Hm]; simpl;
        try done;
      intros q [= <-]; rewrite addMapPointObservation_idx;
      by eapply points_indexed_at
    end.
Qed.

Lemma unlink_pt_feature_points kf lm m m' :
  unlink_pt_feature kf lm m = Some m' →
  map_points m' = map_points m ∧ max_pt_idx m' = max_pt_idx m.
Proof. unfold unlink_pt_feature. intros H. inv_opt. by subst. Qed.

Lemma remove_pt_observation_indexed o m m' :
  points_indexed m → remove_pt_observation o m = Some m' → points_indexed m'.
Proof.
  unfold remove_pt_observation, in_graph. intros Hm H.
  case_decide; [|by simplify_eq].
  apply bind_Some in H as (mp & Hat & H).
  destruct mp as [p|]; [|by simplify_eq].
  apply bind_Some in H as (kf_obs & Hkf & H).
  pose proof (points_indexed_at _ _ _ Hm Hat) as Hidx.
  case_decide.
  - inv_opt; subst; simpl.
    all: match goal with Hu : unlink_pt_feature _ _ _ = Some ?m1 |- _ =>
           apply unlink_pt_feature_points in Hu as [Hu1 Hu2]; simpl in Hu1, Hu2;
           eapply (points_indexed_set_at m);
             [exact Hat| | | |exact Hm]; simpl;
             [ | by rewrite Hu1 | by rewrite Hu2 ];
             intros q [= <-]; exact Hidx
         end.
  - simplify_eq.
    eapply (points_indexed_set_at m); [exact Hat| | | |exact Hm]; simpl;
      try done.
    intros q [= <-]. exact Hidx.
Qed.

End PointsIndexed.

Lemma points_indexed_lookup m m' :
  max_pt_idx m' = max_pt_idx m →
  (∀ j : nat, is_Some (map_points m' !! j) ↔ is_Some (map_points m !! j)) →
  (∀ (j : nat) p', map_points m' !! j = Some (Some p') →
     ∃ p, map_points m !! j = Some (Some p) ∧ MapPoint.idx p' = MapPoint.idx p) →
  points_indexed m → points_indexed m'.
Proof.
  intros Hk Hsome Hent [Hlen Hidx]. split.
  - rewrite Hk, <- Hlen. f_equal.
    destruct (Nat.lt_trichotomy (length (map_points m'))
                                (length (map_points m))) as [Hlt|[Heq|Hgt]];
      [|done|].
    + apply lookup_lt_is_Some_2, Hsome in Hlt.
      rewrite lookup_ge_None_2 in Hlt by lia. by destruct Hlt.
    + apply lookup_lt_is_Some_2, Hsome in Hgt.
      rewrite lookup_ge_None_2 in Hgt by lia. by destruct Hgt.
  - intros j p' Hj. destruct (Hent j p' Hj) as (p & Hp & ->). by apply Hidx.
Qed.

Lemma cull_point_max_pt cfg i m m' :
  cull_point cfg i m = Some m' → max_pt_idx m' = max_pt_idx m.
Proof.
  unfold cull_point. intros H. inv_opt; subst; simpl; try done.
  match goal with Hu : unlink_pt_feature _ _ _ = Some _ |- _ =>
    by apply unlink_pt_feature_points in Hu as [_ ?] end.
Qed.

Lemma cull_line_max_pt cfg i m m' :
  cull_line cfg i m = Some m' → max_pt_idx m' = max_pt_idx m.
Proof.
  unfold cull_line, unlink_ls_feature. intros H.
  inv_opt; subst; simpl; try done.
Qed.

Lemma removeBadMapLandmarks_indexed cfg m m' :
  points_indexed m → removeBadMapLandmarks cfg m = Some m' → points_indexed m'.
Proof.
  intros Hm H.
  assert (max_pt_idx m' = max_pt_idx m) as Hk.
  { unfold removeBadMapLandmarks in H.
    apply bind_Some in H as (m1 & H1 & H2).
    transitivity (max_pt_idx m1).
    - eapply (for_each_inv (λ s, max_pt_idx s = max_pt_idx m1));
        [|exact H2|done].
      intros x s s' _ Hc Hs. rewrite <- Hs. by eapply cull_line_max_pt.
    - eapply (for_each_inv (λ s, max_pt_idx s = max_pt_idx m));
        [|exact H1|done].
      intros x s s' _ Hc Hs. rewrite <- Hs. by eapply cull_point_max_pt. }
  apply removeBadMapLandmarks_effect in H as [Hp _].
  eapply points_indexed_lookup; [exact Hk| | |exact Hm].
  - intros j. rewrite Hp.
    destruct (map_points m !! j) as [[p|]|]; simpl; try done.
    destruct (bad_point _ _ p); split; by eauto.
  - intros j p'. rewrite Hp.
    destruct (map_points m !! j) as [[p|]|]; simpl; try done.
    destruct (bad_point _ _ p); intros [=]; subst. by exists p'.
Qed.

Lemma formLocalMap_indexed mc m m' :
  points_indexed m → formLocalMap mc m = Some m' → points_indexed m'.
Proof.
  intros Hm H. apply formLocalMap_effect in H as (E & _ & P & _).
  eapply points_indexed_lookup; [| | |exact Hm].
  - by rewrite E.
  - intros j. rewrite P, reset_local_lookup_pt.
    destruct (local_point mc m j), (map_points m !! j) as [[p|]|]; simpl;
      split; by eauto.
  - intros j p'. rewrite P, reset_local_lookup_pt.
    destruct (local_point mc m j), (map_points m !! j) as [[p|]|]; simpl;
      intros [=]; subst; by eexists.
Qed.

Section PointsIndexedFusion.
Context `{C : Collaborators}.

Lemma set_stereo_pt_idx_pts kf ldx v m m' :
  set_stereo_pt_idx kf ldx v m = Some m' →
  map_points m' = map_points m ∧ max_pt_idx m' = max_pt_idx m.
Proof. unfold set_stereo_pt_idx. intros H. inv_opt. by subst. Qed.

Lemma fuse_pt_observe_prev_indexed kp kc ldx lm m m' :
  points_indexed m → fuse_pt_observe_prev kp kc ldx lm m = Some m' →
  points_indexed m'.
Proof.
  unfold fuse_pt_observe_prev, in_graph. intros Hm H.
  inv_opt; subst; simpl; try done.
  match goal with
  | Hs : set_stereo_pt_idx _ _ _ _ = Some _,
    Hat : at_ (map_points m) _ = Some (Some _) |- _ =>
      apply set_stereo_pt_idx_pts in Hs as [Hs1 Hs2];
      eapply (points_indexed_set_at m); [exact Hat| | | |exact Hm]; simpl;
        [ | by rewrite Hs1 | by rewrite Hs2 ];
        intros q [= <-]; rewrite addMapPointObservation_idx;
        by eapply points_indexed_at
  end.
Qed.

Lemma fuse_pt_observe_curr_indexed kp kc lm ldx m m' :
  points_indexed m → fuse_pt_observe_curr kp kc lm ldx m = Some m' →
  points_indexed m'.
Proof.
  unfold fuse_pt_observe_curr, in_graph. intros Hm H.
  inv_opt; subst; simpl; try done.
  match goal with
  | Hs : set_stereo_pt_idx _ _ _ _ = Some _,
    Hat : at_ (map_points m) _ = Some (Some _) |- _ =>
      apply set_stereo_pt_idx_pts in Hs as [Hs1 Hs2];
      eapply (points_indexed_set_at m); [exact Hat| | | |exact Hm]; simpl;
        [ | by rewrite Hs1 | by rewrite Hs2 ];
        intros q [= <-]; rewrite addMapPointObservation_idx;
        by eapply points_indexed_at
  end.
Qed.

Lemma fuse_pt_create_indexed kp kc ldx0 ldx1 m m' :
  points_indexed m → fuse_pt_create kp kc ldx0 ldx1 m = Some m' →
  points_indexed m'.
Proof.
  unfold fuse_pt_create, in_graph. intros Hm H.
  inv_opt; subst; simpl; try done.
  repeat match goal with
  | Hs : set_stereo_pt_idx _ _ _ _ = Some _ |- _ =>
      apply set_stereo_pt_idx_pts in Hs as [? ?]
  end.
  eapply (points_indexed_snoc m); [..|exact Hm]; simpl.
  - match goal with
    | |- map_points ?a ++ _ = _ =>
        replace (map_points a) with (map_points m) by congruence
    end.
    reflexivity.
  - done.
  - done.
Qed.

Lemma fuse_pt_obs_indexed kc lm0 ldx N B iter it m m' :
  points_indexed m → fuse_pt_obs kc lm0 ldx N B iter it m = Some m' →
  points_indexed m'.
Proof.
  unfold fuse_pt_obs. intros Hm H.
  apply bind_Some in H as (A & HA & H).
  inv_opt; subst.
  match goal with
  | Hs : set_stereo_pt_idx _ _ _ _ = Some _ |- _ =>
      apply set_stereo_pt_idx_pts in Hs as [Hs1 Hs2]; simpl in Hs1, Hs2
  end.
  unfold deref in HA.
  destruct (at_ (map_points m) lm0) as [[A'|]|] eqn:Hat; simplify_eq/=.
  eapply (points_indexed_set_at m); [exact Hat| | | |exact Hm];
    [ | exact Hs1 | exact Hs2 ].
  intros q [= <-]. simpl. by eapply points_indexed_at.
Qed.

Lemma fuse_pt_loop_indexed kc lm0 ldx N B its iter m m' :
  points_indexed m → fuse_pt_loop kc lm0 ldx N B its iter m = Some m' →
  points_indexed m'.
Proof.
  revert iter m. induction its as [|it its IH]; simpl; intros iter m Hm H.
  - by simplify_eq.
  - apply bind_Some in H as (m1 & H1 & H2).
    eapply IH; [|exact H2]. by eapply fuse_pt_obs_indexed.
Qed.

Lemma fuse_pt_obs_max kc lm0 ldx N B iter it m m' :
  fuse_pt_obs kc lm0 ldx N B iter it m = Some m' →
  max_pt_idx m' = max_pt_idx m.
Proof.
  unfold fuse_pt_obs. intros H. inv_opt; subst.
  match goal with
  | Hs : set_stereo_pt_idx _ _ _ _ = Some _ |- _ =>
      by apply set_stereo_pt_idx_pts in Hs as [_ ->]
  end.
Qed.

Lemma fuse_pt_loop_max kc lm0 ldx N B its iter m m' :
  fuse_pt_loop kc lm0 ldx N B its iter m = Some m' →
  max_pt_idx m' = max_pt_idx m.
Proof.
  revert iter m. induction its as [|it its IH]; simpl; intros iter m H.
  - by simplify_eq.
  - apply bind_Some in H as (m1 & H1 & H2).
    rewrite (IH _ _ H2). by eapply fuse_pt_obs_max.
Qed.

Lemma fuse_pt_merge_indexed kc lm0 lm1 ldx m m' :
  points_indexed m → fuse_pt_merge kc lm0 lm1 ldx m = Some m' →
  points_indexed m'.
Proof.
  unfold fuse_pt_merge. intros Hm H.
  apply bind_Some in H as (a & Ha & H).
  destruct a as [A|]; [|by simplify_eq].
  apply bind_Some in H as (b & Hb & H).
  destruct b as [B|]; [|by simplify_eq].
  apply bind_Some in H as (ft & Hft & H).
  destruct ft as [f|]; [|by simplify_eq].
  case_decide; [done|].
  apply bind_Some in H as (m1 & Hloop & H).
  apply bind_Some in H as (kf_lm_obs & Hkf & H).
  apply bind_Some in H as (t & Ht & H). simplify_eq.
  pose proof (fuse_pt_loop_indexed _ _ _ _ _ _ _ _ _ Hm Hloop) as Hm1.
  pose proof (fuse_pt_loop_max _ _ _ _ _ _ _ _ _ Hloop) as Hk.
  assert (is_Some (at_ (map_points m1) lm1)) as [o Ho].
  { apply at_Some in Hb as [Hb0 Hb1]. apply lookup_lt_Some in Hb1.
    destruct Hm as [Hl _], Hm1 as [Hl1 _].
    destruct (lookup_lt_is_Some_2 (map_points m1) (Z.to_nat lm1)) as [o Ho];
      [lia|].
    exists o. by apply at_Some. }
  eapply (points_indexed_set_at m1); [exact Ho| | | |exact Hm1]; simpl;
    [ | reflexivity | reflexivity ].
  intros q Hq. discriminate Hq.
Qed.

Lemma fuse_pt_match_indexed kp kc lm m m' :
  points_indexed m → fuse_pt_match kp kc lm m = Some m' → points_indexed m'.
Proof.
  destruct lm as [[[lm_idx0 lm_ldx0] lm_idx1] lm_ldx1].
  unfold fuse_pt_match. intros Hm H.
  repeat case_decide; inv_opt; subst;
    eauto using fuse_pt_observe_prev_indexed, fuse_pt_observe_curr_indexed,
                fuse_pt_create_indexed, fuse_pt_merge_indexed.
Qed.

Lemma fuse_edges_pt_indexed idxs lc_idx m m' :
  points_indexed m → fuse_edges fuse_pt_match idxs lc_idx m = Some m' →
  points_indexed m'.
Proof.
  revert lc_idx m. induction idxs as [|idx_it idxs IH]; simpl;
    intros lc_idx m Hm H.
  - by simplify_eq.
  - apply bind_Some in H as ([[kp kc] marker] & He & H).
    apply bind_Some in H as (m1 & H1 & H).
    eapply IH; [|exact H].
    case_decide; [|by simplify_eq].
    revert H1 Hm. apply (for_each_inv points_indexed).
    intros x s s' _ Hx Hs. by eapply fuse_pt_match_indexed.
Qed.

End PointsIndexedFusion.

(** X21 (landmark [i] is in slot [i]). The numbering of the point
    landmarks, [max_pt_idx] slots and every landmark at the slot of its
    [idx], is kept by the frame-to-frame matching, by the formation of the
    local map, by the removal of an observation after the bundle
    adjustment, by the culling, and by the fusion of point landmarks at a
    loop closure (which appends slots and clears slots but never moves a
    landmark). *)
Theorem points_indexed_preserved `{Collaborators} :
  (∀ i1 i2 prev_kf curr_kf m r,
     points_indexed m →
     matchKF2KFPoints_match i1 i2 prev_kf curr_kf m = Some r →
     points_indexed r.2)
  ∧ (∀ mc m m',
       points_indexed m → formLocalMap mc m = Some m' → points_indexed m')
  ∧ (∀ o m m',
       points_indexed m → remove_pt_observation o m = Some m' →
       points_indexed m')
  ∧ (∀ cfg m m',
       points_indexed m → removeBadMapLandmarks cfg m = Some m' →
       points_indexed m')
  ∧ (∀ idxs lc_idx m m',
       points_indexed m → fuse_edges fuse_pt_match idxs lc_idx m = Some m' →
       points_indexed m').
Proof.
  split; [|split; [|split; [|split]]].
  - intros *. apply matchKF2KFPoints_match_indexed.
  - intros *. apply formLocalMap_indexed.
  - intros *. apply remove_pt_observation_indexed.
  - intros *. apply removeBadMapLandmarks_indexed.
  - intros *. apply fuse_edges_pt_indexed.
Qed.

(** The first match in the empty [two_kf_map] creates landmark 0 in slot 0;
    the culling of [cull_map] clears slot 0 and keeps the count at 1. *)
Lemma points_indexed_preserved_witness :
  ∃ r m',
    matchKF2KFPoints_match (C:=plain_collaborators) 0 0 kf_a kf_b two_kf_map
      = Some r
    ∧ points_indexed r.2
    ∧ removeBadMapLandmarks cfg0 cull_map = Some m'
    ∧ points_indexed m'.
Proof.
  destruct (points_indexed_preserved (H:=plain_collaborators))
    as (Hmatch & _ & _ & Hcull & _).
  assert (points_indexed two_kf_map) as H0.
  { split; [reflexivity|]. intros j p Hj. destruct j; discriminate Hj. }
  assert (points_indexed cull_map) as H1.
  { split; [reflexivity|]. intros j p Hj.
    destruct j as [|j]; simpl in Hj; [|destruct j; discriminate Hj].
    injection Hj as <-. reflexivity. }
  destruct (matchKF2KFPoints_match (C:=plain_collaborators) 0 0 kf_a kf_b
              two_kf_map) as [r|] eqn:Hr;
    [|vm_compute in Hr; discriminate Hr].
  destruct (removeBadMapLandmarks cfg0 cull_map) as [m'|] eqn:Hc;
    [|vm_compute in Hc; discriminate Hc].
  exists r, m'. split; [reflexivity|]. split; [exact (Hmatch _ _ _ _ _ _ H0 Hr)|].
  split; [reflexivity|]. exact (Hcull _ _ _ H1 Hc).
Defined.

(** ** Frame-to-frame matches ([matchKF2KFPoints]) *)

(** X22 (a new landmark counts once). When the matched feature of the
    previous keyframe has no landmark yet, [matchKF2KFPoints] appends one
    landmark, raises [max_pt_idx] by one, gives both features the old
    [max_pt_idx] as their index, and, for two different keyframes, raises
    the covisibility of the pair by exactly one in both directions while
    every other count stays as it was. *)
Theorem matchKF2KFPoints_new_landmark `{Collaborators} (i1 i2 : Z)
    (prev_kf curr_kf prev_kf' curr_kf' : KeyFrame.t) (f1 : PointFeature.t)
    (m m' : MapHandler) :
  0 ≤ i2 →
  deref (StereoFrame.stereo_pt (KeyFrame.stereo_frame prev_kf)) i1 = Some f1 →
  PointFeature.idx f1 = -1 →
  KeyFrame.kf_idx prev_kf ≠ KeyFrame.kf_idx curr_kf →
  matchKF2KFPoints_match i1 i2 prev_kf curr_kf m
    = Some (prev_kf', curr_kf', m') →
  (∃ p, map_points m' = map_points m ++ [Some p])
  ∧ max_pt_idx m' = max_pt_idx m + 1
  ∧ (∃ f1' f2',
       deref (StereoFrame.stereo_pt (KeyFrame.stereo_frame prev_kf')) i1
         = Some f1'
       ∧ deref (StereoFrame.stereo_pt (KeyFrame.stereo_frame curr_kf')) i2
         = Some f2'
       ∧ PointFeature.idx f1' = max_pt_idx m
       ∧ PointFeature.idx f2' = max_pt_idx m)
  ∧ ∀ a b,
      graph_get (full_graph m') a b
      = if bool_decide ((a = KeyFrame.kf_idx prev_kf ∧ b = KeyFrame.kf_idx curr_kf)
                        ∨ (a = KeyFrame.kf_idx curr_kf ∧ b = KeyFrame.kf_idx prev_kf))
        then (λ v, v + 1) <$> graph_get (full_graph m) a b
        else graph_get (full_graph m) a b.
Proof.
  intros Hi2 Hf1 Hidx Hne. unfold matchKF2KFPoints_match, in_graph.
  rewrite decide_False by lia. rewrite Hf1. simpl.
  intros Hr. apply bind_Some in Hr as (f2 & Hf2 & Hr).
  rewrite decide_True in Hr by done.
  apply bind_Some in Hr as (desc1 & Hd1 & Hr).
  apply bind_Some in Hr as (t & Ht & Hr).
  apply bind_Some in Hr as (desc2 & Hd2 & Hr).
  apply bind_Some in Hr as (m2 & H2 & Hr).
  apply bind_Some in H2 as (g & Hg & H2). simplify_eq/=.
  split; [by eexists|]. split; [done|]. split.
  - exists (PointFeature.set_idx (max_pt_idx m) f1),
           (PointFeature.set_idx (max_pt_idx m) f2).
    split; [by eapply deref_set_at_eq|].
    split; [by eapply deref_set_at_eq|]. done.
  - intros a b. rewrite (graph_get_pair_raised _ _ _ _ _ _ Hg).
    unfold raised.
    repeat case_bool_decide; destruct_and?; destruct_or?; destruct_and?;
      subst; try done;
      try (exfalso; tauto);
      destruct (graph_get (full_graph m) _ _); simpl; f_equal; lia.
Qed.

(** The two keyframes of [two_kf_map] share nothing before the match and
    one landmark after it. *)
Lemma matchKF2KFPoints_new_landmark_witness :
  ∃ prev' curr' m',
    matchKF2KFPoints_match (C:=plain_collaborators) 0 0 kf_a kf_b two_kf_map
      = Some (prev', curr', m')
    ∧ max_pt_idx m' = max_pt_idx two_kf_map + 1
    ∧ graph_get (full_graph m') 0 1 = Some 1.
Proof.
  destruct (matchKF2KFPoints_match (C:=plain_collaborators) 0 0 kf_a kf_b
              two_kf_map) as [[[prev' curr'] m']|] eqn:Hr;
    [|vm_compute in Hr; discriminate Hr].
  assert (deref (StereoFrame.stereo_pt (KeyFrame.stereo_frame kf_a)) 0
          = Some (pt_feature (-1) true)) as Hf by reflexivity.
  assert (KeyFrame.kf_idx kf_a ≠ KeyFrame.kf_idx kf_b) as Hne by discriminate.
  destruct (matchKF2KFPoints_new_landmark (H:=plain_collaborators) 0 0
              kf_a kf_b prev' curr' (pt_feature (-1) true) two_kf_map m'
              ltac:(lia) Hf eq_refl Hne Hr) as (_ & Hk & _ & Hg).
  exists prev', curr', m'. split; [reflexivity|]. split; [exact Hk|].
  rewrite (Hg 0 1). reflexivity.
Defined.

(** X23 (a match never leaves a dangling index). On a map whose point
    landmarks are numbered by their slots, a match of [matchKF2KFPoints]
    ends in one of two ways: both features carry the same index and the
    slot of that index holds a landmark with that [idx]; or the landmark of
    the previous feature was removed (its slot is NULL), and then nothing
    is changed at all. *)
Theorem matchKF2KFPoints_links `{Collaborators} (i1 i2 : Z)
    (prev_kf curr_kf prev_kf' curr_kf' : KeyFrame.t) (m m' : MapHandler) :
  points_indexed m →
  0 ≤ i2 →
  matchKF2KFPoints_match i1 i2 prev_kf curr_kf m
    = Some (prev_kf', curr_kf', m') →
  (∃ f1 f2 p,
     deref (StereoFrame.stereo_pt (KeyFrame.stereo_frame prev_kf')) i1 = Some f1
     ∧ deref (StereoFrame.stereo_pt (KeyFrame.stereo_frame curr_kf')) i2 = Some f2
     ∧ PointFeature.idx f2 = PointFeature.idx f1
     ∧ deref (map_points m') (PointFeature.idx f1) = Some p
     ∧ MapPoint.idx p = PointFeature.idx f1)
  ∨ (prev_kf' = prev_kf ∧ curr_kf' = curr_kf ∧ m' = m
     ∧ ∃ f1,
         deref (StereoFrame.stereo_pt (KeyFrame.stereo_frame prev_kf)) i1 = Some f1
         ∧ at_ (map_points m) (PointFeature.idx f1) = Some None).
Proof.
  intros Hm Hi2. unfold matchKF2KFPoints_match, in_graph.
  rewrite decide_False by lia.
  intros Hr. apply bind_Some in Hr as (f1 & Hf1 & Hr).
  apply bind_Some in Hr as (f2 & Hf2 & Hr).
  case_decide as Hidx.
  - apply bind_Some in Hr as (desc1 & Hd1 & Hr).
    apply bind_Some in Hr as (t & Ht & Hr).
    apply bind_Some in Hr as (desc2 & Hd2 & Hr).
    apply bind_Some in Hr as (m2 & H2 & Hr).
    apply bind_Some in H2 as (g & Hg & H2). simplify_eq/=.
    left. exists (PointFeature.set_idx (max_pt_idx m) f1),
                 (PointFeature.set_idx (max_pt_idx m) f2). eexists.
    split; [by eapply deref_set_at_eq|].
    split; [by eapply deref_set_at_eq|].
    split; [done|]. simpl. split.
    + destruct Hm as [Hlen _]. apply deref_Some, at_Some. split; [lia|].
      replace (Z.to_nat (max_pt_idx m)) with (length (map_points m)) by lia.
      by rewrite lookup_app_r, Nat.sub_diag.
    + reflexivity.
  - apply bind_Some in Hr as (mp & Hmp & Hr).
    destruct mp as [p|].
    + apply bind_Some in Hr as (desc2 & Hd2 & Hr).
      apply bind_Some in Hr as (m2 & H2 & Hr).
      apply bind_Some in H2 as (g & Hg & H2). simplify_eq/=.
      left. exists f1, (PointFeature.set_idx (PointFeature.idx f1) f2). eexists.
      split; [done|].
      split; [by eapply deref_set_at_eq|].
      split; [done|]. split.
      * eapply deref_set_at_eq. by apply deref_Some.
      * simpl. by eapply points_indexed_at.
    + simplify_eq. right. do 3 (split; [done|]). by exists f1.
Qed.

Lemma matchKF2KFPoints_links_witness :
  ∃ prev' curr' m',
    matchKF2KFPoints_match (C:=plain_collaborators) 0 0 kf_a kf_b two_kf_map
      = Some (prev', curr', m')
    ∧ ((∃ f1 f2 p,
          deref (StereoFrame.stereo_pt (KeyFrame.stereo_frame prev')) 0 = Some f1
          ∧ deref (StereoFrame.stereo_pt (KeyFrame.stereo_frame curr')) 0 = Some f2
          ∧ PointFeature.idx f2 = PointFeature.idx f1
          ∧ deref (map_points m') (PointFeature.idx f1) = Some p
          ∧ MapPoint.idx p = PointFeature.idx f1)
       ∨ (prev' = kf_a ∧ curr' = kf_b ∧ m' = two_kf_map
          ∧ ∃ f1,
              deref (StereoFrame.stereo_pt (KeyFrame.stereo_frame kf_a)) 0 = Some f1
              ∧ at_ (map_points two_kf_map) (PointFeature.idx f1) = Some None)).
Proof.
  destruct (matchKF2KFPoints_match (C:=plain_collaborators) 0 0 kf_a kf_b
              two_kf_map) as [[[prev' curr'] m']|] eqn:Hr;
    [|vm_compute in Hr; discriminate Hr].
  assert (points_indexed two_kf_map) as H0.
  { split; [reflexivity|]. intros j p Hj. destruct j; discriminate Hj. }
  exists prev', curr', m'. split; [reflexivity|].
  exact (matchKF2KFPoints_links (H:=plain_collaborators) 0 0 kf_a kf_b
           prev' curr' two_kf_map m' H0 ltac:(lia) Hr).
Defined.
(** ** The confusion matrix ([insertKFBowVectorP], [insertKFBowVectorL],
       [insertKFBowVectorPL]) *)

Lemma conf_get_set i j v c c' a b :
  conf_set i j v c = Some c' →
  conf_get c' a b =
  if decide (a = i ∧ b = j) then Some v else conf_get c a b.
Proof.
  unfold conf_set. intros H.
  apply bind_Some in H as (row & Hrow & H).
  apply bind_Some in H as (w & Hw & H). simplify_eq.
  pose proof Hrow as [Hi _]%at_Some. pose proof Hw as [Hj _]%at_Some.
  unfold conf_get.
  destruct (decide (a = i)) as [->|Hai].
  - rewrite (at_set_at_eq _ _ _ _ Hrow), Hrow. simpl.
    destruct (decide (b = j)) as [->|Hbj].
    + rewrite decide_True by done. by rewrite (at_set_at_eq _ _ _ _ Hw).
    + rewrite decide_False by (by intros [_ ?]). by apply at_set_at_ne.
  - rewrite decide_False by (by intros [? _]). by rewrite at_set_at_ne.
Qed.

Lemma conf_set_square n i j v c c' :
  conf_set i j v c = Some c' → conf_square n c → conf_square n c'.
Proof.
  unfold conf_set. intros H [Hl Hr].
  apply bind_Some in H as (row & Hrow & H).
  apply bind_Some in H as (w & Hw & H). simplify_eq.
  apply at_Some in Hrow as [_ Hrow].
  unfold set_at. split.
  - by rewrite length_insert.
  - apply Forall_insert; [done|]. rewrite length_insert.
    by apply (Forall_lookup_1 _ _ _ _ Hr Hrow).
Qed.

Lemma conf_set_defined i j v c c' :
  conf_set i j v c = Some c' → 0 ≤ i < Z.of_nat (length c) ∧ 0 ≤ j.
Proof.
  unfold conf_set. intros H.
  apply bind_Some in H as (row & Hrow & H).
  apply bind_Some in H as (w & Hw & H).
  apply at_Some in Hrow as [Hi Hrow]. apply at_Some in Hw as [Hj _].
  apply lookup_lt_Some in Hrow. lia.
Qed.

Lemma elem_of_upto (n x : Z) : x ∈ upto n ↔ 0 ≤ x < n.
Proof.
  unfold upto. rewrite list_elem_of_fmap. split.
  - intros (k & -> & Hk). apply elem_of_seq in Hk. lia.
  - intros Hx. exists (Z.to_nat x). split; [lia|]. apply elem_of_seq. lia.
Qed.

Lemma deref_at {A} (l : list (option A)) (i : Z) :
  deref l i = mjoin (at_ l i).
Proof. done. Qed.

(** One turn of the loop writes the two cells of the pair, or nothing. *)
Lemma fill_conf_turn_effect score idx i h h' :
  fill_conf_turn score idx i h = Some h' →
  the_map h' = the_map h
  ∧ ∀ a b, conf_get (conf_matrix h') a b =
      match deref (map_keyframes (the_map h)) i with
      | Some k =>
          if decide ((a = idx ∧ b = i) ∨ (a = i ∧ b = idx))
          then Some (score k) else conf_get (conf_matrix h) a b
      | None => conf_get (conf_matrix h) a b
      end.
Proof.
  unfold fill_conf_turn. intros H.
  apply bind_Some in H as (slot & Hslot & H).
  unfold deref. rewrite Hslot. simpl.
  destruct slot as [k|]; [|by simplify_eq].
  apply bind_Some in H as (c1 & H1 & H).
  apply bind_Some in H as (c2 & H2 & H). simplify_eq. simpl.
  split; [done|]. intros a b.
  rewrite (conf_get_set _ _ _ _ _ _ _ H2), (conf_get_set _ _ _ _ _ _ _ H1).
  repeat case_decide; try done; naive_solver.
Qed.

Lemma fill_conf_turn_square n score idx i h h' :
  fill_conf_turn score idx i h = Some h' →
  conf_square n (conf_matrix h) → conf_square n (conf_matrix h').
Proof.
  unfold fill_conf_turn. intros H Hsq.
  apply bind_Some in H as (slot & Hslot & H).
  destruct slot as [k|]; [|by simplify_eq].
  apply bind_Some in H as (c1 & H1 & H).
  apply bind_Some in H as (c2 & H2 & H). simplify_eq. simpl.
  eapply conf_set_square; [exact H2|]. by eapply conf_set_square.
Qed.

(** The cells after the whole loop and the assignment of the diagonal. *)
Lemma fill_conf_matrix_cells score self idx h h' :
  fill_conf_matrix score self idx h = Some h' →
  the_map h' = the_map h
  ∧ ∀ a b, conf_get (conf_matrix h') a b =
      filled_cell score self idx (map_keyframes (the_map h)) a b
        (conf_get (conf_matrix h) a b).
Proof.
  unfold fill_conf_matrix. intros H.
  apply bind_Some in H as (h1 & Hloop & H).
  apply bind_Some in H as (c & Hc & H). simplify_eq. simpl.
  assert (the_map h1 = the_map h
          ∧ ∀ a b, conf_get (conf_matrix h1) a b =
              if decide (a = idx ∧ b ∈ [] ++ upto idx) then
                match deref (map_keyframes (the_map h)) b with
                | Some k => Some (score k)
                | None => conf_get (conf_matrix h) a b
                end
              else if decide (b = idx ∧ a ∈ [] ++ upto idx) then
                match deref (map_keyframes (the_map h)) a with
                | Some k => Some (score k)
                | None => conf_get (conf_matrix h) a b
                end
              else conf_get (conf_matrix h) a b) as [Hm Hcells].
  { refine (for_each_prefix
      (λ pre s, the_map s = the_map h
         ∧ ∀ a b, conf_get (conf_matrix s) a b =
             if decide (a = idx ∧ b ∈ pre) then
               match deref (map_keyframes (the_map h)) b with
               | Some k => Some (score k)
               | None => conf_get (conf_matrix h) a b
               end
             else if decide (b = idx ∧ a ∈ pre) then
               match deref (map_keyframes (the_map h)) a with
               | Some k => Some (score k)
               | None => conf_get (conf_matrix h) a b
               end
             else conf_get (conf_matrix h) a b) _ _ _ [] _ _ Hloop _).
    - intros pre x s s' Hturn [Hms Hcs].
      apply fill_conf_turn_effect in Hturn as [Hm' Hc'].
      split; [congruence|]. intros a b.
      rewrite Hc', Hms, Hcs. clear Hc' Hcs.
      destruct (deref (map_keyframes (the_map h)) x) as [k|] eqn:Hx.
      + repeat case_decide; set_unfold; destruct_and?;
          repeat match goal with H : _ ∨ _ |- _ => destruct H end;
          destruct_and?; subst; rewrite ?Hx; try done; naive_solver.
      + repeat case_decide; set_unfold; destruct_and?;
          repeat match goal with H : _ ∨ _ |- _ => destruct H end;
          destruct_and?; subst; rewrite ?Hx; try done; naive_solver.
    - split; [done|]. intros a b.
      rewrite decide_False by (intros [_ ?%elem_of_nil]; done).
      rewrite decide_False by (intros [_ ?%elem_of_nil]; done). done. }
  split; [done|]. intros a b.
  rewrite (conf_get_set _ _ _ _ _ _ _ Hc), Hcells. unfold filled_cell. simpl.
  repeat case_decide; try done;
    rewrite ?elem_of_upto in *; naive_solver lia.
Qed.

Lemma fill_conf_matrix_square n score self idx h h' :
  fill_conf_matrix score self idx h = Some h' →
  conf_square n (conf_matrix h) → conf_square n (conf_matrix h').
Proof.
  unfold fill_conf_matrix. intros H Hsq.
  apply bind_Some in H as (h1 & Hloop & H).
  apply bind_Some in H as (c & Hc & H). simplify_eq. simpl.
  eapply conf_set_square; [exact Hc|].
  refine (for_each_inv (λ s, conf_square n (conf_matrix s)) _ _ _ _ _ Hloop Hsq).
  intros x s s' _. apply fill_conf_turn_square.
Qed.

Lemma filled_cell_symmetric score self idx kfs a b o1 o2 :
  o1 = o2 →
  filled_cell score self idx kfs a b o1 = filled_cell score self idx kfs b a o2.
Proof.
  intros ->. unfold filled_cell.
  repeat case_decide; try done; lia.
Qed.

Lemma fill_conf_matrix_symmetric score self idx h h' :
  fill_conf_matrix score self idx h = Some h' →
  conf_symmetric (conf_matrix h) → conf_symmetric (conf_matrix h').
Proof.
  intros H Hsym a b.
  apply fill_conf_matrix_cells in H as [_ Hc].
  rewrite !Hc. apply filled_cell_symmetric, Hsym.
Qed.

Lemma conf_get_nat (c : list (list dbl)) (i j : nat) :
  conf_get c (Z.of_nat i) (Z.of_nat j) = row ← c !! i; row !! j.
Proof.
  unfold conf_get, at_.
  rewrite decide_True by lia. rewrite !Nat2Z.id.
  destruct (c !! i) as [row|]; simpl; [|done].
  by rewrite decide_True by lia.
Qed.

Lemma conf_get_neg (c : list (list dbl)) (i j : Z) :
  i < 0 ∨ j < 0 → conf_get c i j = None.
Proof.
  intros H. unfold conf_get, at_.
  destruct (decide (0 ≤ i)); [|done].
  destruct (c !! Z.to_nat i); simpl; [|done].
  rewrite decide_False by lia. done.
Qed.

Lemma conf_get_square n c (i j : Z) :
  conf_square n c →
  is_Some (conf_get c i j) ↔ 0 ≤ i < Z.of_nat n ∧ 0 ≤ j < Z.of_nat n.
Proof.
  intros [Hl Hr].
  destruct (decide (0 ≤ i ∧ 0 ≤ j)) as [[Hi Hj]|Hneg].
  - rewrite <- (Z2Nat.id i), <- (Z2Nat.id j) at 1 by lia.
    rewrite conf_get_nat.
    destruct (c !! Z.to_nat i) as [row|] eqn:Hrow; simpl.
    + pose proof (Forall_lookup_1 _ _ _ _ Hr Hrow) as Hlen. simpl in Hlen.
      apply lookup_lt_Some in Hrow.
      rewrite lookup_lt_is_Some. lia.
    + apply lookup_ge_None in Hrow. split; [by intros [? ?]|lia].
  - rewrite conf_get_neg by lia. split; [by intros [? ?]|lia].
Qed.

Lemma conf_set_is_Some n i j v c :
  conf_square n c →
  is_Some (conf_set i j v c) ↔ 0 ≤ i < Z.of_nat n ∧ 0 ≤ j < Z.of_nat n.
Proof.
  intros Hsq. rewrite <- (conf_get_square n c i j Hsq).
  unfold conf_set, conf_get.
  destruct (at_ c i) as [row|]; simpl; [|done].
  destruct (at_ row j); simpl; split; intros [? ?]; done.
Qed.

Lemma resize_conf_square (k : nat) (c : list (list dbl)) :
  conf_square k (resize_graph k Dbl.zero c).
Proof. split; [apply resize_graph_length | apply resize_graph_rows]. Qed.

Lemma resize_conf_symmetric (k : nat) (c : list (list dbl)) :
  conf_symmetric c → conf_symmetric (resize_graph k Dbl.zero c).
Proof.
  intros Hsym i j.
  destruct (decide (0 ≤ i ∧ 0 ≤ j)) as [[Hi Hj]|Hneg].
  - rewrite <- (Z2Nat.id i), <- (Z2Nat.id j) by lia.
    rewrite !conf_get_nat, !resize_graph_lookup.
    specialize (Hsym (Z.of_nat (Z.to_nat i)) (Z.of_nat (Z.to_nat j))).
    rewrite !conf_get_nat in Hsym. rewrite Hsym.
    repeat case_decide; try done; lia.
  - rewrite !conf_get_neg by lia. done.
Qed.

Lemma conf_symmetric_initial : conf_symmetric [[Dbl.of_Z 1]].
Proof.
  intros i j. unfold conf_get.
  rewrite !at_singleton.
  repeat case_decide; simpl; rewrite ?at_singleton; repeat case_decide; done.
Qed.

Lemma for_each_total {A S} (P : S → Prop) (body : A → S → option S) l :
  (∀ x s, x ∈ l → P s → ∃ s', body x s = Some s' ∧ P s') →
  ∀ s, P s → ∃ s', for_each body l s = Some s' ∧ P s'.
Proof.
  induction l as [|x l IH]; simpl; intros Hb s Hs.
  - by exists s.
  - destruct (Hb x s) as (s1 & H1 & Hs1); [by left | done |].
    rewrite H1. simpl. apply IH; [|done].
    intros y t Hy. apply Hb. by right.
Qed.

Lemma fill_conf_turn_map score idx i h h' :
  fill_conf_turn score idx i h = Some h' → the_map h' = the_map h.
Proof. intros H. by apply fill_conf_turn_effect in H as [? _]. Qed.

(** When the loop and the diagonal assignment are defined. *)
Lemma fill_conf_matrix_is_Some n score self idx h :
  conf_square n (conf_matrix h) →
  is_Some (fill_conf_matrix score self idx h) ↔
  0 ≤ idx < Z.of_nat n
  ∧ idx ≤ Z.of_nat (length (map_keyframes (the_map h))).
Proof.
  intros Hsq. split.
  - intros [h' H]. unfold fill_conf_matrix in H.
    apply bind_Some in H as (h1 & Hloop & H).
    apply bind_Some in H as (c & Hc & _).
    assert (conf_square n (conf_matrix h1)) as Hsq1.
    { refine (for_each_inv (λ s, conf_square n (conf_matrix s))
                _ _ _ _ _ Hloop Hsq).
      intros x s s' _. apply fill_conf_turn_square. }
    pose proof (proj1 (conf_set_is_Some n _ _ _ _ Hsq1) (mk_is_Some _ _ Hc))
      as [Hidx _].
    split; [done|].
    destruct (decide (idx ≤ Z.of_nat (length (map_keyframes (the_map h)))))
      as [|Hgt]; [done|exfalso].
    destruct (for_each_reaches (λ s, the_map s = the_map h)
                (fill_conf_turn score idx) (upto idx)
                (Z.of_nat (length (map_keyframes (the_map h)))))
      with (s := h) (s' := h1) as (s1 & s2 & Hs1 & Hturn); try done.
    + intros y s s' Hy Hs. rewrite <- Hs. by eapply fill_conf_turn_map.
    + apply elem_of_upto. lia.
    + unfold fill_conf_turn in Hturn.
      apply bind_Some in Hturn as (slot & Hslot & _).
      rewrite Hs1 in Hslot. apply at_Some in Hslot as [_ Hslot].
      apply lookup_lt_Some in Hslot. lia.
  - intros [Hidx Hlen]. unfold fill_conf_matrix.
    destruct (for_each_total
                (λ s, the_map s = the_map h ∧ conf_square n (conf_matrix s))
                (fill_conf_turn score idx) (upto idx)) with (s := h)
      as (h1 & Hloop & Hm1 & Hsq1); [|done|].
    + intros x s Hx [Hms Hss]. apply elem_of_upto in Hx.
      unfold fill_conf_turn.
      destruct (lookup_lt_is_Some_2 (map_keyframes (the_map h)) (Z.to_nat x))
        as [slot Hslot]; [lia|].
      assert (at_ (map_keyframes (the_map s)) x = Some slot) as ->.
      { rewrite Hms. apply at_Some. split; [lia|done]. }
      simpl. destruct slot as [k|]; [|by exists s].
      destruct (proj2 (conf_set_is_Some n idx x (score k) _ Hss))
        as [c1 H1]; [lia|].
      rewrite H1. simpl.
      pose proof (conf_set_square _ _ _ _ _ _ H1 Hss) as Hsq1.
      destruct (proj2 (conf_set_is_Some n x idx (score k) _ Hsq1))
        as [c2 H2]; [lia|].
      rewrite H2. simpl. eexists. split; [done|]. split; [done|]. simpl.
      by eapply conf_set_square.
    + rewrite Hloop. simpl.
      destruct (proj2 (conf_set_is_Some n idx idx self _ Hsq1))
        as [c Hc]; [lia|].
      rewrite Hc. simpl. by eexists.
Qed.

(** X24 (the confusion matrix stays square and symmetric). [expandGraphs]
    resizes the confusion matrix to the size it gives [full_graph], one
    more than [full_graph] had, whatever size the confusion matrix had
    before, and keeps it symmetric; [insertKFBowVectorP],
    [insertKFBowVectorL] and [insertKFBowVectorPL] keep its size and its
    symmetry, whatever the scores are: both cells of a pair receive the
    same value. *)
Theorem conf_matrix_symmetric_preserved `{PlaceRecognition} :
  (∀ h,
     conf_symmetric (conf_matrix h) →
     conf_square (S (length (full_graph (the_map h))))
       (conf_matrix (expandGraphs h))
     ∧ conf_symmetric (conf_matrix (expandGraphs h)))
  ∧ (∀ n kf h h',
       conf_square n (conf_matrix h) → conf_symmetric (conf_matrix h) →
       insertKFBowVectorP kf h = Some h' ∨ insertKFBowVectorL kf h = Some h'
       ∨ insertKFBowVectorPL kf h = Some h' →
       conf_square n (conf_matrix h') ∧ conf_symmetric (conf_matrix h')).
Proof.
  split.
  - intros h Hsym. simpl. split.
    + apply resize_conf_square.
    + by apply resize_conf_symmetric.
  - intros n kf h h' Hsq Hsym [Hr|[Hr|Hr]].
    + unfold insertKFBowVectorP in Hr. split.
      * by eapply fill_conf_matrix_square.
      * by eapply fill_conf_matrix_symmetric.
    + unfold insertKFBowVectorL in Hr. split.
      * by eapply fill_conf_matrix_square.
      * by eapply fill_conf_matrix_symmetric.
    + unfold insertKFBowVectorPL in Hr.
      apply bind_Some in Hr as (pts & _ & Hr).
      apply bind_Some in Hr as (lss & _ & Hr). split.
      * by eapply fill_conf_matrix_square.
      * by eapply fill_conf_matrix_symmetric.
Qed.

(** A 3×3 confusion matrix beside the 2×2 [full_graph] of two keyframes:
    [expandGraphs] leaves a symmetric 3×3 confusion matrix (not 4×4), and
    the combined scores of a third keyframe are entered into it. *)
Lemma conf_matrix_symmetric_preserved_witness :
  ∃ h',
    insertKFBowVectorPL (R:=plain_recognition) (keyframe 2 [-1] [])
      (expandGraphs (set_conf_matrix (map (map (λ _, num 1)) (zero_graph 3))
                       (handler_of two_kf_map)))
    = Some h'
    ∧ conf_square 3 (conf_matrix h') ∧ conf_symmetric (conf_matrix h').
Proof.
  destruct (conf_matrix_symmetric_preserved (H:=plain_recognition))
    as (Hgrow & Hins).
  set (h := set_conf_matrix (map (map (λ _, num 1)) (zero_graph 3))
              (handler_of two_kf_map)).
  assert (conf_symmetric (conf_matrix h)) as Hsym.
  { intros i j. unfold conf_get. simpl.
    unfold at_. repeat case_decide; try done;
      (destruct (Z.to_nat i) as [|[|[|?]]], (Z.to_nat j) as [|[|[|?]]];
       simpl; repeat case_decide; try done; lia). }
  destruct (Hgrow h Hsym) as [Hsq1 Hsym1].
  destruct (insertKFBowVectorPL (R:=plain_recognition) (keyframe 2 [-1] [])
              (expandGraphs h)) as [h'|] eqn:H1;
    [|vm_compute in H1; discriminate H1].
  exists h'. split; [reflexivity|].
  exact (Hins _ _ _ _ Hsq1 Hsym1 (or_intror (or_intror H1))).
Defined.

(** X25 (what insertKFBowVector writes). [insertKFBowVectorP] and
    [insertKFBowVectorL] leave the map alone and write the confusion matrix
    only in the row and in the column of the new keyframe: the diagonal
    cell holds its score against itself; the cells [idx][i] and [i][idx]
    hold its score against the keyframe [i], for every [i < idx] whose slot
    is not NULL; the cells of a NULL slot and all other cells keep their
    value. *)
Theorem insertKFBowVector_cells `{PlaceRecognition} kf h h' (a b : Z) :
  (insertKFBowVectorP kf h = Some h' →
   the_map h' = the_map h
   ∧ conf_get (conf_matrix h') a b =
     filled_cell (score_p kf) (score_p kf kf) (KeyFrame.kf_idx kf)
       (map_keyframes (the_map h)) a b (conf_get (conf_matrix h) a b))
  ∧ (insertKFBowVectorL kf h = Some h' →
     the_map h' = the_map h
     ∧ conf_get (conf_matrix h') a b =
       filled_cell (score_l kf) (score_l kf kf) (KeyFrame.kf_idx kf)
         (map_keyframes (the_map h)) a b (conf_get (conf_matrix h) a b)).
Proof.
  split; intros Hr.
  - apply fill_conf_matrix_cells in Hr as [Hm Hc]. by rewrite Hc.
  - apply fill_conf_matrix_cells in Hr as [Hm Hc]. by rewrite Hc.
Qed.

(** In [null_slot_map] the slot 1 is NULL: the cell [2][0] receives the
    score, the cell [2][1] does not. *)
Lemma insertKFBowVector_cells_witness :
  ∃ h',
    insertKFBowVectorP (R:=plain_recognition) (keyframe 2 [] [])
      (handler_of null_slot_map) = Some h'
    ∧ conf_get (conf_matrix h') 2 0 = Some (Dbl.Fin (1 # 2))
    ∧ conf_get (conf_matrix h') 2 1 = Some (num 1).
Proof.
  destruct (insertKFBowVectorP (R:=plain_recognition) (keyframe 2 [] [])
              (handler_of null_slot_map)) as [h'|] eqn:Hr;
    [|vm_compute in Hr; discriminate Hr].
  exists h'. split; [reflexivity|].
  split.
  - destruct (proj1 (insertKFBowVector_cells (H:=plain_recognition)
                       _ _ _ 2 0) Hr) as [_ ->]. reflexivity.
  - destruct (proj1 (insertKFBowVector_cells (H:=plain_recognition)
                       _ _ _ 2 1) Hr) as [_ ->]. reflexivity.
Defined.

(** X26 (when insertKFBowVector is defined). On a square [n]×[n] confusion
    matrix, [insertKFBowVectorP] and [insertKFBowVectorL] have a defined
    result exactly when the index of the keyframe is a row of the matrix
    ([0 ≤ kf_idx < n]) and every index below it is a slot of
    [map_keyframes]: the matrix must have grown ([expandGraphs]) before the
    scores of a new keyframe are entered. *)
Theorem insertKFBowVector_defined `{PlaceRecognition} (n : nat) kf h :
  conf_square n (conf_matrix h) →
  (is_Some (insertKFBowVectorP kf h) ↔
     0 ≤ KeyFrame.kf_idx kf < Z.of_nat n
     ∧ KeyFrame.kf_idx kf ≤ Z.of_nat (length (map_keyframes (the_map h))))
  ∧ (is_Some (insertKFBowVectorL kf h) ↔
       0 ≤ KeyFrame.kf_idx kf < Z.of_nat n
       ∧ KeyFrame.kf_idx kf ≤ Z.of_nat (length (map_keyframes (the_map h)))).
Proof.
  intros Hsq. split; by apply fill_conf_matrix_is_Some.
Qed.

(** Two keyframes and a 2×2 matrix: the scores of a third keyframe cannot
    be entered before the matrix grew. *)
Lemma insertKFBowVector_defined_witness :
  ¬ is_Some (insertKFBowVectorP (R:=plain_recognition) (keyframe 2 [] [])
               (handler_of two_kf_map))
  ∧ is_Some (insertKFBowVectorP (R:=plain_recognition) (keyframe 2 [] [])
               (expandGraphs (handler_of two_kf_map))).
Proof.
  split.
  - rewrite (proj1 (insertKFBowVector_defined (H:=plain_recognition) 2
                      (keyframe 2 [] []) (handler_of two_kf_map)
                      ltac:(split; [reflexivity | repeat constructor]))).
    simpl. lia.
  - apply (proj1 (insertKFBowVector_defined (H:=plain_recognition) 3
                    (keyframe 2 [] []) (expandGraphs (handler_of two_kf_map))
                    ltac:(split; [reflexivity | repeat constructor]))).
    simpl. lia.
Defined.

(** ** Loop candidates ([lookForLoopCandidates]) *)

Lemma Dbl_to_int_of_Z (i : Z) : Dbl_to_int (Dbl.of_Z i) = Some i.
Proof. unfold Dbl_to_int, Dbl.of_Z. simpl. by rewrite Z.quot_1_r. Qed.

(** The entries of [max_confmat]: each one carries the index of a stored
    keyframe that the loop visited, and there is at most one entry for
    each turn. *)
Lemma candidates_spec `{R : PlaceRecognition} kf_curr_idx h l acc :
  for_each (candidate_turn kf_curr_idx h) l [] = Some acc →
  Forall (λ e : Vector2d,
            ∃ i, e.1 = Dbl.of_Z i ∧ i ∈ l
                 ∧ is_Some (deref (map_keyframes (the_map h)) i)) acc
  ∧ (length acc ≤ length l)%nat.
Proof.
  intros Hrun.
  refine (for_each_prefix
    (λ pre acc,
       Forall (λ e : Vector2d,
                 ∃ i, e.1 = Dbl.of_Z i ∧ i ∈ pre
                      ∧ is_Some (deref (map_keyframes (the_map h)) i)) acc
       ∧ (length acc ≤ length pre)%nat) _ _ _ [] _ _ Hrun _).
  - intros pre x s s' Hturn [Hall Hlen]. unfold candidate_turn in Hturn.
    apply bind_Some in Hturn as (slot & Hslot & Hturn).
    assert (Forall (λ e : Vector2d,
                      ∃ i, e.1 = Dbl.of_Z i ∧ i ∈ pre ++ [x]
                           ∧ is_Some (deref (map_keyframes (the_map h)) i)) s)
      as Hall'.
    { eapply Forall_impl; [exact Hall|]. intros e (i & ? & ? & ?).
      exists i. set_solver. }
    destruct slot as [k|].
    + apply bind_Some in Hturn as (v & Hv & Hturn). simplify_eq.
      split.
      * apply Forall_app. split; [done|]. apply Forall_singleton.
        exists x. split; [done|]. split; [set_solver|].
        unfold deref. rewrite Hslot. by eexists.
      * rewrite !length_app. simpl. lia.
    + simplify_eq. split; [done|]. rewrite length_app. simpl. lia.
  - split; [constructor | simpl; lia].
Qed.

Lemma upto_length (n : Z) : length (upto n) = Z.to_nat n.
Proof. unfold upto. by rewrite length_map, length_seq. Qed.

(** A reported candidate comes from [max_confmat]. *)
Lemma lookForLoopCandidates_true `{R : PlaceRecognition} mc kf_curr_idx h
    (p : Z) :
  lookForLoopCandidates mc kf_curr_idx h = Some (true, p) →
  0 ≤ p < kf_curr_idx - lcKFDist mc
  ∧ is_Some (deref (map_keyframes (the_map h)) p)
  ∧ (0 ≤ lcKFMaxDist mc → lcKFMaxDist mc < kf_curr_idx - lcKFDist mc).
Proof.
  unfold lookForLoopCandidates. intros Hrun.
  apply bind_Some in Hrun as (max_confmat & Hcand & Hrun).
  apply candidates_spec in Hcand as [Hall Hlen].
  rewrite upto_length in Hlen.
  destruct (size_gt (length max_confmat) (lcKFMaxDist mc)) eqn:Hsize;
    [|by simplify_eq].
  apply bind_Some in Hrun as (lc_min_score & _ & Hrun).
  apply bind_Some in Hrun as (best & Hbest & Hrun).
  apply bind_Some in Hrun as (idx_max & Hidx & Hrun).
  destruct (Dbl.le lc_min_score best.2); [|by simplify_eq].
  apply bind_Some in Hrun as (Nkf_closest & _ & Hrun).
  case_bool_decide; [|by simplify_eq]. simplify_eq.
  apply list_elem_of_lookup_2 in Hbest.
  rewrite (sort_confmat_permutes max_confmat) in Hbest.
  rewrite Forall_forall in Hall.
  destruct (Hall _ Hbest) as (i & Hi & Hin & Hstored).
  rewrite Hi, Dbl_to_int_of_Z in Hidx. simplify_eq.
  apply elem_of_upto in Hin.
  split; [done|]. split; [done|]. intros Hpos.
  unfold size_gt in Hsize. apply bool_decide_eq_true in Hsize.
  rewrite decide_False in Hsize by lia. lia.
Qed.

(** X27 (a loop candidate is a stored, older keyframe). When
    [lookForLoopCandidates] reports a candidate, [kf_prev_idx] is the index
    of a keyframe that is stored (its slot is not NULL) and older than the
    current one by more than [lcKFDist]; for a threshold [lcKFMaxDist] that
    is not negative, more than [lcKFMaxDist] keyframes are that old, so no
    candidate exists while [kf_curr_idx ≤ lcKFDist + lcKFMaxDist]. When it
    reports none, [kf_prev_idx] is [-1]. *)
Theorem lookForLoopCandidates_candidate `{R : PlaceRecognition} mc kf_curr_idx h
    (b : bool) (p : Z) :
  lookForLoopCandidates mc kf_curr_idx h = Some (b, p) →
  if b then
    0 ≤ p < kf_curr_idx - lcKFDist mc
    ∧ is_Some (deref (map_keyframes (the_map h)) p)
    ∧ (0 ≤ lcKFMaxDist mc → lcKFMaxDist mc < kf_curr_idx - lcKFDist mc)
  else p = -1.
Proof.
  destruct b; [apply lookForLoopCandidates_true|].
  unfold lookForLoopCandidates. intros Hrun.
  apply bind_Some in Hrun as (max_confmat & _ & Hrun).
  destruct (size_gt _ _); [|by simplify_eq].
  apply bind_Some in Hrun as (lc_min_score & _ & Hrun).
  apply bind_Some in Hrun as (best & _ & Hrun).
  apply bind_Some in Hrun as (idx_max & _ & Hrun).
  destruct (Dbl.le lc_min_score best.2); [|by simplify_eq].
  apply bind_Some in Hrun as (Nkf_closest & _ & Hrun).
  case_bool_decide; by simplify_eq.
Qed.

(** With five keyframes, [lcKFDist = 2] and [lcKFMaxDist = 1], the
    keyframes 0 and 1 are old enough for the keyframe 4. *)
Lemma lookForLoopCandidates_candidate_witness :
  0 ≤ 1 < 4 - lcKFDist mc0
  ∧ is_Some (deref (map_keyframes (the_map (handler_of five_kf_map))) 1)
  ∧ (0 ≤ lcKFMaxDist mc0 → lcKFMaxDist mc0 < 4 - lcKFDist mc0).
Proof.
  apply (lookForLoopCandidates_candidate (R:=plain_recognition) mc0 4
           (handler_of five_kf_map) true 1).
  reflexivity.
Defined.

Lemma graph_get_square n g (i j : Z) :
  square n g →
  is_Some (graph_get g i j) ↔ 0 ≤ i < Z.of_nat n ∧ 0 ≤ j < Z.of_nat n.
Proof.
  intros [Hl Hr].
  destruct (decide (0 ≤ i ∧ 0 ≤ j)) as [[Hi Hj]|Hneg].
  - rewrite <- (Z2Nat.id i), <- (Z2Nat.id j) at 1 by lia.
    rewrite graph_get_nat.
    destruct (g !! Z.to_nat i) as [row|] eqn:Hrow; simpl.
    + pose proof (Forall_lookup_1 _ _ _ _ Hr Hrow) as Hlen. simpl in Hlen.
      apply lookup_lt_Some in Hrow.
      rewrite lookup_lt_is_Some. lia.
    + apply lookup_ge_None in Hrow. split; [by intros [? ?]|lia].
  - rewrite graph_get_neg by lia. split; [by intros [? ?]|lia].
Qed.

(** X28 (lookForLoopCandidates stays inside the matrices). With one row of
    [full_graph] and of [conf_matrix] for each of the [n] slots of
    [map_keyframes], both matrices square, a current index below [n], a
    distance [lcKFDist] that is not negative and an [int] as [lcKFMaxDist],
    [lookForLoopCandidates] has a defined result: every read of
    [map_keyframes], [conf_matrix], [full_graph] and [max_confmat] is in
    range, and every index it converts back from a [double] is a whole
    number. *)
Theorem lookForLoopCandidates_defined `{R : PlaceRecognition} mc kf_curr_idx h :
  conf_square (length (map_keyframes (the_map h))) (conf_matrix h) →
  square (length (map_keyframes (the_map h))) (full_graph (the_map h)) →
  0 ≤ kf_curr_idx < Z.of_nat (length (map_keyframes (the_map h))) →
  0 ≤ lcKFDist mc →
  - 2 ^ 31 ≤ lcKFMaxDist mc →
  is_Some (lookForLoopCandidates mc kf_curr_idx h).
Proof.
  intros Hconf Hgraph Hcurr Hdist Hmax.
  set (n := length (map_keyframes (the_map h))) in *.
  unfold lookForLoopCandidates.
  (* find the best matches *)
  destruct (for_each_total (λ _ : list Vector2d, True)
              (candidate_turn kf_curr_idx h)
              (upto (kf_curr_idx - lcKFDist mc))) with (s := @nil Vector2d)
    as (max_confmat & Hcand & _); [|done|].
  { intros i acc Hi%elem_of_upto _. unfold candidate_turn.
    destruct (lookup_lt_is_Some_2 (map_keyframes (the_map h)) (Z.to_nat i))
      as [slot Hslot]; [fold n; lia|].
    assert (at_ (map_keyframes (the_map h)) i = Some slot) as ->.
    { apply at_Some. split; [lia|done]. }
    simpl. destruct slot as [k|]; [|by eexists].
    destruct (proj2 (conf_get_square n _ i kf_curr_idx Hconf)) as [v ->];
      [lia|].
    simpl. by eexists. }
  rewrite Hcand. simpl.
  pose proof (candidates_spec _ _ _ _ Hcand) as [Hall _].
  destruct (size_gt (length max_confmat) (lcKFMaxDist mc)) eqn:Hsize;
    [|done].
  (* find the minimum score in the covisibility graph *)
  destruct (for_each_total (λ _ : dbl, True)
              (min_score_turn mc kf_curr_idx h) (upto kf_curr_idx))
    with (s := Dbl.of_Z 1) as (lc_min_score & Hmin & _); [|done|].
  { intros i s Hi%elem_of_upto _. unfold min_score_turn.
    destruct (proj2 (graph_get_square n _ i kf_curr_idx Hgraph)) as [c ->];
      [lia|].
    simpl.
    destruct (proj2 (conf_get_square n _ i kf_curr_idx Hconf)) as [v ->];
      [lia|].
    simpl.
    destruct (_ || _); [|by eexists].
    destruct (_ && _); by eexists. }
  rewrite Hmin. simpl.
  (* the best match *)
  assert (Forall (λ e : Vector2d, ∃ i, e.1 = Dbl.of_Z i)
                 (sort_confmat max_confmat)) as Hsorted.
  { rewrite (sort_confmat_permutes max_confmat).
    eapply Forall_impl; [exact Hall|]. intros e (i & ? & _). by exists i. }
  destruct (sort_confmat max_confmat) as [|best rest] eqn:Hsort.
  { exfalso.
    pose proof (Permutation_length (sort_confmat_permutes max_confmat)) as Hl.
    rewrite Hsort in Hl. simpl in Hl.
    unfold size_gt in Hsize. apply bool_decide_eq_true in Hsize.
    case_decide; lia. }
  simpl. apply Forall_cons in Hsorted as [(i & Hi) Hrest].
  rewrite Hi, Dbl_to_int_of_Z. simpl.
  destruct (Dbl.le lc_min_score best.2); [|done].
  rewrite drop_0.
  destruct (for_each_total (λ _ : Z, True)
              (closest_turn mc i lc_min_score) rest) with (s := 0)
    as (Nkf_closest & Hclosest & _); [|done|].
  { intros e s He _. unfold closest_turn.
    rewrite Forall_forall in Hrest. destruct (Hrest e He) as (j & ->).
    rewrite Dbl_to_int_of_Z. simpl. destruct (_ && _); by eexists. }
  rewrite Hclosest. simpl. by case_bool_decide.
Qed.

Lemma lookForLoopCandidates_defined_witness :
  is_Some (lookForLoopCandidates (R:=plain_recognition) mc0 4
             (handler_of five_kf_map)).
Proof.
  apply (lookForLoopCandidates_defined (R:=plain_recognition) mc0 4
           (handler_of five_kf_map)).
  - split; [reflexivity | repeat constructor].
  - split; [reflexivity | repeat constructor].
  - simpl. lia.
  - simpl. lia.
  - simpl. lia.
Defined.

(** ** Loop detection ([isLoopClosure] and the head of [loopClosure]) *)

(** [100.0 * 0 / n_0] and [100.0 * 0 / n_1] when one of the two counts is
    zero: the larger one is NaN or 0, and exceeds no ratio that is at least
    zero. *)
Lemma inl_ratio_empty (n_0 n_1 : nat) (r : dbl) :
  n_0 = 0%nat ∨ n_1 = 0%nat →
  Dbl.le Dbl.zero r = true →
  Dbl.gt (inl_ratio 0 n_0 n_1) r = false.
Proof.
  intros Hn Hr. unfold inl_ratio, Dbl_max, Dbl.gt.
  assert (∀ q : Q, Qnum q = 0 → Dbl.lt r (Dbl.Fin q) = false) as Hzero.
  { intros q Hq. destruct r as [y| | |]; simpl in *; try done.
    unfold Dbl.Qltb. apply negb_false_iff.
    unfold Qle_bool in *. rewrite Hq. simpl.
    apply Z.leb_le in Hr. apply Z.leb_le. simpl in Hr. nia. }
  destruct n_0 as [|k0].
  - simpl. by destruct r.
  - destruct n_1 as [|k1]; [|lia].
    simpl. apply Hzero. done.
Qed.

Lemma lc_point_loop `{R : PlaceRecognition} kf0 kf1 l acc acc' :
  for_each (lc_point_turn kf0 kf1) l acc = Some acc' →
  Forall (pt_correspondence kf0 kf1) acc.2 →
  Forall (pt_correspondence kf0 kf1) acc'.2.
Proof.
  intros Hrun.
  refine (for_each_inv (λ s, Forall (pt_correspondence kf0 kf1) s.2)
            _ _ _ _ _ Hrun).
  intros [i1 i2] s s' _ Hturn Hs. unfold lc_point_turn in Hturn.
  case_decide; [by simplify_eq|].
  apply bind_Some in Hturn as (f0 & H0 & Hturn).
  apply bind_Some in Hturn as (f1 & H1 & Hturn). simplify_eq. simpl.
  apply Forall_app. split; [done|]. apply Forall_singleton.
  by exists f0, f1.
Qed.

Lemma lc_line_loop `{R : PlaceRecognition} kf0 kf1 l acc acc' :
  for_each (lc_line_turn kf0 kf1) l acc = Some acc' →
  Forall (ls_correspondence kf0 kf1) acc.2 →
  Forall (ls_correspondence kf0 kf1) acc'.2.
Proof.
  intros Hrun.
  refine (for_each_inv (λ s, Forall (ls_correspondence kf0 kf1) s.2)
            _ _ _ _ _ Hrun).
  intros [i1 i2] s s' _ Hturn Hs. unfold lc_line_turn in Hturn.
  case_decide; [by simplify_eq|].
  apply bind_Some in Hturn as (f0 & H0 & Hturn).
  apply bind_Some in Hturn as (f1 & H1 & Hturn). simplify_eq. simpl.
  apply Forall_app. split; [done|]. apply Forall_singleton.
  by exists f0, f1.
Qed.

(** The erasure of the outliers keeps entries of the list it is given. *)
Lemma keep_inliers_sub {A} (inl : A → bool) fs idxs out :
  keep_inliers inl fs idxs = Some out → Forall (λ e, e ∈ idxs) out.
Proof.
  unfold keep_inliers. intros Hrun.
  refine (for_each_inv (λ s, Forall (λ e, e ∈ idxs) s) _ _ _ _ _ Hrun _);
    [|constructor].
  intros e s s' _ Hturn Hs.
  destruct (inl e.2); [|by simplify_eq].
  apply bind_Some in Hturn as (i & Hi & Hturn). simplify_eq.
  apply Forall_app. split; [done|]. apply Forall_singleton.
  apply at_Some in Hi as [_ Hi]. by eapply list_elem_of_lookup_2.
Qed.

(** The two matching passes of [isLoopClosure] and what they leave. *)
Lemma isLoopClosure_stages `{R : PlaceRecognition} `{C : Collaborators}
    mc cfg kf0 kf1 r :
  isLoopClosure mc cfg kf0 kf1 = Some r →
  ∃ common_pt lc_pt_idx common_ls lc_ls_idx,
    Forall (pt_correspondence kf0 kf1) lc_pt_idx
    ∧ Forall (ls_correspondence kf0 kf1) lc_ls_idx
    ∧ (hasPoints mc
       && negb (bool_decide
                  (length (StereoFrame.stereo_pt (KeyFrame.stereo_frame kf1))
                   = 0%nat))
       && negb (bool_decide
                  (length (StereoFrame.stereo_pt (KeyFrame.stereo_frame kf0))
                   = 0%nat)) = false → common_pt = 0)
    ∧ (hasLines mc
       && negb (bool_decide
                  (length (StereoFrame.stereo_ls (KeyFrame.stereo_frame kf1))
                   = 0%nat))
       && negb (bool_decide
                  (length (StereoFrame.stereo_ls (KeyFrame.stereo_frame kf0))
                   = 0%nat)) = false → common_ls = 0)
    ∧ (if (if hasPoints mc && hasLines mc then
             Dbl.gt (inl_ratio common_pt
                       (length (StereoFrame.stereo_pt (KeyFrame.stereo_frame kf0)))
                       (length (StereoFrame.stereo_pt (KeyFrame.stereo_frame kf1))))
                    (lcInlierRatio mc)
             && Dbl.gt (inl_ratio common_ls
                          (length (StereoFrame.stereo_ls (KeyFrame.stereo_frame kf0)))
                          (length (StereoFrame.stereo_ls (KeyFrame.stereo_frame kf1))))
                       (lcInlierRatio mc)
           else if hasPoints mc then
             Dbl.gt (inl_ratio common_pt
                       (length (StereoFrame.stereo_pt (KeyFrame.stereo_frame kf0)))
                       (length (StereoFrame.stereo_pt (KeyFrame.stereo_frame kf1))))
                    (lcInlierRatio mc)
           else if hasLines mc then
             Dbl.gt (inl_ratio common_ls
                       (length (StereoFrame.stereo_ls (KeyFrame.stereo_frame kf0)))
                       (length (StereoFrame.stereo_ls (KeyFrame.stereo_frame kf1))))
                    (lcInlierRatio mc)
           else false)
       then ∀ pose_inc pt ls,
              r = Some (pose_inc, pt, ls) →
              Forall (λ e, e ∈ lc_pt_idx) pt ∧ Forall (λ e, e ∈ lc_ls_idx) ls
       else r = None).
Proof.
  unfold isLoopClosure. intros Hrun.
  apply bind_Some in Hrun as ([[common_pt lc_points] lc_pt_idx] & Hpt & Hrun).
  apply bind_Some in Hrun as ([[common_ls lc_lines] lc_ls_idx] & Hls & Hrun).
  exists common_pt, lc_pt_idx, common_ls, lc_ls_idx.
  split; [|split; [|split; [|split]]].
  - destruct (_ && _ && _) in Hpt; [|by simplify_eq].
    destruct (match_p _ _) as [c m].
    apply bind_Some in Hpt as (acc & Hloop & Hpt). simplify_eq.
    eapply lc_point_loop; [exact Hloop|constructor].
  - destruct (_ && _ && _) in Hls; [|by simplify_eq].
    destruct (match_l _ _) as [c m].
    apply bind_Some in Hls as (acc & Hloop & Hls). simplify_eq.
    eapply lc_line_loop; [exact Hloop|constructor].
  - intros Hc. rewrite Hc in Hpt. by simplify_eq.
  - intros Hc. rewrite Hc in Hls. by simplify_eq.
  - match type of Hrun with (if ?c then _ else _) = _ =>
      destruct c; [|by simplify_eq] end.
    destruct (robust_gn lc_points lc_lines) as [[[o x_inc] pts'] lss'].
    destruct (computeRelativePoseRobustGN cfg o pts' lss');
      [|by simplify_eq].
    apply bind_Some in Hrun as (pt_ & Hkp & Hrun).
    apply bind_Some in Hrun as (ls_ & Hkl & Hrun). simplify_eq.
    intros pose_inc pt ls [= <- <- <-].
    split; by eapply keep_inliers_sub.
Qed.

(** X29 (no loop without features of a kind in use). For an inlier ratio
    [lcInlierRatio] that is not negative, [isLoopClosure] returns [false]
    whenever a kind of feature that is in use has no stereo feature in one
    of the two keyframes: the matching is skipped, the ratio
    [100.0 * 0 / 0] is NaN or the larger ratio is 0, and the comparison
    with [lcInlierRatio] fails. With points and lines in use, a keyframe
    without a line thus never closes a loop, however well its points
    match. It also returns [false] when neither kind is in use. *)
Theorem isLoopClosure_needs_features `{R : PlaceRecognition}
    `{C : Collaborators} mc cfg kf0 kf1 r :
  Dbl.le Dbl.zero (lcInlierRatio mc) = true →
  (hasPoints mc = true
   ∧ (StereoFrame.stereo_pt (KeyFrame.stereo_frame kf0) = []
      ∨ StereoFrame.stereo_pt (KeyFrame.stereo_frame kf1) = []))
  ∨ (hasLines mc = true
     ∧ (StereoFrame.stereo_ls (KeyFrame.stereo_frame kf0) = []
        ∨ StereoFrame.stereo_ls (KeyFrame.stereo_frame kf1) = []))
  ∨ (hasPoints mc = false ∧ hasLines mc = false) →
  isLoopClosure mc cfg kf0 kf1 = Some r → r = None.
Proof.
  intros Hratio Hcase Hrun.
  apply isLoopClosure_stages in Hrun
    as (common_pt & lc_pt_idx & common_ls & lc_ls_idx
        & _ & _ & Hpt & Hls & Hres).
  destruct Hcase as [[Hhas Hempty]|[[Hhas Hempty]|[Hp Hl]]].
  - assert (length (StereoFrame.stereo_pt (KeyFrame.stereo_frame kf0)) = 0%nat
            ∨ length (StereoFrame.stereo_pt (KeyFrame.stereo_frame kf1)) = 0%nat)
      as Hn by (destruct Hempty as [->| ->]; simpl; tauto).
    rewrite Hhas in *. rewrite Hpt in Hres.
    + rewrite (inl_ratio_empty _ _ _ Hn Hratio) in Hres.
      by destruct (hasLines mc).
    + destruct Hn as [->| ->]; simpl; [|done]. by rewrite andb_false_r.
  - assert (length (StereoFrame.stereo_ls (KeyFrame.stereo_frame kf0)) = 0%nat
            ∨ length (StereoFrame.stereo_ls (KeyFrame.stereo_frame kf1)) = 0%nat)
      as Hn by (destruct Hempty as [->| ->]; simpl; tauto).
    rewrite Hhas in *. rewrite Hls in Hres.
    + rewrite (inl_ratio_empty _ _ _ Hn Hratio) in Hres.
      destruct (hasPoints mc); simpl in Hres; [|done].
      by rewrite andb_false_r in Hres.
    + destruct Hn as [->| ->]; simpl; [|done]. by rewrite andb_false_r.
  - rewrite Hp, Hl in Hres. done.
Qed.

(** Points and lines are in use; the single point of each keyframe matches,
    but the keyframes have no line. *)
Lemma isLoopClosure_needs_features_witness :
  isLoopClosure (R:=plain_recognition) (C:=plain_collaborators) mc0 cfg0
    kf_a kf_b = Some None.
Proof.
  destruct (isLoopClosure (R:=plain_recognition) (C:=plain_collaborators)
              mc0 cfg0 kf_a kf_b) as [r|] eqn:Hr;
    [|vm_compute in Hr; discriminate Hr].
  f_equal.
  apply (isLoopClosure_needs_features (R:=plain_recognition)
           (C:=plain_collaborators) mc0 cfg0 kf_a kf_b r).
  - reflexivity.
  - right. left. split; [reflexivity|]. left. reflexivity.
  - exact Hr.
Defined.

(** X30 (what a detected loop edge refers to). When the head of
    [loopClosure] detects a loop, the edge it is about to queue joins the
    newest keyframe [max_kf_idx] with a stored keyframe [kf_prev_idx] that
    is older by more than [lcKFDist]; every correspondence
    [(a, i1, b, i2)] it carries pairs a feature that exists at the position
    [i1] of the older keyframe with one that exists at the position [i2]
    of the newest keyframe, and [a] and [b] are the landmark indices of
    these two features at the time of the detection. *)
Theorem detect_loop_edge `{R : PlaceRecognition} `{C : Collaborators}
    mc cfg h kf_prev_idx pose_inc lc_pt_idx lc_ls_idx :
  detect mc cfg h = Some (IsLoop kf_prev_idx pose_inc lc_pt_idx lc_ls_idx) →
  0 ≤ kf_prev_idx < max_kf_idx (the_map h) - lcKFDist mc
  ∧ ∃ kf0 kf1,
      deref (map_keyframes (the_map h)) kf_prev_idx = Some kf0
      ∧ deref (map_keyframes (the_map h)) (max_kf_idx (the_map h)) = Some kf1
      ∧ Forall (pt_correspondence kf0 kf1) lc_pt_idx
      ∧ Forall (ls_correspondence kf0 kf1) lc_ls_idx.
Proof.
  unfold detect. intros Hrun.
  apply bind_Some in Hrun as ([b p] & Hcand & Hrun). simpl in Hrun.
  destruct b; [|by simplify_eq].
  apply bind_Some in Hrun as (kf0 & H0 & Hrun).
  apply bind_Some in Hrun as (kf1 & H1 & Hrun).
  apply bind_Some in Hrun as (r & Hlc & Hrun).
  destruct r as [[[pose pt] ls]|]; [|by simplify_eq]. simplify_eq.
  apply lookForLoopCandidates_true in Hcand as (Hrange & _ & _).
  split; [done|]. exists kf0, kf1. split; [done|]. split; [done|].
  apply isLoopClosure_stages in Hlc
    as (common_pt & pt_all & common_ls & ls_all & Hpt & Hls & _ & _ & Hres).
  match type of Hres with (if ?c then _ else _) =>
    destruct c; [|discriminate Hres] end.
  destruct (Hres _ _ _ eq_refl) as [Hsub_pt Hsub_ls].
  rewrite Forall_forall in Hpt, Hls. split.
  - eapply Forall_impl; [exact Hsub_pt|]. intros e He. by apply Hpt.
  - eapply Forall_impl; [exact Hsub_ls|]. intros e He. by apply Hls.
Qed.

(** With only points in use, the keyframe 4 of [five_kf_map] closes a loop
    with the keyframe 1; the edge carries the match of their two
    features. *)
Lemma detect_loop_edge_witness :
  0 ≤ 1 < max_kf_idx (the_map (handler_of five_kf_map)) - lcKFDist mc_points
  ∧ ∃ kf0 kf1,
      deref (map_keyframes (the_map (handler_of five_kf_map))) 1 = Some kf0
      ∧ deref (map_keyframes (the_map (handler_of five_kf_map)))
          (max_kf_idx (the_map (handler_of five_kf_map))) = Some kf1
      ∧ Forall (pt_correspondence kf0 kf1) [(-1, 0, -1, 0)]
      ∧ Forall (ls_correspondence kf0 kf1) [].
Proof.
  apply (detect_loop_edge (R:=plain_recognition) (C:=plain_collaborators)
           mc_points cfg0 (handler_of five_kf_map) 1 []).
  reflexivity.
Defined.
